(** * The regex-based code highlighter of [src/components/CodeBlock.tsx]

    The component's [highlightCode] escapes the six markup characters of a
    code sample and then runs nine [String.prototype.replace] calls, each with
    a global regular expression, over the whole string.  This development
    embeds the strings (as lists of UTF-16 code units), the regular
    expressions (as syntax trees interpreted by a backtracking matcher in
    continuation-passing style), the replacement loop and the pipeline, and
    proves properties of the pipeline.

    Around the highlighter it embeds the rest of the component (the gutter
    of line numbers, the copy button), the readers of the pattern table of
    [src/lib/patterns-data.ts] with the pages and cards that call them, and
    the routing of the worker of [src/worker-adapter.js]. *)

From Stdlib Require Import String Ascii.
From Stdlib Require Import List NArith Bool Arith Lia Permutation.
Import ListNotations.

(** ** Strings *)

(** A JavaScript string is a sequence of 16-bit code units; no property
    below depends on the upper bound, so a unit is any [N]. *)
Definition char := N.
Bind Scope N_scope with char.
Definition str := list char.

(** Code units of a string literal of the source. *)
Definition u (s : string) : str := map N_of_ascii (list_ascii_of_string s).

Definition c_amp : char := 38%N.
Definition c_lt : char := 60%N.
Definition c_gt : char := 62%N.
Definition c_dquote : char := 34%N.
Definition c_squote : char := 39%N.
Definition c_slash : char := 47%N.
Definition c_backtick : char := 96%N.
Definition c_dollar : char := 36%N.
Definition c_at : char := 64%N.
Definition c_lparen : char := 40%N.
Definition c_star : char := 42%N.
Definition c_underscore : char := 95%N.
Definition c_newline : char := 10%N.

Definition str_eqb (a b : str) : bool :=
  if list_eq_dec N.eq_dec a b then true else false.

(** Neither of the two angle brackets. *)
Definition plain (c : char) : bool := negb (c =? c_lt)%N && negb (c =? c_gt)%N.

(** [x] is not the code unit [c]. *)
Definition not_char (c x : char) : bool := negb (x =? c)%N.

(** ** Regular expressions *)

Module Regex.

(** Members of a character class [[...]]. *)
Inductive citem :=
| CChar (c : char)
| CRange (lo hi : char)
| CSpace          (* \s *)
| CNotSpace       (* \S *)
| CDigit          (* \d *)
| CWord.          (* \w *)

(** What consumes exactly one code unit. *)
Inductive atom :=
| AChar (c : char)
| AClass (negated : bool) (items : list citem)
| ADot.           (* . *)

(** The patterns of the source only ever quantify a single atom, and none of
    them has more than one capturing group. *)
Inductive regex :=
| Eps
| At (a : atom)
| Seq (r1 r2 : regex)
| Alt (r1 r2 : regex)
| Star (greedy : bool) (a : atom)
| Plus (greedy : bool) (a : atom)
| Group (r : regex)
| WordB           (* \b *)
| Eol             (* $ *)
| NegLook (r : regex).  (* (?!r) *)

Definition in_range (lo hi c : char) : bool := (lo <=? c)%N && (c <=? hi)%N.

(** WhiteSpace and LineTerminator code points of ECMAScript. *)
Definition is_space (c : char) : bool :=
  in_range 9 13 c || (c =? 32)%N || (c =? 160)%N || (c =? 5760)%N
  || in_range 8192 8202 c || (c =? 8232)%N || (c =? 8233)%N
  || (c =? 8239)%N || (c =? 8287)%N || (c =? 12288)%N || (c =? 65279)%N.

Definition is_line_terminator (c : char) : bool :=
  (c =? 10)%N || (c =? 13)%N || (c =? 8232)%N || (c =? 8233)%N.

Definition is_digit (c : char) : bool := in_range 48 57 c.

Definition is_word (c : char) : bool :=
  in_range 97 122 c || in_range 65 90 c || in_range 48 57 c || (c =? 95)%N.

Definition citem_matches (i : citem) (c : char) : bool :=
  match i with
  | CChar x => (c =? x)%N
  | CRange lo hi => in_range lo hi c
  | CSpace => is_space c
  | CNotSpace => negb (is_space c)
  | CDigit => is_digit c
  | CWord => is_word c
  end.

Definition atom_matches (a : atom) (c : char) : bool :=
  match a with
  | AChar x => (c =? x)%N
  | AClass neg items => xorb neg (existsb (fun i => citem_matches i c) items)
  | ADot => negb (is_line_terminator c)
  end.

(** The matcher's state: the code unit before the current position (for
    [\b]), the input from the current position on, and capture 1. *)
Record mstate := MState { prev : option char; rest : str; cap1 : option str }.

Definition cont := mstate -> option mstate.

Definition is_word_opt (o : option char) : bool :=
  match o with Some c => is_word c | None => false end.

(** [a*] and [a*?] from the current position: the greedy loop tries the
    longest run first, the lazy one the shortest. *)
Fixpoint star_loop (greedy : bool) (a : atom) (k : cont)
    (p : option char) (s : str) (c : option str) {struct s} : option mstate :=
  match s with
  | x :: s' =>
      if atom_matches a x then
        if greedy then
          match star_loop greedy a k (Some x) s' c with
          | Some r => Some r
          | None => k (MState p s c)
          end
        else
          match k (MState p s c) with
          | Some r => Some r
          | None => star_loop greedy a k (Some x) s' c
          end
      else k (MState p s c)
  | [] => k (MState p s c)
  end.

(** The backtracking matcher: [rmatch ml r k st] tries [r] at [st] and hands
    every way it matches to the continuation [k], in priority order, until
    one succeeds.  [ml] is the regular expression's [m] flag. *)
Fixpoint rmatch (ml : bool) (r : regex) (k : cont) (st : mstate) : option mstate :=
  match r with
  | Eps => k st
  | At a =>
      match rest st with
      | x :: s' =>
          if atom_matches a x then k (MState (Some x) s' (cap1 st)) else None
      | [] => None
      end
  | Seq r1 r2 => rmatch ml r1 (rmatch ml r2 k) st
  | Alt r1 r2 =>
      match rmatch ml r1 k st with
      | Some res => Some res
      | None => rmatch ml r2 k st
      end
  | Star g a => star_loop g a k (prev st) (rest st) (cap1 st)
  | Plus g a =>
      match rest st with
      | x :: s' =>
          if atom_matches a x then star_loop g a k (Some x) s' (cap1 st) else None
      | [] => None
      end
  | Group r1 =>
      rmatch ml r1
        (fun st' =>
           k (MState (prev st') (rest st')
                (Some (firstn (length (rest st) - length (rest st')) (rest st)))))
        st
  | WordB =>
      if xorb (is_word_opt (prev st)) (is_word_opt (hd_error (rest st)))
      then k st else None
  | Eol =>
      match rest st with
      | [] => k st
      | x :: _ => if ml && is_line_terminator x then k st else None
      end
  | NegLook r1 =>
      match rmatch ml r1 Some st with
      | Some _ => None
      | None => k st
      end
  end.

(** A regular expression object; every one in the source carries [g]. *)
Record RegExp := mkRegExp { source : regex; multiline : bool }.

(** One attempt at one position: the length of the match and capture 1. *)
Definition exec_at (re : RegExp) (p : option char) (s : str)
  : option (nat * option str) :=
  match rmatch (multiline re) (source re) Some (MState p s None) with
  | Some st' => Some (length s - length (rest st'), cap1 st')
  | None => None
  end.

(** The input cut by the successive matches of a global regular expression:
    code units that are copied, and matches. *)
Inductive seg :=
| Copy (c : char)
| Hit (matched : str) (g1 : option str).

(** The loop of [RegExp.prototype[Symbol.replace]] for a [g] expression:
    try at the current position; on a match record it and go on behind it
    (one unit further when the match is empty); otherwise step one unit.
    [skip] counts the units of the last match still to pass. *)
Fixpoint scan (re : RegExp) (p : option char) (s : str) (skip : nat)
    {struct s} : list seg :=
  match skip with
  | S k =>
      match s with
      | [] => []
      | c :: s' => scan re (Some c) s' k
      end
  | O =>
      match exec_at re p s with
      | Some (n, g) =>
          Hit (firstn n s) g ::
          match s with
          | [] => []
          | c :: s' =>
              match n with
              | O => Copy c :: scan re (Some c) s' 0
              | S n' => scan re (Some c) s' n'
              end
          end
      | None =>
          match s with
          | [] => []
          | c :: s' => Copy c :: scan re (Some c) s' 0
          end
      end
  end.

Definition render (f : str -> option str -> str) (sg : seg) : str :=
  match sg with
  | Copy c => [c]
  | Hit m g => f m g
  end.

(** [s.replace(re, f)] with a replacer function. *)
Definition replace_fn (re : RegExp) (f : str -> option str -> str) (s : str) : str :=
  flat_map (render f) (scan re None s 0).

(** GetSubstitution for a template: [$$] is a dollar sign, [$&] the match,
    [$1] capture 1 (empty when the group took no part); with one capturing
    group [$0] and [$2] to [$9] stay as they are.  The sequences for the
    text before and behind the match, which no template of the source
    holds, are not interpreted. *)
Fixpoint expand (tpl : str) (matched : str) (g1 : option str) : str :=
  match tpl with
  | [] => []
  | c :: t =>
      if (c =? c_dollar)%N then
        match t with
        | d :: t' =>
            if (d =? c_dollar)%N then c_dollar :: expand t' matched g1
            else if (d =? 38)%N then matched ++ expand t' matched g1
            else if (d =? 49)%N then
              match g1 with
              | Some w => w ++ expand t' matched g1
              | None => expand t' matched g1
              end
            else c :: expand t matched g1
        | [] => [c]
        end
      else c :: expand t matched g1
  end.

(** [s.replace(re, template)]. *)
Definition replace (re : RegExp) (tpl : str) (s : str) : str :=
  replace_fn re (expand tpl) s.

(** A literal word, and [words.join('|')] inside a pattern. *)
Fixpoint lit (w : str) : regex :=
  match w with
  | [] => Eps
  | [c] => At (AChar c)
  | c :: w' => Seq (At (AChar c)) (lit w')
  end.

Fixpoint alt_join (rs : list regex) : regex :=
  match rs with
  | [] => Eps
  | [r] => r
  | r :: rs' => Alt r (alt_join rs')
  end.

End Regex.

Import Regex.

Declare Scope re_scope.
Delimit Scope re_scope with re.
Infix ";;" := Seq (at level 61, right associativity) : re_scope.

(** ** The component *)

Module CodeBlock.

Definition htmlEntities : list (str * str) :=
  [ (u "&", u "&amp;");
    (u "<", u "&lt;");
    (u ">", u "&gt;");
    ([c_dquote], u "&quot;");
    (u "'", u "&#x27;");
    (u "/", u "&#x2F;") ].

(** Property lookup [obj[key]] on an object literal; a missing key reads
    [undefined]. *)
Fixpoint lookup (key : str) (obj : list (str * str)) : option str :=
  match obj with
  | [] => None
  | (k, v) :: obj' => if str_eqb key k then Some v else lookup key obj'
  end.

(** A replacer's result is converted to a string. *)
Definition to_string (v : option str) : str :=
  match v with
  | Some s => s
  | None => u "undefined"
  end.

(** The class of the six characters [& < > dquote squote /], flag [g]. *)
Definition escapeRegex : RegExp :=
  mkRegExp
    (At (AClass false [CChar c_amp; CChar c_lt; CChar c_gt; CChar c_dquote;
                       CChar c_squote; CChar c_slash]))
    false.

Definition escapeHtml (text : str) : str :=
  replace_fn escapeRegex (fun m _ => to_string (lookup m htmlEntities)) text.

(** [(?![^<]*>)], the guard the later patterns end in. *)
Definition guard : regex :=
  NegLook (Star true (AClass true [CChar c_lt]) ;; At (AChar c_gt))%re.

(** [/(\/\/.*$)/gm] *)
Definition lineCommentRegex : RegExp :=
  mkRegExp
    (Group (At (AChar c_slash) ;; At (AChar c_slash) ;; Star true ADot ;; Eol))%re
    true.

(** [/(\/\*[\s\S]*?\*\/)/g] *)
Definition blockCommentRegex : RegExp :=
  mkRegExp
    (Group (At (AChar c_slash) ;; At (AChar c_star)
            ;; Star false (AClass false [CSpace; CNotSpace])
            ;; At (AChar c_star) ;; At (AChar c_slash)))%re
    false.

(** [/(&quot;[^&]*&quot;|&#x27;[^&]*&#x27;|`[^`]*`)/g] *)
Definition stringRegex : RegExp :=
  mkRegExp
    (Group
       (alt_join
          [ lit (u "&quot;") ;; Star true (AClass true [CChar c_amp]) ;; lit (u "&quot;");
            lit (u "&#x27;") ;; Star true (AClass true [CChar c_amp]) ;; lit (u "&#x27;");
            At (AChar c_backtick) ;; Star true (AClass true [CChar c_backtick])
            ;; At (AChar c_backtick) ]))%re
    false.

Definition keywords : list str :=
  map u
    [ "class"; "constructor"; "extends"; "implements"; "interface"; "function";
      "const"; "let"; "var"; "if"; "else"; "return"; "new"; "this"; "super";
      "import"; "export"; "from"; "async"; "await"; "try"; "catch"; "throw";
      "public"; "private"; "protected"; "static"; "readonly"; "type"; "namespace";
      "enum"; "abstract"; "as"; "break"; "case"; "continue"; "debugger"; "default";
      "delete"; "do"; "finally"; "for"; "in"; "instanceof"; "switch"; "typeof";
      "void"; "while"; "with"; "yield" ]%string.

Definition types : list str :=
  map u
    [ "string"; "number"; "boolean"; "any"; "void"; "never"; "unknown"; "object";
      "symbol"; "null"; "undefined"; "true"; "false"; "Array"; "Object"; "Promise";
      "Map"; "Set"; "Date"; "RegExp"; "Error"; "JSON"; "Math"; "console" ]%string.

(** [new RegExp(`\\b(${words.join('|')})\\b(?![^<]*>)`, 'g')] *)
Definition wordListRegex (words : list str) : RegExp :=
  mkRegExp (WordB ;; Group (alt_join (map lit words)) ;; WordB ;; guard)%re false.

Definition keywordRegex : RegExp := wordListRegex keywords.
Definition typeRegex : RegExp := wordListRegex types.

(** [/\b(\d+)\b(?![^<]*>)/g] *)
Definition numberRegex : RegExp :=
  mkRegExp (WordB ;; Group (Plus true (AClass false [CDigit])) ;; WordB ;; guard)%re
    false.

(** [[a-zA-Z_$]] and [[a-zA-Z0-9_$]] *)
Definition identStart : atom :=
  AClass false [CRange 97 122; CRange 65 90; CChar c_underscore; CChar c_dollar].
Definition identPart : atom :=
  AClass false [CRange 97 122; CRange 65 90; CRange 48 57;
                CChar c_underscore; CChar c_dollar].

(** [\b], group 1 = [identStart identPart*], [\s*], [\(], the guard; flag [g]. *)
Definition functionRegex : RegExp :=
  mkRegExp
    (WordB ;; Group (At identStart ;; Star true identPart)
     ;; Star true (AClass false [CSpace]) ;; At (AChar c_lparen) ;; guard)%re
    false.

(** [\b], group 1 = [[A-Z] identPart*], [\b], the guard; flag [g]. *)
Definition classRegex : RegExp :=
  mkRegExp
    (WordB ;; Group (At (AClass false [CRange 65 90]) ;; Star true identPart)
     ;; WordB ;; guard)%re
    false.

(** Group 1 = [@ identStart identPart*], the guard; flag [g]. *)
Definition decoratorRegex : RegExp :=
  mkRegExp
    (Group (At (AChar c_at) ;; At identStart ;; Star true identPart) ;; guard)%re
    false.

(** The replacement templates: an opening span tag whose class attribute is
    [cls], then [$1], the closing tag and [tail]. *)
Definition spanTemplate (cls : string) (tail : string) : str :=
  u "<span class=" ++ c_dquote :: u cls ++ c_dquote :: u ">$1</span>" ++ u tail.

Definition highlightCode (code : str) : str :=
  let highlighted := escapeHtml code in
  let highlighted :=
    replace lineCommentRegex (spanTemplate "text-gray-500 italic" "") highlighted in
  let highlighted :=
    replace blockCommentRegex (spanTemplate "text-gray-500 italic" "") highlighted in
  let highlighted :=
    replace stringRegex (spanTemplate "text-green-400" "") highlighted in
  let highlighted :=
    replace keywordRegex (spanTemplate "text-purple-400" "") highlighted in
  let highlighted :=
    replace typeRegex (spanTemplate "text-cyan-400" "") highlighted in
  let highlighted :=
    replace numberRegex (spanTemplate "text-orange-400" "") highlighted in
  let highlighted :=
    replace functionRegex (spanTemplate "text-yellow-400" "(") highlighted in
  let highlighted :=
    replace classRegex (spanTemplate "text-blue-400" "") highlighted in
  let highlighted :=
    replace decoratorRegex (spanTemplate "text-pink-400" "") highlighted in
  highlighted.

End CodeBlock.

Import CodeBlock.

(** ** What a match is *)

Module Semantics.

(** The code unit before the position reached after reading [w]. *)
Fixpoint lastc (p : option char) (w : str) : option char :=
  match w with
  | [] => p
  | x :: w' => lastc (Some x) w'
  end.

Definition at_eol (ml : bool) (s : str) : bool :=
  match s with
  | [] => true
  | x :: _ => ml && is_line_terminator x
  end.

(** [Sem ml r p w s c c']: preceded by [p] and followed by [s], the
    expression [r] can match the word [w], taking capture 1 from [c] to [c'].
    A negative lookahead holds where the matcher finds no match of its body. *)
Fixpoint Sem (ml : bool) (r : regex) (p : option char) (w s : str)
    (c c' : option str) : Prop :=
  match r with
  | Eps => w = [] /\ c' = c
  | At a => exists x, w = [x] /\ atom_matches a x = true /\ c' = c
  | Seq r1 r2 =>
      exists w1 w2 c1,
        w = w1 ++ w2 /\ Sem ml r1 p w1 (w2 ++ s) c c1
        /\ Sem ml r2 (lastc p w1) w2 s c1 c'
  | Alt r1 r2 => Sem ml r1 p w s c c' \/ Sem ml r2 p w s c c'
  | Star _ a => forallb (atom_matches a) w = true /\ c' = c
  | Plus _ a => w <> [] /\ forallb (atom_matches a) w = true /\ c' = c
  | Group r1 => exists c1, Sem ml r1 p w s c c1 /\ c' = Some w
  | WordB =>
      w = [] /\ c' = c
      /\ xorb (is_word_opt p) (is_word_opt (hd_error s)) = true
  | Eol => w = [] /\ c' = c /\ at_eol ml s = true
  | NegLook r1 =>
      w = [] /\ c' = c /\ rmatch ml r1 Some (MState p s c) = None
  end.

(** No atom of [r] outside a lookahead accepts the code unit [bad]. *)
Fixpoint avoids (bad : char) (r : regex) : bool :=
  match r with
  | Eps | WordB | Eol | NegLook _ => true
  | At a | Star _ a | Plus _ a => negb (atom_matches a bad)
  | Seq r1 r2 | Alt r1 r2 => avoids bad r1 && avoids bad r2
  | Group r1 => avoids bad r1
  end.

(** A lower bound on the length of a match. *)
Fixpoint min_len (r : regex) : nat :=
  match r with
  | Eps | WordB | Eol | NegLook _ | Star _ _ => 0
  | At _ | Plus _ _ => 1
  | Seq r1 r2 => min_len r1 + min_len r2
  | Alt r1 r2 => Nat.min (min_len r1) (min_len r2)
  | Group r1 => min_len r1
  end.

(** What the guard [(?![^<]*>)] decides: the next angle bracket, if any, is
    not a closing one. *)
Fixpoint guard_clear (s : str) : bool :=
  match s with
  | [] => true
  | x :: s' =>
      if (x =? c_lt)%N then true
      else if (x =? c_gt)%N then false
      else guard_clear s'
  end.

(** What the guard of the specification decides: the next tag, if any,
    is a closing one. *)
Fixpoint closes_next (s : str) : bool :=
  match s with
  | [] => false
  | x :: s' =>
      if (x =? c_lt)%N then
        match s' with
        | y :: _ => (y =? c_slash)%N
        | [] => false
        end
      else closes_next s'
  end.

End Semantics.

Import Semantics.

(** Every atom of [r] outside a lookahead only accepts code units in [P]. *)
Fixpoint only (P : char -> bool) (r : regex) : Prop :=
  match r with
  | Eps | WordB | Eol | NegLook _ => True
  | At a | Star _ a | Plus _ a =>
      forall x, atom_matches a x = true -> P x = true
  | Seq r1 r2 | Alt r1 r2 => only P r1 /\ only P r2
  | Group r1 => only P r1
  end.

(** A pattern without [\b] does not look behind the current position. *)
Fixpoint no_wordb (r : regex) : bool :=
  match r with
  | WordB => false
  | Seq r1 r2 | Alt r1 r2 => no_wordb r1 && no_wordb r2
  | Group r1 | NegLook r1 => no_wordb r1
  | _ => true
  end.

(** Two results of the matcher that agree on all but the code unit
    before the position, and continuations that do not look at it. *)
Definition same_but_prev (a b : option mstate) : Prop :=
  match a, b with
  | Some x, Some y => rest x = rest y /\ cap1 x = cap1 y
  | None, None => True
  | _, _ => False
  end.

Definition blind (k k' : cont) : Prop :=
  forall q q' s c, same_but_prev (k (MState q s c)) (k' (MState q' s c)).

(** The source text a segment stands for. *)
Definition src (sg : seg) : str :=
  match sg with
  | Copy c => [c]
  | Hit m _ => m
  end.

(** ** Markup *)

Module Markup.

(** The eight display categories and the class attribute of each. *)
Inductive category :=
| Comment | StringLit | Keyword | TypeName
| Number | FunctionName | ClassName | Annotation.

Definition class_of (c : category) : string :=
  match c with
  | Comment => "text-gray-500 italic"
  | StringLit => "text-green-400"
  | Keyword => "text-purple-400"
  | TypeName => "text-cyan-400"
  | Number => "text-orange-400"
  | FunctionName => "text-yellow-400"
  | ClassName => "text-blue-400"
  | Annotation => "text-pink-400"
  end.

Definition open_tag (c : category) : str :=
  u "<span class=" ++ c_dquote :: u (class_of c) ++ [c_dquote; c_gt].

Definition close_tag : str := u "</span>".

(** Markup read as a sequence of text units and tags. *)
Inductive token :=
| TText (c : char)
| TOpen (cat : category)
| TClose.

Definition render_token (t : token) : str :=
  match t with
  | TText c => [c]
  | TOpen cat => open_tag cat
  | TClose => close_tag
  end.

Definition markup (toks : list token) : str := flat_map render_token toks.

Definition is_text (t : token) : bool :=
  match t with TText _ => true | _ => false end.

(** No text unit is an angle bracket: every [<] and [>] of the rendering
    belongs to a tag. *)
Definition text_ok (toks : list token) : bool :=
  forallb (fun t => match t with TText c => plain c | _ => true end) toks.

Definition tagless (toks : list token) : bool := forallb is_text toks.

Fixpoint balanced_from (depth : nat) (toks : list token) : bool :=
  match toks with
  | [] => Nat.eqb depth 0
  | TText _ :: ts => balanced_from depth ts
  | TOpen _ :: ts => balanced_from (S depth) ts
  | TClose :: ts =>
      match depth with
      | O => false
      | S d => balanced_from d ts
      end
  end.

Definition balanced (toks : list token) : bool := balanced_from 0 toks.

(** The text between the tags. *)
Fixpoint text_of (toks : list token) : str :=
  match toks with
  | [] => []
  | TText c :: ts => c :: text_of ts
  | _ :: ts => text_of ts
  end.

(** [Retag cat toks toks']: [toks'] is [toks] with some runs of text put
    inside a span of category [cat]; white space between the wrapped part
    and what follows it in the run may be lost.  Every tag of [toks] is in
    [toks'], unchanged and in order. *)
Inductive Retag (cat : category) : list token -> list token -> Prop :=
| Retag_nil : Retag cat [] []
| Retag_keep t toks toks' :
    Retag cat toks toks' -> Retag cat (t :: toks) (t :: toks')
| Retag_wrap gw ws e toks toks' :
    gw <> [] ->
    forallb is_space ws = true ->
    Retag cat toks toks' ->
    Retag cat (map TText (gw ++ ws ++ e) ++ toks)
      (TOpen cat :: map TText gw ++ TClose :: map TText e ++ toks').

(** [despaced a b]: [b] is [a] with some white-space units left out. *)
Inductive despaced : str -> str -> Prop :=
| despaced_nil : despaced [] []
| despaced_keep x a b : despaced a b -> despaced (x :: a) (x :: b)
| despaced_drop x a b :
    is_space x = true -> despaced a b -> despaced (x :: a) b.

(** [Rewrap lossy cat toks toks']: as [Retag], and in addition a wrapped
    run loses white space only when [lossy] is set, and then only white
    space that stands directly before an opening parenthesis. *)
Inductive Rewrap (lossy : bool) (cat : category)
  : list token -> list token -> Prop :=
| Rewrap_nil : Rewrap lossy cat [] []
| Rewrap_keep t toks toks' :
    Rewrap lossy cat toks toks' -> Rewrap lossy cat (t :: toks) (t :: toks')
| Rewrap_wrap gw ws e toks toks' :
    gw <> [] ->
    forallb is_space ws = true ->
    ws = [] \/ (lossy = true /\ exists e', e = c_lparen :: e') ->
    Rewrap lossy cat toks toks' ->
    Rewrap lossy cat (map TText (gw ++ ws ++ e) ++ toks)
      (TOpen cat :: map TText gw ++ TClose :: map TText e ++ toks').

(** [lost_before_paren a b]: [b] is [a] without some runs of white space
    that stand directly before an opening parenthesis. *)
Inductive lost_before_paren : str -> str -> Prop :=
| lost_nil : lost_before_paren [] []
| lost_keep x a b : lost_before_paren a b -> lost_before_paren (x :: a) (x :: b)
| lost_drop ws a b :
    ws <> [] -> forallb is_space ws = true ->
    lost_before_paren a b ->
    lost_before_paren (ws ++ c_lparen :: a) (c_lparen :: b).

(** No opening parenthesis of the text stands directly behind white
    space ([after_space]: the code unit before the text is white space). *)
Fixpoint tight_parens (after_space : bool) (s : str) : bool :=
  match s with
  | [] => true
  | x :: s' =>
      negb (after_space && (x =? c_lparen)%N) && tight_parens (is_space x) s'
  end.

(** No span is opened inside a span, [depth] spans being open where the
    text begins: an opening angle bracket before a slash ends a span, any
    other one begins a span. *)
Fixpoint flat_from (depth : nat) (s : str) : bool :=
  match s with
  | [] => true
  | x :: s' =>
      if (x =? c_lt)%N then
        match s' with
        | y :: _ =>
            if (y =? c_slash)%N then flat_from (pred depth) s'
            else Nat.eqb depth 0 && flat_from (S depth) s'
        | [] => true
        end
      else flat_from depth s'
  end.

(** Markup without a span inside a span. *)
Definition flat (s : str) : bool := flat_from 0 s.

End Markup.

Import Markup.

(** Well-formed markup: the rendering of a token sequence whose text has no
    angle bracket and whose tags are balanced. *)
Definition well_formed (s : str) : Prop :=
  exists toks, s = markup toks /\ text_ok toks = true /\ balanced toks = true.

(** ** The escape pass as the specification words it *)

Module Spec.

(** Modelled from the spec: each of the six characters is substituted with
    its escape sequence, every other code unit stays. *)
Definition escape_char (c : char) : str :=
  if (c =? c_amp)%N then u "&amp;"
  else if (c =? c_lt)%N then u "&lt;"
  else if (c =? c_gt)%N then u "&gt;"
  else if (c =? c_dquote)%N then u "&quot;"
  else if (c =? c_squote)%N then u "&#x27;"
  else if (c =? c_slash)%N then u "&#x2F;"
  else [c].

(** Modelled from the spec: the escape pass, character by character. *)
Definition escape (s : str) : str := flat_map escape_char s.

End Spec.

(** ** The substitutions of the source as a list *)

Module Pipeline.

(** One substitution: a global pattern, the template put in place of each
    match, and the category the template's span stands for. *)
Record substitution := Subst {
  sub_regex : RegExp;
  sub_category : category;
  sub_tail : string
}.

Definition sub_template (p : substitution) : str :=
  spanTemplate (class_of (sub_category p)) (sub_tail p).

(** A single substitution applied to the whole string. *)
Definition apply_substitution (acc : str) (p : substitution) : str :=
  replace (sub_regex p) (sub_template p) acc.

(** The nine [replace] calls of [highlightCode] behind the escape, each
    with the pattern and the template of the source, under the name of the
    pass they carry out.  The comments take two calls, every other pass
    one. *)
Definition comment_pass : list substitution :=
  [Subst lineCommentRegex Comment ""; Subst blockCommentRegex Comment ""].
Definition string_pass : list substitution := [Subst stringRegex StringLit ""].
Definition keyword_pass : list substitution := [Subst keywordRegex Keyword ""].
Definition type_pass : list substitution := [Subst typeRegex TypeName ""].
Definition number_pass : list substitution := [Subst numberRegex Number ""].
Definition call_site_pass : list substitution :=
  [Subst functionRegex FunctionName "("].
Definition class_name_pass : list substitution :=
  [Subst classRegex ClassName ""].
Definition annotation_pass : list substitution :=
  [Subst decoratorRegex Annotation ""].

(** The passes that end in the guard. *)
Definition guarded_passes : list substitution :=
  keyword_pass ++ type_pass ++ number_pass ++ call_site_pass
  ++ class_name_pass ++ annotation_pass.

(** The calls in the order [highlightCode] makes them. *)
Definition passes : list substitution :=
  comment_pass ++ string_pass ++ guarded_passes.

(** The character-wise escape followed by the calls of the source, each
    applied to the whole string the one before it returned. *)
Definition highlight (s : str) : str :=
  fold_left apply_substitution passes (Spec.escape s).

End Pipeline.

(** ** The passes as the specification words them *)

Module SpecPasses.

Import Pipeline.

(** Modelled from the spec: the non-overlap guard, a negative lookahead
    that rejects a match followed by a tag-close sequence before the next
    tag-open sequence, so that text inside an emitted span is never
    re-tagged: behind the match, the next tag must not be a closing one. *)
Definition guard : regex :=
  NegLook (Star true (AClass true [CChar c_lt]) ;; At (AChar c_lt)
           ;; At (AChar c_slash))%re.

(** Modelled from the spec: any code unit, line terminators included
    (a comment or a literal can span newlines). *)
Definition any : atom := AClass false [CSpace; CNotSpace].

(** Modelled from the spec: the comment pass tags single-line comments,
    from the two slashes to the end of the line, and block comments,
    non-greedy and spanning newlines.  The pass runs behind the escape, so
    the slashes stand in their escaped form. *)
Definition comment_pattern : RegExp :=
  mkRegExp
    (Group
       (Alt (lit (u "&#x2F;&#x2F;") ;; Star true ADot ;; Eol)
            (lit (u "&#x2F;*") ;; Star false any ;; lit (u "*&#x2F;"))))%re
    true.

(** Modelled from the spec: a quoted literal, from its delimiter [d] to
    the next [d]. *)
Definition quoted_by (d : str) : regex := (lit d ;; Star false any ;; lit d)%re.

(** Modelled from the spec: the string pass tags quoted literals,
    double-quoted and single-quoted (matched against their escaped forms)
    and backtick-delimited. *)
Definition string_pattern : RegExp :=
  mkRegExp
    (Group
       (alt_join
          [quoted_by (u "&quot;"); quoted_by (u "&#x27;"); quoted_by [c_backtick]]))
    false.

(** Modelled from the spec: a fixed vocabulary, matched on whole-word
    boundaries only, and under the guard.  The specification lists no
    vocabulary; the words are those of the source. *)
Definition vocabulary_pattern (words : list str) : RegExp :=
  mkRegExp (WordB ;; Group (alt_join (map lit words)) ;; WordB ;; guard)%re false.

(** Modelled from the spec: the keyword pass, and the pass of the
    built-in type names and reserved literal values. *)
Definition keyword_pattern : RegExp := vocabulary_pattern keywords.
Definition type_pattern : RegExp := vocabulary_pattern types.

(** Modelled from the spec: bare numeric literals, sequences of digits,
    word-bounded, under the guard. *)
Definition number_pattern : RegExp :=
  mkRegExp (WordB ;; Group (Plus true (AClass false [CDigit])) ;; WordB ;; guard)%re
    false.

(** Modelled from the spec: an identifier.  The specification does not
    say what one is made of; the character classes are those of the
    source. *)
Definition identifier : regex := (At identStart ;; Star true identPart)%re.

(** Modelled from the spec: the identifier-call pass tags identifiers
    immediately followed by an opening parenthesis, under the guard; the
    parenthesis itself stays untagged. *)
Definition call_site_pattern : RegExp :=
  mkRegExp (WordB ;; Group identifier ;; At (AChar c_lparen) ;; guard)%re false.

(** Modelled from the spec: identifiers beginning with an upper-case
    letter, under the guard. *)
Definition capitalized_pattern : RegExp :=
  mkRegExp
    (WordB ;; Group (At (AClass false [CRange 65 90]) ;; Star true identPart)
     ;; WordB ;; guard)%re
    false.

(** Modelled from the spec: tokens beginning with [@] followed by an
    identifier, under the guard. *)
Definition annotation_pattern : RegExp :=
  mkRegExp (Group (At (AChar c_at) ;; identifier) ;; guard)%re false.

(** Modelled from the spec: the eight passes behind the escape, in the
    order comments, strings, keywords, types, numbers, call sites, class
    names, annotations; each is a single substitution that puts every
    match in a span of the pass's category. *)
Definition passes : list substitution :=
  [ Subst comment_pattern Comment "";
    Subst string_pattern StringLit "";
    Subst keyword_pattern Keyword "";
    Subst type_pattern TypeName "";
    Subst number_pattern Number "";
    Subst call_site_pattern FunctionName "(";
    Subst capitalized_pattern ClassName "";
    Subst annotation_pattern Annotation "" ].

(** Modelled from the spec: the escape of the six characters first, then
    every pass applied to the whole string produced by the pass before
    it. *)
Definition highlight (s : str) : str :=
  fold_left apply_substitution passes (Spec.escape s).

End SpecPasses.

(** ** The component around the highlighter *)

Module Component.

Record CodeBlockProps := {
  code : str;
  language : option str      (* defaults to 'typescript' *)
}.

(** What a render shows: the language badge, the label of the copy button
    (from the [copied] state), the numbers of the gutter (one per line of
    [code.split('\n')]), and the markup handed to
    [dangerouslySetInnerHTML]. *)
Record Rendered := {
  badge : str;
  copyLabel : str;
  lineNumbers : list nat;
  highlightedCode : str
}.

Definition CodeBlock (props : CodeBlockProps) (copied : bool) : Rendered :=
  {| badge := match language props with Some l => l | None => u "typescript" end;
     copyLabel := if copied then u "Copied!" else u "Copy";
     lineNumbers := seq 1 (S (count_occ N.eq_dec (code props) c_newline));
     highlightedCode := highlightCode (code props) |}.

End Component.

Import Pipeline Component.

(** ** Reading markup back *)

Module Reader.

Fixpoint prefixb (t s : str) : bool :=
  match t, s with
  | [], _ => true
  | x :: t', y :: s' => (x =? y)%N && prefixb t' s'
  | _ :: _, [] => false
  end.

Definition categories : list category :=
  [Comment; StringLit; Keyword; TypeName; Number; FunctionName; ClassName;
   Annotation].

(** The nine tags a pass can insert. *)
Definition tag_tokens : list (str * token) :=
  (close_tag, TClose) :: map (fun c => (open_tag c, TOpen c)) categories.

Definition tag_at (s : str) : option (str * token) :=
  find (fun e => prefixb (fst e) s) tag_tokens.

(** Markup cut into text units and inserted tags; an angle bracket that
    does not belong to one of the nine tags makes it fail. *)
Fixpoint tokenize_from (skip : nat) (s : str) : option (list token) :=
  match s with
  | [] => Some []
  | c :: s' =>
      match skip with
      | S k => tokenize_from k s'
      | O =>
          match tag_at s with
          | Some (t, tok) =>
              option_map (cons tok) (tokenize_from (length t - 1) s')
          | None =>
              if plain c then option_map (cons (TText c)) (tokenize_from 0 s')
              else None
          end
      end
  end.

Definition tokenize (s : str) : option (list token) := tokenize_from 0 s.

(** Modelled from the spec: stripping all emitted tags from highlighted
    markup (the repository has no such function). *)
Definition strip_tags (s : str) : option str := option_map text_of (tokenize s).

Definition entities : list (str * char) :=
  [ (u "&amp;", c_amp); (u "&lt;", c_lt); (u "&gt;", c_gt);
    (u "&quot;", c_dquote); (u "&#x27;", c_squote); (u "&#x2F;", c_slash) ].

(** Modelled from the spec: the inverse decode of the six escape sequences,
    in one pass from left to right (the repository has no such function). *)
Fixpoint decode_from (skip : nat) (s : str) : str :=
  match s with
  | [] => []
  | c :: s' =>
      match skip with
      | S k => decode_from k s'
      | O =>
          match find (fun e => prefixb (fst e) s) entities with
          | Some (e, x) => x :: decode_from (length e - 1) s'
          | None => c :: decode_from 0 s'
          end
      end
  end.

Definition decodeHtml (s : str) : str := decode_from 0 s.

(** The categories of the spans around each text unit, innermost first. *)
Fixpoint annotate (stack : list category) (toks : list token)
  : list (char * list category) :=
  match toks with
  | [] => []
  | TText c :: ts => (c, stack) :: annotate stack ts
  | TOpen cat :: ts => annotate (cat :: stack) ts
  | TClose :: ts => annotate (tl stack) ts
  end.

(** The place of a category in the order of the passes. *)
Definition pass_rank (c : category) : nat :=
  match c with
  | Comment => 0
  | StringLit => 1
  | Keyword => 2
  | TypeName => 3
  | Number => 4
  | FunctionName => 5
  | ClassName => 6
  | Annotation => 7
  end.

(** Every category of the stack comes before place [r] ([strict]) or not
    behind it. *)
Definition ranks_within (strict : bool) (r : nat) (stack : list category) : bool :=
  forallb (fun c => if strict then Nat.ltb (pass_rank c) r
                    else Nat.leb (pass_rank c) r) stack.

(** A stack of spans, innermost first, in which every span lies inside
    spans of earlier passes only. *)
Fixpoint in_pass_order (stack : list category) : bool :=
  match stack with
  | [] => true
  | c :: outer => ranks_within true (pass_rank c) outer && in_pass_order outer
  end.

End Reader.

Import Reader.

(** ** Predicates on inputs and on passes *)

(** One of the six characters [escapeHtml] replaces. *)
Definition is_special (c : char) : bool :=
  atom_matches (AClass false [CChar c_amp; CChar c_lt; CChar c_gt; CChar c_dquote;
                              CChar c_squote; CChar c_slash]) c.

(** Neither an angle bracket nor a slash: escaped text has no other
    code unit. *)
Definition inert (c : char) : bool := plain c && negb (c =? c_slash)%N.

(** None of the three quote characters. *)
Definition no_quote (x : char) : bool :=
  negb (x =? c_dquote)%N && negb (x =? c_squote)%N && negb (x =? c_backtick)%N.

(** A quoted literal: its content between two quote characters [q]. *)
Definition quoted (q : char) (body : str) : str := q :: body ++ [q].

(** A literal the string pattern is written for: between backticks any
    content without a backtick, between double or single quotes a content
    without one of the six escaped characters. *)
Definition literal (q : char) (body : str) : bool :=
  if (q =? c_backtick)%N then forallb (not_char c_backtick) body
  else ((q =? c_dquote)%N || (q =? c_squote)%N)
       && forallb (fun c => negb (is_special c)) body.

(** [[A-Z]] and [[a-zA-Z0-9_$]] as predicates. *)
Definition is_upper (c : char) : bool := in_range 65 90 c.
Definition is_ident_part (c : char) : bool := atom_matches identPart c.

(** An identifier of ASCII letters, digits and underscores that begins
    with an upper-case letter. *)
Definition capitalized (ident : str) : bool :=
  match ident with
  | c :: rest => is_upper c && forallb is_word rest
  | [] => false
  end.

(** The text ends where an identifier can begin: it is empty or its last
    code unit is no identifier character. *)
Definition boundary (X : str) : bool :=
  match lastc None X with
  | Some c => negb (is_ident_part c)
  | None => true
  end.

(** The call: the identifier and the parenthesis behind it. *)
Definition call (ident : str) : str := ident ++ [c_lparen].

(** A pattern and template that put group 1 of every match in a span of
    category [cat]; a guarded one ([gd]) moreover only matches plain text
    that is not followed by the end of a tag. *)
Definition wraps (gd : bool) (re : RegExp) (tpl : str) (cat : category) : Prop :=
  forall p w s g,
    Sem (multiline re) (source re) p w s None g ->
    exists gw ws e,
      w = gw ++ ws ++ e /\ gw <> [] /\ forallb is_space ws = true
      /\ expand tpl w g = open_tag cat ++ gw ++ close_tag ++ e
      /\ (gd = true -> forallb plain w = true /\ guard_clear s = true).

(** As [wraps], telling moreover what of a match is lost: nothing, or,
    with [lossy], white space directly before an opening parenthesis. *)
Definition wraps_losing (lossy gd : bool) (re : RegExp) (tpl : str)
    (cat : category) : Prop :=
  forall p w s g,
    Sem (multiline re) (source re) p w s None g ->
    exists gw ws e,
      w = gw ++ ws ++ e /\ gw <> [] /\ forallb is_space ws = true
      /\ expand tpl w g = open_tag cat ++ gw ++ close_tag ++ e
      /\ (gd = true -> forallb plain w = true /\ guard_clear s = true)
      /\ (ws = [] \/ (lossy = true /\ exists e', e = c_lparen :: e')).

(** A pattern and template that put every match, whole, in a span. *)
Definition wraps_whole (re : RegExp) (tpl : str) (cat : category) : Prop :=
  forall p w s g,
    Sem (multiline re) (source re) p w s None g ->
    w <> [] /\ expand tpl w g = open_tag cat ++ w ++ close_tag.

(** The call pattern of the source without its [\s*]: what that pattern
    comes to on text in which no white space stands directly before an
    opening parenthesis. *)
Definition tightCallRegex : RegExp :=
  mkRegExp
    (WordB ;; Group (At identStart ;; Star true identPart)
     ;; At (AChar c_lparen) ;; guard)%re
    false.

(** A pass that leaves every tag of well-formed markup as it is. *)
Definition keeps_tags (cat : category) (pass : str -> str) : Prop :=
  forall toks,
    text_ok toks = true ->
    exists toks', pass (markup toks) = markup toks' /\ Retag cat toks toks'.

(** ** Text without quotes, word by word *)

Module Words.

(** Text cut into words and the code units between them.  A word is a
    maximal run of [\w] units; [cats] are the categories of the spans
    around it, outermost first.  [Deco] is an annotation span around [@]
    and a word. *)
Inductive item :=
| Sep (c : char)
| Word (cats : list category) (w : str)
| Deco (w : str).

Definition closes (cats : list category) : str :=
  flat_map (fun _ => close_tag) cats.

Definition render_item (it : item) : str :=
  match it with
  | Sep c => [c]
  | Word cats w => flat_map open_tag cats ++ w ++ closes cats
  | Deco w => open_tag Annotation ++ c_at :: w ++ close_tag
  end.

Definition render_items (its : list item) : str := flat_map render_item its.

Fixpoint lex (s : str) : list item :=
  match s with
  | [] => []
  | c :: s' =>
      if is_word c then
        match lex s' with
        | Word [] w :: r => Word [] (c :: w) :: r
        | r => Word [] [c] :: r
        end
      else Sep c :: lex s'
  end.

(** A span of category [cat] inside the spans of every word that [sel]
    selects. *)
Definition tag (sel : str -> bool) (cat : category) (it : item) : item :=
  match it with
  | Word cats w => if sel w then Word (cats ++ [cat]) w else it
  | _ => it
  end.

Definition is_keyword (w : str) : bool := existsb (str_eqb w) keywords.
Definition is_type (w : str) : bool := existsb (str_eqb w) types.
Definition is_number (w : str) : bool := forallb is_digit w.
Definition is_capitalized (w : str) : bool :=
  match w with c :: _ => is_upper c | [] => false end.
Definition starts_ident (w : str) : bool :=
  match w with c :: _ => atom_matches identStart c | [] => false end.

(** The spans a word gets for what it is: keyword, built-in type,
    number. *)
Definition vocabulary_spans (w : str) : list category :=
  (if is_keyword w then [Keyword] else [])
  ++ (if is_type w then [TypeName] else [])
  ++ (if is_number w then [Number] else []).

(** The spans a word can end up in, from the outside in: those of the
    vocabulary, the function-name span ([fn]) only where there is none of
    them, and the class-name span of a capitalized word.  An annotation
    holds a word that would have no span. *)
Definition nested_as_passes (it : item) : Prop :=
  match it with
  | Sep _ => True
  | Word cats w =>
      exists fn : bool,
        cats = vocabulary_spans w
               ++ (if fn then [FunctionName] else [])
               ++ (if is_capitalized w then [ClassName] else [])
        /\ (fn = true -> vocabulary_spans w = [] /\ starts_ident w = true)
  | Deco w =>
      vocabulary_spans w = [] /\ is_capitalized w = false
      /\ starts_ident w = true
  end.

(** Only white space, if anything, stands before the next opening
    parenthesis. *)
Fixpoint call_follows (its : list item) : bool :=
  match its with
  | Sep c :: r => (c =? c_lparen)%N || (is_space c && call_follows r)
  | _ => false
  end.

(** A word without a span that a parenthesis follows gets the
    function-name span, and the white space between the two goes
    ([dropping] is on while it is passed over). *)
Fixpoint call_items (dropping : bool) (its : list item) : list item :=
  match its with
  | [] => []
  | Sep c :: r =>
      if dropping && is_space c then call_items true r
      else Sep c :: call_items false r
  | Word cats w :: r =>
      match cats with
      | [] =>
          if starts_ident w && call_follows r
          then Word [FunctionName] w :: call_items true r
          else Word [] w :: call_items false r
      | _ :: _ => Word cats w :: call_items false r
      end
  | Deco w :: r => Deco w :: call_items false r
  end.

(** An [@] and the word without a span behind it become an annotation. *)
Fixpoint deco_items (its : list item) : list item :=
  match its with
  | [] => []
  | Sep c :: r =>
      match r with
      | Word [] w :: r' =>
          if (c =? c_at)%N && starts_ident w then Deco w :: deco_items r'
          else Sep c :: deco_items r
      | _ => Sep c :: deco_items r
      end
  | it :: r => it :: deco_items r
  end.

(** What the six guarded passes make of the words, pass by pass. *)
Definition classify (its : list item) : list item :=
  deco_items
    (map (tag is_capitalized ClassName)
       (call_items false
          (map (tag is_number Number)
             (map (tag is_type TypeName)
                (map (tag is_keyword Keyword) its))))).

(** Items as the passes meet them: a separator is no identifier character
    and no angle bracket, a word is a run of [\w] units, and no word
    follows a word directly. *)
Fixpoint items_ok (after_word : bool) (its : list item) : bool :=
  match its with
  | [] => true
  | Sep c :: r => negb (is_ident_part c) && plain c && items_ok false r
  | Word cats w :: r =>
      negb after_word && negb (Nat.eqb (length w) 0) && forallb is_word w
      && items_ok true r
  | Deco _ :: _ => false
  end.

(** The text does not go on with an identifier character. *)
Definition ends_word (s : str) : bool :=
  match s with
  | x :: _ => negb (is_ident_part x)
  | [] => true
  end.

(** Neither a quote character nor a dollar sign. *)
Definition quote_free (c : char) : bool := no_quote c && negb (c =? c_dollar)%N.

End Words.

(** ** String methods used outside the highlighter *)

Module JSString.

(** [s.charAt(0)]: the first code unit as a string, empty for the empty
    string; [s.slice(1)]: the string without its first code unit. *)
Definition charAt0 (s : str) : str := firstn 1 s.
Definition slice1 (s : str) : str := skipn 1 s.

(** [toUpperCase] on the letters [a] to [z]; the source applies it to the
    first letter of a category name only. *)
Definition upper_unit (c : char) : char :=
  if in_range 97 122 c then (c - 32)%N else c.
Definition toUpperCase (s : str) : str := map upper_unit s.

Definition startsWith (t s : str) : bool := prefixb t s.

Fixpoint includes (t s : str) : bool :=
  prefixb t s || match s with [] => false | _ :: s' => includes t s' end.

Definition endsWith (t s : str) : bool := prefixb (rev t) (rev s).

(** [s.split(sep)] for a separator of one code unit: the pieces between
    its occurrences; the empty string gives one empty piece. *)
Fixpoint split (sep : char) (s : str) : list str :=
  match s with
  | [] => [[]]
  | c :: s' =>
      if (c =? sep)%N then [] :: split sep s'
      else
        match split sep s' with
        | piece :: pieces => (c :: piece) :: pieces
        | [] => [[c]]
        end
  end.

(** [pieces.join(sep)] *)
Fixpoint join (sep : char) (pieces : list str) : str :=
  match pieces with
  | [] => []
  | [piece] => piece
  | piece :: pieces' => piece ++ sep :: join sep pieces'
  end.

End JSString.

(** ** The gutter and the copy button of the component *)

Module Gutter.

(** The number of newline characters of a text. *)
Definition newlines (s : str) : nat := count_occ N.eq_dec s c_newline.

(** [code.split('\n').map((_, i) => i + 1)]: one number per line. *)
Definition gutter (code : str) : list nat :=
  map (fun i => i + 1) (seq 0 (length (JSString.split c_newline code))).

End Gutter.

Module Clipboard.

(** The state the copy button works on: the [copied] flag of [useState],
    the due times of the pending [setTimeout] callbacks, the system
    clipboard, the lines written by [console.error], and the clock (ms). *)
Record state := {
  copied : bool;
  timers : list nat;
  clipboard : option str;
  errors : list str;
  now : nat
}.

Definition init : state :=
  {| copied := false; timers := []; clipboard := None; errors := []; now := 0 |}.

(** What can happen: a click whose [writeText] is granted or rejected, and
    time passing, in which the callbacks that fall due run. *)
Inductive event :=
| Click (granted : bool)
| Elapse (ms : nat).

(** [copyToClipboard]: on success the flag is set and a reset is scheduled
    2000 ms later; on failure only the error is logged.  A due callback
    runs [setCopied(false)]. *)
Definition step (code : str) (st : state) (e : event) : state :=
  match e with
  | Click true =>
      {| copied := true;
         timers := timers st ++ [now st + 2000];
         clipboard := Some code;
         errors := errors st;
         now := now st |}
  | Click false =>
      {| copied := copied st;
         timers := timers st;
         clipboard := clipboard st;
         errors := errors st ++ [u "Failed to copy code:"];
         now := now st |}
  | Elapse ms =>
      let t := now st + ms in
      {| copied := if existsb (fun d => d <=? t) (timers st) then false
                   else copied st;
         timers := filter (fun d => negb (d <=? t)) (timers st);
         clipboard := clipboard st;
         errors := errors st;
         now := t |}
  end.

Definition run (code : str) (trace : list event) : state :=
  fold_left (step code) trace init.

(** The time that passes during a trace, and whether it holds a granted
    click. *)
Definition elapsed (trace : list event) : nat :=
  fold_right (fun e n => match e with Elapse ms => ms + n | _ => n end) 0 trace.

Definition granted_click (e : event) : bool :=
  match e with Click true => true | _ => false end.

End Clipboard.

(** ** The pattern table and its readers ([src/lib/patterns-data.ts]) *)

Module PatternsData.

Inductive Category := creational | structural | behavioral.

(** The string a category is at run time. *)
Definition category_name (c : Category) : str :=
  match c with
  | creational => u "creational"
  | structural => u "structural"
  | behavioral => u "behavioral"
  end.

Definition Category_eqb (a b : Category) : bool :=
  str_eqb (category_name a) (category_name b).

Record Pattern := {
  id : str;
  name : str;
  category : Category;
  description : str;
  benefits : str;
  codeExample : str
}.

(** The table [patterns] is passed to its readers; of its twelve entries
    the development uses the columns [id], [name] and [category], in the
    order of the source. *)
Definition columns (patterns : list Pattern) : list (str * str * Category) :=
  map (fun p => (id p, name p, category p)) patterns.

Definition patterns_columns : list (str * str * Category) :=
  [ (u "singleton", u "Singleton", creational);
    (u "factory", u "Factory", creational);
    (u "builder", u "Builder", creational);
    (u "prototype", u "Prototype", creational);
    (u "adapter", u "Adapter", structural);
    (u "decorator", u "Decorator", structural);
    (u "facade", u "Facade", structural);
    (u "proxy", u "Proxy", structural);
    (u "observer", u "Observer", behavioral);
    (u "mediator", u "Mediator", behavioral);
    (u "strategy", u "Strategy", behavioral);
    (u "command", u "Command", behavioral) ].

(** A table with the columns of the source and texts of its own, to
    instantiate what is proved of every such table. *)
Definition sample_table : list Pattern :=
  map (fun c =>
         {| id := fst (fst c); name := snd (fst c); category := snd c;
            description := snd (fst c) ++ u " in short";
            benefits := u "Why " ++ snd (fst c);
            codeExample := u "const x = new " ++ snd (fst c) ++ u "();" |})
    patterns_columns.

(** [patterns.filter(p => p.category === category)] *)
Definition getPatternsByCategory (patterns : list Pattern) (c : Category)
  : list Pattern :=
  filter (fun p => Category_eqb (category p) c) patterns.

(** [patterns.find(p => p.id === id)]; [None] is [undefined]. *)
Definition getPatternById (patterns : list Pattern) (i : str) : option Pattern :=
  find (fun p => str_eqb (id p) i) patterns.

End PatternsData.

(** ** The card, the page of a pattern and the home page *)

Module PatternCard.

Import PatternsData JSString.

(** The [switch] on the category string, with its [default]. *)
Definition getCategoryColor (cat : str) : str :=
  if str_eqb cat (u "creational") then
    u "bg-green-900/20 text-green-400 border-green-800"
  else if str_eqb cat (u "structural") then
    u "bg-blue-900/20 text-blue-400 border-blue-800"
  else if str_eqb cat (u "behavioral") then
    u "bg-purple-900/20 text-purple-400 border-purple-800"
  else u "bg-gray-900/20 text-gray-400 border-gray-800".

(** [category.charAt(0).toUpperCase() + category.slice(1)] *)
Definition getCategoryLabel (cat : str) : str :=
  toUpperCase (charAt0 cat) ++ slice1 cat.

(** What a card shows: the link it is, its heading, the classes and the
    label of its badge, and its text. *)
Record Card := {
  href : str;
  heading : str;
  badgeClass : str;
  badgeLabel : str;
  text : str
}.

Definition PatternCard (pattern : Pattern) : Card :=
  {| href := u "/patterns/" ++ id pattern;
     heading := name pattern;
     badgeClass :=
       u "text-xs px-3 py-1 rounded-full border "
       ++ getCategoryColor (category_name (category pattern));
     badgeLabel := getCategoryLabel (category_name (category pattern));
     text := description pattern |}.

End PatternCard.

Module PatternPage.

Import PatternsData JSString.

Record Params := { id : str }.

Definition generateStaticParams : list Params :=
  let patterns :=
    map u
      [ "singleton"; "factory"; "builder"; "prototype";
        "adapter"; "decorator"; "facade"; "proxy";
        "observer"; "mediator"; "strategy"; "command" ]%string in
  map (fun i => {| id := i |}) patterns.

Definition getCategoryColor (cat : str) : str :=
  if str_eqb cat (u "creational") then u "text-green-400"
  else if str_eqb cat (u "structural") then u "text-blue-400"
  else if str_eqb cat (u "behavioral") then u "text-purple-400"
  else u "text-gray-400".

Definition getCategoryLabel (cat : str) : str :=
  toUpperCase (charAt0 cat) ++ slice1 cat.

(** The colour classes of the badge in the page's header, a chain of two
    conditionals on the category. *)
Definition headerBadgeColor (cat : str) : str :=
  if str_eqb cat (u "creational") then
    u "bg-green-900/20 text-green-400 border-green-800"
  else if str_eqb cat (u "structural") then
    u "bg-blue-900/20 text-blue-400 border-blue-800"
  else u "bg-purple-900/20 text-purple-400 border-purple-800".

(** [getPatternsByCategory(pattern.category).filter(p => p.id !== pattern.id)] *)
Definition relatedPatterns (patterns : list Pattern) (pattern : Pattern)
  : list Pattern :=
  filter (fun p => negb (str_eqb (PatternsData.id p) (PatternsData.id pattern)))
    (getPatternsByCategory patterns (category pattern)).

(** What the page shows.  The side box of related patterns is there only
    when there is one ([relatedLinks] is then [Some] of the links' targets
    and texts, a text being the name, a space and the arrow U+2192). *)
Record Page := {
  breadcrumb : str;
  breadcrumbClass : str;
  title : str;
  badgeClass : str;
  badgeLabel : str;
  whatIsIt : str;
  whyUseIt : str;
  codeBlock : Component.Rendered;
  useCases : str;
  relatedLinks : option (list (str * str))
}.

(** The page of [params.id]; [None] stands for [notFound()]. *)
Definition PatternPage (patterns : list Pattern) (params : Params)
  : option Page :=
  match getPatternById patterns (id params) with
  | None => None
  | Some pattern =>
      let cat := category_name (category pattern) in
      let related := relatedPatterns patterns pattern in
      Some
        {| breadcrumb := getCategoryLabel cat ++ u " Patterns";
           breadcrumbClass := getCategoryColor cat;
           title := name pattern ++ u " Pattern";
           badgeClass :=
             u "text-sm px-4 py-2 rounded-full border " ++ headerBadgeColor cat;
           badgeLabel := getCategoryLabel cat;
           whatIsIt := description pattern;
           whyUseIt := benefits pattern;
           codeBlock :=
             Component.CodeBlock
               {| code := codeExample pattern; language := None |} false;
           useCases :=
             (if str_eqb cat (u "creational")
              then u "Object creation, instance management" else [])
             ++ (if str_eqb cat (u "structural")
                 then u "Object composition, interface adaptation" else [])
             ++ (if str_eqb cat (u "behavioral")
                 then u "Communication patterns, algorithms" else []);
           relatedLinks :=
             if Nat.ltb 0 (length related) then
               Some (map (fun p => (u "/patterns/" ++ PatternsData.id p,
                                    name p ++ [32; 8594]%N)) related)
             else None |}
  end.

End PatternPage.

Module Home.

Import PatternsData.

(** The three sections of cards, in the order of the page. *)
Definition Home (patterns : list Pattern) : list (str * list PatternCard.Card) :=
  [ (u "Creational Patterns",
     map PatternCard.PatternCard (getPatternsByCategory patterns creational));
    (u "Structural Patterns",
     map PatternCard.PatternCard (getPatternsByCategory patterns structural));
    (u "Behavioral Patterns",
     map PatternCard.PatternCard (getPatternsByCategory patterns behavioral)) ].

End Home.

(** ** The worker ([src/worker-adapter.js], [src/build-worker.js]) *)

Module Worker.

Import JSString.

(** A response as the code builds it: the status (200 where none is
    given), the body and the headers passed to [new Response]. *)
Record Response := { status : nat; body : str; headers : list (str * str) }.

(** The test of the adapter on [url.pathname]; [&&] binds tighter than
    [||]. *)
Definition isStaticAsset (pathname : str) : bool :=
  startsWith (u "/_next/") pathname
  || (includes (u ".") pathname && negb (endsWith (u "/") pathname)).

(** The [fetch] of the entry point that [build-worker.js] writes to
    [.worker-next/index.js]. *)
Definition server_fetch (pathname : str) : Response :=
  if str_eqb pathname (u "/") then
    {| status := 200;
       body := u "Welcome to JavaScript Design Patterns";
       headers := [(u "content-type", u "text/html")] |}
  else {| status := 404; body := u "Not found"; headers := [] |}.

(** The adapter's [fetch].  [kv pathname] is what [getAssetFromKV] does
    with the request: [Some] response, or [None] when it throws, which the
    [catch] swallows. *)
Definition fetch (kv : str -> option Response) (pathname : str) : Response :=
  if isStaticAsset pathname then
    match kv pathname with
    | Some r => r
    | None => server_fetch pathname
    end
  else server_fetch pathname.

End Worker.

(** ** Soundness of the matcher *)

Section Soundness.

Variable ml : bool.

Lemma lastc_app p w1 w2 : lastc p (w1 ++ w2) = lastc (lastc p w1) w2.
Proof.
  revert p; induction w1 as [|x w1 IH]; intros p; simpl; auto.
Qed.

Lemma star_loop_sound g a (k : cont) :
  forall s p c res,
    star_loop g a k p s c = Some res ->
    exists w s',
      s = w ++ s' /\ forallb (atom_matches a) w = true
      /\ k (MState (lastc p w) s' c) = Some res.
Proof.
  induction s as [|x s IH]; intros p c res H; simpl in H.
  - exists [], []; auto.
  - destruct (atom_matches a x) eqn:Hx.
    + assert (Hdeep : forall r0, star_loop g a k (Some x) s c = Some r0 ->
                exists w s', x :: s = w ++ s'
                  /\ forallb (atom_matches a) w = true
                  /\ k (MState (lastc p w) s' c) = Some r0).
      { intros r0 Hr. destruct (IH _ _ _ Hr) as (w & s' & -> & Hw & Hk).
        exists (x :: w), s'; simpl; rewrite Hx; auto. }
      assert (Hhere : forall r0, k (MState p (x :: s) c) = Some r0 ->
                exists w s', x :: s = w ++ s'
                  /\ forallb (atom_matches a) w = true
                  /\ k (MState (lastc p w) s' c) = Some r0).
      { intros r0 Hr. exists [], (x :: s); auto. }
      destruct g.
      * destruct (star_loop true a k (Some x) s c) eqn:E.
        -- inversion H; subst; auto.
        -- auto.
      * destruct (k (MState p (x :: s) c)) eqn:E.
        -- inversion H; subst; auto.
        -- auto.
    + exists [], (x :: s); auto.
Qed.

Lemma firstn_consumed (w s' : str) :
  firstn (length (w ++ s') - length s') (w ++ s') = w.
Proof.
  rewrite length_app, Nat.add_sub.
  rewrite firstn_app, Nat.sub_diag, firstn_all; simpl.
  apply app_nil_r.
Qed.

(** Whatever the matcher returns went through a match in the sense of
    [Sem], handed to the continuation at the state behind it. *)
Lemma rmatch_sound r :
  forall (k : cont) p s c res,
    rmatch ml r k (MState p s c) = Some res ->
    exists w s' c',
      s = w ++ s' /\ Sem ml r p w s' c c'
      /\ k (MState (lastc p w) s' c') = Some res.
Proof.
  induction r as [|a|r1 IH1 r2 IH2|r1 IH1 r2 IH2|g a|g a|r1 IH1| | |r1 IH1];
    intros k p s c res H; simpl in H.
  - exists [], s, c; simpl; auto.
  - destruct s as [|x s]; [discriminate|].
    destruct (atom_matches a x) eqn:Hx; [|discriminate].
    exists [x], s, c; simpl; repeat split; eauto.
  - destruct (IH1 _ _ _ _ _ H) as (w1 & s1 & c1 & -> & S1 & K1).
    destruct (IH2 _ _ _ _ _ K1) as (w2 & s2 & c2 & -> & S2 & K2).
    exists (w1 ++ w2), s2, c2; rewrite app_assoc, lastc_app.
    repeat split; auto. simpl. exists w1, w2, c1; auto.
  - destruct (rmatch ml r1 k (MState p s c)) eqn:E.
    + inversion H; subst.
      destruct (IH1 _ _ _ _ _ E) as (w & s' & c' & -> & S1 & K1).
      exists w, s', c'; simpl; auto.
    + destruct (IH2 _ _ _ _ _ H) as (w & s' & c' & -> & S1 & K1).
      exists w, s', c'; simpl; auto.
  - destruct (star_loop_sound _ _ _ _ _ _ _ H) as (w & s' & -> & Hw & Hk).
    exists w, s', c; simpl; auto.
  - destruct s as [|x s]; [discriminate|].
    destruct (atom_matches a x) eqn:Hx; [|discriminate].
    destruct (star_loop_sound _ _ _ _ _ _ _ H) as (w & s' & -> & Hw & Hk).
    exists (x :: w), s', c; simpl; rewrite Hx; repeat split; auto.
    discriminate.
  - destruct (IH1 _ _ _ _ _ H) as (w & s' & c' & -> & S1 & K1).
    simpl in K1. rewrite firstn_consumed in K1.
    exists w, s', (Some w); simpl; repeat split; eauto.
  - destruct (xorb (is_word_opt p) (is_word_opt (hd_error s))) eqn:E;
      [|discriminate].
    exists [], s, c; simpl; auto.
  - exists [], s, c; simpl.
    destruct s as [|x s]; simpl; auto.
    destruct (ml && is_line_terminator x) eqn:E; [auto|discriminate].
  - destruct (rmatch ml r1 Some (MState p s c)) eqn:E; [discriminate|].
    exists [], s, c; simpl; auto.
Qed.

Lemma Sem_avoids bad r :
  avoids bad r = true ->
  forall p w s c c', Sem ml r p w s c c' -> ~ In bad w.
Proof.
  assert (Hall : forall a w, negb (atom_matches a bad) = true ->
            forallb (atom_matches a) w = true -> ~ In bad w).
  { intros a w Ha Hw Hin. rewrite forallb_forall in Hw.
    apply Hw in Hin. rewrite Hin in Ha. discriminate. }
  induction r as [|a|r1 IH1 r2 IH2|r1 IH1 r2 IH2|g a|g a|r1 IH1| | |r1 IH1];
    simpl; intros Hav p w s c c' H.
  - destruct H as [-> _]; auto.
  - destruct H as (x & -> & Hx & _). intros [<-|[]].
    rewrite Hx in Hav; discriminate.
  - apply andb_true_iff in Hav as [A1 A2].
    destruct H as (w1 & w2 & c1 & -> & S1 & S2).
    intros Hin. apply in_app_or in Hin as [Hin|Hin].
    + eapply IH1; eauto.
    + eapply IH2; eauto.
  - apply andb_true_iff in Hav as [A1 A2].
    destruct H as [H|H]; [eapply IH1|eapply IH2]; eauto.
  - destruct H as [Hw _]. eapply Hall; eauto.
  - destruct H as (_ & Hw & _). eapply Hall; eauto.
  - destruct H as (c1 & S1 & _). eapply IH1; eauto.
  - destruct H as [-> _]; auto.
  - destruct H as [-> _]; auto.
  - destruct H as [-> _]; auto.
Qed.

Lemma Sem_min_len r :
  forall p w s c c', Sem ml r p w s c c' -> min_len r <= length w.
Proof.
  induction r as [|a|r1 IH1 r2 IH2|r1 IH1 r2 IH2|g a|g a|r1 IH1| | |r1 IH1];
    simpl; intros p w s c c' H.
  - lia.
  - destruct H as (x & -> & _); simpl; lia.
  - destruct H as (w1 & w2 & c1 & -> & S1 & S2).
    apply IH1 in S1. apply IH2 in S2. rewrite length_app. lia.
  - destruct H as [H|H]; [apply IH1 in H|apply IH2 in H]; lia.
  - lia.
  - destruct H as (Hne & _). destruct w; [congruence|simpl; lia].
  - destruct H as (c1 & S1 & _). eauto.
  - lia.
  - lia.
  - lia.
Qed.

End Soundness.

(** ** The guard *)

Lemma guard_loop_gen (k : cont) :
  (forall p c, k (MState p [] c) = None) ->
  (forall p x s c, k (MState p (x :: s) c) = None <-> (x =? c_gt)%N = false) ->
  forall s p c,
    star_loop true (AClass true [CChar c_lt]) k p s c = None
    <-> guard_clear s = true.
Proof.
  intros Hnil Hcons.
  induction s as [|x s IH]; intros p c; simpl.
  - rewrite Hnil. tauto.
  - destruct (x =? c_lt)%N eqn:Elt; simpl.
    + rewrite Hcons. apply N.eqb_eq in Elt; subst x. tauto.
    + specialize (IH (Some x) c).
      destruct (star_loop true (AClass true [CChar c_lt]) k (Some x) s c) eqn:E.
      * destruct (x =? c_gt)%N; [split; discriminate|].
        rewrite <- IH. split; discriminate.
      * rewrite Hcons. destruct (x =? c_gt)%N; [split; discriminate|].
        tauto.
Qed.

Lemma guard_loop ml s p c :
  star_loop true (AClass true [CChar c_lt]) (rmatch ml (At (AChar c_gt)) Some) p s c
  = None <-> guard_clear s = true.
Proof.
  apply guard_loop_gen.
  - reflexivity.
  - intros p0 x s0 c0; simpl. destruct (x =? c_gt)%N; split; congruence.
Qed.

Lemma Sem_guard ml p w s c c' :
  Sem ml guard p w s c c' -> w = [] /\ c' = c /\ guard_clear s = true.
Proof.
  unfold guard; simpl. intros (-> & -> & H).
  repeat split. apply (guard_loop ml s p c). exact H.
Qed.

Lemma guard_clear_inside (body s : str) :
  forallb plain body = true -> guard_clear (body ++ c_gt :: s) = false.
Proof.
  induction body as [|x body IH]; simpl; intros H.
  - reflexivity.
  - apply andb_true_iff in H as [Hx Hb]. unfold plain in Hx.
    apply andb_true_iff in Hx as [H1 H2].
    apply negb_true_iff in H1, H2. rewrite H1, H2. auto.
Qed.

(** ** The replacement loop *)

Section Scan.

Variable re : RegExp.

Lemma exec_at_sound p s n g :
  exec_at re p s = Some (n, g) ->
  exists w s',
    s = w ++ s' /\ n = length w
    /\ Sem (multiline re) (source re) p w s' None g.
Proof.
  unfold exec_at. intros H.
  destruct (rmatch (multiline re) (source re) Some (MState p s None)) eqn:E;
    [|discriminate].
  destruct (rmatch_sound _ _ _ _ _ _ _ E) as (w & s' & c' & -> & S1 & K1).
  inversion K1; subst m; simpl in H. inversion H; subst.
  exists w, s'; repeat split; auto.
  rewrite length_app; lia.
Qed.

Lemma scan_skip :
  forall w s p, scan re p (w ++ s) (length w) = scan re (lastc p w) s 0.
Proof.
  induction w as [|x w IH]; intros s p; simpl.
  - destruct s; reflexivity.
  - apply IH.
Qed.

Lemma scan_hit p w s g :
  w <> [] ->
  exec_at re p (w ++ s) = Some (length w, g) ->
  scan re p (w ++ s) 0 = Hit w g :: scan re (lastc p w) s 0.
Proof.
  intros Hne H. destruct w as [|x w]; [congruence|].
  simpl app in *. simpl length in H. simpl scan. rewrite H.
  rewrite scan_skip. simpl lastc. f_equal. f_equal.
  change (firstn (length (x :: w)) ((x :: w) ++ s) = x :: w).
  rewrite firstn_app, Nat.sub_diag, firstn_all; simpl.
  rewrite app_nil_r. reflexivity.
Qed.

Lemma scan_miss p x s :
  exec_at re p (x :: s) = None ->
  scan re p (x :: s) 0 = Copy x :: scan re (Some x) s 0.
Proof.
  intros H. simpl. rewrite H. reflexivity.
Qed.

End Scan.

Lemma markup_app a b : markup (a ++ b) = markup a ++ markup b.
Proof. apply flat_map_app. Qed.

Lemma markup_text w : markup (map TText w) = w.
Proof.
  induction w as [|x w IH]; simpl; [reflexivity|].
  unfold markup in *; simpl. congruence.
Qed.

Lemma markup_cons t toks : markup (t :: toks) = render_token t ++ markup toks.
Proof. reflexivity. Qed.

Section Pass.

Variables (gd : bool) (re : RegExp) (tpl : str) (cat : category).
Hypothesis W : wraps gd re tpl cat.

Lemma wraps_exec p s n g :
  exec_at re p s = Some (n, g) ->
  exists w s' gw ws e,
    s = w ++ s' /\ n = length w /\ w = gw ++ ws ++ e /\ gw <> []
    /\ forallb is_space ws = true
    /\ expand tpl w g = open_tag cat ++ gw ++ close_tag ++ e
    /\ (gd = true -> forallb plain w = true /\ guard_clear s' = true).
Proof.
  intros H. destruct (exec_at_sound _ _ _ _ _ H) as (w & s' & -> & -> & S1).
  destruct (W _ _ _ _ S1) as (gw & ws & e & Hw & Hne & Hws & Hex & Hg).
  exists w, s', gw, ws, e; repeat split; auto; apply Hg; auto.
Qed.

Lemma no_hit_at_end p : exec_at re p [] = None.
Proof.
  destruct (exec_at re p []) as [[n g]|] eqn:E; [|reflexivity].
  destruct (wraps_exec _ _ _ _ E) as (w & s' & gw & ws & e & H0 & _ & -> & Hne & _).
  destruct gw; [congruence|discriminate].
Qed.

Lemma tag_shape t :
  is_text t = false ->
  exists body, render_token t = c_lt :: body ++ [c_gt] /\ forallb plain body = true.
Proof.
  destruct t as [c|cat0|]; simpl; intros H; [discriminate| |].
  - exists (u "span class=" ++ c_dquote :: u (class_of cat0) ++ [c_dquote]).
    destruct cat0; split; vm_compute; reflexivity.
  - exists (u "/span"). split; vm_compute; reflexivity.
Qed.

Lemma plain_prefix :
  forall w body s s',
    forallb plain w = true ->
    body ++ c_gt :: s = w ++ s' ->
    exists body', body = w ++ body' /\ s' = body' ++ c_gt :: s.
Proof.
  induction w as [|x w IH]; intros body s s' Hw H.
  - exists body; auto.
  - simpl in Hw. apply andb_true_iff in Hw as [Hx Hw].
    destruct body as [|y body]; simpl in H; inversion H; subst.
    + discriminate.
    + destruct (IH _ _ _ Hw H2) as (body' & -> & ->).
      exists body'; auto.
Qed.

Lemma no_hit_in_tag p body s :
  gd = true -> forallb plain body = true ->
  exec_at re p (body ++ c_gt :: s) = None.
Proof.
  intros Hgd Hb.
  destruct (exec_at re p (body ++ c_gt :: s)) as [[n g]|] eqn:E; [|reflexivity].
  destruct (wraps_exec _ _ _ _ E)
    as (w & s' & gw & ws & e & H0 & _ & _ & _ & _ & _ & Hg).
  destruct (Hg Hgd) as [Hw Hc].
  destruct (plain_prefix _ _ _ _ Hw H0) as (body' & -> & ->).
  rewrite forallb_app in Hb. apply andb_true_iff in Hb as [_ Hb].
  rewrite guard_clear_inside in Hc by exact Hb. discriminate.
Qed.

Lemma no_hit_at_angle p x s :
  gd = true -> plain x = false -> exec_at re p (x :: s) = None.
Proof.
  intros Hgd Hx.
  destruct (exec_at re p (x :: s)) as [[n g]|] eqn:E; [|reflexivity].
  destruct (wraps_exec _ _ _ _ E)
    as (w & s' & gw & ws & e & H0 & _ & Hw & Hne & _ & _ & Hg).
  destruct (Hg Hgd) as [Hp _].
  destruct w as [|y w].
  - destruct gw; [congruence|discriminate].
  - simpl in H0; inversion H0; subst y. simpl in Hp.
    rewrite Hx in Hp. discriminate.
Qed.

Lemma scan_tag_body :
  gd = true ->
  forall body s p,
    forallb plain body = true ->
    scan re p (body ++ c_gt :: s) 0
    = map Copy (body ++ [c_gt]) ++ scan re (Some c_gt) s 0.
Proof.
  intros Hgd. induction body as [|x body IH]; intros s p Hb.
  - simpl app. rewrite scan_miss; [reflexivity|].
    apply no_hit_at_angle; auto.
  - pose proof (no_hit_in_tag p (x :: body) s Hgd Hb) as Hnone.
    simpl app in *. rewrite scan_miss by exact Hnone.
    simpl in Hb. apply andb_true_iff in Hb as [_ Hb].
    rewrite IH by exact Hb. reflexivity.
Qed.

Lemma scan_tag t s p :
  gd = true -> is_text t = false ->
  scan re p (render_token t ++ s) 0
  = map Copy (render_token t) ++ scan re (Some c_gt) s 0.
Proof.
  intros Hgd Ht. destruct (tag_shape t Ht) as (body & -> & Hb).
  simpl app. rewrite <- app_assoc. simpl app.
  rewrite scan_miss by (apply no_hit_at_angle; auto).
  rewrite scan_tag_body by auto.
  simpl. rewrite map_app, <- app_assoc. reflexivity.
Qed.

Lemma render_copies f l : flat_map (render f) (map Copy l) = l.
Proof.
  induction l as [|x l IH]; simpl; congruence.
Qed.

Lemma split_text :
  forall w toks s',
    text_ok toks = true ->
    markup toks = w ++ s' ->
    forallb plain w = true \/ tagless toks = true ->
    exists toks2, toks = map TText w ++ toks2 /\ markup toks2 = s'.
Proof.
  induction w as [|x w IH]; intros toks s' Hok H Hor.
  - exists toks; auto.
  - destruct toks as [|t toks]; [discriminate|].
    simpl in Hok. apply andb_true_iff in Hok as [Ht Hok].
    destruct (is_text t) eqn:Et.
    + destruct t as [c| |]; try discriminate.
      simpl in H. inversion H; subst c.
      destruct (IH toks s' Hok H2) as (toks2 & -> & <-).
      * destruct Hor as [Hp|Hl]; [left|right].
        -- simpl in Hp. apply andb_true_iff in Hp; tauto.
        -- simpl in Hl. exact Hl.
      * exists toks2; auto.
    + exfalso. destruct Hor as [Hp|Hl].
      * destruct (tag_shape t Et) as (body & Hb & _).
        unfold markup in H; simpl in H. rewrite Hb in H.
        simpl in H. inversion H; subst x. discriminate.
      * simpl in Hl. rewrite Et in Hl. discriminate.
Qed.

(** One pass over well-formed markup: the result is well-formed markup
    again, tags untouched, some text wrapped. *)
Lemma pass_retag :
  forall n toks p,
    length toks <= n ->
    text_ok toks = true ->
    gd = true \/ tagless toks = true ->
    exists toks',
      flat_map (render (expand tpl)) (scan re p (markup toks) 0) = markup toks'
      /\ Retag cat toks toks'.
Proof.
  induction n as [|n IH]; intros toks p Hlen Hok Hor.
  - destruct toks; [|simpl in Hlen; lia].
    exists []. simpl. rewrite no_hit_at_end. split; [reflexivity|constructor].
  - destruct toks as [|t toks].
    + exists []. simpl. rewrite no_hit_at_end. split; [reflexivity|constructor].
    + assert (Hok' := Hok). simpl in Hok'.
      apply andb_true_iff in Hok' as [Ht Hok'].
      simpl in Hlen.
      destruct (is_text t) eqn:Et.
      * destruct t as [c| |]; try discriminate.
        assert (Hor' : gd = true \/ tagless toks = true).
        { destruct Hor as [?|Hl]; [left; auto|right; exact Hl]. }
        change (markup (TText c :: toks)) with (c :: markup toks).
        destruct (exec_at re p (c :: markup toks)) as [[k g]|] eqn:E.
        -- destruct (wraps_exec _ _ _ _ E)
             as (w & s' & gw & ws & e & H0 & -> & Hw & Hne & Hws & Hex & Hg).
           assert (Hwne : w <> []).
           { rewrite Hw. destruct gw; [congruence|discriminate]. }
           destruct (split_text w (TText c :: toks) s' Hok H0)
             as (toks2 & Htoks & Hs').
           { destruct Hor as [Hgd|Hl]; [left; apply Hg; auto|right; auto]. }
           change (c :: markup toks) with (markup (TText c :: toks)) in *.
           rewrite H0 in E |- *.
           rewrite (scan_hit re p w s' g Hwne E). simpl flat_map.
           rewrite Hex, <- Hs'.
           assert (Hlen2 : length toks2 <= n).
           { apply (f_equal (@length token)) in Htoks.
             rewrite length_app, length_map in Htoks. simpl in Htoks.
             destruct w; [congruence|simpl in Htoks; lia]. }
           assert (Hok2 : text_ok toks2 = true).
           { rewrite Htoks in Hok. unfold text_ok in Hok.
             rewrite forallb_app in Hok. apply andb_true_iff in Hok; tauto. }
           assert (Hor2 : gd = true \/ tagless toks2 = true).
           { destruct Hor as [?|Hl]; [left; auto|right].
             rewrite Htoks in Hl. unfold tagless in Hl.
             rewrite forallb_app in Hl. apply andb_true_iff in Hl; tauto. }
           destruct (IH toks2 (lastc p w) Hlen2 Hok2 Hor2) as (toks' & Hm & Hr).
           exists (TOpen cat :: map TText gw ++ TClose :: map TText e ++ toks').
           split.
           ++ rewrite Hm, markup_cons, markup_app, markup_cons, markup_app.
              rewrite !markup_text. simpl render_token.
              rewrite <- !app_assoc. reflexivity.
           ++ rewrite Htoks, Hw. constructor; auto.
        -- rewrite scan_miss by exact E. simpl flat_map.
           destruct (IH toks (Some c) ltac:(lia) Hok' Hor') as (toks' & Hm & Hr).
           exists (TText c :: toks'). split.
           ++ rewrite Hm. reflexivity.
           ++ constructor; auto.
      * destruct Hor as [Hgd|Hl];
          [|simpl in Hl; rewrite Et in Hl; discriminate].
        change (markup (t :: toks)) with (render_token t ++ markup toks).
        rewrite scan_tag by auto. rewrite flat_map_app, render_copies.
        destruct (IH toks (Some c_gt) ltac:(lia) Hok' (or_introl Hgd))
          as (toks' & Hm & Hr).
        exists (t :: toks'). split.
        -- rewrite Hm. reflexivity.
        -- constructor; auto.
Qed.

End Pass.

(** ** Templates *)

Lemma expand_span_plain cat m w :
  expand (spanTemplate (class_of cat) "") m (Some w)
  = open_tag cat ++ w ++ close_tag.
Proof.
  destruct cat; reflexivity.
Qed.

Lemma expand_span_call m w :
  expand (spanTemplate (class_of FunctionName) "(") m (Some w)
  = open_tag FunctionName ++ w ++ close_tag ++ [c_lparen].
Proof.
  reflexivity.
Qed.

(** ** The patterns of the passes *)

Lemma Sem_plain ml r p w s c c' :
  avoids c_lt r = true -> avoids c_gt r = true ->
  Sem ml r p w s c c' -> forallb plain w = true.
Proof.
  intros A1 A2 H. apply forallb_forall. intros x Hx.
  unfold plain. apply andb_true_iff; split; apply negb_true_iff;
    apply N.eqb_neq; intros ->.
  - exact (Sem_avoids ml c_lt r A1 _ _ _ _ _ H Hx).
  - exact (Sem_avoids ml c_gt r A2 _ _ _ _ _ H Hx).
Qed.

Lemma Sem_nonempty ml r p w s c c' :
  Nat.ltb 0 (min_len r) = true -> Sem ml r p w s c c' -> w <> [].
Proof.
  intros Hm H Hw. apply Sem_min_len in H. apply Nat.ltb_lt in Hm.
  subst w. simpl in H. lia.
Qed.

(** [\b(X)\b(?![^<]*>)] with template [<span ...>$1</span>]. *)
Lemma wraps_word_group X cat :
  avoids c_lt X = true -> avoids c_gt X = true ->
  Nat.ltb 0 (min_len X) = true ->
  wraps true (mkRegExp (WordB ;; Group X ;; WordB ;; guard)%re false)
    (spanTemplate (class_of cat) "") cat.
Proof.
  intros A1 A2 Hm p w s g H. cbn [source multiline] in H.
  destruct H as (w1 & w2 & c1 & -> & (-> & -> & _) & H).
  destruct H as (w3 & w4 & c2 & -> & (c3 & HX & ->) & H).
  destruct H as (w5 & w6 & c4 & -> & (-> & -> & _) & H).
  apply Sem_guard in H as (-> & -> & Hg).
  exists w3, [], [].
  split; [simpl; rewrite !app_nil_r; reflexivity|].
  split; [eapply Sem_nonempty; eauto|].
  split; [reflexivity|].
  split; [rewrite expand_span_plain, !app_nil_r; reflexivity|].
  intros _. split; [|exact Hg].
  simpl; rewrite !app_nil_r. eapply Sem_plain; eauto.
Qed.

(** [(X)(?![^<]*>)] with template [<span ...>$1</span>]. *)
Lemma wraps_group_guard X cat :
  avoids c_lt X = true -> avoids c_gt X = true ->
  Nat.ltb 0 (min_len X) = true ->
  wraps true (mkRegExp (Group X ;; guard)%re false)
    (spanTemplate (class_of cat) "") cat.
Proof.
  intros A1 A2 Hm p w s g H. cbn [source multiline] in H.
  destruct H as (w3 & w4 & c2 & -> & (c3 & HX & ->) & H).
  apply Sem_guard in H as (-> & -> & Hg).
  exists w3, [], [].
  split; [rewrite !app_nil_r; reflexivity|].
  split; [eapply Sem_nonempty; eauto|].
  split; [reflexivity|].
  split; [rewrite expand_span_plain, !app_nil_r; reflexivity|].
  intros _. split; [|exact Hg].
  rewrite !app_nil_r. eapply Sem_plain; eauto.
Qed.

(** [(X)] alone: the string pattern has no guard. *)
Lemma wraps_group X cat :
  Nat.ltb 0 (min_len X) = true ->
  wraps false (mkRegExp (Group X) false) (spanTemplate (class_of cat) "") cat.
Proof.
  intros Hm p w s g H. cbn [source multiline] in H.
  destruct H as (c3 & HX & ->).
  exists w, [], [].
  split; [rewrite !app_nil_r; reflexivity|].
  split; [eapply Sem_nonempty; eauto|].
  split; [reflexivity|].
  split; [rewrite expand_span_plain, !app_nil_r; reflexivity|].
  discriminate.
Qed.

Lemma wraps_keyword :
  wraps true keywordRegex (spanTemplate "text-purple-400" "") Keyword.
Proof. apply (wraps_word_group _ Keyword); reflexivity. Qed.

Lemma wraps_type :
  wraps true typeRegex (spanTemplate "text-cyan-400" "") TypeName.
Proof. apply (wraps_word_group _ TypeName); reflexivity. Qed.

Lemma wraps_number :
  wraps true numberRegex (spanTemplate "text-orange-400" "") Number.
Proof. apply (wraps_word_group _ Number); reflexivity. Qed.

Lemma wraps_class :
  wraps true classRegex (spanTemplate "text-blue-400" "") ClassName.
Proof. apply (wraps_word_group _ ClassName); reflexivity. Qed.

Lemma wraps_decorator :
  wraps true decoratorRegex (spanTemplate "text-pink-400" "") Annotation.
Proof. apply (wraps_group_guard _ Annotation); reflexivity. Qed.

Lemma wraps_string :
  wraps false stringRegex (spanTemplate "text-green-400" "") StringLit.
Proof. apply (wraps_group _ StringLit); reflexivity. Qed.

Lemma wraps_function :
  wraps true functionRegex (spanTemplate "text-yellow-400" "(") FunctionName.
Proof.
  intros p w s g H.
  assert (Hp : forallb plain w = true).
  { eapply Sem_plain; [| |exact H]; reflexivity. }
  unfold functionRegex in H. cbn [source multiline] in H.
  destruct H as (w1 & w2 & c1 & -> & (-> & -> & _) & H).
  destruct H as (w3 & w4 & c2 & -> & (c3 & HX & ->) & H).
  destruct H as (w5 & w6 & c4 & -> & (Hws & ->) & H).
  destruct H as (w7 & w8 & c5 & -> & (x & -> & Hx & ->) & H).
  apply Sem_guard in H as (-> & -> & Hg).
  apply N.eqb_eq in Hx. subst x.
  simpl app in *. rewrite ?app_nil_r in *.
  exists w3, w5, [c_lparen].
  split; [reflexivity|].
  split; [eapply Sem_nonempty; [|exact HX]; reflexivity|].
  split.
  { apply forallb_forall. intros x Hx.
    rewrite forallb_forall in Hws. specialize (Hws x Hx).
    simpl in Hws. rewrite orb_false_r in Hws. exact Hws. }
  split; [apply expand_span_call|].
  intros _. split; [exact Hp|exact Hg].
Qed.

(** ** What a pass keeps *)

Lemma text_ok_app a b : text_ok (a ++ b) = text_ok a && text_ok b.
Proof. apply forallb_app. Qed.

Lemma text_ok_text w : text_ok (map TText w) = forallb plain w.
Proof.
  induction w as [|x w IH]; [reflexivity|].
  change (text_ok (map TText (x :: w))) with (plain x && text_ok (map TText w)).
  rewrite IH. reflexivity.
Qed.

Lemma tagless_text w : tagless (map TText w) = true.
Proof.
  induction w as [|x w IH]; simpl; auto.
Qed.

Lemma balanced_from_text w : forall d toks,
  balanced_from d (map TText w ++ toks) = balanced_from d toks.
Proof.
  induction w as [|x w IH]; intros d toks; simpl; auto.
Qed.

Lemma Retag_text_ok cat toks toks' :
  Retag cat toks toks' -> text_ok toks = true -> text_ok toks' = true.
Proof.
  induction 1 as [|t toks toks' _ IH|gw ws e toks toks' Hne Hws _ IH]; intros Hok.
  - reflexivity.
  - simpl in *. apply andb_true_iff in Hok as [Ht Hok].
    rewrite Ht, IH; auto.
  - rewrite text_ok_app, text_ok_text, !forallb_app in Hok.
    apply andb_true_iff in Hok as [Hw Hok].
    apply andb_true_iff in Hw as [Hgw Hw].
    apply andb_true_iff in Hw as [_ He].
    change (text_ok (TOpen cat :: map TText gw ++ TClose :: map TText e ++ toks'))
      with (text_ok (map TText gw ++ TClose :: map TText e ++ toks')).
    rewrite text_ok_app, text_ok_text, Hgw.
    change (text_ok (TClose :: map TText e ++ toks'))
      with (text_ok (map TText e ++ toks')).
    rewrite text_ok_app, text_ok_text, He. simpl. auto.
Qed.

Lemma Retag_balanced cat toks toks' :
  Retag cat toks toks' ->
  forall d, balanced_from d toks' = balanced_from d toks.
Proof.
  induction 1 as [|t toks toks' _ IH|gw ws e toks toks' Hne Hws _ IH]; intros d.
  - reflexivity.
  - destruct t; simpl; auto. destruct d; auto.
  - rewrite balanced_from_text. simpl.
    rewrite balanced_from_text. simpl.
    rewrite balanced_from_text. apply IH.
Qed.

Lemma guarded_pass_keeps_tags re tpl cat :
  wraps true re tpl cat -> keeps_tags cat (replace re tpl).
Proof.
  intros W toks Hok. unfold replace, replace_fn.
  apply (pass_retag true re tpl cat W (length toks)); auto.
Qed.

Lemma keeps_tags_well_formed cat pass s :
  keeps_tags cat pass -> well_formed s -> well_formed (pass s).
Proof.
  intros K (toks & -> & Hok & Hbal).
  destruct (K toks Hok) as (toks' & -> & Hr).
  exists toks'. split; [reflexivity|]. split.
  - eapply Retag_text_ok; eauto.
  - unfold balanced. rewrite (Retag_balanced _ _ _ Hr). exact Hbal.
Qed.

(** ** The escape pass *)

Lemma scan_escape :
  forall s p,
    scan escapeRegex p s 0
    = map (fun c => if is_special c then Hit [c] None else Copy c) s.
Proof.
  induction s as [|x s IH]; intros p.
  - reflexivity.
  - simpl scan. unfold exec_at. cbn [escapeRegex source multiline rmatch rest cap1].
    fold (is_special x). destruct (is_special x) eqn:E.
    + cbn [rest cap1 length]. rewrite Nat.sub_succ_l, Nat.sub_diag by lia.
      simpl firstn. rewrite IH. simpl. rewrite E. reflexivity.
    + rewrite IH. simpl. rewrite E. reflexivity.
Qed.

Lemma escape_entity x :
  is_special x = true -> to_string (lookup [x] htmlEntities) = Spec.escape_char x.
Proof.
  unfold is_special, Spec.escape_char; simpl.
  unfold c_amp, c_lt, c_gt, c_dquote, c_squote, c_slash.
  destruct (x =? 38)%N eqn:E1; [apply N.eqb_eq in E1; subst; reflexivity|].
  destruct (x =? 60)%N eqn:E2; [apply N.eqb_eq in E2; subst; reflexivity|].
  destruct (x =? 62)%N eqn:E3; [apply N.eqb_eq in E3; subst; reflexivity|].
  destruct (x =? 34)%N eqn:E4; [apply N.eqb_eq in E4; subst; reflexivity|].
  destruct (x =? 39)%N eqn:E5; [apply N.eqb_eq in E5; subst; reflexivity|].
  destruct (x =? 47)%N eqn:E6; [apply N.eqb_eq in E6; subst; reflexivity|].
  discriminate.
Qed.

Lemma escape_other x : is_special x = false -> Spec.escape_char x = [x].
Proof.
  unfold is_special, Spec.escape_char; simpl.
  unfold c_amp, c_lt, c_gt, c_dquote, c_squote, c_slash.
  destruct (x =? 38)%N; [discriminate|].
  destruct (x =? 60)%N; [discriminate|].
  destruct (x =? 62)%N; [discriminate|].
  destruct (x =? 34)%N; [discriminate|].
  destruct (x =? 39)%N; [discriminate|].
  destruct (x =? 47)%N; [discriminate|].
  reflexivity.
Qed.

(** The replacer of [escapeHtml] does what the specification says. *)
Lemma escapeHtml_escape s : escapeHtml s = Spec.escape s.
Proof.
  unfold escapeHtml, replace_fn, Spec.escape. rewrite scan_escape.
  induction s as [|x s IH]; [reflexivity|].
  cbn [map flat_map]. rewrite IH. f_equal.
  destruct (is_special x) eqn:E; cbn [render].
  - apply escape_entity; exact E.
  - rewrite escape_other by exact E. reflexivity.
Qed.

Lemma escape_char_inert x : forallb inert (Spec.escape_char x) = true.
Proof.
  unfold Spec.escape_char, inert, plain.
  unfold c_amp, c_lt, c_gt, c_dquote, c_squote, c_slash.
  destruct (x =? 38)%N; [reflexivity|].
  destruct (x =? 60)%N eqn:E2; [reflexivity|].
  destruct (x =? 62)%N eqn:E3; [reflexivity|].
  destruct (x =? 34)%N; [reflexivity|].
  destruct (x =? 39)%N; [reflexivity|].
  destruct (x =? 47)%N eqn:E6; [reflexivity|].
  simpl. rewrite E2, E3, E6. reflexivity.
Qed.

Lemma escape_inert s : forallb inert (Spec.escape s) = true.
Proof.
  unfold Spec.escape. induction s as [|x s IH]; simpl; [reflexivity|].
  rewrite forallb_app, escape_char_inert, IH. reflexivity.
Qed.

(** ** The comment passes *)

Lemma scan_never re (P : char -> bool) :
  (forall p, exec_at re p [] = None) ->
  (forall p x s, P x = true -> exec_at re p (x :: s) = None) ->
  forall s p, forallb P s = true -> scan re p s 0 = map Copy s.
Proof.
  intros Hnil Hcons. induction s as [|x s IH]; intros p Hs.
  - simpl. rewrite Hnil. reflexivity.
  - simpl in Hs. apply andb_true_iff in Hs as [Hx Hs].
    rewrite scan_miss by (apply Hcons; exact Hx).
    rewrite IH by exact Hs. reflexivity.
Qed.

Lemma inert_not_slash x : inert x = true -> (x =? c_slash)%N = false.
Proof.
  unfold inert. intros H. apply andb_true_iff in H as [_ H].
  apply negb_true_iff in H. exact H.
Qed.

Lemma inert_plain s : forallb inert s = true -> forallb plain s = true.
Proof.
  induction s as [|x s IH]; simpl; intros H; [reflexivity|].
  apply andb_true_iff in H as [Hx Hs]. rewrite IH by exact Hs.
  unfold inert in Hx. apply andb_true_iff in Hx as [Hx _]. rewrite Hx.
  reflexivity.
Qed.

(** Both comment patterns begin with a slash, and escaped text has none. *)
Lemma line_comment_never tpl s :
  forallb inert s = true -> replace lineCommentRegex tpl s = s.
Proof.
  intros Hs. unfold replace, replace_fn.
  rewrite (scan_never lineCommentRegex inert); auto using render_copies.
  intros p x s0 Hx. apply inert_not_slash in Hx.
  unfold exec_at. cbn. rewrite Hx. reflexivity.
Qed.

Lemma block_comment_never tpl s :
  forallb inert s = true -> replace blockCommentRegex tpl s = s.
Proof.
  intros Hs. unfold replace, replace_fn.
  rewrite (scan_never blockCommentRegex inert); auto using render_copies.
  intros p x s0 Hx. apply inert_not_slash in Hx.
  unfold exec_at. cbn. rewrite Hx. reflexivity.
Qed.

(** ** The pipeline on tokens *)

(** The highlighted markup comes from the escaped text by six successive
    retaggings, one per pass that can match. *)
Lemma highlight_retag_chain s :
  exists t1 t2 t3 t4 t5 t6 t7,
    Retag StringLit (map TText (Spec.escape s)) t1
    /\ Retag Keyword t1 t2
    /\ Retag TypeName t2 t3
    /\ Retag Number t3 t4
    /\ Retag FunctionName t4 t5
    /\ Retag ClassName t5 t6
    /\ Retag Annotation t6 t7
    /\ highlightCode s = markup t7.
Proof.
  unfold highlightCode. rewrite escapeHtml_escape.
  pose proof (escape_inert s) as Hi.
  rewrite line_comment_never, block_comment_never by exact Hi.
  assert (Hok0 : text_ok (map TText (Spec.escape s)) = true).
  { rewrite text_ok_text. apply inert_plain; exact Hi. }
  destruct (pass_retag false _ _ _ wraps_string
              (length (map TText (Spec.escape s))) (map TText (Spec.escape s))
              None (le_n _) Hok0 (or_intror (tagless_text _)))
    as (t1 & E1 & R1).
  rewrite markup_text in E1.
  change (flat_map (render (expand (spanTemplate "text-green-400" "")))
            (scan stringRegex None (Spec.escape s) 0))
    with (replace stringRegex (spanTemplate "text-green-400" "") (Spec.escape s))
    in E1.
  rewrite E1.
  assert (Hok1 := Retag_text_ok _ _ _ R1 Hok0).
  destruct (guarded_pass_keeps_tags _ _ _ wraps_keyword t1 Hok1) as (t2 & E2 & R2).
  rewrite E2. assert (Hok2 := Retag_text_ok _ _ _ R2 Hok1).
  destruct (guarded_pass_keeps_tags _ _ _ wraps_type t2 Hok2) as (t3 & E3 & R3).
  rewrite E3. assert (Hok3 := Retag_text_ok _ _ _ R3 Hok2).
  destruct (guarded_pass_keeps_tags _ _ _ wraps_number t3 Hok3) as (t4 & E4 & R4).
  rewrite E4. assert (Hok4 := Retag_text_ok _ _ _ R4 Hok3).
  destruct (guarded_pass_keeps_tags _ _ _ wraps_function t4 Hok4) as (t5 & E5 & R5).
  rewrite E5. assert (Hok5 := Retag_text_ok _ _ _ R5 Hok4).
  destruct (guarded_pass_keeps_tags _ _ _ wraps_class t5 Hok5) as (t6 & E6 & R6).
  rewrite E6. assert (Hok6 := Retag_text_ok _ _ _ R6 Hok5).
  destruct (guarded_pass_keeps_tags _ _ _ wraps_decorator t6 Hok6) as (t7 & E7 & R7).
  rewrite E7.
  exists t1, t2, t3, t4, t5, t6, t7. repeat split; auto.
Qed.

Lemma highlight_well_formed s : well_formed (highlightCode s).
Proof.
  destruct (highlight_retag_chain s)
    as (t1 & t2 & t3 & t4 & t5 & t6 & t7 & R1 & R2 & R3 & R4 & R5 & R6 & R7 & E).
  assert (Hok0 : text_ok (map TText (Spec.escape s)) = true).
  { rewrite text_ok_text. apply inert_plain, escape_inert. }
  exists t7. split; [exact E|]. split.
  - repeat (eapply Retag_text_ok; [eassumption|]). exact Hok0.
  - unfold balanced.
    rewrite (Retag_balanced _ _ _ R7), (Retag_balanced _ _ _ R6),
      (Retag_balanced _ _ _ R5), (Retag_balanced _ _ _ R4),
      (Retag_balanced _ _ _ R3), (Retag_balanced _ _ _ R2),
      (Retag_balanced _ _ _ R1).
    rewrite <- (app_nil_r (map TText (Spec.escape s))).
    rewrite balanced_from_text. reflexivity.
Qed.

Lemma tokenize_skip w : forall s,
  tokenize_from (length w) (w ++ s) = tokenize_from 0 s.
Proof.
  induction w as [|x w IH]; intros s; simpl.
  - destruct s; reflexivity.
  - apply IH.
Qed.

Lemma tag_at_plain c s : plain c = true -> tag_at (c :: s) = None.
Proof.
  unfold plain, c_lt. intros H. apply andb_true_iff in H as [H _].
  apply negb_true_iff in H. rewrite N.eqb_sym in H.
  unfold tag_at. cbn -[N.eqb]. rewrite H. reflexivity.
Qed.

Lemma tag_at_tag t s :
  is_text t = false -> tag_at (render_token t ++ s) = Some (render_token t, t).
Proof.
  intros Ht. destruct t as [c|cat|]; [discriminate| |].
  - destruct cat; reflexivity.
  - reflexivity.
Qed.

Lemma tokenize_tag t s :
  is_text t = false ->
  tokenize (render_token t ++ s) = option_map (cons t) (tokenize s).
Proof.
  intros Ht. unfold tokenize.
  destruct (tag_shape t Ht) as (body & Hb & _).
  pose proof (tag_at_tag t s Ht) as Hat.
  rewrite Hb in *. cbn [app] in *. cbn [tokenize_from]. rewrite Hat.
  replace (length (c_lt :: body ++ [c_gt]) - 1) with (length (body ++ [c_gt]))
    by (cbn [length]; lia).
  rewrite tokenize_skip. reflexivity.
Qed.

Lemma tokenize_markup toks :
  text_ok toks = true -> tokenize (markup toks) = Some toks.
Proof.
  induction toks as [|t toks IH]; intros Hok; [reflexivity|].
  simpl in Hok. apply andb_true_iff in Hok as [Ht Hok].
  rewrite markup_cons. destruct (is_text t) eqn:Et.
  - destruct t as [c| |]; try discriminate.
    unfold tokenize in *. cbn [render_token app tokenize_from].
    rewrite tag_at_plain by exact Ht. rewrite Ht, IH by exact Hok.
    reflexivity.
  - rewrite tokenize_tag by exact Et. rewrite IH by exact Hok. reflexivity.
Qed.

Lemma strip_tags_markup toks :
  text_ok toks = true -> strip_tags (markup toks) = Some (text_of toks).
Proof.
  intros H. unfold strip_tags. rewrite tokenize_markup by exact H. reflexivity.
Qed.

Lemma decode_skip w : forall s,
  decode_from (length w) (w ++ s) = decode_from 0 s.
Proof.
  induction w as [|x w IH]; intros s; simpl.
  - destruct s; reflexivity.
  - apply IH.
Qed.

Ltac entity_case IH :=
  match goal with
  | |- decode_from 0 (?e ++ ?r) = ?x :: _ =>
      change (decode_from 0 (e ++ r))
        with (x :: decode_from (length (tl e)) (tl e ++ r));
      rewrite decode_skip, IH; reflexivity
  end.

(** Decoding undoes escaping. *)
Lemma decode_escape s : decodeHtml (Spec.escape s) = s.
Proof.
  unfold decodeHtml, Spec.escape.
  induction s as [|x s IH]; [reflexivity|].
  cbn [flat_map]. set (r := flat_map Spec.escape_char s) in *.
  unfold Spec.escape_char.
  unfold c_amp, c_lt, c_gt, c_dquote, c_squote, c_slash.
  destruct (x =? 38)%N eqn:E1; [apply N.eqb_eq in E1; subst x; entity_case IH|].
  destruct (x =? 60)%N eqn:E2; [apply N.eqb_eq in E2; subst x; entity_case IH|].
  destruct (x =? 62)%N eqn:E3; [apply N.eqb_eq in E3; subst x; entity_case IH|].
  destruct (x =? 34)%N eqn:E4; [apply N.eqb_eq in E4; subst x; entity_case IH|].
  destruct (x =? 39)%N eqn:E5; [apply N.eqb_eq in E5; subst x; entity_case IH|].
  destruct (x =? 47)%N eqn:E6; [apply N.eqb_eq in E6; subst x; entity_case IH|].
  cbn [app decode_from]. rewrite N.eqb_sym in E1.
  cbn -[N.eqb decode_from]. rewrite E1. cbn -[decode_from].
  rewrite IH. reflexivity.
Qed.

(** ** Consequences for whole outputs *)

Lemma text_ok_plain toks :
  text_ok toks = true -> forallb plain (text_of toks) = true.
Proof.
  induction toks as [|t toks IH]; simpl; intros H; [reflexivity|].
  apply andb_true_iff in H as [Ht H].
  destruct t; simpl; auto. rewrite Ht, IH; auto.
Qed.

Lemma Retag_opens cat toks toks' :
  Retag cat toks toks' ->
  forall c, In (TOpen c) toks' -> c = cat \/ In (TOpen c) toks.
Proof.
  induction 1 as [|t toks toks' _ IH|gw ws e toks toks' Hne Hws _ IH];
    intros c Hin.
  - destruct Hin.
  - destruct Hin as [->|Hin]; [right; left; reflexivity|].
    destruct (IH c Hin); [left|right; right]; auto.
  - destruct Hin as [Hin|Hin]; [left; congruence|].
    apply in_app_or in Hin as [Hin|Hin].
    { apply in_map_iff in Hin as (x & Hx & _). discriminate. }
    destruct Hin as [Hin|Hin]; [discriminate|].
    apply in_app_or in Hin as [Hin|Hin].
    { apply in_map_iff in Hin as (x & Hx & _). discriminate. }
    destruct (IH c Hin); [left; auto|right].
    apply in_or_app; right; auto.
Qed.

Lemma special_lookup x : is_special x = true -> lookup [x] htmlEntities <> None.
Proof.
  unfold is_special; cbn -[N.eqb].
  unfold c_amp, c_lt, c_gt, c_dquote, c_squote, c_slash.
  destruct (x =? 38)%N eqn:E1; [apply N.eqb_eq in E1; subst; discriminate|].
  destruct (x =? 60)%N eqn:E2; [apply N.eqb_eq in E2; subst; discriminate|].
  destruct (x =? 62)%N eqn:E3; [apply N.eqb_eq in E3; subst; discriminate|].
  destruct (x =? 34)%N eqn:E4; [apply N.eqb_eq in E4; subst; discriminate|].
  destruct (x =? 39)%N eqn:E5; [apply N.eqb_eq in E5; subst; discriminate|].
  destruct (x =? 47)%N eqn:E6; [apply N.eqb_eq in E6; subst; discriminate|].
  discriminate.
Qed.

(** ** The string pass *)

Lemma scan_hits_sem re m g :
  forall s p k,
    In (Hit m g) (scan re p s k) ->
    exists p' s', Sem (multiline re) (source re) p' m s' None g.
Proof.
  assert (Hhead : forall p s n g',
            exec_at re p s = Some (n, g') -> Hit (firstn n s) g' = Hit m g ->
            exists p' s', Sem (multiline re) (source re) p' m s' None g).
  { intros p s n g' E Heq.
    destruct (exec_at_sound _ _ _ _ _ E) as (w & s' & -> & -> & S1).
    inversion Heq; subst.
    rewrite firstn_app, Nat.sub_diag, firstn_all. simpl.
    rewrite app_nil_r. eauto. }
  induction s as [|x s IH]; intros p k Hin.
  - destruct k; simpl in Hin; [|destruct Hin].
    destruct (exec_at re p []) as [[n g']|] eqn:E; [|destruct Hin].
    destruct Hin as [Heq|[]]. eapply Hhead; eauto.
  - destruct k as [|k]; [|simpl in Hin; eauto].
    simpl in Hin.
    destruct (exec_at re p (x :: s)) as [[n g']|] eqn:E.
    + destruct Hin as [Heq|Hin]; [eapply Hhead; eauto|].
      destruct n; [destruct Hin as [?|Hin]; [discriminate|]|]; eauto.
    + destruct Hin as [?|Hin]; [discriminate|]. eauto.
Qed.

Lemma Sem_lit ml x :
  forall p w s c c', Sem ml (lit x) p w s c c' -> w = x /\ c' = c.
Proof.
  induction x as [|a x IH]; intros p w s c c' H.
  - simpl in H. tauto.
  - destruct x as [|b x].
    + simpl in H. destruct H as (y & -> & Hy & ->).
      apply N.eqb_eq in Hy. subst; auto.
    + change (lit (a :: b :: x)) with (Seq (At (AChar a)) (lit (b :: x))) in H.
      destruct H as (w1 & w2 & c1 & -> & (y & -> & Hy & ->) & H2).
      apply N.eqb_eq in Hy. subst y.
      apply IH in H2 as [-> ->]. auto.
Qed.

Lemma class_not_char c w :
  forallb (atom_matches (AClass true [CChar c])) w = true ->
  forallb (not_char c) w = true.
Proof.
  intros H. apply forallb_forall. intros x Hx.
  rewrite forallb_forall in H. specialize (H x Hx).
  simpl in H. rewrite orb_false_r in H. exact H.
Qed.

(** What the string pattern can match: a run without [&] between two
    escaped double quotes or two escaped single quotes, or a run without
    backtick between two backticks. *)
Lemma Sem_string p m s g :
  Sem false (source stringRegex) p m s None g ->
  g = Some m
  /\ ((exists w, m = u "&quot;" ++ w ++ u "&quot;"
                 /\ forallb (not_char c_amp) w = true)
      \/ (exists w, m = u "&#x27;" ++ w ++ u "&#x27;"
                    /\ forallb (not_char c_amp) w = true)
      \/ (exists w, m = c_backtick :: w ++ [c_backtick]
                    /\ forallb (not_char c_backtick) w = true)).
Proof.
  unfold stringRegex. cbn [source alt_join].
  intros (c1 & H & ->). split; [reflexivity|].
  destruct H as [H|[H|H]].
  - left.
    destruct H as (w1 & w2 & c2 & -> & H1 & w3 & w4 & c3 & -> & (H3 & _) & H4).
    apply Sem_lit in H1 as [-> _]. apply Sem_lit in H4 as [-> _].
    exists w3. split; [reflexivity|]. apply class_not_char; exact H3.
  - right; left.
    destruct H as (w1 & w2 & c2 & -> & H1 & w3 & w4 & c3 & -> & (H3 & _) & H4).
    apply Sem_lit in H1 as [-> _]. apply Sem_lit in H4 as [-> _].
    exists w3. split; [reflexivity|]. apply class_not_char; exact H3.
  - right; right.
    destruct H as (w1 & w2 & c2 & -> & (x & -> & Hx & _)
                   & w3 & w4 & c3 & -> & (H3 & _) & (y & -> & Hy & _)).
    apply N.eqb_eq in Hx, Hy. subst.
    exists w3. split; [reflexivity|]. apply class_not_char; exact H3.
Qed.

Lemma escape_app a b : Spec.escape (a ++ b) = Spec.escape a ++ Spec.escape b.
Proof. apply flat_map_app. Qed.




Lemma star_loop_greedy_run a (k : cont) w :
  forall p s c res,
    forallb (atom_matches a) w = true ->
    match s with x :: _ => atom_matches a x = false | [] => True end ->
    k (MState (lastc p w) s c) = Some res ->
    star_loop true a k p (w ++ s) c = Some res.
Proof.
  induction w as [|y w IH]; intros p s c res Hw Hs Hk.
  - simpl in *. destruct s as [|x s]; [exact Hk|].
    simpl. rewrite Hs. exact Hk.
  - simpl in Hw. apply andb_true_iff in Hw as [Hy Hw].
    simpl. rewrite Hy. rewrite (IH (Some y) s c res Hw Hs Hk). reflexivity.
Qed.

Lemma exec_backtick p w r :
  forallb (not_char c_backtick) w = true ->
  exec_at stringRegex p (c_backtick :: w ++ c_backtick :: r)
  = Some (S (S (length w)), Some (c_backtick :: w ++ [c_backtick])).
Proof.
  intros Hw. unfold exec_at. unfold c_backtick.
  cbn -[star_loop firstn length Nat.sub].
  erewrite star_loop_greedy_run; cycle 1.
  - apply forallb_forall. intros x Hx.
    rewrite forallb_forall in Hw. specialize (Hw x Hx).
    simpl. rewrite orb_false_r. exact Hw.
  - reflexivity.
  - cbn [rest]. reflexivity.
  - cbn [rest cap1].
    match goal with
    | |- context [firstn _ ?l] =>
        assert (E : l = (c_backtick :: w ++ [c_backtick]) ++ r)
          by (simpl; rewrite <- app_assoc; reflexivity);
        rewrite E
    end.
    rewrite firstn_consumed, length_app, Nat.add_sub.
    simpl. rewrite length_app, Nat.add_comm. reflexivity.
Qed.

Lemma star_loop_blind g a (k k' : cont) :
  blind k k' ->
  forall s p p' c,
    same_but_prev (star_loop g a k p s c) (star_loop g a k' p' s c).
Proof.
  intros Hk. induction s as [|x s IH]; intros p p' c; simpl.
  - apply Hk.
  - destruct (atom_matches a x); [|apply Hk].
    pose proof (IH (Some x) (Some x) c) as Hdeep.
    pose proof (Hk p p' (x :: s) c) as Hhere.
    destruct g.
    + destruct (star_loop true a k (Some x) s c),
               (star_loop true a k' (Some x) s c);
        simpl in Hdeep |- *; solve [tauto | exact Hhere].
    + destruct (k (MState p (x :: s) c)), (k' (MState p' (x :: s) c));
        simpl in Hhere |- *; solve [tauto | exact Hdeep].
Qed.

Lemma rmatch_blind ml r :
  no_wordb r = true ->
  forall k k', blind k k' -> blind (rmatch ml r k) (rmatch ml r k').
Proof.
  induction r as [|a|r1 IH1 r2 IH2|r1 IH1 r2 IH2|g a|g a|r1 IH1| | |r1 IH1];
    simpl; intros Hn k k' Hk q q' s c; simpl.
  - apply Hk.
  - destruct s as [|x s]; [exact I|].
    destruct (atom_matches a x); [apply Hk|exact I].
  - apply andb_true_iff in Hn as [N1 N2]. apply IH1; auto.
  - apply andb_true_iff in Hn as [N1 N2].
    pose proof (IH1 N1 k k' Hk q q' s c) as H1.
    pose proof (IH2 N2 k k' Hk q q' s c) as H2.
    destruct (rmatch ml r1 k (MState q s c)),
             (rmatch ml r1 k' (MState q' s c));
      simpl in H1 |- *; solve [tauto | exact H2].
  - apply star_loop_blind; exact Hk.
  - destruct s as [|x s]; [exact I|].
    destruct (atom_matches a x); [|exact I].
    apply star_loop_blind; exact Hk.
  - apply IH1; auto. intros p1 p2 s1 c1. apply Hk.
  - discriminate.
  - destruct s as [|x s]; [apply Hk|].
    destruct (ml && is_line_terminator x); [apply Hk|exact I].
  - assert (Hsome : blind Some Some) by (intros p1 p2 s1 c1; simpl; auto).
    pose proof (IH1 Hn Some Some Hsome q q' s c) as H1.
    destruct (rmatch ml r1 Some (MState q s c)),
             (rmatch ml r1 Some (MState q' s c));
      simpl in H1 |- *; try tauto.
    apply Hk.
Qed.

Lemma exec_at_blind re p p' s :
  no_wordb (source re) = true -> exec_at re p s = exec_at re p' s.
Proof.
  intros Hn. unfold exec_at.
  assert (Hsome : blind Some Some) by (intros p1 p2 s1 c1; simpl; auto).
  pose proof (rmatch_blind (multiline re) (source re) Hn Some Some Hsome
                p p' s None) as H.
  destruct (rmatch (multiline re) (source re) Some (MState p s None)) as [x|],
           (rmatch (multiline re) (source re) Some (MState p' s None)) as [y|];
    simpl in H; try tauto.
  destruct H as [-> ->]. reflexivity.
Qed.

Lemma scan_blind re :
  no_wordb (source re) = true ->
  forall s p p' k, scan re p s k = scan re p' s k.
Proof.
  intros Hn. induction s as [|x s IH]; intros p p' k.
  - destruct k; simpl; [|reflexivity].
    rewrite (exec_at_blind re p p' [] Hn). reflexivity.
  - destruct k; simpl; [|reflexivity].
    rewrite (exec_at_blind re p p' (x :: s) Hn). reflexivity.
Qed.

(** Where the string pattern cannot start. *)
Lemma exec_string_other p x s :
  (x =? c_amp)%N = false -> (x =? c_backtick)%N = false ->
  exec_at stringRegex p (x :: s) = None.
Proof.
  intros H1 H2. unfold exec_at.
  cbn -[star_loop firstn length Nat.sub N.eqb].
  unfold c_amp, c_backtick in *. rewrite H1, H2. reflexivity.
Qed.

Lemma scan_string_escape_char x r p :
  no_quote x = true ->
  scan stringRegex p (Spec.escape_char x ++ r) 0
  = map Copy (Spec.escape_char x) ++ scan stringRegex None r 0.
Proof.
  unfold no_quote. intros H.
  apply andb_true_iff in H as [H H3]. apply andb_true_iff in H as [H1 H2].
  apply negb_true_iff in H1, H2, H3.
  unfold Spec.escape_char.
  unfold c_amp, c_lt, c_gt, c_dquote, c_squote, c_slash, c_backtick in *.
  rewrite H1, H2.
  assert (Hb : no_wordb (source stringRegex) = true) by reflexivity.
  destruct (x =? 38)%N eqn:E1;
    [|destruct (x =? 60)%N eqn:E2;
      [|destruct (x =? 62)%N eqn:E3;
        [|destruct (x =? 47)%N eqn:E6]]];
    try (match goal with
         | |- context [scan _ _ (?e ++ _) _] =>
             let v := eval vm_compute in e in change e with v
         end;
         cbn [app]; repeat (rewrite scan_miss by reflexivity);
         cbn [map app];
         match goal with
         | |- context [scan stringRegex ?q r 0] =>
             match q with
             | Some _ => rewrite (scan_blind stringRegex Hb r q None 0)
             end
         end; reflexivity).
  cbn [app]. rewrite scan_miss by (apply exec_string_other; assumption).
  cbn [map app]. f_equal. apply scan_blind; exact Hb.
Qed.

Lemma scan_string_prefix pre r :
  forallb no_quote pre = true ->
  forall p,
    scan stringRegex p (Spec.escape pre ++ r) 0
    = map Copy (Spec.escape pre) ++ scan stringRegex None r 0.
Proof.
  induction pre as [|x pre IH]; intros Hpre p.
  - simpl. apply scan_blind. reflexivity.
  - simpl in Hpre. apply andb_true_iff in Hpre as [Hx Hpre].
    change (Spec.escape (x :: pre))
      with (Spec.escape_char x ++ Spec.escape pre).
    rewrite <- app_assoc, scan_string_escape_char by exact Hx.
    rewrite IH by exact Hpre. rewrite map_app, app_assoc. reflexivity.
Qed.

Lemma escape_char_not_backtick x :
  not_char c_backtick x = true ->
  forallb (not_char c_backtick) (Spec.escape_char x) = true.
Proof.
  intros H. unfold Spec.escape_char.
  repeat match goal with
  | |- context [if ?b then _ else _] => destruct b; [reflexivity|]
  end.
  simpl. rewrite H. reflexivity.
Qed.

Lemma escape_not_backtick body :
  forallb (not_char c_backtick) body = true ->
  forallb (not_char c_backtick) (Spec.escape body) = true.
Proof.
  induction body as [|x body IH]; simpl; intros H; [reflexivity|].
  apply andb_true_iff in H as [Hx H].
  rewrite forallb_app, escape_char_not_backtick, IH; auto.
Qed.

Lemma escape_backtick_literal body :
  Spec.escape (quoted c_backtick body)
  = c_backtick :: Spec.escape body ++ [c_backtick].
Proof.
  unfold quoted.
  change (c_backtick :: body ++ [c_backtick])
    with ([c_backtick] ++ body ++ [c_backtick]).
  rewrite !escape_app. reflexivity.
Qed.

(** A backtick literal after text without quote characters is wrapped in
    a string span, whatever its content. *)
Lemma string_pass_backtick pre body post :
  forallb no_quote pre = true ->
  forallb (not_char c_backtick) body = true ->
  replace stringRegex (spanTemplate "text-green-400" "")
    (Spec.escape (pre ++ quoted c_backtick body ++ post))
  = Spec.escape pre ++ open_tag StringLit
    ++ Spec.escape (quoted c_backtick body) ++ close_tag
    ++ replace stringRegex (spanTemplate "text-green-400" "") (Spec.escape post).
Proof.
  intros Hpre Hbody. unfold replace, replace_fn.
  rewrite !escape_app, escape_backtick_literal.
  rewrite scan_string_prefix by exact Hpre.
  pose proof (escape_not_backtick body Hbody) as Heb.
  pose proof (exec_backtick None (Spec.escape body) (Spec.escape post) Heb) as E.
  set (lit := c_backtick :: Spec.escape body ++ [c_backtick]) in *.
  assert (El : c_backtick :: Spec.escape body ++ c_backtick :: Spec.escape post
               = lit ++ Spec.escape post).
  { unfold lit. simpl. rewrite <- app_assoc. reflexivity. }
  assert (Hlen : S (S (length (Spec.escape body))) = length lit).
  { unfold lit. simpl. rewrite length_app. simpl. lia. }
  rewrite El, Hlen in E.
  rewrite (scan_hit stringRegex None lit (Spec.escape post) (Some lit))
    by (exact E || discriminate).
  rewrite flat_map_app, render_copies. cbn [flat_map render].
  rewrite (expand_span_plain StringLit).
  rewrite (scan_blind stringRegex (eq_refl : no_wordb (source stringRegex) = true)
             (Spec.escape post) (lastc None lit) None 0).
  rewrite <- !app_assoc. reflexivity.
Qed.

(** ** Following a stretch of text through a pass *)

Lemma split_shorter (a b w s' : str) :
  a ++ b = w ++ s' -> length w <= length a ->
  exists a2, a = w ++ a2 /\ s' = a2 ++ b.
Proof.
  intros H Hlen. apply app_eq_app in H as (l & [[-> ->]|[-> ->]]).
  - exists l; auto.
  - rewrite length_app in Hlen. destruct l; [|simpl in Hlen; lia].
    exists []. rewrite !app_nil_r. auto.
Qed.

Lemma split_longer (a b w s' : str) :
  a ++ b = w ++ s' -> length a <= length w ->
  exists b1, w = a ++ b1 /\ b = b1 ++ s'.
Proof.
  intros H Hlen. symmetry in H.
  destruct (split_shorter w s' a b H Hlen) as (b1 & -> & ->).
  exists b1; auto.
Qed.

Section Cut.

Variable re : RegExp.

(** Scanning [X ++ R ++ Y] where every match that starts in [X] ends in
    [X] or behind [R]: either the scan arrives at [R] between two segments,
    or one match covers [R]. *)
Lemma scan_cut_cover (R Y : str) :
  forall n X p,
    length X <= n ->
    (forall X1 X2 k g,
        X = X1 ++ X2 -> X2 <> [] ->
        exec_at re (lastc p X1) (X2 ++ R ++ Y) = Some (k, g) ->
        0 < k /\ (k <= length X2 \/ length X2 + length R <= k)) ->
    (exists segs,
        scan re p (X ++ R ++ Y) 0 = segs ++ scan re (lastc p X) (R ++ Y) 0
        /\ flat_map src segs = X
        /\ incl segs (scan re p (X ++ R ++ Y) 0))
    \/ (exists segs X2 Y1 Y2 g,
          X2 <> [] /\ Y = Y1 ++ Y2 /\ flat_map src segs ++ X2 = X
          /\ scan re p (X ++ R ++ Y) 0
             = segs ++ Hit (X2 ++ R ++ Y1) g
                 :: scan re (lastc p (X ++ R ++ Y1)) Y2 0
          /\ incl (segs ++ [Hit (X2 ++ R ++ Y1) g]) (scan re p (X ++ R ++ Y) 0)).
Proof.
  induction n as [|n IH]; intros X p Hlen H.
  - destruct X; [|simpl in Hlen; lia].
    left. exists []. simpl. repeat split; auto. intros x [].
  - destruct X as [|x X].
    { left. exists []. simpl. repeat split; auto. intros y []. }
    destruct (exec_at re p ((x :: X) ++ R ++ Y)) as [[k g]|] eqn:E.
    + destruct (H [] (x :: X) k g eq_refl ltac:(discriminate) E) as [Hk Hor].
      destruct (exec_at_sound _ _ _ _ _ E) as (w & s' & Hw & -> & S1).
      assert (Hwne : w <> []) by (destruct w; [simpl in Hk; lia|discriminate]).
      destruct Hor as [Hin|Hover].
      * destruct (split_shorter _ _ _ _ Hw Hin) as (X' & HX & ->).
        rewrite HX in *. rewrite <- app_assoc in E |- *.
        rewrite (scan_hit re p w (X' ++ R ++ Y) g Hwne E).
        assert (Hlen' : length X' <= n).
        { rewrite length_app in Hlen. destruct w; [congruence|].
          simpl in Hlen. lia. }
        destruct (IH X' (lastc p w) Hlen') as [(segs & Hs & Hsrc & Hi)|Hc].
        { intros X1 X2 k' g' HX' Hne E'. rewrite <- lastc_app in E'.
          apply (H (w ++ X1) X2 k' g'); auto.
          rewrite HX', app_assoc. reflexivity. }
        -- left. exists (Hit w g :: segs). split; [|split].
           ++ rewrite Hs, lastc_app. reflexivity.
           ++ simpl. rewrite Hsrc. reflexivity.
           ++ intros y [<-|Hy]; [left; reflexivity|right].
              apply Hi; exact Hy.
        -- right. destruct Hc as (segs & X2 & Y1 & Y2 & g' & Hne & HY & Hsrc & Hs & Hi).
           exists (Hit w g :: segs), X2, Y1, Y2, g'.
           split; [exact Hne|]. split; [exact HY|]. split; [|split].
           ++ simpl. rewrite <- app_assoc, Hsrc. reflexivity.
           ++ rewrite Hs, <- app_assoc, (lastc_app p w). reflexivity.
           ++ intros y [<-|Hy]; [left; reflexivity|right].
              apply Hi; exact Hy.
      * right.
        rewrite app_assoc in Hw.
        assert (Hlen2 : length ((x :: X) ++ R) <= length w).
        { rewrite length_app. exact Hover. }
        destruct (split_longer _ _ _ _ Hw Hlen2) as (Y1 & HwY & HY).
        exists [], (x :: X), Y1, s', g.
        rewrite HwY, <- app_assoc in *.
        rewrite HY in *.
        assert (E2 : exec_at re p (((x :: X) ++ R ++ Y1) ++ s')
                     = Some (length ((x :: X) ++ R ++ Y1), g)).
        { rewrite <- E. f_equal. rewrite <- !app_assoc. reflexivity. }
        pose proof (scan_hit re p ((x :: X) ++ R ++ Y1) s' g Hwne E2) as Hs.
        rewrite <- !app_assoc in Hs.
        split; [discriminate|]. split; [reflexivity|]. split; [reflexivity|].
        split; [exact Hs|].
        rewrite Hs. simpl. intros y [<-|[]]. left; reflexivity.
    + simpl app in E |- *.
      rewrite (scan_miss re p x (X ++ R ++ Y) E).
      destruct (IH X (Some x) ltac:(simpl in Hlen; lia))
        as [(segs & Hs & Hsrc & Hi)|Hc].
      { intros X1 X2 k' g' HX' Hne E'.
        apply (H (x :: X1) X2 k' g'); auto. rewrite HX'. reflexivity. }
      * left. exists (Copy x :: segs). split; [|split].
        -- rewrite Hs. reflexivity.
        -- simpl. rewrite Hsrc. reflexivity.
        -- intros y [<-|Hy]; [left; reflexivity|right].
           apply Hi; exact Hy.
      * right. destruct Hc as (segs & X2 & Y1 & Y2 & g' & Hne & HY & Hsrc & Hs & Hi).
        exists (Copy x :: segs), X2, Y1, Y2, g'.
        split; [exact Hne|]. split; [exact HY|]. split; [|split].
        -- simpl. rewrite Hsrc. reflexivity.
        -- rewrite Hs. reflexivity.
        -- intros y [<-|Hy]; [left; reflexivity|right].
           apply Hi; exact Hy.
Qed.

End Cut.

(** ** Constructor calls *)

Lemma bool_by_cases (b : bool) : (b = false -> False) -> b = true.
Proof. destruct b; intros H; [reflexivity|destruct (H eq_refl)]. Qed.

Lemma bool_by_cases_f (b : bool) : (b = true -> False) -> b = false.
Proof. destruct b; intros H; [destruct (H eq_refl)|reflexivity]. Qed.

Lemma upper_word c : is_upper c = true -> is_word c = true.
Proof.
  unfold is_upper, is_word. intros ->. rewrite orb_true_r. reflexivity.
Qed.

Lemma word_ident_part c : is_word c = true -> is_ident_part c = true.
Proof.
  intros H. apply bool_by_cases; intros F.
  unfold is_word, is_ident_part, identPart in *.
  cbn [atom_matches existsb citem_matches xorb] in F.
  rewrite orb_false_r in F.
  destruct (in_range 97 122 c), (in_range 65 90 c), (in_range 48 57 c);
    simpl in *; try discriminate.
  unfold c_underscore in F. rewrite H in F. discriminate.
Qed.

Lemma word_not c x :
  is_word c = true -> is_word x = false -> (c =? x)%N = false.
Proof.
  intros H Hx. apply N.eqb_neq. intros ->. congruence.
Qed.

Lemma capitalized_word ident :
  capitalized ident = true -> forallb is_word ident = true.
Proof.
  destruct ident as [|c rest]; simpl; [discriminate|].
  intros H. apply andb_true_iff in H as [H1 H2].
  rewrite upper_word, H2; auto.
Qed.

Lemma wraps_whole_word_group X cat :
  Nat.ltb 0 (min_len X) = true ->
  wraps_whole (mkRegExp (WordB ;; Group X ;; WordB ;; guard)%re false)
    (spanTemplate (class_of cat) "") cat.
Proof.
  intros Hm p w s g H. cbn [source multiline] in H.
  destruct H as (w1 & w2 & c1 & -> & (-> & -> & _) & H).
  destruct H as (w3 & w4 & c2 & -> & (c3 & HX & ->) & H).
  destruct H as (w5 & w6 & c4 & -> & (-> & -> & _) & H).
  apply Sem_guard in H as (-> & -> & Hg).
  simpl app. rewrite !app_nil_r. split.
  - eapply Sem_nonempty; eauto.
  - apply expand_span_plain.
Qed.

Lemma wraps_whole_group_guard X cat :
  Nat.ltb 0 (min_len X) = true ->
  wraps_whole (mkRegExp (Group X ;; guard)%re false)
    (spanTemplate (class_of cat) "") cat.
Proof.
  intros Hm p w s g H. cbn [source multiline] in H.
  destruct H as (w3 & w4 & c2 & -> & (c3 & HX & ->) & H).
  apply Sem_guard in H as (-> & -> & Hg).
  rewrite !app_nil_r. split.
  - eapply Sem_nonempty; eauto.
  - apply expand_span_plain.
Qed.

Lemma wraps_whole_group X cat :
  Nat.ltb 0 (min_len X) = true ->
  wraps_whole (mkRegExp (Group X) false) (spanTemplate (class_of cat) "") cat.
Proof.
  intros Hm p w s g H. cbn [source multiline] in H.
  destruct H as (c3 & HX & ->). split.
  - eapply Sem_nonempty; eauto.
  - apply expand_span_plain.
Qed.

Lemma wraps_whole_string :
  wraps_whole stringRegex (spanTemplate "text-green-400" "") StringLit.
Proof. apply (wraps_whole_group _ StringLit); reflexivity. Qed.

Lemma wraps_whole_class :
  wraps_whole classRegex (spanTemplate "text-blue-400" "") ClassName.
Proof. apply (wraps_whole_word_group _ ClassName); reflexivity. Qed.

Lemma wraps_whole_decorator :
  wraps_whole decoratorRegex (spanTemplate "text-pink-400" "") Annotation.
Proof. apply (wraps_whole_group_guard _ Annotation); reflexivity. Qed.

Lemma lastc_nonempty p q w : w <> [] -> lastc p w = lastc q w.
Proof.
  destruct w as [|x w]; [congruence|]. reflexivity.
Qed.

Lemma boundary_app A B : B <> [] -> boundary (A ++ B) = boundary B.
Proof.
  intros H. unfold boundary. rewrite lastc_app.
  rewrite (lastc_nonempty (lastc None A) None B H). reflexivity.
Qed.

Lemma guard_clear_prefix Y1 : forall Y2 t,
  guard_clear (Y1 ++ Y2) = true -> guard_clear (Y1 ++ c_lt :: t) = true.
Proof.
  induction Y1 as [|x Y1 IH]; intros Y2 t H; simpl in *.
  - reflexivity.
  - destruct (x =? c_lt)%N; [reflexivity|].
    destruct (x =? c_gt)%N; [discriminate|]. eauto.
Qed.

Section Region.

Variables (re : RegExp) (tpl : str) (cat : category).
Hypothesis Wh : wraps_whole re tpl cat.

Lemma whole_exec p s n g :
  exec_at re p s = Some (n, g) ->
  exists w s',
    s = w ++ s' /\ n = length w /\ w <> []
    /\ expand tpl w g = open_tag cat ++ w ++ close_tag.
Proof.
  intros H. destruct (exec_at_sound _ _ _ _ _ H) as (w & s' & -> & -> & S1).
  destruct (Wh _ _ _ _ S1) as [Hne Hex].
  exists w, s'; auto.
Qed.

(** The replacements of a pass begin with a tag: what is clear of a
    closing bracket stays so. *)
Lemma render_guard_clear :
  forall Y p,
    guard_clear Y = true ->
    guard_clear (flat_map (render (expand tpl)) (scan re p Y 0)) = true.
Proof.
  induction Y as [|x Y IH]; intros p HY.
  - simpl. destruct (exec_at re p []) as [[n g]|] eqn:E; [|reflexivity].
    destruct (whole_exec _ _ _ _ E) as (w & s' & Hs & _ & Hne & _).
    destruct w; [congruence|discriminate].
  - simpl scan.
    destruct (exec_at re p (x :: Y)) as [[n g]|] eqn:E.
    + destruct (whole_exec _ _ _ _ E) as (w & s' & Hs & -> & Hne & Hex).
      rewrite Hs. rewrite firstn_app, Nat.sub_diag, firstn_all.
      simpl firstn. rewrite app_nil_r.
      cbn [flat_map render]. rewrite Hex. reflexivity.
    + cbn [flat_map render app]. simpl in HY |- *.
      destruct (x =? c_lt)%N; [reflexivity|].
      destruct (x =? c_gt)%N; [discriminate|]. apply IH; exact HY.
Qed.

Lemma render_boundary :
  forall segs,
    (forall m g, In (Hit m g) segs ->
                 exists p s, Sem (multiline re) (source re) p m s None g) ->
    boundary (flat_map src segs) = true ->
    boundary (flat_map (render (expand tpl)) segs) = true.
Proof.
  induction segs as [|sg segs IH] using rev_ind; intros Hs Hb.
  - reflexivity.
  - rewrite flat_map_app in *. cbn [flat_map] in *. rewrite app_nil_r in *.
    destruct sg as [c|m g].
    + cbn [src render] in *. rewrite boundary_app in * by discriminate.
      exact Hb.
    + destruct (Hs m g) as (p & s & S1); [apply in_or_app; right; left; auto|].
      destruct (Wh _ _ _ _ S1) as [Hne Hex].
      cbn [render]. rewrite Hex, !app_assoc.
      rewrite boundary_app by discriminate. reflexivity.
Qed.

Variables (R : str).
Hypothesis HR : R <> [].

(** A pass keeps a stretch [R] of the text in one piece when every match
    that starts in front of [R] ends in front of it or behind it, and no
    match starts in [R]. *)
Lemma region_kept X Y :
  (forall X1 X2 k g,
      X = X1 ++ X2 -> X2 <> [] ->
      exec_at re (lastc None X1) (X2 ++ R ++ Y) = Some (k, g) ->
      0 < k /\ (k <= length X2 \/ length X2 + length R <= k)) ->
  scan re (lastc None X) (R ++ Y) 0
  = map Copy R ++ scan re (lastc (lastc None X) R) Y 0 ->
  boundary X = true -> guard_clear Y = true ->
  exists X' Y',
    replace re tpl (X ++ R ++ Y) = X' ++ R ++ Y'
    /\ boundary X' = true /\ guard_clear Y' = true.
Proof.
  intros H1 H2 HbX HgY. unfold replace, replace_fn.
  destruct (scan_cut_cover re R Y (length X) X None (le_n _) H1)
    as [(segs & Hs & Hsrc & Hi)|(segs & X2 & Y1 & Y2 & g & Hne & HY & Hsrc & Hs & Hi)].
  - exists (flat_map (render (expand tpl)) segs),
           (flat_map (render (expand tpl)) (scan re (lastc (lastc None X) R) Y 0)).
    split; [|split].
    + rewrite Hs, H2, !flat_map_app, render_copies. reflexivity.
    + apply render_boundary; [|rewrite Hsrc; exact HbX].
      intros m g Hin. eapply scan_hits_sem. apply Hi. exact Hin.
    + apply render_guard_clear; exact HgY.
  - assert (S1 : exists p s, Sem (multiline re) (source re) p (X2 ++ R ++ Y1) s None g).
    { eapply scan_hits_sem. apply Hi. apply in_or_app; right; left; reflexivity. }
    destruct S1 as (p & s & S1). destruct (Wh _ _ _ _ S1) as [_ Hex].
    exists (flat_map (render (expand tpl)) segs ++ open_tag cat ++ X2),
           (Y1 ++ close_tag
            ++ flat_map (render (expand tpl))
                 (scan re (lastc None (X ++ R ++ Y1)) Y2 0)).
    split; [|split].
    + rewrite Hs, flat_map_app. cbn [flat_map render]. rewrite Hex.
      rewrite <- !app_assoc. reflexivity.
    + rewrite app_assoc, boundary_app by exact Hne.
      rewrite <- Hsrc, boundary_app in HbX by exact Hne. exact HbX.
    + rewrite HY in HgY. eapply guard_clear_prefix; exact HgY.
Qed.

End Region.

Lemma Sem_only ml P r :
  only P r -> forall p w s c c', Sem ml r p w s c c' -> forallb P w = true.
Proof.
  assert (Hall : forall a w, (forall x, atom_matches a x = true -> P x = true) ->
            forallb (atom_matches a) w = true -> forallb P w = true).
  { intros a w Ha Hw. apply forallb_forall. intros x Hx.
    rewrite forallb_forall in Hw. auto. }
  induction r as [|a|r1 IH1 r2 IH2|r1 IH1 r2 IH2|g a|g a|r1 IH1| | |r1 IH1];
    simpl; intros Ho p w s c c' H.
  - destruct H as [-> _]; reflexivity.
  - destruct H as (x & -> & Hx & _). simpl. rewrite (Ho x Hx). reflexivity.
  - destruct Ho as [O1 O2]. destruct H as (w1 & w2 & c1 & -> & S1 & S2).
    rewrite forallb_app. rewrite (IH1 O1 _ _ _ _ _ S1), (IH2 O2 _ _ _ _ _ S2).
    reflexivity.
  - destruct Ho as [O1 O2]. destruct H as [H|H]; eauto.
  - destruct H as [Hw _]. eauto.
  - destruct H as (_ & Hw & _). eauto.
  - destruct H as (c1 & S1 & _). eauto.
  - destruct H as [-> _]; reflexivity.
  - destruct H as [-> _]; reflexivity.
  - destruct H as [-> _]; reflexivity.
Qed.

Lemma only_lit P w : forallb P w = true -> only P (lit w).
Proof.
  induction w as [|a w IH]; intros H; [exact I|].
  simpl in H. apply andb_true_iff in H as [Ha Hw].
  destruct w as [|b w].
  - simpl. intros x Hx. apply N.eqb_eq in Hx. subst; exact Ha.
  - change (lit (a :: b :: w)) with (Seq (At (AChar a)) (lit (b :: w))).
    split; [|apply IH; exact Hw].
    simpl. intros x Hx. apply N.eqb_eq in Hx. subst; exact Ha.
Qed.

Lemma only_alt_join P rs : Forall (only P) rs -> only P (alt_join rs).
Proof.
  induction 1 as [|r rs Hr Hrs IH]; [exact I|].
  destruct rs as [|r' rs]; [exact Hr|].
  change (alt_join (r :: r' :: rs)) with (Alt r (alt_join (r' :: rs))).
  split; auto.
Qed.

Lemma only_words P ws :
  forallb (forallb P) ws = true -> only P (alt_join (map lit ws)).
Proof.
  intros H. apply only_alt_join. apply Forall_forall. intros r Hr.
  apply in_map_iff in Hr as (w & <- & Hw).
  apply only_lit. rewrite forallb_forall in H. auto.
Qed.

Lemma Sem_alt_join_lit ml ws :
  ws <> [] ->
  forall p w s c c', Sem ml (alt_join (map lit ws)) p w s c c' -> In w ws.
Proof.
  induction ws as [|a ws IH]; intros Hne p w s c c' H; [congruence|].
  destruct ws as [|b ws].
  - simpl in H. apply Sem_lit in H as [-> _]. left; reflexivity.
  - change (alt_join (map lit (a :: b :: ws)))
      with (Alt (lit a) (alt_join (map lit (b :: ws)))) in H.
    destruct H as [H|H].
    + apply Sem_lit in H as [-> _]. left; reflexivity.
    + right. eapply IH; [discriminate|exact H].
Qed.

(** Code units a match of [re] cannot end in / begin with. *)
Lemma no_partial_overlap (E : char -> bool) (X2 R Y w s' : str) :
  (exists w0 z, w = w0 ++ [z] /\ E z = true) ->
  forallb (fun c => negb (E c)) R = true ->
  X2 ++ R ++ Y = w ++ s' ->
  length w <= length X2 \/ length X2 + length R <= length w.
Proof.
  intros (w0 & z & Hw & Hz) HR H.
  destruct (Nat.le_gt_cases (length w) (length X2)) as [?|Hgt]; [left; auto|].
  destruct (Nat.le_gt_cases (length X2 + length R) (length w)) as [?|Hlt];
    [right; auto|].
  exfalso.
  destruct (split_longer _ _ _ _ H ltac:(lia)) as (b1 & Hb & H').
  assert (Hlen : length b1 <= length R).
  { rewrite Hb, length_app in Hlt. lia. }
  destruct (split_shorter _ _ _ _ H' Hlen) as (a2 & HRa & _).
  assert (Hb1 : b1 <> []).
  { intros ->. rewrite Hb, app_nil_r in Hgt. lia. }
  destruct (exists_last Hb1) as (b0 & z' & ->).
  rewrite Hb, app_assoc in Hw. apply app_inj_tail in Hw as [_ ->].
  rewrite HRa, !forallb_app in HR. simpl in HR. rewrite Hz in HR.
  rewrite !andb_false_r in HR. discriminate.
Qed.

Lemma scan_copy_run re (P : char -> bool) :
  (forall p x s, P x = true -> exec_at re p (x :: s) = None) ->
  forall run s p,
    forallb P run = true ->
    scan re p (run ++ s) 0 = map Copy run ++ scan re (lastc p run) s 0.
Proof.
  intros Hnone. induction run as [|x run IH]; intros s p Hrun.
  - reflexivity.
  - simpl in Hrun. apply andb_true_iff in Hrun as [Hx Hrun].
    simpl app. rewrite scan_miss by (apply Hnone; exact Hx).
    rewrite IH by exact Hrun. reflexivity.
Qed.

Lemma boundary_word_run X2 :
  X2 <> [] -> forallb is_word X2 = true -> boundary X2 = false.
Proof.
  intros Hne Hw. destruct (exists_last Hne) as (X0 & z & ->).
  rewrite forallb_app in Hw. simpl in Hw.
  apply andb_true_iff in Hw as [_ Hz]. apply andb_true_iff in Hz as [Hz _].
  rewrite boundary_app by discriminate. unfold boundary. simpl.
  rewrite (word_ident_part z Hz). reflexivity.
Qed.

Lemma boundary_prev X : boundary X = true -> is_word_opt (lastc None X) = false.
Proof.
  unfold boundary. destruct (lastc None X) as [c|]; [|reflexivity].
  intros H. apply negb_true_iff in H. simpl.
  apply bool_by_cases_f. intros Hw. rewrite (word_ident_part c Hw) in H.
  discriminate.
Qed.

Lemma lastc_word p w :
  w <> [] -> forallb is_word w = true -> is_word_opt (lastc p w) = true.
Proof.
  intros Hne Hw. destruct (exists_last Hne) as (w0 & z & ->).
  rewrite lastc_app. simpl. rewrite forallb_app in Hw. simpl in Hw.
  apply andb_true_iff in Hw as [_ Hz]. apply andb_true_iff in Hz as [Hz _].
  exact Hz.
Qed.

Lemma scan_inside_word re :
  (forall p x s, is_word_opt p = true -> is_word x = true ->
                 exec_at re p (x :: s) = None) ->
  forall run s p,
    is_word_opt p = true -> forallb is_word run = true ->
    scan re p (run ++ s) 0 = map Copy run ++ scan re (lastc p run) s 0.
Proof.
  intros Hnone. induction run as [|x run IH]; intros s p Hp Hrun.
  - reflexivity.
  - simpl in Hrun. apply andb_true_iff in Hrun as [Hx Hrun].
    simpl app. rewrite scan_miss by (apply Hnone; assumption).
    rewrite IH by assumption. reflexivity.
Qed.

(** What a match of [\b(G)\b(?![^<]*>)] is. *)
Lemma word_group_sem G p w s g :
  Sem false (WordB ;; Group G ;; WordB ;; guard)%re p w s None g ->
  (exists c', Sem false G p w s None c')
  /\ xorb (is_word_opt p) (is_word_opt (hd_error (w ++ s))) = true
  /\ xorb (is_word_opt (lastc p w)) (is_word_opt (hd_error s)) = true
  /\ guard_clear s = true.
Proof.
  intros H.
  destruct H as (w1 & w2 & c1 & -> & (-> & -> & Hb1) & H).
  destruct H as (w3 & w4 & c2 & -> & (c3 & HX & ->) & H).
  destruct H as (w5 & w6 & c4 & -> & (-> & -> & Hb2) & H).
  apply Sem_guard in H as (-> & -> & Hg).
  simpl in *. rewrite !app_nil_r in *. eauto.
Qed.

Section Call.

Variable ident : str.
Hypothesis Hcap : capitalized ident = true.

Local Abbreviation call := (call ident).

Lemma call_nonempty : call <> [].
Proof. unfold call. destruct ident; discriminate. Qed.

Lemma call_all (Q : char -> bool) :
  (forall c, is_word c = true -> Q c = true) -> Q c_lparen = true ->
  forallb Q call = true.
Proof.
  intros Hw Hl. unfold call. rewrite forallb_app. simpl. rewrite Hl.
  rewrite andb_true_r. apply forallb_forall. intros x Hx. apply Hw.
  pose proof (capitalized_word ident Hcap) as H.
  rewrite forallb_forall in H. auto.
Qed.

(** The string pass keeps the call in one piece. *)
Lemma string_keeps_call X Y :
  boundary X = true -> guard_clear Y = true ->
  exists X' Y',
    replace stringRegex (spanTemplate "text-green-400" "") (X ++ call ++ Y)
    = X' ++ call ++ Y'
    /\ boundary X' = true /\ guard_clear Y' = true.
Proof.
  intros HbX HgY.
  apply (region_kept stringRegex _ StringLit wraps_whole_string call X Y); auto.
  - intros X1 X2 k g HX Hne E.
    destruct (exec_at_sound _ _ _ _ _ E) as (w & s' & Hw & -> & S1).
    apply Sem_string in S1 as (_ & Hforms).
    assert (Hend : exists w0 z, w = w0 ++ [z]
                     /\ ((z =? 59)%N || (z =? 96)%N) = true).
    { destruct Hforms as [(v & -> & _)|[(v & -> & _)|(v & -> & _)]].
      - exists (u "&quot;" ++ v ++ u "&quot"), 59%N. split; [|reflexivity].
        rewrite <- !app_assoc. reflexivity.
      - exists (u "&#x27;" ++ v ++ u "&#x27"), 59%N. split; [|reflexivity].
        rewrite <- !app_assoc. reflexivity.
      - exists (c_backtick :: v), 96%N. split; reflexivity. }
    split.
    + destruct Hend as (w0 & z & -> & _). rewrite length_app. simpl. lia.
    + eapply (no_partial_overlap _ X2 call Y w s' Hend); [|exact Hw].
      apply call_all; [|reflexivity].
      intros c Hc. apply negb_true_iff. apply orb_false_iff. split.
      * apply word_not; [exact Hc|reflexivity].
      * apply word_not; [exact Hc|reflexivity].
  - apply (scan_copy_run stringRegex
             (fun c => negb (c =? c_amp)%N && negb (c =? c_backtick)%N)).
    + intros p x s Hx. apply andb_true_iff in Hx as [H1 H2].
      apply negb_true_iff in H1, H2. apply exec_string_other; assumption.
    + apply call_all; [|reflexivity].
      intros c Hc. apply andb_true_iff. split; apply negb_true_iff.
      * apply word_not; [exact Hc|reflexivity].
      * apply word_not; [exact Hc|reflexivity].
Qed.

(** A pass [\b(G)\b(?![^<]*>)] whose group only reads word characters
    and cannot read the identifier keeps the call in one piece. *)
Lemma word_group_keeps_call G cat X Y :
  Nat.ltb 0 (min_len G) = true ->
  only is_word G ->
  (forall p s c c', ~ Sem false G p ident s c c') ->
  boundary X = true -> guard_clear Y = true ->
  exists X' Y',
    replace (mkRegExp (WordB ;; Group G ;; WordB ;; guard)%re false)
      (spanTemplate (class_of cat) "") (X ++ call ++ Y)
    = X' ++ call ++ Y'
    /\ boundary X' = true /\ guard_clear Y' = true.
Proof.
  intros Hm Ho Hnot HbX HgY.
  set (re := mkRegExp (WordB ;; Group G ;; WordB ;; guard)%re false).
  assert (Hfacts : forall p s k g,
            exec_at re p s = Some (k, g) ->
            exists w s',
              s = w ++ s' /\ k = length w /\ w <> []
              /\ forallb is_word w = true
              /\ (exists c', Sem false G p w s' None c')
              /\ xorb (is_word_opt p) (is_word_opt (hd_error (w ++ s'))) = true
              /\ xorb (is_word_opt (lastc p w)) (is_word_opt (hd_error s')) = true).
  { intros p s k g E.
    destruct (exec_at_sound _ _ _ _ _ E) as (w & s' & -> & -> & S1).
    apply word_group_sem in S1 as ((c' & SG) & B1 & B2 & _).
    exists w, s'. repeat split; auto.
    - eapply Sem_nonempty; eauto.
    - eapply Sem_only; eauto.
    - eauto. }
  apply (region_kept re _ cat (wraps_whole_word_group G cat Hm) call X Y); auto.
  - intros X1 X2 k g HX Hne E.
    destruct (Hfacts _ _ _ _ E) as (w & s' & Hw & -> & Hwne & Hword & _).
    split; [destruct w; [congruence|simpl; lia]|]. left.
    destruct (Nat.le_gt_cases (length w) (length X2)) as [?|Hgt]; [auto|].
    exfalso.
    destruct (split_longer _ _ _ _ Hw ltac:(lia)) as (b1 & -> & _).
    rewrite forallb_app in Hword. apply andb_true_iff in Hword as [HX2 _].
    rewrite HX, boundary_app in HbX by exact Hne.
    rewrite (boundary_word_run X2 Hne HX2) in HbX. discriminate.
  - pose proof (boundary_prev X HbX) as Hp.
    set (p0 := lastc None X) in *.
    pose proof (capitalized_word ident Hcap) as Hid.
    assert (Hidne : ident <> []) by (destruct ident; [discriminate|discriminate]).
    assert (E0 : exec_at re p0 (ident ++ c_lparen :: Y) = None).
    { destruct (exec_at re p0 (ident ++ c_lparen :: Y)) as [[k g]|] eqn:E;
        [|reflexivity].
      exfalso.
      destruct (Hfacts _ _ _ _ E)
        as (w & s' & Hw & -> & Hwne & Hword & (c' & SG) & _ & B2).
      destruct (Nat.le_gt_cases (length w) (length ident)) as [Hle|Hgt].
      - destruct (split_shorter _ _ _ _ Hw Hle) as (i2 & Hi & ->).
        destruct i2 as [|y i2].
        + rewrite app_nil_r in Hi. subst w. exact (Hnot _ _ _ _ SG).
        + rewrite (lastc_word p0 w Hwne Hword) in B2. simpl in B2.
          rewrite Hi, forallb_app in Hid. simpl in Hid.
          apply andb_true_iff in Hid as [_ Hy].
          apply andb_true_iff in Hy as [Hy _]. rewrite Hy in B2. discriminate.
      - destruct (split_longer _ _ _ _ Hw ltac:(lia)) as (b1 & Hb & Hb').
        destruct b1 as [|z b1].
        + rewrite Hb, app_nil_r in Hgt. lia.
        + inversion Hb'; subst z. rewrite Hb, forallb_app in Hword.
          simpl in Hword. rewrite andb_false_r in Hword. discriminate. }
    assert (Hin : forall p x s, is_word_opt p = true -> is_word x = true ->
                                exec_at re p (x :: s) = None).
    { intros p x s Hpw Hx.
      destruct (exec_at re p (x :: s)) as [[k g]|] eqn:E; [|reflexivity].
      exfalso.
      destruct (Hfacts _ _ _ _ E) as (w & s' & Hw & _ & _ & _ & _ & B1 & _).
      rewrite <- Hw in B1. simpl in B1. rewrite Hpw, Hx in B1. discriminate. }
    assert (Hlp : forall p s, exec_at re p (c_lparen :: s) = None).
    { intros p s.
      destruct (exec_at re p (c_lparen :: s)) as [[k g]|] eqn:E; [|reflexivity].
      exfalso.
      destruct (Hfacts _ _ _ _ E) as (w & s' & Hw & _ & Hwne & Hword & _).
      destruct w as [|z w]; [congruence|]. inversion Hw; subst z.
      simpl in Hword. discriminate. }
    unfold call. destruct ident as [|c rest] eqn:Eid; [congruence|].
    rewrite <- app_assoc. simpl app in *.
    rewrite scan_miss by exact E0.
    simpl in Hid. apply andb_true_iff in Hid as [Hc Hrest].
    rewrite (scan_inside_word re Hin rest (c_lparen :: Y) (Some c) Hc Hrest).
    rewrite scan_miss by apply Hlp.
    simpl. rewrite map_app, <- app_assoc, lastc_app. reflexivity.
Qed.

Lemma upper_ident_start c : is_upper c = true -> atom_matches identStart c = true.
Proof.
  unfold is_upper, identStart. cbn [atom_matches existsb citem_matches xorb].
  intros ->. rewrite orb_true_r. reflexivity.
Qed.

Lemma guard_none (k : cont) p Y c :
  (forall p c, k (MState p [] c) = None) ->
  (forall p x s c, k (MState p (x :: s) c) = None <-> (x =? c_gt)%N = false) ->
  guard_clear Y = true ->
  star_loop true (AClass true [CChar c_lt]) k p Y c = None.
Proof.
  intros H1 H2 HY. apply (guard_loop_gen k H1 H2). exact HY.
Qed.

Lemma exec_function_call p Y :
  is_word_opt p = false -> guard_clear Y = true ->
  exec_at functionRegex p (ident ++ c_lparen :: Y)
  = Some (S (length ident), Some ident).
Proof.
  intros Hp HgY.
  destruct ident as [|c tl0] eqn:Eid; [discriminate|].
  simpl in Hcap. apply andb_true_iff in Hcap as [Hc Htl].
  unfold exec_at, functionRegex.
  cbn -[star_loop firstn length Nat.sub is_word_opt is_word atom_matches identStart identPart].
  rewrite Hp. cbn [is_word_opt]. rewrite (upper_word c Hc). cbn [xorb].
  rewrite (upper_ident_start c Hc).
  erewrite star_loop_greedy_run; cycle 1.
  - apply forallb_forall. intros x Hx. rewrite forallb_forall in Htl.
    apply (word_ident_part x). auto.
  - reflexivity.
  - cbn [rest prev star_loop].
    replace (atom_matches (AClass false [CSpace]) c_lparen) with false
      by reflexivity.
    cbn [rest cap1].
    replace (atom_matches (AChar c_lparen) c_lparen) with true by reflexivity.
    rewrite guard_none; [reflexivity| | |exact HgY].
    + reflexivity.
    + intros p1 x s c1. cbn [rest]. cbn [atom_matches].
      destruct (x =? c_gt)%N; split; congruence.
  - cbn [rest cap1].
    match goal with
    | |- context [firstn _ ?l] =>
        assert (E : l = (c :: tl0) ++ c_lparen :: Y) by reflexivity;
        rewrite E
    end.
    rewrite firstn_consumed.
    f_equal. f_equal. rewrite length_app. cbn [length]. lia.
Qed.

Lemma ident_start_part x :
  atom_matches identStart x = true -> is_ident_part x = true.
Proof.
  unfold is_ident_part, identStart, identPart.
  cbn [atom_matches existsb citem_matches xorb].
  destruct (in_range 97 122 x), (in_range 65 90 x), (in_range 48 57 x),
    (x =? c_underscore)%N, (x =? c_dollar)%N; simpl; congruence.
Qed.

(** What a match of the call-site pattern is. *)
Lemma function_sem p w s g :
  Sem false (source functionRegex) p w s None g ->
  exists gw ws,
    w = gw ++ ws ++ [c_lparen] /\ gw <> []
    /\ forallb is_ident_part gw = true /\ forallb is_space ws = true
    /\ g = Some gw.
Proof.
  unfold functionRegex. cbn [source]. intros H.
  destruct H as (w1 & w2 & c1 & -> & (-> & -> & _) & H).
  destruct H as (w3 & w4 & c2 & -> & (c3 & HX & ->) & H).
  destruct H as (w5 & w6 & c4 & -> & (Hws & ->) & H).
  destruct H as (w7 & w8 & c5 & -> & (x & -> & Hx & ->) & H).
  apply Sem_guard in H as (-> & -> & Hg).
  apply N.eqb_eq in Hx. subst x.
  destruct HX as (v1 & v2 & c6 & -> & (y & -> & Hy & _) & (Hv2 & _)).
  exists ([y] ++ v2), w5. simpl app. rewrite ?app_nil_r.
  split; [reflexivity|]. split; [discriminate|]. split; [|split].
  - simpl. rewrite (ident_start_part y Hy). simpl.
    apply forallb_forall. intros x Hx. rewrite forallb_forall in Hv2.
    apply Hv2. exact Hx.
  - apply forallb_forall. intros x Hx.
    rewrite forallb_forall in Hws. specialize (Hws x Hx).
    simpl in Hws. rewrite orb_false_r in Hws. exact Hws.
  - reflexivity.
Qed.

Lemma upper_not_space c : is_upper c = true -> is_space c = false.
Proof.
  intros H. apply bool_by_cases_f. intros F.
  unfold is_upper, is_space, in_range in *.
  apply andb_true_iff in H as [H1 H2]. apply N.leb_le in H1, H2.
  repeat (apply orb_true_iff in F; destruct F as [F|F]);
    repeat match goal with
    | H : _ && _ = true |- _ => apply andb_true_iff in H; destruct H
    | H : (_ <=? _)%N = true |- _ => apply N.leb_le in H
    | H : (_ =? _)%N = true |- _ => apply N.eqb_eq in H
    end; lia.
Qed.

(** No match of the call-site pattern runs from text that ends at an
    identifier boundary into an identifier behind it. *)
Lemma function_no_pair p w s g X2 c t :
  Sem false (source functionRegex) p w s None g ->
  w = X2 ++ c :: t -> X2 <> [] -> boundary X2 = true -> is_upper c = true ->
  False.
Proof.
  intros S1 Hw Hne Hb Hc.
  apply function_sem in S1 as (gw & ws & Hw' & _ & Hgw & Hws & _).
  destruct (exists_last Hne) as (X0 & z & ->).
  rewrite boundary_app in Hb by discriminate.
  unfold boundary in Hb. simpl in Hb. apply negb_true_iff in Hb.
  rewrite Hw in Hw'.
  apply app_eq_app in Hw' as (l & [[H1 H2]|[H1 H2]]).
  - assert (Hin : In c (ws ++ [c_lparen])).
    { rewrite H2. apply in_or_app. right. left. reflexivity. }
    apply in_app_or in Hin as [Hin|[Hin|[]]].
    + rewrite forallb_forall in Hws. specialize (Hws c Hin).
      rewrite (upper_not_space c Hc) in Hws. discriminate.
    + subst c. discriminate.
  - rewrite H1, <- app_assoc, forallb_app in Hgw.
    apply andb_true_iff in Hgw as [_ Hgw]. simpl in Hgw.
    rewrite Hb in Hgw. discriminate.
Qed.

(** The call-site pass wraps the identifier of the call. *)
Lemma function_tags_call X Y :
  boundary X = true -> guard_clear Y = true ->
  exists X' Y',
    replace functionRegex (spanTemplate "text-yellow-400" "(") (X ++ call ++ Y)
    = X' ++ open_tag FunctionName ++ ident ++ close_tag ++ [c_lparen] ++ Y'.
Proof.
  intros HbX HgY. unfold replace, replace_fn.
  assert (Hidne : exists c t, ident = c :: t /\ is_upper c = true).
  { destruct ident as [|c t]; [discriminate|]. simpl in Hcap.
    apply andb_true_iff in Hcap as [Hc _]. eauto. }
  destruct Hidne as (c & t & Eid & Hc).
  assert (Hcall : forall Z, call ++ Z = c :: t ++ c_lparen :: Z).
  { intros Z. unfold call. rewrite Eid, <- app_assoc. reflexivity. }
  destruct (scan_cut_cover functionRegex call Y (length X) X None (le_n _))
    as [(segs & Hs & Hsrc & Hi)|(segs & X2 & Y1 & Y2 & g & Hne & HY & Hsrc & Hs & Hi)].
  - intros X1 X2 k g HX Hne E.
    destruct (exec_at_sound _ _ _ _ _ E) as (w & s' & Hw & -> & S1).
    split.
    + apply function_sem in S1 as (gw & ws & -> & _).
      rewrite !length_app. simpl. lia.
    + left.
      destruct (Nat.le_gt_cases (length w) (length X2)) as [?|Hgt]; [auto|].
      exfalso.
      destruct (split_longer _ _ _ _ Hw ltac:(lia)) as (b1 & Hb & Hb').
      destruct b1 as [|z b1]; [rewrite Hb, app_nil_r in Hgt; lia|].
      rewrite Hcall in Hb'. inversion Hb'; subst z.
      rewrite HX, boundary_app in HbX by exact Hne.
      exact (function_no_pair _ _ _ _ X2 c b1 S1 Hb Hne HbX Hc).
  - pose proof (exec_function_call (lastc None X) Y (boundary_prev X HbX) HgY) as E.
    assert (Hlen : S (length ident) = length call).
    { unfold call. rewrite length_app. simpl. lia. }
    rewrite Hlen in E.
    assert (Hc2 : ident ++ c_lparen :: Y = call ++ Y).
    { unfold call. rewrite <- app_assoc. reflexivity. }
    rewrite Hc2 in E.
    rewrite Hs, (scan_hit functionRegex _ call Y (Some ident) call_nonempty E).
    exists (flat_map (render (expand (spanTemplate "text-yellow-400" "("))) segs),
           (flat_map (render (expand (spanTemplate "text-yellow-400" "(")))
              (scan functionRegex (lastc (lastc None X) call) Y 0)).
    rewrite flat_map_app. cbn [flat_map render].
    rewrite expand_span_call. rewrite <- !app_assoc. reflexivity.
  - exfalso.
    assert (S1 : exists p s,
               Sem false (source functionRegex) p (X2 ++ call ++ Y1) s None g).
    { eapply (scan_hits_sem functionRegex). apply Hi.
      apply in_or_app; right; left; reflexivity. }
    destruct S1 as (p & s & S1).
    rewrite <- Hsrc, boundary_app in HbX by exact Hne.
    rewrite Hcall in S1.
    exact (function_no_pair _ _ _ _ X2 c _ S1 eq_refl Hne HbX Hc).
Qed.

End Call.

(** A guarded pass arrives at a tag between two segments. *)
Lemma cut_before_angle re tpl cat :
  wraps true re tpl cat ->
  forall X M Y p,
    exists segs,
      scan re p (X ++ (c_lt :: M) ++ Y) 0
      = segs ++ scan re (lastc p X) ((c_lt :: M) ++ Y) 0
      /\ flat_map src segs = X.
Proof.
  intros W X M Y p.
  assert (Hplain : forall q w s g,
            Sem (multiline re) (source re) q w s None g ->
            w <> [] /\ forallb plain w = true).
  { intros q w s g S1.
    destruct (W _ _ _ _ S1) as (gw & ws & e & -> & Hne & _ & _ & Hg).
    split; [destruct gw; [congruence|discriminate]|]. apply Hg; reflexivity. }
  destruct (scan_cut_cover re (c_lt :: M) Y (length X) X p (le_n _))
    as [(segs & Hs & Hsrc & _)|(segs & X2 & Y1 & Y2 & g & Hne & HY & Hsrc & Hs & Hi)].
  - intros X1 X2 k g HX Hne E.
    destruct (exec_at_sound _ _ _ _ _ E) as (w & s' & Hw & -> & S1).
    destruct (Hplain _ _ _ _ S1) as [Hwne Hp].
    split; [destruct w; [congruence|simpl; lia]|]. left.
    destruct (Nat.le_gt_cases (length w) (length X2)) as [?|Hgt]; [auto|].
    exfalso.
    destruct (split_longer _ _ _ _ Hw ltac:(lia)) as (b1 & Hb & Hb').
    destruct b1 as [|z b1]; [rewrite Hb, app_nil_r in Hgt; lia|].
    inversion Hb'; subst z. rewrite Hb, forallb_app in Hp.
    simpl in Hp. rewrite andb_false_r in Hp. discriminate.
  - exists segs; auto.
  - exfalso.
    assert (S1 : exists q s,
               Sem (multiline re) (source re) q (X2 ++ (c_lt :: M) ++ Y1) s None g).
    { eapply scan_hits_sem. apply Hi.
      apply in_or_app; right; left; reflexivity. }
    destruct S1 as (q & s & S1). destruct (Hplain _ _ _ _ S1) as [_ Hp].
    rewrite forallb_app in Hp. simpl in Hp. rewrite andb_false_r in Hp.
    discriminate.
Qed.

Lemma scan_open_tag re tpl cat c0 s p :
  wraps true re tpl cat ->
  scan re p (open_tag c0 ++ s) 0
  = map Copy (open_tag c0) ++ scan re (Some c_gt) s 0.
Proof.
  intros W. exact (scan_tag true re tpl cat W (TOpen c0) s p eq_refl eq_refl).
Qed.

Lemma scan_close_tag re tpl cat s p :
  wraps true re tpl cat ->
  scan re p (close_tag ++ s) 0 = map Copy close_tag ++ scan re (Some c_gt) s 0.
Proof.
  intros W. exact (scan_tag true re tpl cat W TClose s p eq_refl eq_refl).
Qed.

Section Inside.

Variable ident : str.
Hypothesis Hcap : capitalized ident = true.

Lemma exec_class_inside Z :
  exec_at classRegex (Some c_gt) (ident ++ c_lt :: Z)
  = Some (length ident, Some ident).
Proof.
  destruct ident as [|c tl0] eqn:Eid; [discriminate|].
  simpl in Hcap. apply andb_true_iff in Hcap as [Hc Htl].
  unfold exec_at, classRegex.
  cbn -[star_loop firstn length Nat.sub is_word atom_matches identPart].
  rewrite (upper_word c Hc). change (is_word c_gt) with false. cbn [xorb].
  replace (atom_matches (AClass false [CRange 65 90]) c) with true
    by (symmetry; cbn [atom_matches existsb citem_matches xorb];
        unfold is_upper in Hc; rewrite Hc; reflexivity).
  erewrite star_loop_greedy_run; cycle 1.
  - apply forallb_forall. intros x Hx. rewrite forallb_forall in Htl.
    apply (word_ident_part x). auto.
  - reflexivity.
  - cbn [rest prev cap1 hd_error].
    assert (Hl : is_word_opt (lastc (Some c) tl0) = true).
    { apply (lastc_word None (c :: tl0)); [discriminate|].
      simpl. rewrite (upper_word c Hc). exact Htl. }
    unfold is_word_opt in Hl |- *. rewrite Hl.
    reflexivity.
  - cbn [rest cap1].
    match goal with
    | |- context [firstn _ ?l] =>
        assert (E : l = (c :: tl0) ++ c_lt :: Z) by reflexivity;
        rewrite E
    end.
    cbn [rest cap1].
    rewrite firstn_consumed, length_app, Nat.add_sub. reflexivity.
Qed.

Lemma ident_nonempty : ident <> [].
Proof. destruct ident; [discriminate|discriminate]. Qed.

(** The class-name pass after the call-site pass. *)
Lemma class_tags_inside X Y :
  exists X' Y',
    replace classRegex (spanTemplate "text-blue-400" "")
      (X ++ open_tag FunctionName ++ ident ++ close_tag ++ c_lparen :: Y)
    = X' ++ open_tag FunctionName
      ++ (open_tag ClassName ++ ident ++ close_tag)
      ++ close_tag ++ c_lparen :: Y'.
Proof.
  unfold replace, replace_fn.
  set (T := spanTemplate "text-blue-400" "").
  destruct (tag_shape (TOpen FunctionName) eq_refl) as (body & Hb & _).
  cbn [render_token] in Hb.
  set (Z := ident ++ close_tag ++ c_lparen :: Y).
  destruct (cut_before_angle classRegex _ ClassName wraps_class
              X (body ++ [c_gt]) Z None) as (segs & Hs & Hsrc).
  rewrite <- Hb in Hs. rewrite Hs.
  rewrite (scan_open_tag classRegex _ ClassName FunctionName Z _ wraps_class).
  unfold Z.
  pose proof (exec_class_inside (u "/span>" ++ c_lparen :: Y)) as E.
  change (c_lt :: u "/span>" ++ c_lparen :: Y)
    with (close_tag ++ c_lparen :: Y) in E.
  rewrite (scan_hit classRegex (Some c_gt) ident (close_tag ++ c_lparen :: Y)
             (Some ident) ident_nonempty E).
  rewrite (scan_close_tag classRegex _ ClassName (c_lparen :: Y) _ wraps_class).
  rewrite (scan_miss classRegex (Some c_gt) c_lparen Y) by reflexivity.
  exists (flat_map (render (expand T)) segs),
         (flat_map (render (expand T)) (scan classRegex (Some c_lparen) Y 0)).
  rewrite !flat_map_app, render_copies. cbn [flat_map render].
  rewrite !flat_map_app, render_copies. cbn [flat_map render].
  unfold T. rewrite (expand_span_plain ClassName).
  rewrite <- !app_assoc. reflexivity.
Qed.

Lemma exec_decorator_other p x s :
  (x =? c_at)%N = false -> exec_at decoratorRegex p (x :: s) = None.
Proof.
  intros H. unfold exec_at.
  cbn -[star_loop firstn length Nat.sub N.eqb atom_matches identStart identPart].
  cbn [atom_matches]. rewrite H. reflexivity.
Qed.

(** The annotation pass leaves the wrapped call as it is. *)
Lemma decorator_keeps_inside X Y :
  exists X' Y',
    replace decoratorRegex (spanTemplate "text-pink-400" "")
      (X ++ open_tag FunctionName
         ++ (open_tag ClassName ++ ident ++ close_tag)
         ++ close_tag ++ c_lparen :: Y)
    = X' ++ open_tag FunctionName
      ++ (open_tag ClassName ++ ident ++ close_tag)
      ++ close_tag ++ c_lparen :: Y'.
Proof.
  unfold replace, replace_fn.
  set (T := spanTemplate "text-pink-400" "").
  destruct (tag_shape (TOpen FunctionName) eq_refl) as (body & Hb & _).
  cbn [render_token] in Hb.
  set (Z := (open_tag ClassName ++ ident ++ close_tag)
            ++ close_tag ++ c_lparen :: Y).
  destruct (cut_before_angle decoratorRegex _ Annotation wraps_decorator
              X (body ++ [c_gt]) Z None) as (segs & Hs & Hsrc).
  rewrite <- Hb in Hs. rewrite Hs.
  rewrite (scan_open_tag decoratorRegex _ Annotation FunctionName Z _
             wraps_decorator).
  unfold Z. rewrite <- !app_assoc.
  rewrite (scan_open_tag decoratorRegex _ Annotation ClassName _ _
             wraps_decorator).
  rewrite (scan_copy_run decoratorRegex is_word) with (run := ident).
  2:{ intros p x s Hx. apply exec_decorator_other.
      apply word_not; [exact Hx|reflexivity]. }
  2:{ apply capitalized_word; exact Hcap. }
  rewrite (scan_close_tag decoratorRegex _ Annotation _ _ wraps_decorator).
  rewrite (scan_close_tag decoratorRegex _ Annotation _ _ wraps_decorator).
  rewrite (scan_miss decoratorRegex (Some c_gt) c_lparen Y) by reflexivity.
  exists (flat_map (render (expand T)) segs),
         (flat_map (render (expand T)) (scan decoratorRegex (Some c_lparen) Y 0)).
  rewrite !flat_map_app, !render_copies. cbn [flat_map render].
  rewrite <- !app_assoc. reflexivity.
Qed.

End Inside.

Lemma escape_plain_run w :
  forallb (fun c => negb (is_special c)) w = true -> Spec.escape w = w.
Proof.
  induction w as [|x w IH]; simpl; intros H; [reflexivity|].
  apply andb_true_iff in H as [Hx Hw]. apply negb_true_iff in Hx.
  change (Spec.escape (x :: w)) with (Spec.escape_char x ++ Spec.escape w).
  rewrite escape_other by exact Hx.
  rewrite IH by exact Hw. reflexivity.
Qed.

Lemma word_not_special c : is_word c = true -> is_special c = false.
Proof.
  intros H. unfold is_special. cbn [atom_matches existsb citem_matches xorb].
  rewrite !(word_not c) by (exact H || reflexivity). reflexivity.
Qed.

Lemma escape_boundary pre : boundary pre = true -> boundary (Spec.escape pre) = true.
Proof.
  destruct pre as [|a pre0] using rev_ind; [reflexivity|].
  intros H. rewrite boundary_app in H by discriminate.
  rewrite escape_app. change (Spec.escape [a]) with (Spec.escape_char a ++ []).
  rewrite app_nil_r.
  destruct (is_special a) eqn:E.
  - rewrite <- (escape_entity a E).
    unfold is_special in E. cbn -[N.eqb] in E.
    unfold c_amp, c_lt, c_gt, c_dquote, c_squote, c_slash in E.
    destruct (a =? 38)%N eqn:E1;
      [apply N.eqb_eq in E1; subst; apply boundary_app; discriminate|].
    destruct (a =? 60)%N eqn:E2;
      [apply N.eqb_eq in E2; subst; apply boundary_app; discriminate|].
    destruct (a =? 62)%N eqn:E3;
      [apply N.eqb_eq in E3; subst; apply boundary_app; discriminate|].
    destruct (a =? 34)%N eqn:E4;
      [apply N.eqb_eq in E4; subst; apply boundary_app; discriminate|].
    destruct (a =? 39)%N eqn:E5;
      [apply N.eqb_eq in E5; subst; apply boundary_app; discriminate|].
    destruct (a =? 47)%N eqn:E6;
      [apply N.eqb_eq in E6; subst; apply boundary_app; discriminate|].
    discriminate.
  - rewrite (escape_other a E), boundary_app by discriminate. exact H.
Qed.

Lemma plain_guard_clear Y : forallb plain Y = true -> guard_clear Y = true.
Proof.
  induction Y as [|x Y IH]; simpl; intros H; [reflexivity|].
  apply andb_true_iff in H as [Hx HY]. unfold plain in Hx.
  apply andb_true_iff in Hx as [H1 H2]. apply negb_true_iff in H1, H2.
  rewrite H1, H2. auto.
Qed.

Section CallPipeline.

Variable ident : str.
Hypothesis Hcap : capitalized ident = true.
Hypothesis Hnot_type : existsb (str_eqb ident) types = false.

Lemma ident_head_upper : exists c t, ident = c :: t /\ is_upper c = true.
Proof.
  destruct ident as [|c t]; [discriminate|]. simpl in Hcap.
  apply andb_true_iff in Hcap as [Hc _]. eauto.
Qed.

Lemma keyword_keeps_call X Y :
  boundary X = true -> guard_clear Y = true ->
  exists X' Y',
    replace keywordRegex (spanTemplate "text-purple-400" "") (X ++ call ident ++ Y)
    = X' ++ call ident ++ Y'
    /\ boundary X' = true /\ guard_clear Y' = true.
Proof.
  apply (word_group_keeps_call ident Hcap (alt_join (map lit keywords)) Keyword).
  - reflexivity.
  - apply only_words. vm_compute. reflexivity.
  - intros p s c c' H.
    apply Sem_alt_join_lit in H; [|discriminate].
    destruct ident_head_upper as (a & t & Eid & Ha).
    assert (Hlow : forallb (fun w => match w with
                                     | x :: _ => negb (is_upper x)
                                     | [] => true
                                     end) keywords = true)
      by (vm_compute; reflexivity).
    rewrite forallb_forall in Hlow. specialize (Hlow _ H).
    rewrite Eid, Ha in Hlow. discriminate.
Qed.

Lemma type_keeps_call X Y :
  boundary X = true -> guard_clear Y = true ->
  exists X' Y',
    replace typeRegex (spanTemplate "text-cyan-400" "") (X ++ call ident ++ Y)
    = X' ++ call ident ++ Y'
    /\ boundary X' = true /\ guard_clear Y' = true.
Proof.
  apply (word_group_keeps_call ident Hcap (alt_join (map lit types)) TypeName).
  - reflexivity.
  - apply only_words. vm_compute. reflexivity.
  - intros p s c c' H.
    apply Sem_alt_join_lit in H; [|discriminate].
    assert (Hex : existsb (str_eqb ident) types = true).
    { apply existsb_exists. exists ident. split; [exact H|].
      unfold str_eqb. destruct (list_eq_dec N.eq_dec ident ident); congruence. }
    congruence.
Qed.

Lemma number_keeps_call X Y :
  boundary X = true -> guard_clear Y = true ->
  exists X' Y',
    replace numberRegex (spanTemplate "text-orange-400" "") (X ++ call ident ++ Y)
    = X' ++ call ident ++ Y'
    /\ boundary X' = true /\ guard_clear Y' = true.
Proof.
  apply (word_group_keeps_call ident Hcap (Plus true (AClass false [CDigit])) Number).
  - reflexivity.
  - simpl. intros x Hx. rewrite orb_false_r in Hx.
    unfold is_word. unfold is_digit in Hx. rewrite Hx.
    rewrite orb_true_r. reflexivity.
  - intros p s c c' H. destruct H as (_ & H & _).
    destruct ident_head_upper as (a & t & Eid & Ha).
    rewrite Eid in H. simpl in H. apply andb_true_iff in H as [H _].
    rewrite orb_false_r in H.
    unfold is_digit, is_upper, in_range in *.
    apply andb_true_iff in H as [H1 H2]. apply andb_true_iff in Ha as [H3 H4].
    apply N.leb_le in H1, H2, H3, H4. lia.
Qed.

(** The pipeline up to and including the annotation pass, at a call of a
    capitalized identifier that is no built-in type name. *)
Lemma highlight_call pre post :
  boundary pre = true ->
  exists X Y,
    highlightCode (pre ++ ident ++ c_lparen :: post)
    = X ++ open_tag FunctionName
      ++ (open_tag ClassName ++ ident ++ close_tag)
      ++ close_tag ++ c_lparen :: Y.
Proof.
  intros Hpre. unfold highlightCode. rewrite escapeHtml_escape.
  rewrite line_comment_never, block_comment_never by apply escape_inert.
  assert (Hesc : Spec.escape (pre ++ ident ++ c_lparen :: post)
                 = Spec.escape pre ++ call ident ++ Spec.escape post).
  { change (ident ++ c_lparen :: post) with (ident ++ [c_lparen] ++ post).
    rewrite app_assoc with (l := ident). fold (call ident).
    rewrite !escape_app. f_equal. f_equal.
    apply escape_plain_run. apply (call_all ident Hcap).
    - intros c Hc. rewrite (word_not_special c Hc). reflexivity.
    - reflexivity. }
  rewrite Hesc.
  destruct (string_keeps_call ident Hcap (Spec.escape pre) (Spec.escape post))
    as (X1 & Y1 & E1 & B1 & G1).
  { apply escape_boundary; exact Hpre. }
  { apply plain_guard_clear, inert_plain, escape_inert. }
  rewrite E1.
  destruct (keyword_keeps_call X1 Y1 B1 G1) as (X2 & Y2 & E2 & B2 & G2).
  rewrite E2.
  destruct (type_keeps_call X2 Y2 B2 G2) as (X3 & Y3 & E3 & B3 & G3).
  rewrite E3.
  destruct (number_keeps_call X3 Y3 B3 G3) as (X4 & Y4 & E4 & B4 & G4).
  rewrite E4.
  destruct (function_tags_call ident Hcap X4 Y4 B4 G4) as (X5 & Y5 & E5).
  rewrite E5.
  destruct (class_tags_inside ident Hcap X5 Y5) as (X6 & Y6 & E6).
  change ([c_lparen] ++ Y5) with (c_lparen :: Y5). rewrite E6.
  destruct (decorator_keeps_inside ident Hcap X6 Y6) as (X7 & Y7 & E7).
  rewrite E7. exists X7, Y7. reflexivity.
Qed.

End CallPipeline.

Lemma word_plain c : is_word c = true -> plain c = true.
Proof.
  intros H. unfold plain.
  rewrite !(word_not c) by (exact H || reflexivity). reflexivity.
Qed.

Lemma text_of_text w ts : text_of (map TText w ++ ts) = w ++ text_of ts.
Proof.
  induction w as [|x w IH]; simpl; congruence.
Qed.

Lemma strip_class_span ident :
  capitalized ident = true ->
  strip_tags (open_tag ClassName ++ ident ++ close_tag) = Some ident.
Proof.
  intros Hcap.
  assert (Hplain : forallb plain ident = true).
  { apply forallb_forall. intros x Hx. apply word_plain.
    pose proof (capitalized_word ident Hcap) as Hw.
    rewrite forallb_forall in Hw. auto. }
  change (open_tag ClassName ++ ident ++ close_tag)
    with (render_token (TOpen ClassName) ++ ident ++ render_token TClose).
  unfold strip_tags.
  rewrite tokenize_tag by reflexivity.
  rewrite <- (markup_text ident) at 1.
  change (render_token TClose) with (markup [TClose]).
  rewrite <- markup_app, tokenize_markup.
  - simpl. rewrite text_of_text, app_nil_r. reflexivity.
  - rewrite text_ok_app, text_ok_text, Hplain. reflexivity.
Qed.

(** ** What the tagging keeps of the text *)

Lemma despaced_refl a : despaced a a.
Proof. induction a; constructor; auto. Qed.

Lemma despaced_trans a b c : despaced a b -> despaced b c -> despaced a c.
Proof.
  intros H. revert c. induction H as [|x a b _ IH|x a b Hx _ IH]; intros c Hc.
  - exact Hc.
  - inversion Hc; subst.
    + constructor; auto.
    + apply despaced_drop; auto.
  - apply despaced_drop; auto.
Qed.

Lemma despaced_app a a' b b' :
  despaced a a' -> despaced b b' -> despaced (a ++ b) (a' ++ b').
Proof.
  induction 1; intros Hb; simpl; auto.
  - constructor; auto.
  - apply despaced_drop; auto.
Qed.

Lemma despaced_spaces ws a b :
  forallb is_space ws = true -> despaced a b -> despaced (ws ++ a) b.
Proof.
  induction ws as [|x ws IH]; simpl; intros Hws H; [exact H|].
  apply andb_true_iff in Hws as [Hx Hws]. apply despaced_drop; auto.
Qed.

Lemma Retag_text cat toks toks' :
  Retag cat toks toks' -> despaced (text_of toks) (text_of toks').
Proof.
  induction 1 as [|t toks toks' _ IH|gw ws e toks toks' Hne Hws _ IH].
  - constructor.
  - destruct t; simpl; auto. constructor; auto.
  - rewrite text_of_text. simpl. rewrite text_of_text. simpl.
    rewrite text_of_text, <- !app_assoc.
    apply despaced_app; [apply despaced_refl|].
    apply despaced_spaces; [exact Hws|].
    apply despaced_app; [apply despaced_refl|exact IH].
Qed.

(** The text of the highlighted markup is the escaped text, but for white
    space a pass may have left out: the tagging adds no text, reorders
    none, and loses white space only. *)
Theorem text_kept_up_to_white_space s :
  exists t,
    strip_tags (highlightCode s) = Some t /\ despaced (escapeHtml s) t.
Proof.
  destruct (highlight_retag_chain s)
    as (t1 & t2 & t3 & t4 & t5 & t6 & t7
        & R1 & R2 & R3 & R4 & R5 & R6 & R7 & E).
  assert (Hok0 : text_ok (map TText (Spec.escape s)) = true).
  { rewrite text_ok_text. apply inert_plain, escape_inert. }
  exists (text_of t7). split.
  - rewrite E. apply strip_tags_markup.
    repeat (eapply Retag_text_ok; [eassumption|]). exact Hok0.
  - rewrite escapeHtml_escape.
    assert (H0 : text_of (map TText (Spec.escape s)) = Spec.escape s).
    { rewrite <- (app_nil_r (map TText (Spec.escape s))), text_of_text.
      apply app_nil_r. }
    rewrite <- H0.
    eapply despaced_trans; [eapply Retag_text; exact R1|].
    eapply despaced_trans; [eapply Retag_text; exact R2|].
    eapply despaced_trans; [eapply Retag_text; exact R3|].
    eapply despaced_trans; [eapply Retag_text; exact R4|].
    eapply despaced_trans; [eapply Retag_text; exact R5|].
    eapply despaced_trans; [eapply Retag_text; exact R6|].
    eapply Retag_text; exact R7.
Qed.

(** ** The claims *)

(** C1 (round trip).  The claim fails on the code: the call-site pass
    matches an identifier, white space and the parenthesis, and its template
    puts back the identifier and the parenthesis only.  On [foo (x)],
    stripping the tags of the highlighted markup and decoding the escapes
    gives [foo(x)]: the space of the source text is gone. *)
Theorem roundtrip_loses_space :
  option_map decodeHtml (strip_tags (highlightCode (u "foo (x)")))
  = Some (u "foo(x)")
  /\ u "foo(x)" <> u "foo (x)"
  /\ highlightCode (u "foo (x)")
     = open_tag FunctionName ++ u "foo" ++ close_tag ++ u "(x)".
Proof.
  split; [vm_compute; reflexivity|]. split; [discriminate|].
  vm_compute; reflexivity.
Qed.

(** C2 (non-overlap).  The claim fails on the code: the guard only rejects
    a match that lies between the angle brackets of a tag, not one inside
    the content of a span.  On ['return value'] the keyword pass tags
    [return] inside the string span: its units carry both categories. *)
Theorem keyword_tagged_inside_string :
  highlightCode (u "'return value'")
  = open_tag StringLit ++ u "&#x27;" ++ open_tag Keyword ++ u "return"
    ++ close_tag ++ u " value&#x27;" ++ close_tag
  /\ option_map (fun toks => nth 6 (annotate [] toks) (0%N, []))
       (tokenize (highlightCode (u "'return value'")))
     = Some (114%N, [Keyword; StringLit]).
Proof.
  split; vm_compute; reflexivity.
Qed.

(** C3 (comment tagging).  The claim fails on the code: [escapeHtml] has
    replaced every slash before the comment patterns, which look for a
    slash, run.  On the two-line example the comment stays untagged, while
    [const] and [5] are tagged. *)
Theorem comment_example_untagged :
  highlightCode (u "// hello" ++ c_newline :: u "const x = 5;")
  = u "&#x2F;&#x2F; hello" ++ c_newline :: open_tag Keyword ++ u "const"
    ++ close_tag ++ u " x = " ++ open_tag Number ++ u "5" ++ close_tag
    ++ u ";".
Proof.
  vm_compute; reflexivity.
Qed.

(** The comment passes are dead on every input: they return the escaped
    text as it is, and no output holds a comment span. *)
Theorem comment_category_never_emitted s :
  fold_left apply_substitution comment_pass (escapeHtml s) = escapeHtml s
  /\ exists toks,
       tokenize (highlightCode s) = Some toks /\ ~ In (TOpen Comment) toks.
Proof.
  split.
  - cbn [fold_left comment_pass]. unfold apply_substitution. cbn [sub_regex].
    rewrite escapeHtml_escape.
    rewrite line_comment_never, block_comment_never; auto using escape_inert.
  - destruct (highlight_retag_chain s)
      as (t1 & t2 & t3 & t4 & t5 & t6 & t7
          & R1 & R2 & R3 & R4 & R5 & R6 & R7 & E).
    assert (Hok0 : text_ok (map TText (Spec.escape s)) = true).
    { rewrite text_ok_text. apply inert_plain, escape_inert. }
    exists t7. split.
    + rewrite E. apply tokenize_markup.
      repeat (eapply Retag_text_ok; [eassumption|]). exact Hok0.
    + intros H7.
      apply (Retag_opens _ _ _ R7) in H7 as [?|H6]; [discriminate|].
      apply (Retag_opens _ _ _ R6) in H6 as [?|H5]; [discriminate|].
      apply (Retag_opens _ _ _ R5) in H5 as [?|H4]; [discriminate|].
      apply (Retag_opens _ _ _ R4) in H4 as [?|H3]; [discriminate|].
      apply (Retag_opens _ _ _ R3) in H3 as [?|H2]; [discriminate|].
      apply (Retag_opens _ _ _ R2) in H2 as [?|H1]; [discriminate|].
      apply (Retag_opens _ _ _ R1) in H1 as [?|H0]; [discriminate|].
      apply in_map_iff in H0 as (x & Hx & _). discriminate.
Qed.

(** C4 (no raw angle bracket).  For every input, the escaped text has no
    [<] and no [>], and the highlighted markup splits into text units and
    the nine inserted tags with no angle bracket among the text units: every
    angle bracket of the output belongs to an inserted tag. *)
Theorem no_raw_angle_brackets s :
  forallb plain (escapeHtml s) = true
  /\ exists toks,
       tokenize (highlightCode s) = Some toks
       /\ strip_tags (highlightCode s) = Some (text_of toks)
       /\ forallb plain (text_of toks) = true.
Proof.
  split.
  - rewrite escapeHtml_escape. apply inert_plain, escape_inert.
  - destruct (highlight_well_formed s) as (toks & E & Hok & _).
    exists toks. rewrite E.
    split; [apply tokenize_markup; exact Hok|].
    split; [apply strip_tags_markup; exact Hok|].
    apply text_ok_plain; exact Hok.
Qed.

(** C5 (totality).  [highlightCode] is a total function of the embedding:
    every loop of the matcher and of [replace] is structurally recursive on
    the input.  It returns well-formed markup for every input, the table
    lookup of the escape replacer is defined at every match (no [undefined]
    is ever inserted), the empty input gives the empty markup, and inputs
    with an unbalanced quote, backtick or comment opener come back escaped
    and untagged. *)
Theorem highlight_total :
  (forall s, exists out, highlightCode s = out /\ well_formed out)
  /\ (forall s m g,
        In (Hit m g) (scan escapeRegex None s 0) ->
        lookup m htmlEntities <> None)
  /\ highlightCode [] = []
  /\ highlightCode (u "'abc") = u "&#x27;abc"
  /\ highlightCode (u "`abc") = u "`abc"
  /\ highlightCode (u "/* abc") = u "&#x2F;* abc".
Proof.
  split; [|split].
  - intros s. exists (highlightCode s). split; [reflexivity|].
    apply highlight_well_formed.
  - intros s m g Hin. rewrite scan_escape in Hin.
    apply in_map_iff in Hin as (x & Hx & _).
    destruct (is_special x) eqn:E; [|discriminate].
    inversion Hx; subst. apply special_lookup; exact E.
  - repeat split; vm_compute; reflexivity.
Qed.

(** C6 (determinism).  The markup a render shows is a function of the
    [code] prop alone: two renders with the same code show the same
    markup, whatever the language label and the [copied] state are. *)
Theorem highlight_deterministic p1 p2 copied1 copied2 :
  code p1 = code p2 ->
  highlightedCode (CodeBlock p1 copied1) = highlightedCode (CodeBlock p2 copied2).
Proof.
  intros H. cbn [CodeBlock highlightedCode]. rewrite H. reflexivity.
Qed.

Lemma highlight_deterministic_witness :
  highlightedCode
    (CodeBlock {| code := u "const x = 5;"; language := None |} false)
  = highlightedCode
      (CodeBlock {| code := u "const x = 5;";
                    language := Some (u "javascript") |} true).
Proof.
  apply highlight_deterministic. reflexivity.
Defined.

(** C8 (constructor calls).  The call-site pass comes before the
    class-name pass.  For every input in which an identifier of ASCII
    letters, digits and underscores that begins with an upper-case letter,
    is no built-in type name and does not follow an identifier character is
    directly followed by an opening parenthesis, the highlighted markup
    holds a function-name span around that identifier, followed by the
    parenthesis. *)
Theorem call_site_before_class_name pre ident post :
  capitalized ident = true ->
  existsb (str_eqb ident) types = false ->
  boundary pre = true ->
  (exists l1 l2 l3,
      map sub_category passes = l1 ++ FunctionName :: l2 ++ ClassName :: l3)
  /\ exists X inner Y,
       highlightCode (pre ++ ident ++ c_lparen :: post)
       = X ++ open_tag FunctionName ++ inner ++ close_tag ++ c_lparen :: Y
       /\ strip_tags inner = Some ident.
Proof.
  intros Hcap Hty Hpre. split.
  - exists [Comment; Comment; StringLit; Keyword; TypeName; Number], [],
      [Annotation]. reflexivity.
  - destruct (highlight_call ident Hcap Hty pre post Hpre) as (X & Y & E).
    exists X, (open_tag ClassName ++ ident ++ close_tag), Y.
    split; [exact E|]. apply strip_class_span; exact Hcap.
Qed.

Lemma call_site_before_class_name_witness :
  capitalized (u "Foo") = true
  /\ existsb (str_eqb (u "Foo")) types = false
  /\ boundary (u "new ") = true
  /\ exists X inner Y,
       highlightCode (u "new " ++ u "Foo" ++ c_lparen :: u ")")
       = X ++ open_tag FunctionName ++ inner ++ close_tag ++ c_lparen :: Y
       /\ strip_tags inner = Some (u "Foo").
Proof.
  split; [reflexivity|]. split; [reflexivity|]. split; [reflexivity|].
  apply (call_site_before_class_name (u "new ") (u "Foo") (u ")"));
    reflexivity.
Defined.

(** C8, as the claim states it, fails on the code.  In [new Map()] the
    capitalized identifier [Map] stands in front of a parenthesis, but it is
    a built-in type name: the type pass has wrapped it before the call-site
    pass runs, the call-site pass then finds a tag between the name and the
    parenthesis and does not match, and the units of [Map] end up in a
    class-name span inside a type span, in no function-name span. *)
Lemma builtin_call_takes_type_category :
  option_map (annotate []) (tokenize (highlightCode (u "new Map()")))
  = Some [ (110%N, [Keyword]); (101%N, [Keyword]); (119%N, [Keyword]);
           (32%N, []);
           (77%N, [ClassName; TypeName]); (97%N, [ClassName; TypeName]);
           (112%N, [ClassName; TypeName]);
           (40%N, []); (41%N, []) ]
  /\ capitalized (u "Map") = true.
Proof.
  split; vm_compute; reflexivity.
Qed.

(** C9 (tag well-formedness).  For every input the highlighted markup
    splits into text units and the nine inserted tags, and the tags are
    balanced.  Each guarded pass maps well-formed markup to well-formed
    markup in which every tag of its input stands unchanged: it only wraps
    runs of text.  The comment and string passes never see a tag: what
    reaches them is the escaped text.  So the keyword pass leaves the word
    [class] of a tag alone, and the number pass its [400]. *)
Theorem tags_well_formed :
  (forall s, exists toks,
      tokenize (highlightCode s) = Some toks /\ balanced toks = true)
  /\ Forall
       (fun p => keeps_tags (sub_category p) (fun x => apply_substitution x p))
       guarded_passes
  /\ (forall s,
        fold_left apply_substitution comment_pass (escapeHtml s) = escapeHtml s
        /\ forallb plain (escapeHtml s) = true)
  /\ apply_substitution (open_tag StringLit ++ u "x" ++ close_tag)
       (Subst keywordRegex Keyword "")
     = open_tag StringLit ++ u "x" ++ close_tag
  /\ apply_substitution (open_tag StringLit ++ u "x" ++ close_tag)
       (Subst numberRegex Number "")
     = open_tag StringLit ++ u "x" ++ close_tag.
Proof.
  split; [|split; [|split; [|split]]].
  - intros s. destruct (highlight_well_formed s) as (toks & E & Hok & Hbal).
    exists toks. rewrite E. split; [apply tokenize_markup; exact Hok|exact Hbal].
  - unfold guarded_passes. repeat constructor;
      unfold apply_substitution, sub_template; cbn [sub_regex sub_category sub_tail];
      apply guarded_pass_keeps_tags.
    + exact wraps_keyword.
    + exact wraps_type.
    + exact wraps_number.
    + exact wraps_function.
    + exact wraps_class.
    + exact wraps_decorator.
  - intros s. split.
    + cbn [fold_left comment_pass]. unfold apply_substitution. cbn [sub_regex].
      rewrite escapeHtml_escape.
      rewrite line_comment_never, block_comment_never; auto using escape_inert.
    + rewrite escapeHtml_escape. apply inert_plain, escape_inert.
  - vm_compute; reflexivity.
  - vm_compute; reflexivity.
Qed.

(** ** Further properties: the escape pass *)

Lemma escape_char_length x :
  1 <= length (Spec.escape_char x) /\ length (Spec.escape_char x) <= 6.
Proof.
  unfold Spec.escape_char.
  repeat match goal with
         | |- context [if ?b then _ else _] => destruct b
         end; vm_compute; lia.
Qed.

Lemma escape_char_special_length x :
  is_special x = true -> 2 <= length (Spec.escape_char x).
Proof.
  unfold is_special, Spec.escape_char; simpl.
  unfold c_amp, c_lt, c_gt, c_dquote, c_squote, c_slash.
  destruct (x =? 38)%N; [intros _; vm_compute; lia|].
  destruct (x =? 60)%N; [intros _; vm_compute; lia|].
  destruct (x =? 62)%N; [intros _; vm_compute; lia|].
  destruct (x =? 34)%N; [intros _; vm_compute; lia|].
  destruct (x =? 39)%N; [intros _; vm_compute; lia|].
  destruct (x =? 47)%N; [intros _; vm_compute; lia|].
  discriminate.
Qed.

Lemma escape_length s :
  length s <= length (Spec.escape s) /\ length (Spec.escape s) <= 6 * length s.
Proof.
  unfold Spec.escape. induction s as [|x s IH]; simpl; [lia|].
  rewrite length_app. pose proof (escape_char_length x). lia.
Qed.

Lemma escape_same_length s :
  length (Spec.escape s) = length s ->
  forallb (fun c => negb (is_special c)) s = true.
Proof.
  unfold Spec.escape. induction s as [|x s IH]; simpl; [reflexivity|].
  rewrite length_app. intros H.
  pose proof (escape_char_length x) as Hx.
  pose proof (escape_length s) as Hs. unfold Spec.escape in Hs.
  destruct (is_special x) eqn:E.
  - apply escape_char_special_length in E. lia.
  - simpl. apply IH. lia.
Qed.

Lemma escape_fixed s :
  Spec.escape s = s <-> forallb (fun c => negb (is_special c)) s = true.
Proof.
  split.
  - intros H. apply escape_same_length. rewrite H. reflexivity.
  - apply escape_plain_run.
Qed.

Lemma escape_char_keeps_special x :
  is_special x = true ->
  forallb (fun c => negb (is_special c)) (Spec.escape_char x) = false.
Proof.
  unfold is_special at 1, Spec.escape_char; simpl.
  unfold c_amp, c_lt, c_gt, c_dquote, c_squote, c_slash.
  destruct (x =? 38)%N; [reflexivity|].
  destruct (x =? 60)%N; [reflexivity|].
  destruct (x =? 62)%N; [reflexivity|].
  destruct (x =? 34)%N; [reflexivity|].
  destruct (x =? 39)%N; [reflexivity|].
  destruct (x =? 47)%N; [reflexivity|].
  discriminate.
Qed.

Lemma escape_special_free s :
  forallb (fun c => negb (is_special c)) (Spec.escape s) = true ->
  forallb (fun c => negb (is_special c)) s = true.
Proof.
  unfold Spec.escape. induction s as [|x s IH]; simpl; [reflexivity|].
  rewrite forallb_app. intros H. apply andb_true_iff in H as [Hx Hs].
  destruct (is_special x) eqn:E.
  - rewrite (escape_char_keeps_special x E) in Hx. discriminate.
  - simpl. apply IH. exact Hs.
Qed.

Lemma escape_char_alphabet x :
  forallb (fun c => negb (is_special c) || (c =? c_amp)%N) (Spec.escape_char x)
  = true.
Proof.
  destruct (is_special x) eqn:E.
  - revert E. unfold is_special at 1, Spec.escape_char; simpl.
    unfold c_amp, c_lt, c_gt, c_dquote, c_squote, c_slash.
    destruct (x =? 38)%N; [reflexivity|].
    destruct (x =? 60)%N; [reflexivity|].
    destruct (x =? 62)%N; [reflexivity|].
    destruct (x =? 34)%N; [reflexivity|].
    destruct (x =? 39)%N; [reflexivity|].
    destruct (x =? 47)%N; [reflexivity|].
    discriminate.
  - rewrite (escape_other x E). simpl. rewrite E. reflexivity.
Qed.

(** X1 (escaping is injective).  Escaping loses nothing: two texts with the same escaped form are the
    same text. *)
Theorem escapeHtml_injective a b : escapeHtml a = escapeHtml b -> a = b.
Proof.
  rewrite !escapeHtml_escape. intros H.
  rewrite <- (decode_escape a), H. apply decode_escape.
Qed.

Lemma escapeHtml_injective_witness :
  escapeHtml (u "a<b") = escapeHtml (u "a<b") /\ u "a<b" = u "a<b".
Proof.
  split; [reflexivity|]. apply (escapeHtml_injective (u "a<b") (u "a<b")).
  reflexivity.
Defined.

(** X2 (escaping unit by unit).  Escaping works code unit by code unit: the escaped form of a
    concatenation is the concatenation of the escaped forms, and a text of
    [n] units escapes to between [n] and [6 n] units. *)
Theorem escapeHtml_unit_by_unit a b :
  escapeHtml (a ++ b) = escapeHtml a ++ escapeHtml b
  /\ length a <= length (escapeHtml a)
  /\ length (escapeHtml a) <= 6 * length a.
Proof.
  rewrite !escapeHtml_escape. split; [apply escape_app|apply escape_length].
Qed.

(** X3 (escaping twice).  Escaping is not idempotent: a text is its own escaped form exactly
    when it has none of the six characters, and escaping an escaped text
    again changes it exactly when the text had one of them (its ampersands
    are escaped once more). *)
Theorem escapeHtml_twice s :
  (escapeHtml s = s <-> forallb (fun c => negb (is_special c)) s = true)
  /\ (escapeHtml (escapeHtml s) = escapeHtml s
      <-> forallb (fun c => negb (is_special c)) s = true).
Proof.
  rewrite !escapeHtml_escape. split; [apply escape_fixed|].
  rewrite escape_fixed. split; [apply escape_special_free|].
  intros H. rewrite (escape_plain_run s H). exact H.
Qed.

(** X4 (alphabet of escaped text).  Escaped text holds none of the characters [<], [>], the two quotes
    and [/]: of the six replaced characters only the ampersand can occur
    in it. *)
Theorem escapeHtml_alphabet s :
  forallb (fun c => negb (is_special c) || (c =? c_amp)%N) (escapeHtml s) = true.
Proof.
  rewrite escapeHtml_escape. unfold Spec.escape.
  induction s as [|x s IH]; simpl; [reflexivity|].
  rewrite forallb_app, escape_char_alphabet. exact IH.
Qed.

(** ** Further properties: the gutter *)

Lemma split_length sep s :
  length (JSString.split sep s) = S (count_occ N.eq_dec s sep).
Proof.
  induction s as [|c s IH]; [reflexivity|].
  cbn [JSString.split]. destruct (c =? sep)%N eqn:E.
  - apply N.eqb_eq in E. subst c. rewrite count_occ_cons_eq by reflexivity.
    cbn [length]. rewrite IH. reflexivity.
  - apply N.eqb_neq in E. rewrite count_occ_cons_neq by exact E.
    destruct (JSString.split sep s) as [|piece pieces]; [discriminate IH|].
    exact IH.
Qed.

Lemma join_split sep s : JSString.join sep (JSString.split sep s) = s.
Proof.
  induction s as [|c s IH]; [reflexivity|].
  cbn [JSString.split]. destruct (c =? sep)%N eqn:E.
  - apply N.eqb_eq in E. subst c.
    pose proof (split_length sep s) as Hl.
    destruct (JSString.split sep s) as [|piece pieces]; [discriminate Hl|].
    cbn [JSString.join app]. cbn [JSString.join] in IH. rewrite IH. reflexivity.
  - pose proof (split_length sep s) as Hl.
    destruct (JSString.split sep s) as [|piece pieces]; [discriminate Hl|].
    destruct pieces as [|piece' pieces].
    + cbn [JSString.join] in *. rewrite IH. reflexivity.
    + cbn [JSString.join app] in *. rewrite IH. reflexivity.
Qed.

Lemma gutter_seq code :
  Gutter.gutter code = seq 1 (S (Gutter.newlines code)).
Proof.
  unfold Gutter.gutter. rewrite split_length, <- seq_shift.
  apply map_ext. intros i. lia.
Qed.

Lemma newlines_app a b :
  Gutter.newlines (a ++ b) = Gutter.newlines a + Gutter.newlines b.
Proof. unfold Gutter.newlines. apply count_occ_app. Qed.

Lemma newlines_tag t : is_text t = false -> Gutter.newlines (render_token t) = 0.
Proof.
  intros Ht. destruct t as [c|cat|]; [discriminate Ht| |reflexivity].
  destruct cat; reflexivity.
Qed.

Lemma newlines_markup toks :
  Gutter.newlines (markup toks) = Gutter.newlines (text_of toks).
Proof.
  induction toks as [|t toks IH]; [reflexivity|].
  rewrite markup_cons, newlines_app, IH.
  destruct t as [c|cat|].
  - cbn [render_token text_of].
    change (c :: text_of toks) with ([c] ++ text_of toks).
    rewrite newlines_app. reflexivity.
  - rewrite (newlines_tag (TOpen cat)) by reflexivity. reflexivity.
  - rewrite (newlines_tag TClose) by reflexivity. reflexivity.
Qed.

Lemma despaced_newlines a b :
  despaced a b -> Gutter.newlines b <= Gutter.newlines a.
Proof.
  unfold Gutter.newlines.
  induction 1 as [|y a b _ IH|y a b _ _ IH]; simpl.
  - lia.
  - destruct (N.eq_dec y c_newline); lia.
  - destruct (N.eq_dec y c_newline); lia.
Qed.

Lemma newlines_escape s : Gutter.newlines (Spec.escape s) = Gutter.newlines s.
Proof.
  unfold Spec.escape. induction s as [|x s IH]; [reflexivity|].
  cbn [flat_map]. rewrite newlines_app, IH.
  change (x :: s) with ([x] ++ s). rewrite newlines_app. f_equal.
  destruct (is_special x) eqn:E; [|rewrite (escape_other x E); reflexivity].
  revert E. unfold is_special, Spec.escape_char; simpl.
  unfold c_amp, c_lt, c_gt, c_dquote, c_squote, c_slash.
  destruct (x =? 38)%N eqn:E1; [apply N.eqb_eq in E1; subst; reflexivity|].
  destruct (x =? 60)%N eqn:E2; [apply N.eqb_eq in E2; subst; reflexivity|].
  destruct (x =? 62)%N eqn:E3; [apply N.eqb_eq in E3; subst; reflexivity|].
  destruct (x =? 34)%N eqn:E4; [apply N.eqb_eq in E4; subst; reflexivity|].
  destruct (x =? 39)%N eqn:E5; [apply N.eqb_eq in E5; subst; reflexivity|].
  destruct (x =? 47)%N eqn:E6; [apply N.eqb_eq in E6; subst; reflexivity|].
  discriminate.
Qed.

(** The highlighted markup as tokens: its text is the escaped text, but
    for white space a pass may have left out. *)
Lemma highlight_text s :
  exists toks,
    highlightCode s = markup toks /\ text_ok toks = true
    /\ despaced (Spec.escape s) (text_of toks).
Proof.
  destruct (highlight_retag_chain s)
    as (t1 & t2 & t3 & t4 & t5 & t6 & t7
        & R1 & R2 & R3 & R4 & R5 & R6 & R7 & E).
  assert (Hok0 : text_ok (map TText (Spec.escape s)) = true).
  { rewrite text_ok_text. apply inert_plain, escape_inert. }
  exists t7. split; [exact E|]. split.
  - repeat (eapply Retag_text_ok; [eassumption|]). exact Hok0.
  - assert (H0 : text_of (map TText (Spec.escape s)) = Spec.escape s).
    { rewrite <- (app_nil_r (map TText (Spec.escape s))), text_of_text.
      apply app_nil_r. }
    rewrite <- H0.
    eapply despaced_trans; [eapply Retag_text; exact R1|].
    eapply despaced_trans; [eapply Retag_text; exact R2|].
    eapply despaced_trans; [eapply Retag_text; exact R3|].
    eapply despaced_trans; [eapply Retag_text; exact R4|].
    eapply despaced_trans; [eapply Retag_text; exact R5|].
    eapply despaced_trans; [eapply Retag_text; exact R6|].
    eapply Retag_text; exact R7.
Qed.

Lemma highlight_newlines s :
  Gutter.newlines (highlightCode s) <= Gutter.newlines s.
Proof.
  destruct (highlight_text s) as (toks & E & _ & D).
  rewrite E, newlines_markup, <- (newlines_escape s).
  apply despaced_newlines. exact D.
Qed.

(** X11 (gutter).  The gutter numbers the lines of the code from 1 without a gap, one
    number more than the code has newline characters (so the empty code
    still shows line 1); the pieces it counts, joined by newlines, are the
    code again.  The component's render shows this gutter. *)
Theorem gutter_numbers_lines props copied :
  Gutter.gutter (code props) = seq 1 (S (Gutter.newlines (code props)))
  /\ JSString.join c_newline (JSString.split c_newline (code props)) = code props
  /\ lineNumbers (CodeBlock props copied) = Gutter.gutter (code props).
Proof.
  split; [apply gutter_seq|]. split; [apply join_split|].
  rewrite gutter_seq. reflexivity.
Qed.

(** X12 (lines of the markup).  The markup next to the gutter never has more lines than the gutter has
    numbers, and it can have fewer: a newline between a name and its
    parenthesis is dropped by the call-site pass. *)
Theorem markup_lines_within_gutter :
  (forall code,
      length (JSString.split c_newline (highlightCode code))
      <= length (Gutter.gutter code))
  /\ length (JSString.split c_newline (highlightCode (u "f" ++ c_newline :: u "()")))
     < length (Gutter.gutter (u "f" ++ c_newline :: u "()")).
Proof.
  split.
  - intros code. rewrite gutter_seq, length_seq, split_length.
    pose proof (highlight_newlines code). unfold Gutter.newlines in *. lia.
  - vm_compute. lia.
Qed.

(** ** Further properties: the copy button *)

Section CopyButton.

Import Clipboard.

Variable code : str.

(** Every pending reset is due later than now and no later than [bound],
    and while the flag is set a reset is pending. *)
Local Abbreviation pending bound st :=
  (Forall (fun d => now st < d /\ d <= bound) (timers st)
   /\ (copied st = true -> timers st <> [])).

Lemma step_quiet st e bound :
  pending bound st -> granted_click e = false ->
  pending bound (step code st e)
  /\ now (step code st e) = now st + elapsed [e].
Proof.
  intros [Ht Hc] He. destruct e as [[|]|ms]; [discriminate He| |].
  - cbn. split; [split; assumption|lia].
  - cbn [step elapsed fold_right timers copied now]. split; [|lia]. split.
    + rewrite Forall_forall in *. intros d Hd.
      apply filter_In in Hd as [Hd Hlt].
      apply negb_true_iff, Nat.leb_gt in Hlt.
      specialize (Ht d Hd). lia.
    + destruct (existsb (fun d => d <=? now st + ms) (timers st)) eqn:E;
        [discriminate|].
      intros Hcop. specialize (Hc Hcop).
      destruct (timers st) as [|d ds]; [congruence|].
      cbn in E. apply orb_false_iff in E as [E _].
      cbn [filter]. rewrite E. discriminate.
Qed.

Lemma run_quiet quiet :
  forall st bound,
    pending bound st ->
    forallb (fun e => negb (granted_click e)) quiet = true ->
    pending bound (fold_left (step code) quiet st)
    /\ now (fold_left (step code) quiet st) = now st + elapsed quiet.
Proof.
  induction quiet as [|e quiet IH]; intros st bound Hp Hq.
  - cbn. split; [exact Hp|lia].
  - cbn [forallb] in Hq. apply andb_true_iff in Hq as [He Hq].
    apply negb_true_iff in He.
    destruct (step_quiet st e bound Hp He) as [Hp' Hn'].
    destruct (IH _ bound Hp' Hq) as [Hp'' Hn''].
    cbn [fold_left]. split; [exact Hp''|].
    rewrite Hn'', Hn'. unfold elapsed. destruct e; cbn [fold_right]; lia.
Qed.

Lemma step_pending st e :
  pending (now st + 2000) st ->
  pending (now (step code st e) + 2000) (step code st e).
Proof.
  intros Hp. destruct (granted_click e) eqn:He.
  - destruct e as [[|]|ms]; try discriminate He. destruct Hp as [Ht Hc].
    cbn [step timers copied now]. split.
    + apply Forall_app. split.
      * eapply Forall_impl; [|exact Ht]. cbn. intros; lia.
      * constructor; [lia|constructor].
    + intros _ H. apply app_eq_nil in H as [_ H]. discriminate H.
  - destruct (step_quiet st e _ Hp He) as [[Ht Hc] Hn]. split; [|exact Hc].
    eapply Forall_impl; [|exact Ht]. cbn. intros; lia.
Qed.

Lemma run_pending trace :
  pending (now (run code trace) + 2000) (run code trace).
Proof.
  induction trace as [|e trace IH] using rev_ind.
  - cbn. split; [constructor|discriminate].
  - unfold run in *. rewrite fold_left_app. cbn [fold_left].
    apply step_pending. exact IH.
Qed.

(** X13 (reset of the copy button).  After any history, once 2000 ms have passed without a granted click
    (rejected clicks do not count), the flag is off and no reset is
    pending: the button reads [Copy] again. *)
Theorem copied_resets trace quiet :
  forallb (fun e => negb (granted_click e)) quiet = true ->
  2000 <= elapsed quiet ->
  copied (run code (trace ++ quiet)) = false
  /\ timers (run code (trace ++ quiet)) = []
  /\ copyLabel (CodeBlock {| Component.code := code; language := None |}
                  (copied (run code (trace ++ quiet)))) = u "Copy".
Proof.
  intros Hq Hms. unfold run. rewrite fold_left_app.
  destruct (run_quiet quiet _ _ (run_pending trace) Hq) as [[Ht Hc] Hn].
  fold (run code trace) in *.
  set (st := fold_left (step code) quiet (run code trace)) in *.
  assert (Hnil : timers st = []).
  { destruct (timers st) as [|d ds]; [reflexivity|].
    apply Forall_inv in Ht. lia. }
  assert (Hcop : copied st = false).
  { destruct (copied st); [|reflexivity]. destruct (Hc eq_refl Hnil). }
  split; [exact Hcop|]. split; [exact Hnil|]. rewrite Hcop. reflexivity.
Qed.

(** X14 (second click).  A reset that is pending is not cancelled by the next click: when a
    second granted click follows a first one by less than 2000 ms, the flag
    goes off 2000 ms after the first click, however recent the second. *)
Theorem second_click_keeps_first_reset trace a b :
  a < 2000 -> 2000 <= a + b ->
  copied (run code (trace ++ [Click true; Elapse a; Click true])) = true
  /\ copied (run code (trace ++ [Click true; Elapse a; Click true; Elapse b]))
     = false.
Proof.
  intros Ha Hb. unfold run. rewrite !fold_left_app.
  fold (run code trace). set (st := run code trace).
  split; [reflexivity|].
  cbn [fold_left step copied timers now].
  rewrite filter_app, !existsb_app. cbn [filter existsb].
  replace (now st + 2000 <=? now st + a) with false
    by (symmetry; apply Nat.leb_gt; lia).
  cbn [negb app existsb].
  replace (now st + 2000 <=? now st + a + b) with true
    by (symmetry; apply Nat.leb_le; lia).
  rewrite orb_true_r, orb_true_l. reflexivity.
Qed.

End CopyButton.

Lemma copied_resets_witness :
  Clipboard.copied
    (Clipboard.run (u "x")
       ([Clipboard.Click true]
        ++ [Clipboard.Click false; Clipboard.Elapse 1200; Clipboard.Elapse 800]))
  = false.
Proof.
  apply (proj1 (copied_resets (u "x") [Clipboard.Click true]
           [Clipboard.Click false; Clipboard.Elapse 1200; Clipboard.Elapse 800]
           eq_refl ltac:(cbn; lia))).
Defined.


Lemma second_click_keeps_first_reset_witness :
  Clipboard.copied
    (Clipboard.run (u "x")
       ([] ++ [Clipboard.Click true; Clipboard.Elapse 1500;
               Clipboard.Click true; Clipboard.Elapse 500]))
  = false.
Proof.
  apply (proj2 (second_click_keeps_first_reset (u "x") [] 1500 500 ltac:(lia) ltac:(lia))).
Defined.

(** ** Further properties: the pattern table and its pages *)

Lemma str_eqb_true a b : str_eqb a b = true <-> a = b.
Proof.
  unfold str_eqb. destruct (list_eq_dec N.eq_dec a b); split; congruence.
Qed.

Lemma str_eqb_false a b : str_eqb a b = false <-> a <> b.
Proof.
  unfold str_eqb. destruct (list_eq_dec N.eq_dec a b); split; congruence.
Qed.

Section Table.

Import PatternsData.

Lemma Category_eqb_true a b : Category_eqb a b = true <-> a = b.
Proof.
  destruct a, b; vm_compute; split; intros H; try reflexivity; discriminate H.
Qed.

Variable patterns : list Pattern.

Lemma getPatternById_found i :
  In i (map id patterns) ->
  exists pattern, getPatternById patterns i = Some pattern /\ id pattern = i.
Proof.
  unfold getPatternById. intros Hin. apply in_map_iff in Hin as (p & Hp & Hin).
  destruct (find (fun p => str_eqb (id p) i) patterns) as [q|] eqn:E.
  - exists q. split; [reflexivity|].
    apply find_some in E as [_ E]. apply str_eqb_true. exact E.
  - pose proof (find_none _ _ E p Hin) as H. cbn in H.
    apply str_eqb_false in H. contradiction.
Qed.

Lemma getPatternById_unique pattern :
  NoDup (map id patterns) -> In pattern patterns ->
  getPatternById patterns (id pattern) = Some pattern.
Proof.
  unfold getPatternById. induction patterns as [|a l IH]; intros Hnd Hin.
  - destruct Hin.
  - cbn [find]. destruct (str_eqb (id a) (id pattern)) eqn:E.
    + apply str_eqb_true in E. destruct Hin as [->|Hin]; [reflexivity|].
      cbn [map] in Hnd. apply NoDup_cons_iff in Hnd as [Hnot _].
      exfalso. apply Hnot. rewrite E. apply in_map. exact Hin.
    + destruct Hin as [->|Hin].
      * apply str_eqb_false in E. congruence.
      * cbn [map] in Hnd. apply NoDup_cons_iff in Hnd as [_ Hnd]. auto.
Qed.

Lemma getPatternById_spec i :
  match getPatternById patterns i with
  | Some pattern =>
      id pattern = i
      /\ exists before after,
           patterns = before ++ pattern :: after
           /\ Forall (fun p => id p <> i) before
  | None => Forall (fun p => id p <> i) patterns
  end.
Proof.
  unfold getPatternById. induction patterns as [|a l IH]; cbn [find].
  - constructor.
  - destruct (str_eqb (id a) i) eqn:E.
    + split; [apply str_eqb_true; exact E|].
      exists [], l. split; [reflexivity|constructor].
    + apply str_eqb_false in E.
      destruct (find (fun p => str_eqb (id p) i) l) as [q|].
      * destruct IH as (Hq & before & after & -> & Hb).
        split; [exact Hq|]. exists (a :: before), after.
        split; [reflexivity|]. constructor; assumption.
      * constructor; assumption.
Qed.

(** X15 (lookup by identifier).  [getPatternById] returns the first pattern of the table with the
    identifier asked for, and [undefined] exactly when the table has none. *)
Theorem getPatternById_first i :
  match getPatternById patterns i with
  | Some pattern =>
      id pattern = i
      /\ exists before after,
           patterns = before ++ pattern :: after
           /\ Forall (fun p => id p <> i) before
  | None => Forall (fun p => id p <> i) patterns
  end.
Proof. apply getPatternById_spec. Qed.

(** X16 (patterns by category).  [getPatternsByCategory] returns the patterns of the asked category
    and no other, and the three categories between them hold every pattern
    of the table exactly once. *)
Theorem categories_partition_table :
  (forall c pattern,
      In pattern (getPatternsByCategory patterns c)
      <-> In pattern patterns /\ category pattern = c)
  /\ Permutation patterns
       (getPatternsByCategory patterns creational
        ++ getPatternsByCategory patterns structural
        ++ getPatternsByCategory patterns behavioral).
Proof.
  unfold getPatternsByCategory. split.
  - intros c p. rewrite filter_In, Category_eqb_true. reflexivity.
  - induction patterns as [|a l IH]; [constructor|].
    cbn [filter]. destruct (category a); cbn.
    + constructor. exact IH.
    + apply Permutation_cons_app. exact IH.
    + rewrite app_assoc. apply Permutation_cons_app.
      rewrite <- app_assoc. exact IH.
Qed.

End Table.

Section Pages.

Import PatternsData.

Local Abbreviation staticIds :=
  (map PatternPage.id PatternPage.generateStaticParams).

Lemma staticIds_NoDup : NoDup staticIds.
Proof.
  repeat (constructor; [vm_compute; intuition discriminate|]). constructor.
Qed.

Lemma filter_map_length {A B} (f : B -> bool) (g : A -> B) l :
  length (filter (fun x => f (g x)) l) = length (filter f (map g l)).
Proof.
  induction l as [|a l IH]; [reflexivity|].
  cbn [filter map]. destruct (f (g a)); cbn [length]; rewrite IH; reflexivity.
Qed.

Lemma filter_all {A} (f : A -> bool) l :
  (forall x, In x l -> f x = true) -> filter f l = l.
Proof.
  induction l as [|a l IH]; intros H; [reflexivity|].
  cbn [filter]. rewrite (H a (or_introl eq_refl)), IH; [reflexivity|].
  intros x Hx. apply H. right. exact Hx.
Qed.

Lemma without_self (l : list Pattern) pattern :
  NoDup (map id l) -> In pattern l ->
  Permutation
    (pattern :: filter (fun p => negb (str_eqb (id p) (id pattern))) l) l.
Proof.
  induction l as [|a l IH]; intros Hnd Hin; [destruct Hin|].
  cbn [map] in Hnd. apply NoDup_cons_iff in Hnd as [Hnot Hnd].
  cbn [filter]. destruct Hin as [->|Hin].
  - replace (str_eqb (id pattern) (id pattern)) with true
      by (symmetry; apply str_eqb_true; reflexivity).
    cbn [negb]. rewrite filter_all; [reflexivity|].
    intros x Hx. apply negb_true_iff, str_eqb_false. intros E.
    apply Hnot. rewrite <- E. apply in_map. exact Hx.
  - assert (E : str_eqb (id a) (id pattern) = false).
    { apply str_eqb_false. intros E. apply Hnot. rewrite E.
      apply in_map. exact Hin. }
    rewrite E. cbn [negb]. rewrite perm_swap. constructor. apply IH; assumption.
Qed.

Lemma NoDup_filter_map {A B} (f : A -> bool) (g : A -> B) l :
  NoDup (map g l) -> NoDup (map g (filter f l)).
Proof.
  induction l as [|a l IH]; intros H; [constructor|].
  cbn [map] in H. apply NoDup_cons_iff in H as [Hnot H].
  cbn [filter]. destruct (f a); [|auto].
  cbn [map]. constructor; [|auto].
  intros Hin. apply Hnot. apply in_map_iff in Hin as (x & <- & Hx).
  apply in_map. apply filter_In in Hx. tauto.
Qed.

Variable patterns : list Pattern.
Hypothesis table : columns patterns = patterns_columns.

Lemma table_ids : map id patterns = staticIds.
Proof.
  transitivity (map (fun c => fst (fst c)) (columns patterns)).
  - unfold columns. rewrite map_map. reflexivity.
  - rewrite table. reflexivity.
Qed.

Lemma table_categories : map category patterns = map snd patterns_columns.
Proof.
  rewrite <- table. unfold columns. rewrite map_map. reflexivity.
Qed.

Lemma table_NoDup : NoDup (map id patterns).
Proof. rewrite table_ids. exact staticIds_NoDup. Qed.

Lemma category_count c : length (getPatternsByCategory patterns c) = 4.
Proof.
  unfold getPatternsByCategory.
  rewrite (filter_map_length (fun k => Category_eqb k c) category).
  rewrite table_categories. destruct c; reflexivity.
Qed.

Lemma related_count pattern :
  In pattern patterns ->
  length (PatternPage.relatedPatterns patterns pattern) = 3.
Proof.
  intros Hin. unfold PatternPage.relatedPatterns.
  pose proof (category_count (category pattern)) as Hc.
  assert (Hp : Permutation
                 (pattern :: filter
                    (fun p => negb (str_eqb (id p) (id pattern)))
                    (getPatternsByCategory patterns (category pattern)))
                 (getPatternsByCategory patterns (category pattern))).
  { apply without_self.
    - apply NoDup_filter_map. exact table_NoDup.
    - apply filter_In. split; [exact Hin|].
      apply Category_eqb_true. reflexivity. }
  apply Permutation_length in Hp. cbn [length] in Hp. lia.
Qed.

(** X17 (generated pages).  The pages the build generates are the patterns of the table, one page
    per pattern and in the table's order; each of them finds its pattern,
    shows it with its code example highlighted under the [typescript]
    badge, and a request for any other identifier ends in [notFound()]. *)
Theorem static_params_resolve :
  staticIds = map id patterns
  /\ (forall params,
         In params PatternPage.generateStaticParams ->
         exists pattern page,
           getPatternById patterns (PatternPage.id params) = Some pattern
           /\ id pattern = PatternPage.id params
           /\ PatternPage.PatternPage patterns params = Some page
           /\ PatternPage.title page = name pattern ++ u " Pattern"
           /\ badge (PatternPage.codeBlock page) = u "typescript"
           /\ highlightedCode (PatternPage.codeBlock page)
              = highlightCode (codeExample pattern))
  /\ (forall params,
         ~ In (PatternPage.id params) staticIds ->
         PatternPage.PatternPage patterns params = None).
Proof.
  split; [symmetry; exact table_ids|]. split.
  - intros params Hin.
    destruct (getPatternById_found patterns (PatternPage.id params))
      as (pattern & Hget & Hid).
    { rewrite table_ids. apply in_map. exact Hin. }
    exists pattern. unfold PatternPage.PatternPage. rewrite Hget.
    eexists. split; [reflexivity|]. split; [exact Hid|].
    split; [reflexivity|]. split; [reflexivity|]. split; reflexivity.
  - intros params Hnot. unfold PatternPage.PatternPage.
    pose proof (getPatternById_spec patterns (PatternPage.id params)) as H.
    destruct (getPatternById patterns (PatternPage.id params)) as [q|];
      [|reflexivity].
    destruct H as (Hq & before & after & E & _). exfalso. apply Hnot.
    rewrite <- table_ids, <- Hq, E. apply in_map, in_elt.
Qed.

(** X18 (related patterns).  The page of every pattern of the table lists the three other patterns
    of its category and never the pattern itself; each link goes to
    [/patterns/] and the identifier of a pattern that has a page. *)
Theorem related_patterns_of_page pattern :
  In pattern patterns ->
  length (PatternPage.relatedPatterns patterns pattern) = 3
  /\ Forall
       (fun p =>
          id p <> id pattern /\ category p = category pattern
          /\ getPatternById patterns (id p) = Some p
          /\ In (id p) staticIds)
       (PatternPage.relatedPatterns patterns pattern)
  /\ exists page,
       PatternPage.PatternPage patterns {| PatternPage.id := id pattern |}
       = Some page
       /\ PatternPage.relatedLinks page
          = Some (map (fun p => (u "/patterns/" ++ id p, name p ++ [32; 8594]%N))
                    (PatternPage.relatedPatterns patterns pattern)).
Proof.
  intros Hin. split; [apply related_count; exact Hin|]. split.
  - apply Forall_forall. intros p Hp.
    unfold PatternPage.relatedPatterns, getPatternsByCategory in Hp.
    apply filter_In in Hp as [Hp Hne]. apply filter_In in Hp as [Hp Hc].
    apply negb_true_iff, str_eqb_false in Hne. apply Category_eqb_true in Hc.
    split; [exact Hne|]. split; [exact Hc|]. split.
    + apply getPatternById_unique; [exact table_NoDup|exact Hp].
    + rewrite <- table_ids. apply in_map. exact Hp.
  - unfold PatternPage.PatternPage. cbn [PatternPage.id].
    rewrite (getPatternById_unique patterns pattern table_NoDup Hin).
    eexists. split; [reflexivity|]. cbn [PatternPage.relatedLinks].
    rewrite (related_count pattern Hin). reflexivity.
Qed.

End Pages.

Lemma static_params_resolve_witness :
  exists page,
    PatternPage.PatternPage PatternsData.sample_table
      {| PatternPage.id := u "proxy" |} = Some page
    /\ badge (PatternPage.codeBlock page) = u "typescript".
Proof.
  destruct (proj1 (proj2 (static_params_resolve PatternsData.sample_table eq_refl))
              {| PatternPage.id := u "proxy" |})
    as (pattern & page & _ & _ & Hpage & _ & Hbadge & _).
  - vm_compute. tauto.
  - exists page. split; [exact Hpage|exact Hbadge].
Defined.

Lemma related_patterns_of_page_witness :
  length
    (PatternPage.relatedPatterns PatternsData.sample_table
       (nth 4 PatternsData.sample_table
          (PatternsData.Build_Pattern [] [] PatternsData.creational [] [] [])))
  = 3.
Proof.
  apply (related_patterns_of_page PatternsData.sample_table eq_refl).
  vm_compute. tauto.
Defined.

Section HomePage.

Import PatternsData.

Variable patterns : list Pattern.
Hypothesis table : columns patterns = patterns_columns.

(** X19 (cards of the home page).  The home page shows every pattern of the table once, in the table's
    order, four cards to each of its three sections, and the card of a
    pattern links to the page generated for it. *)
Theorem home_cards_link_to_pages :
  concat (map (fun section => map PatternCard.href (snd section))
            (Home.Home patterns))
  = map (fun params => u "/patterns/" ++ PatternPage.id params)
      PatternPage.generateStaticParams
  /\ map (fun section => length (snd section)) (Home.Home patterns) = [4; 4; 4].
Proof.
  revert table. unfold columns, patterns_columns. generalize patterns.
  intros ps H.
  do 12 (destruct ps as [|[? ? ? ? ? ?] ps]; [discriminate H|];
         cbn [map id name category] in H; injection H as -> -> -> H).
  destruct ps; [|discriminate H].
  split; vm_compute; reflexivity.
Qed.

End HomePage.

Lemma home_cards_link_to_pages_witness :
  map (fun section => length (snd section))
    (Home.Home PatternsData.sample_table) = [4; 4; 4].
Proof.
  apply (home_cards_link_to_pages PatternsData.sample_table eq_refl).
Defined.

(** X20 (colours and labels).  The category of a pattern never falls to the gray default of either
    colour function; the badge of the page's header carries the very
    classes of the card's badge, the colour of the page's breadcrumb is one
    of them, and both label functions give the category's name with its
    first letter in upper case. *)
Theorem category_colours_agree c :
  let cat := PatternsData.category_name c in
  PatternCard.getCategoryColor cat <> u "bg-gray-900/20 text-gray-400 border-gray-800"
  /\ PatternPage.getCategoryColor cat <> u "text-gray-400"
  /\ PatternPage.headerBadgeColor cat = PatternCard.getCategoryColor cat
  /\ JSString.includes (PatternPage.getCategoryColor cat)
       (PatternCard.getCategoryColor cat) = true
  /\ PatternPage.getCategoryLabel cat = PatternCard.getCategoryLabel cat
  /\ PatternCard.getCategoryLabel cat
     = match c with
       | PatternsData.creational => u "Creational"
       | PatternsData.structural => u "Structural"
       | PatternsData.behavioral => u "Behavioral"
       end.
Proof.
  destruct c; vm_compute; repeat split; try reflexivity; discriminate.
Qed.

(** ** Further properties: the worker *)

Lemma includes_unit_absent c s : ~ In c s -> JSString.includes [c] s = false.
Proof.
  induction s as [|x s IH]; intros H; [reflexivity|].
  cbn [JSString.includes prefixb]. rewrite IH by (intros Hin; apply H; right; exact Hin).
  destruct (c =? x)%N eqn:E; [|reflexivity].
  apply N.eqb_eq in E. destruct H. left. symmetry. exact E.
Qed.

(** X21 (worker).  The worker answers the root path with its welcome text whatever the
    asset store holds, and it has no page for a pattern: a request for
    [/patterns/] and an identifier without a dot never reaches the asset
    store and is answered [404 Not found]. *)
Theorem worker_serves_no_pattern_page kv :
  Worker.status (Worker.fetch kv (u "/")) = 200
  /\ forall i,
       ~ In 46%N i ->
       Worker.isStaticAsset (u "/patterns/" ++ i) = false
       /\ Worker.fetch kv (u "/patterns/" ++ i)
          = {| Worker.status := 404; Worker.body := u "Not found";
               Worker.headers := [] |}.
Proof.
  split; [reflexivity|]. intros i Hi.
  assert (Hdot : JSString.includes (u ".") (u "/patterns/" ++ i) = false).
  { apply includes_unit_absent. intros Hin. apply in_app_or in Hin as [Hin|Hin].
    - revert Hin. vm_compute. intuition discriminate.
    - exact (Hi Hin). }
  assert (Hasset : Worker.isStaticAsset (u "/patterns/" ++ i) = false).
  { unfold Worker.isStaticAsset. rewrite Hdot. reflexivity. }
  split; [exact Hasset|]. unfold Worker.fetch. rewrite Hasset.
  unfold Worker.server_fetch.
  replace (str_eqb (u "/patterns/" ++ i) (u "/")) with false; [reflexivity|].
  symmetry. apply str_eqb_false. discriminate.
Qed.

Lemma worker_serves_no_pattern_page_witness :
  Worker.status
    (Worker.fetch (fun _ => None) (u "/patterns/" ++ u "singleton")) = 404.
Proof.
  rewrite (proj2 (proj2 (worker_serves_no_pattern_page (fun _ => None)) (u "singleton")
                    ltac:(vm_compute; intuition discriminate))).
  reflexivity.
Defined.

(** ** Completeness of the matcher *)

Section Completeness.

Variable ml : bool.

Lemma star_loop_complete g a (k : cont) w :
  forall p s c res,
    forallb (atom_matches a) w = true ->
    k (MState (lastc p w) s c) = Some res ->
    exists res', star_loop g a k p (w ++ s) c = Some res'.
Proof.
  induction w as [|x w IH]; intros p s c res Hw Hk.
  - cbn [app lastc] in *. destruct s as [|y s]; cbn [star_loop]; [eauto|].
    destruct (atom_matches a y); [|eauto].
    destruct g.
    + destruct (star_loop true a k (Some y) s c); eauto.
    + rewrite Hk. eauto.
  - cbn [forallb] in Hw. apply andb_true_iff in Hw as [Hx Hw].
    cbn [app star_loop]. rewrite Hx.
    destruct (IH (Some x) s c res Hw Hk) as [r Hr].
    destruct g.
    + rewrite Hr. eauto.
    + destruct (k (MState p (x :: w ++ s) c)); eauto.
Qed.

(** Whatever the declarative semantics accepts, with a continuation that
    succeeds behind it, the matcher finds a match. *)
Lemma rmatch_complete r :
  forall (k : cont) p w s c c' res,
    Sem ml r p w s c c' ->
    k (MState (lastc p w) s c') = Some res ->
    exists res', rmatch ml r k (MState p (w ++ s) c) = Some res'.
Proof.
  induction r as [|a|r1 IH1 r2 IH2|r1 IH1 r2 IH2|g a|g a|r1 IH1| | |r1 IH1];
    intros k p w s c c' res HS Hk; cbn [Sem] in HS; cbn [rmatch rest prev cap1].
  - destruct HS as [-> ->]. eauto.
  - destruct HS as (x & -> & Hx & ->). cbn [app]. rewrite Hx. eauto.
  - destruct HS as (w1 & w2 & c1 & -> & S1 & S2).
    rewrite lastc_app in Hk.
    destruct (IH2 k _ _ _ _ _ _ S2 Hk) as [r2' H2].
    rewrite <- app_assoc.
    exact (IH1 (rmatch ml r2 k) _ _ _ _ _ _ S1 H2).
  - destruct HS as [S1|S2].
    + destruct (IH1 k _ _ _ _ _ _ S1 Hk) as [r' H']. rewrite H'. eauto.
    + destruct (rmatch ml r1 k (MState p (w ++ s) c)); [eauto|].
      exact (IH2 k _ _ _ _ _ _ S2 Hk).
  - destruct HS as [Hw ->]. eapply star_loop_complete; eauto.
  - destruct HS as (Hne & Hw & ->). destruct w as [|x w]; [congruence|].
    cbn [forallb] in Hw. apply andb_true_iff in Hw as [Hx Hw].
    cbn [app]. rewrite Hx. eapply star_loop_complete; eauto.
  - destruct HS as (c1 & S1 & ->).
    eapply IH1; [exact S1|]. cbn [prev rest].
    rewrite firstn_consumed. exact Hk.
  - destruct HS as (-> & -> & Hx). cbn [app]. rewrite Hx. eauto.
  - destruct HS as (-> & -> & He). cbn [app lastc] in *.
    destruct s as [|x s]; [eauto|]. cbn [at_eol] in He. rewrite He. eauto.
  - destruct HS as (-> & -> & Hn). cbn [app lastc] in *. rewrite Hn. eauto.
Qed.

End Completeness.

Lemma exec_at_complete re p w s g :
  Sem (multiline re) (source re) p w s None g ->
  exists n g', exec_at re p (w ++ s) = Some (n, g').
Proof.
  intros HS. unfold exec_at.
  destruct (rmatch_complete (multiline re) (source re) Some p w s None g _ HS eq_refl)
    as [res Hres].
  rewrite Hres. eauto.
Qed.

(** ** The guarded passes on words *)

Section WordItems.

Import Words.

Lemma render_items_app a b :
  render_items (a ++ b) = render_items a ++ render_items b.
Proof. apply flat_map_app. Qed.

Lemma closes_comm cats : close_tag ++ closes cats = closes cats ++ close_tag.
Proof.
  induction cats as [|c cats IH]; [reflexivity|].
  cbn [closes flat_map]. fold (closes cats).
  rewrite <- app_assoc, <- IH. reflexivity.
Qed.

Lemma closes_snoc cats cat : closes (cats ++ [cat]) = close_tag ++ closes cats.
Proof.
  unfold closes. rewrite flat_map_app. cbn [flat_map]. rewrite app_nil_r.
  symmetry. apply closes_comm.
Qed.

Lemma guard_clear_plain_app w s :
  forallb plain w = true -> guard_clear (w ++ s) = guard_clear s.
Proof.
  induction w as [|x w IH]; intros H; [reflexivity|].
  cbn [forallb] in H. apply andb_true_iff in H as [Hx Hw].
  unfold plain in Hx. apply andb_true_iff in Hx as [H1 H2].
  apply negb_true_iff in H1, H2. cbn [app guard_clear]. rewrite H1, H2. auto.
Qed.

Lemma guard_clear_open cat s : guard_clear (open_tag cat ++ s) = true.
Proof. destruct cat; reflexivity. Qed.

Lemma guard_clear_close s : guard_clear (close_tag ++ s) = true.
Proof. reflexivity. Qed.

Lemma ident_part_not_word x : is_ident_part x = false -> is_word x = false.
Proof.
  intros H. destruct (is_word x) eqn:E; [|reflexivity].
  rewrite (word_ident_part x E) in H. discriminate.
Qed.

Lemma words_plain w : forallb is_word w = true -> forallb plain w = true.
Proof.
  intros H. apply forallb_forall. intros x Hx. apply word_plain.
  rewrite forallb_forall in H. auto.
Qed.

Lemma items_ok_weaken b its : items_ok b its = true -> items_ok false its = true.
Proof.
  destruct its as [|[c|cats w|w] r]; cbn [items_ok]; auto.
  destruct b; [discriminate|auto].
Qed.

Lemma guard_clear_items its :
  forall b, items_ok b its = true -> guard_clear (render_items its) = true.
Proof.
  induction its as [|it its IH]; intros b H; [reflexivity|].
  destruct it as [c|cats w|w]; cbn [items_ok] in H; [| |discriminate].
  - apply andb_true_iff in H as [H Hr]. apply andb_true_iff in H as [_ Hc].
    change (render_items (Sep c :: its)) with ([c] ++ render_items its).
    rewrite guard_clear_plain_app by (cbn; rewrite Hc; reflexivity). eauto.
  - apply andb_true_iff in H as [H Hr]. apply andb_true_iff in H as [_ Hw].
    change (render_items (Word cats w :: its))
      with ((flat_map open_tag cats ++ w ++ closes cats) ++ render_items its).
    destruct cats as [|cat cats].
    + cbn [flat_map closes app]. rewrite app_nil_r.
      rewrite guard_clear_plain_app by (apply words_plain; exact Hw). eauto.
    + cbn [flat_map]. rewrite <- !app_assoc. apply guard_clear_open.
Qed.

Lemma ends_word_items its :
  items_ok true its = true -> ends_word (render_items its) = true.
Proof.
  destruct its as [|[c|cats w|w] r]; cbn [items_ok]; intros H;
    [reflexivity| |discriminate|discriminate].
  apply andb_true_iff in H as [H _]. apply andb_true_iff in H as [H _].
  exact H.
Qed.

Lemma ends_word_not_word s : ends_word s = true -> is_word_opt (hd_error s) = false.
Proof.
  destruct s as [|x s]; [reflexivity|]. cbn. intros H.
  apply negb_true_iff in H. apply ident_part_not_word. exact H.
Qed.

Lemma tag_ok sel cat its :
  forall b, items_ok b its = true -> items_ok b (map (tag sel cat) its) = true.
Proof.
  induction its as [|it its IH]; intros b H; [reflexivity|].
  destruct it as [c|cats w|w]; cbn [items_ok map tag] in *; [| |discriminate].
  - apply andb_true_iff in H as [H Hr]. rewrite H. cbn. eauto.
  - apply andb_true_iff in H as [H Hr].
    destruct (sel w); cbn [items_ok]; rewrite H; cbn; eauto.
Qed.

End WordItems.

Section WordPass.

Import Words.

Variables (G : regex) (cat : category) (sel : str -> bool).

Local Abbreviation re := (mkRegExp (WordB ;; Group G ;; WordB ;; guard)%re false).
Local Abbreviation tpl := (spanTemplate (class_of cat) "").

Hypothesis G_only : only is_ident_part G.
Hypothesis G_min : Nat.ltb 0 (min_len G) = true.
Hypothesis G_sound :
  forall p w s c c',
    Sem false G p w s c c' -> forallb is_word w = true -> sel w = true.
Hypothesis G_complete :
  forall p w s c,
    w <> [] -> forallb is_word w = true -> sel w = true ->
    exists c', Sem false G p w s c c'.
Hypothesis W : wraps true re tpl cat.

Lemma word_group_parts p w s g :
  Sem false (source re) p w s None g ->
  (exists c', Sem false G p w s None c')
  /\ g = Some w
  /\ xorb (is_word_opt p) (is_word_opt (hd_error (w ++ s))) = true
  /\ xorb (is_word_opt (lastc p w)) (is_word_opt (hd_error s)) = true
  /\ guard_clear s = true.
Proof.
  cbn [source]. intros H.
  destruct H as (w1 & w2 & c1 & -> & (-> & -> & Hb1) & H).
  destruct H as (w3 & w4 & c2 & -> & (c3 & HX & ->) & H).
  destruct H as (w5 & w6 & c4 & -> & (-> & -> & Hb2) & H).
  apply Sem_guard in H as (-> & -> & Hg).
  cbn [app lastc] in *. rewrite !app_nil_r in *. eauto 6.
Qed.

(** At the start of a word the pattern can only match the whole word. *)
Lemma word_match p w s n g :
  forallb is_word w = true -> w <> [] -> ends_word s = true ->
  exec_at re p (w ++ s) = Some (n, g) ->
  n = length w /\ g = Some w /\ sel w = true.
Proof.
  intros Hw Hne Hs E.
  destruct (exec_at_sound _ _ _ _ _ E) as (w' & s' & Hsplit & -> & S1).
  apply word_group_parts in S1 as ((c' & SG) & -> & _ & B2 & _).
  assert (Hw'ne : w' <> []) by (eapply Sem_nonempty; eauto).
  pose proof (Sem_only false is_ident_part G G_only _ _ _ _ _ SG) as Hid.
  assert (w' = w) as ->.
  { destruct (Nat.le_gt_cases (length w') (length w)) as [Hle|Hgt].
    - destruct (split_shorter _ _ _ _ Hsplit Hle) as (l & Hl & Hs').
      destruct l as [|x l]; [rewrite app_nil_r in Hl; congruence|].
      exfalso. rewrite Hl, forallb_app in Hw.
      apply andb_true_iff in Hw as [Hw1 Hw2].
      rewrite (lastc_word p w' Hw'ne Hw1), Hs' in B2. cbn in B2.
      cbn [forallb] in Hw2. apply andb_true_iff in Hw2 as [Hx _].
      rewrite Hx in B2. discriminate.
    - destruct (split_longer _ _ _ _ Hsplit ltac:(lia)) as (l & Hl & Hs').
      destruct l as [|x l]; [rewrite app_nil_r in Hl; congruence|].
      exfalso. rewrite Hs' in Hs. cbn [app ends_word] in Hs.
      rewrite Hl, forallb_app in Hid. apply andb_true_iff in Hid as [_ Hid].
      cbn [forallb] in Hid. apply andb_true_iff in Hid as [Hx _].
      rewrite Hx in Hs. discriminate. }
  split; [reflexivity|]. split; [reflexivity|]. eapply G_sound; eauto.
Qed.

Lemma exec_word p w s :
  is_word_opt p = false -> forallb is_word w = true -> w <> [] ->
  ends_word s = true -> guard_clear s = true ->
  exec_at re p (w ++ s) = if sel w then Some (length w, Some w) else None.
Proof.
  intros Hp Hw Hne Hs Hg. destruct (sel w) eqn:Esel.
  - destruct (G_complete p w s None Hne Hw Esel) as (c' & SG).
    assert (S1 : Sem false (source re) p w s None (Some w)).
    { cbn [source Sem].
      exists [], w, None. split; [reflexivity|]. split.
      - split; [reflexivity|]. split; [reflexivity|].
        rewrite Hp. destruct w as [|x w]; [congruence|].
        cbn [forallb] in Hw. apply andb_true_iff in Hw as [Hx _].
        cbn. rewrite Hx. reflexivity.
      - exists w, [], (Some w). split; [symmetry; apply app_nil_r|]. split.
        + exists c'. split; [exact SG|reflexivity].
        + exists [], [], (Some w). split; [reflexivity|]. split.
          * split; [reflexivity|]. split; [reflexivity|].
            cbn [lastc app]. rewrite (lastc_word p w Hne Hw).
            rewrite (ends_word_not_word s Hs). reflexivity.
          * split; [reflexivity|]. split; [reflexivity|].
            exact (proj2 (guard_loop false s _ _) Hg). }
    destruct (exec_at_complete re p w s _ S1) as (n & g' & E).
    destruct (word_match p w s n g' Hw Hne Hs E) as (-> & -> & _). exact E.
  - destruct (exec_at re p (w ++ s)) as [[n g]|] eqn:E; [|reflexivity].
    destruct (word_match p w s n g Hw Hne Hs E) as (_ & _ & H). congruence.
Qed.

Lemma exec_sep p c s : is_ident_part c = false -> exec_at re p (c :: s) = None.
Proof.
  intros Hc. destruct (exec_at re p (c :: s)) as [[n g]|] eqn:E; [|reflexivity].
  exfalso.
  destruct (exec_at_sound _ _ _ _ _ E) as (w' & s' & Hsplit & -> & S1).
  apply word_group_parts in S1 as ((c' & SG) & _).
  assert (Hw'ne : w' <> []) by (eapply Sem_nonempty; eauto).
  pose proof (Sem_only false is_ident_part G G_only _ _ _ _ _ SG) as Hid.
  destruct w' as [|x w']; [congruence|]. inversion Hsplit; subst x.
  cbn [forallb] in Hid. rewrite Hc in Hid. discriminate.
Qed.

Lemma exec_in_word p x s :
  is_word_opt p = true -> is_word x = true -> exec_at re p (x :: s) = None.
Proof.
  intros Hp Hx. destruct (exec_at re p (x :: s)) as [[n g]|] eqn:E; [|reflexivity].
  exfalso.
  destruct (exec_at_sound _ _ _ _ _ E) as (w' & s' & Hsplit & -> & S1).
  apply word_group_parts in S1 as (_ & _ & B1 & _).
  rewrite <- Hsplit in B1. cbn in B1. rewrite Hp, Hx in B1. discriminate.
Qed.

Lemma scan_opens cats :
  forall s p,
    scan re p (flat_map open_tag cats ++ s) 0
    = map Copy (flat_map open_tag cats)
      ++ scan re (match cats with [] => p | _ :: _ => Some c_gt end) s 0.
Proof.
  induction cats as [|c cats IH]; intros s p; [reflexivity|].
  cbn [flat_map]. rewrite <- app_assoc.
  rewrite (scan_open_tag re tpl cat c _ p W), IH, map_app, <- app_assoc.
  destruct cats; reflexivity.
Qed.

Lemma scan_closes cats :
  forall s p,
    scan re p (closes cats ++ s) 0
    = map Copy (closes cats)
      ++ scan re (match cats with [] => p | _ :: _ => Some c_gt end) s 0.
Proof.
  induction cats as [|c cats IH]; intros s p; [reflexivity|].
  cbn [closes flat_map]. fold (closes cats). rewrite <- app_assoc.
  rewrite (scan_close_tag re tpl cat _ p W), IH, map_app, <- app_assoc.
  destruct cats; reflexivity.
Qed.

(** The pass on words: every selected word gets the span, inside the
    spans it has. *)
Lemma word_pass_items its :
  forall p b,
    items_ok b its = true -> (is_word_opt p = true -> b = true) ->
    flat_map (render (expand tpl)) (scan re p (render_items its) 0)
    = render_items (map (tag sel cat) its).
Proof.
  induction its as [|it its IH]; intros p b Hok Hp.
  - cbn [render_items flat_map scan].
    rewrite (no_hit_at_end true re tpl cat W). reflexivity.
  - destruct it as [c|cats w|w]; cbn [items_ok] in Hok; [| |discriminate].
    + apply andb_true_iff in Hok as [Hc Hr]. apply andb_true_iff in Hc as [Hc _].
      apply negb_true_iff in Hc.
      change (render_items (Sep c :: its)) with (c :: render_items its).
      rewrite scan_miss by (apply exec_sep; exact Hc).
      cbn [flat_map render map tag]. rewrite (IH (Some c) false Hr).
      * reflexivity.
      * cbn. rewrite (ident_part_not_word c Hc). discriminate.
    + apply andb_true_iff in Hok as [Hok Hr].
      apply andb_true_iff in Hok as [Hok Hw].
      apply andb_true_iff in Hok as [Hb Hne].
      apply negb_true_iff in Hb. subst b.
      assert (Hwne : w <> []) by (destruct w; [discriminate|discriminate]).
      assert (Hp0 : is_word_opt p = false).
      { destruct (is_word_opt p); [|reflexivity]. discriminate (Hp eq_refl). }
      change (render_items (Word cats w :: its))
        with ((flat_map open_tag cats ++ w ++ closes cats) ++ render_items its).
      rewrite <- !app_assoc, scan_opens.
      set (p1 := match cats with [] => p | _ :: _ => Some c_gt end).
      set (s1 := closes cats ++ render_items its).
      assert (Hp1 : is_word_opt p1 = false) by (destruct cats; [exact Hp0|reflexivity]).
      assert (Hs1 : ends_word s1 = true).
      { destruct cats; [apply ends_word_items; exact Hr|reflexivity]. }
      assert (Hg1 : guard_clear s1 = true).
      { destruct cats; [eapply guard_clear_items; exact Hr|reflexivity]. }
      pose proof (exec_word p1 w s1 Hp1 Hw Hwne Hs1 Hg1) as E.
      assert (Htail :
                forall q,
                  flat_map (render (expand tpl)) (scan re q s1 0)
                  = closes cats ++ render_items (map (tag sel cat) its)).
      { intros q. unfold s1. rewrite scan_closes, flat_map_app, render_copies.
        f_equal. apply (IH _ true Hr). auto. }
      rewrite flat_map_app, render_copies. cbn [map tag].
      destruct (sel w) eqn:Esel.
      * rewrite (scan_hit re p1 w s1 (Some w) Hwne E).
        cbn [flat_map render]. rewrite Htail, expand_span_plain.
        change (render_items (Word (cats ++ [cat]) w :: map (tag sel cat) its))
          with ((flat_map open_tag (cats ++ [cat]) ++ w ++ closes (cats ++ [cat]))
                ++ render_items (map (tag sel cat) its)).
        rewrite flat_map_app, closes_snoc. cbn [flat_map].
        rewrite app_nil_r, <- !app_assoc. reflexivity.
      * destruct w as [|x w]; [congruence|].
        cbn [forallb] in Hw. apply andb_true_iff in Hw as [Hx Hw].
        cbn [app] in E |- *. rewrite (scan_miss re p1 x (w ++ s1) E).
        rewrite (scan_inside_word re exec_in_word w s1 (Some x) Hx Hw).
        cbn [flat_map render]. rewrite flat_map_app, render_copies, Htail.
        change (render_items (Word cats (x :: w) :: map (tag sel cat) its))
          with ((flat_map open_tag cats ++ (x :: w) ++ closes cats)
                ++ render_items (map (tag sel cat) its)).
        rewrite <- !app_assoc. cbn [app]. rewrite <- ?app_assoc. reflexivity.
Qed.

Lemma word_pass its :
  items_ok false its = true ->
  replace re tpl (render_items its) = render_items (map (tag sel cat) its).
Proof.
  intros H. unfold replace, replace_fn.
  apply (word_pass_items its None false H). discriminate.
Qed.

End WordPass.

Section WordPasses.

Import Words.

Lemma Sem_lit_intro ml w :
  forall p s c, Sem ml (lit w) p w s c c.
Proof.
  induction w as [|x w IH]; intros p s c; [split; reflexivity|].
  destruct w as [|y w].
  - cbn [lit Sem]. exists x. split; [reflexivity|]. split; [apply N.eqb_refl|reflexivity].
  - change (lit (x :: y :: w)) with (Seq (At (AChar x)) (lit (y :: w))).
    cbn [Sem]. exists [x], (y :: w), c. split; [reflexivity|]. split.
    + exists x. split; [reflexivity|]. split; [apply N.eqb_refl|reflexivity].
    + apply IH.
Qed.

Lemma Sem_alt_join_lit_intro ml ws w :
  In w ws -> forall p s c, Sem ml (alt_join (map lit ws)) p w s c c.
Proof.
  induction ws as [|v ws IH]; intros Hin p s c; [destruct Hin|].
  destruct ws as [|v' ws].
  - destruct Hin as [->|[]]. apply Sem_lit_intro.
  - change (alt_join (map lit (v :: v' :: ws)))
      with (Alt (lit v) (alt_join (map lit (v' :: ws)))).
    cbn [Sem]. destruct Hin as [->|Hin]; [left; apply Sem_lit_intro|].
    right. apply IH. exact Hin.
Qed.

Lemma in_list_str w ws : existsb (str_eqb w) ws = true <-> In w ws.
Proof.
  rewrite existsb_exists. split.
  - intros (x & Hx & E). apply str_eqb_true in E. subst x. exact Hx.
  - intros H. exists w. split; [exact H|apply str_eqb_true; reflexivity].
Qed.

Lemma word_list_pass ws cat its :
  ws <> [] ->
  forallb (forallb is_ident_part) ws = true ->
  Nat.ltb 0 (min_len (alt_join (map lit ws))) = true ->
  wraps true (wordListRegex ws) (spanTemplate (class_of cat) "") cat ->
  items_ok false its = true ->
  replace (wordListRegex ws) (spanTemplate (class_of cat) "") (render_items its)
  = render_items (map (tag (fun w => existsb (str_eqb w) ws) cat) its).
Proof.
  intros Hne Hws Hmin HW Hok.
  apply (word_pass (alt_join (map lit ws)) cat); auto.
  - apply only_words. exact Hws.
  - intros p w s c c' HS _. apply in_list_str.
    eapply Sem_alt_join_lit; eauto.
  - intros p w s c _ _ Hsel. exists c.
    apply Sem_alt_join_lit_intro. apply in_list_str. exact Hsel.
Qed.

Lemma keyword_items its :
  items_ok false its = true ->
  replace keywordRegex (spanTemplate "text-purple-400" "") (render_items its)
  = render_items (map (tag is_keyword Keyword) its).
Proof.
  intros Hok.
  apply (word_list_pass keywords Keyword its); auto.
  - discriminate.
  - exact wraps_keyword.
Qed.

Lemma type_items its :
  items_ok false its = true ->
  replace typeRegex (spanTemplate "text-cyan-400" "") (render_items its)
  = render_items (map (tag is_type TypeName) its).
Proof.
  intros Hok.
  apply (word_list_pass types TypeName its); auto.
  - discriminate.
  - exact wraps_type.
Qed.

Lemma digit_ident_part x : is_digit x = true -> is_ident_part x = true.
Proof.
  intros H. unfold is_ident_part, identPart.
  cbn [atom_matches existsb citem_matches xorb].
  unfold is_digit in H. rewrite H, !orb_true_r. reflexivity.
Qed.

Lemma upper_ident_part x : is_upper x = true -> is_ident_part x = true.
Proof.
  intros H. unfold is_ident_part, identPart.
  cbn [atom_matches existsb citem_matches xorb].
  unfold is_upper in H. rewrite H, !orb_true_r. reflexivity.
Qed.

Lemma forallb_same {A} (f g : A -> bool) l :
  (forall x, f x = g x) -> forallb f l = forallb g l.
Proof.
  intros H. induction l as [|x l IH]; [reflexivity|].
  cbn [forallb]. rewrite H, IH. reflexivity.
Qed.

Lemma digit_class x : atom_matches (AClass false [CDigit]) x = is_digit x.
Proof. cbn. apply orb_false_r. Qed.

Lemma number_items its :
  items_ok false its = true ->
  replace numberRegex (spanTemplate "text-orange-400" "") (render_items its)
  = render_items (map (tag is_number Number) its).
Proof.
  intros Hok.
  apply (word_pass (Plus true (AClass false [CDigit])) Number); auto.
  - intros x Hx. rewrite digit_class in Hx. apply digit_ident_part. exact Hx.
  - intros p w s c c' (_ & Hw & _) _. unfold is_number.
    rewrite <- Hw. apply forallb_same. intros x. symmetry. apply digit_class.
  - intros p w s c Hne _ Hsel. exists c. split; [exact Hne|]. split; [|reflexivity].
    unfold is_number in Hsel. rewrite <- Hsel.
    apply forallb_same. intros x. apply digit_class.
  - exact wraps_number.
Qed.

Lemma upper_class x : atom_matches (AClass false [CRange 65 90]) x = is_upper x.
Proof. cbn. apply orb_false_r. Qed.

Lemma class_items its :
  items_ok false its = true ->
  replace classRegex (spanTemplate "text-blue-400" "") (render_items its)
  = render_items (map (tag is_capitalized ClassName) its).
Proof.
  intros Hok.
  apply (word_pass
           (At (AClass false [CRange 65 90]) ;; Star true identPart)%re ClassName);
    auto.
  - split; [|intros x Hx; exact Hx].
    intros x Hx. rewrite upper_class in Hx. apply upper_ident_part. exact Hx.
  - intros p w s c c' (w1 & w2 & c1 & -> & (x & -> & Hx & _) & _) _.
    rewrite upper_class in Hx. exact Hx.
  - intros p w s c Hne Hw Hsel. exists c.
    destruct w as [|x w]; [congruence|]. cbn [is_capitalized] in Hsel.
    cbn [forallb] in Hw. apply andb_true_iff in Hw as [_ Hw].
    exists [x], w, c. split; [reflexivity|]. split.
    + exists x. split; [reflexivity|]. split; [|reflexivity].
      rewrite upper_class. exact Hsel.
    + split; [|reflexivity]. apply forallb_forall. intros y Hy.
      apply (word_ident_part y). rewrite forallb_forall in Hw. auto.
  - exact wraps_class.
Qed.

End WordPasses.

Section CallPass.

Import Words.

Local Abbreviation tplF := (spanTemplate "text-yellow-400" "(").

Lemma space_not_ident x : is_space x = true -> is_ident_part x = false.
Proof.
  intros H. apply bool_by_cases_f. intros F.
  unfold is_ident_part, identPart in F.
  cbn [atom_matches existsb citem_matches xorb] in F.
  unfold is_space, in_range, c_underscore, c_dollar in *.
  repeat (apply orb_true_iff in H; destruct H as [H|H]);
    repeat (apply orb_true_iff in F; destruct F as [F|F]);
    try discriminate;
    repeat match goal with
    | H : _ && _ = true |- _ => apply andb_true_iff in H; destruct H
    | H : (_ <=? _)%N = true |- _ => apply N.leb_le in H
    | H : (_ =? _)%N = true |- _ => apply N.eqb_eq in H
    end; lia.
Qed.

Lemma function_parts p w s g :
  Sem false (source functionRegex) p w s None g ->
  exists x gw ws,
    w = (x :: gw) ++ ws ++ [c_lparen]
    /\ atom_matches identStart x = true
    /\ forallb is_ident_part gw = true /\ forallb is_space ws = true
    /\ g = Some (x :: gw)
    /\ xorb (is_word_opt p) (is_word x) = true
    /\ guard_clear s = true.
Proof.
  unfold functionRegex. cbn [source]. intros H.
  destruct H as (w1 & w2 & c1 & -> & (-> & -> & Hb) & H).
  destruct H as (w3 & w4 & c2 & -> & (c3 & HX & ->) & H).
  destruct H as (w5 & w6 & c4 & -> & (Hws & ->) & H).
  destruct H as (w7 & w8 & c5 & -> & (x & -> & Hx & ->) & H).
  apply Sem_guard in H as (-> & -> & Hg).
  apply N.eqb_eq in Hx. subst x.
  destruct HX as (v1 & v2 & c6 & -> & (y & -> & Hy & _) & (Hv2 & _)).
  exists y, v2, w5. cbn [app] in *. rewrite ?app_nil_r.
  split; [reflexivity|]. split; [exact Hy|]. split; [exact Hv2|]. split.
  - rewrite <- Hws. apply forallb_same. intros x. cbn. symmetry. apply orb_false_r.
  - split; [reflexivity|]. split; [exact Hb|exact Hg].
Qed.

Lemma spaces_paren_unique ws ws' (Y Y' : str) :
  forallb is_space ws = true -> forallb is_space ws' = true ->
  ws ++ c_lparen :: Y = ws' ++ c_lparen :: Y' -> ws = ws' /\ Y = Y'.
Proof.
  revert ws'. induction ws as [|x ws IH]; intros [|x' ws'] H1 H2 E;
    cbn [app forallb] in *.
  - inversion E. auto.
  - inversion E; subst x'. discriminate.
  - inversion E; subst x. discriminate.
  - apply andb_true_iff in H1 as [_ H1]. apply andb_true_iff in H2 as [_ H2].
    inversion E; subst x'. destruct (IH ws' H1 H2 H3) as [-> ->]. auto.
Qed.

(** At the start of a word the call pattern can only match the word, the
    white space behind it and the parenthesis. *)
Lemma call_match p w s n g :
  forallb is_word w = true -> w <> [] -> ends_word s = true ->
  exec_at functionRegex p (w ++ s) = Some (n, g) ->
  exists ws Y,
    s = ws ++ c_lparen :: Y /\ forallb is_space ws = true
    /\ n = length (w ++ ws ++ [c_lparen]) /\ g = Some w
    /\ starts_ident w = true.
Proof.
  intros Hw Hne Hs E.
  destruct (exec_at_sound _ _ _ _ _ E) as (w' & s' & Hsplit & -> & S1).
  apply function_parts in S1
    as (x & gw & ws & -> & Hx & Hgw & Hws & -> & _ & _).
  rewrite <- app_assoc in Hsplit.
  assert (Hid : forallb is_ident_part (x :: gw) = true).
  { cbn [forallb]. rewrite Hgw, (ident_start_part x Hx). reflexivity. }
  assert (x :: gw = w) as Heq.
  { destruct (Nat.le_gt_cases (length (x :: gw)) (length w)) as [Hle|Hgt].
    - destruct (split_shorter _ _ _ _ Hsplit Hle) as (l & Hl & Hs').
      destruct l as [|y l]; [rewrite app_nil_r in Hl; congruence|].
      exfalso. rewrite Hl, forallb_app in Hw.
      apply andb_true_iff in Hw as [_ Hw]. cbn [forallb] in Hw.
      apply andb_true_iff in Hw as [Hy _].
      apply word_ident_part in Hy.
      destruct ws as [|z ws]; cbn [app] in Hs'; inversion Hs'; subst y.
      + discriminate Hy.
      + cbn [forallb] in Hws. apply andb_true_iff in Hws as [Hz _].
        rewrite (space_not_ident z Hz) in Hy. discriminate.
    - destruct (split_longer _ _ _ _ Hsplit ltac:(lia)) as (l & Hl & Hs').
      destruct l as [|y l]; [rewrite app_nil_r in Hl; congruence|].
      exfalso. rewrite Hs' in Hs. cbn [app ends_word] in Hs.
      rewrite Hl, forallb_app in Hid. apply andb_true_iff in Hid as [_ Hid].
      cbn [forallb] in Hid. apply andb_true_iff in Hid as [Hy _].
      rewrite Hy in Hs. discriminate. }
  rewrite Heq in Hsplit. apply app_inv_head in Hsplit.
  exists ws, s'. rewrite Heq. split; [rewrite Hsplit, <- app_assoc; reflexivity|].
  split; [exact Hws|]. split; [reflexivity|]. split; [reflexivity|].
  rewrite <- Heq. exact Hx.
Qed.

Lemma exec_call p w ws Y :
  is_word_opt p = false -> forallb is_word w = true -> starts_ident w = true ->
  forallb is_space ws = true -> guard_clear Y = true ->
  exec_at functionRegex p (w ++ ws ++ c_lparen :: Y)
  = Some (length (w ++ ws ++ [c_lparen]), Some w).
Proof.
  intros Hp Hw Hst Hws Hg.
  destruct w as [|x w]; [discriminate Hst|]. cbn [starts_ident] in Hst.
  assert (Hs : ends_word (ws ++ c_lparen :: Y) = true).
  { destruct ws as [|z ws]; [reflexivity|]. cbn [forallb] in Hws.
    apply andb_true_iff in Hws as [Hz _]. cbn [app ends_word].
    rewrite (space_not_ident z Hz). reflexivity. }
  assert (S1 : Sem false (source functionRegex) p
                 ((x :: w) ++ ws ++ [c_lparen]) Y None (Some (x :: w))).
  { unfold functionRegex. cbn [source Sem].
    exists [], ((x :: w) ++ ws ++ [c_lparen]), None.
    split; [reflexivity|]. split.
    - split; [reflexivity|]. split; [reflexivity|].
      rewrite Hp. cbn [forallb] in Hw. apply andb_true_iff in Hw as [Hx _].
      cbn. rewrite Hx. reflexivity.
    - exists (x :: w), (ws ++ [c_lparen]), (Some (x :: w)).
      split; [reflexivity|]. split.
      + exists None. split; [|reflexivity].
        exists [x], w, None. split; [reflexivity|]. split.
        * exists x. split; [reflexivity|]. split; [exact Hst|reflexivity].
        * split; [|reflexivity]. cbn [forallb] in Hw.
          apply andb_true_iff in Hw as [_ Hw].
          apply forallb_forall. intros y Hy. apply (word_ident_part y).
          rewrite forallb_forall in Hw. auto.
      + exists ws, [c_lparen], (Some (x :: w)). split; [reflexivity|]. split.
        * split; [|reflexivity]. rewrite <- Hws. apply forallb_same.
          intros y. cbn. apply orb_false_r.
        * exists [c_lparen], [], (Some (x :: w)). split; [reflexivity|]. split.
          -- exists c_lparen. split; [reflexivity|]. split; reflexivity.
          -- split; [reflexivity|]. split; [reflexivity|].
             exact (proj2 (guard_loop false Y _ _) Hg). }
  destruct (exec_at_complete functionRegex p _ Y _ S1) as (n & g' & E).
  rewrite <- !app_assoc in E. cbn [app] in E.
  change (x :: w ++ ws ++ c_lparen :: Y) with ((x :: w) ++ ws ++ c_lparen :: Y) in E.
  destruct (call_match p (x :: w) _ n g' Hw ltac:(discriminate) Hs E)
    as (ws' & Y' & Heq & Hws' & -> & -> & _).
  destruct (spaces_paren_unique ws ws' Y Y' Hws Hws' Heq) as [<- _].
  exact E.
Qed.

Lemma exec_call_sep p c s :
  is_ident_part c = false -> exec_at functionRegex p (c :: s) = None.
Proof.
  intros Hc.
  destruct (exec_at functionRegex p (c :: s)) as [[n g]|] eqn:E; [|reflexivity].
  exfalso.
  destruct (exec_at_sound _ _ _ _ _ E) as (w' & s' & Hsplit & -> & S1).
  apply function_parts in S1 as (x & gw & ws & -> & Hx & _).
  cbn [app] in Hsplit. inversion Hsplit as [[Hcx Hrest]].
  apply ident_start_part in Hx. rewrite <- Hcx, Hc in Hx. discriminate.
Qed.

Lemma exec_call_in_word p x s :
  is_word_opt p = true -> is_word x = true ->
  exec_at functionRegex p (x :: s) = None.
Proof.
  intros Hp Hx.
  destruct (exec_at functionRegex p (x :: s)) as [[n g]|] eqn:E; [|reflexivity].
  exfalso.
  destruct (exec_at_sound _ _ _ _ _ E) as (w' & s' & Hsplit & -> & S1).
  apply function_parts in S1 as (y & gw & ws & -> & _ & _ & _ & _ & B & _).
  cbn [app] in Hsplit. inversion Hsplit as [[Hxy Hrest]].
  rewrite <- Hxy, Hp, Hx in B. discriminate.
Qed.

End CallPass.

Section ItemScan.

Import Words.

Variables (re : RegExp) (tpl : str) (cat : category).
Hypothesis W : wraps true re tpl cat.

Lemma scan_opens_any cats :
  forall s p,
    scan re p (flat_map open_tag cats ++ s) 0
    = map Copy (flat_map open_tag cats)
      ++ scan re (match cats with [] => p | _ :: _ => Some c_gt end) s 0.
Proof.
  induction cats as [|c cats IH]; intros s p; [reflexivity|].
  cbn [flat_map]. rewrite <- app_assoc.
  rewrite (scan_open_tag re tpl cat c _ p W), IH, map_app, <- app_assoc.
  destruct cats; reflexivity.
Qed.

Lemma scan_closes_any cats :
  forall s p,
    scan re p (closes cats ++ s) 0
    = map Copy (closes cats)
      ++ scan re (match cats with [] => p | _ :: _ => Some c_gt end) s 0.
Proof.
  induction cats as [|c cats IH]; intros s p; [reflexivity|].
  cbn [closes flat_map]. fold (closes cats). rewrite <- app_assoc.
  rewrite (scan_close_tag re tpl cat _ p W), IH, map_app, <- app_assoc.
  destruct cats; reflexivity.
Qed.

(** A word at whose start the pattern finds nothing is copied, when the
    pattern begins with a word boundary. *)
Lemma scan_word_miss p w s :
  (forall p x s, is_word_opt p = true -> is_word x = true ->
                 exec_at re p (x :: s) = None) ->
  forallb is_word w = true ->
  exec_at re p (w ++ s) = None ->
  scan re p (w ++ s) 0 = map Copy w ++ scan re (lastc p w) s 0.
Proof.
  intros Hin Hw E. destruct w as [|x w]; [reflexivity|].
  cbn [forallb] in Hw. apply andb_true_iff in Hw as [Hx Hw].
  cbn [app] in *. rewrite (scan_miss re p x (w ++ s) E).
  rewrite (scan_inside_word re Hin w s (Some x) Hx Hw). reflexivity.
Qed.

End ItemScan.

Section CallItems.

Import Words.

Local Abbreviation tplF := (spanTemplate "text-yellow-400" "(").

Lemma render_seps ws : render_items (map Sep ws) = ws.
Proof.
  induction ws as [|x ws IH]; [reflexivity|].
  cbn [map]. change (render_items (Sep x :: map Sep ws))
    with (x :: render_items (map Sep ws)).
  rewrite IH. reflexivity.
Qed.

Lemma space_not_paren c : is_space c = true -> (c =? c_lparen)%N = false.
Proof.
  intros H. destruct (c =? c_lparen)%N eqn:E; [|reflexivity].
  apply N.eqb_eq in E. subst c. discriminate H.
Qed.

Lemma call_follows_split r :
  call_follows r = true ->
  exists ws r',
    r = map Sep ws ++ Sep c_lparen :: r' /\ forallb is_space ws = true.
Proof.
  induction r as [|it r IH]; [discriminate|].
  destruct it as [c|cats w|w]; [|discriminate|discriminate].
  cbn [call_follows]. destruct (c =? c_lparen)%N eqn:E.
  - intros _. apply N.eqb_eq in E. subst c. exists [], r. split; reflexivity.
  - cbn [orb]. intros H. apply andb_true_iff in H as [Hc Hr].
    destruct (IH Hr) as (ws & r' & -> & Hws).
    exists (c :: ws), r'. split; [reflexivity|]. cbn [forallb].
    rewrite Hc. exact Hws.
Qed.

Lemma call_follows_render ws :
  forall r b Y,
    items_ok b r = true -> forallb is_space ws = true ->
    render_items r = ws ++ c_lparen :: Y -> call_follows r = true.
Proof.
  induction ws as [|x ws IH]; intros r b Y Hok Hws E.
  - destruct r as [|[c|cats w|w] r]; cbn [items_ok] in Hok;
      [discriminate E| | |discriminate Hok].
    + inversion E. subst c. reflexivity.
    + exfalso. apply andb_true_iff in Hok as [Hok _].
      apply andb_true_iff in Hok as [Hok Hw].
      apply andb_true_iff in Hok as [_ Hne].
      destruct cats as [|c cats].
      * destruct w as [|y w]; [discriminate Hne|].
        inversion E. subst y. discriminate Hw.
      * destruct c; discriminate E.
  - cbn [forallb] in Hws. apply andb_true_iff in Hws as [Hx Hws].
    destruct r as [|[c|cats w|w] r]; cbn [items_ok] in Hok;
      [discriminate E| | |discriminate Hok].
    + change (render_items (Sep c :: r)) with (c :: render_items r) in E.
      inversion E. subst c.
      apply andb_true_iff in Hok as [_ Hok].
      cbn [call_follows]. rewrite Hx, (IH r false Y Hok Hws H1).
      apply orb_true_r.
    + exfalso. apply andb_true_iff in Hok as [Hok _].
      apply andb_true_iff in Hok as [Hok Hw].
      apply andb_true_iff in Hok as [_ Hne].
      destruct cats as [|c cats].
      * destruct w as [|y w]; [discriminate Hne|].
        inversion E. subst y. cbn [forallb] in Hw.
        apply andb_true_iff in Hw as [Hy _].
        rewrite (ident_part_not_word x (space_not_ident x Hx)) in Hy.
        discriminate.
      * destruct c; inversion E; subst x; discriminate Hx.
Qed.

Lemma call_items_spaces ws r' :
  forallb is_space ws = true ->
  call_items true (map Sep ws ++ Sep c_lparen :: r')
  = Sep c_lparen :: call_items false r'.
Proof.
  induction ws as [|x ws IH]; intros H; [reflexivity|].
  cbn [forallb] in H. apply andb_true_iff in H as [Hx Hws].
  cbn [map app call_items andb]. rewrite Hx. auto.
Qed.

Lemma items_ok_seps ws r' :
  forall b,
    items_ok b (map Sep ws ++ Sep c_lparen :: r') = true ->
    items_ok false r' = true.
Proof.
  induction ws as [|x ws IH]; intros b H; cbn [map app items_ok] in H.
  - apply andb_true_iff in H as [_ H]. exact H.
  - apply andb_true_iff in H as [_ H]. eauto.
Qed.

Lemma call_ok its :
  forall b,
    items_ok b its = true ->
    items_ok b (call_items false its) = true
    /\ (call_follows its = true ->
        forall b', items_ok b' (call_items true its) = true).
Proof.
  induction its as [|it its IH]; intros b H; [split; [reflexivity|discriminate]|].
  destruct it as [c|cats w|w]; cbn [items_ok] in H; [| |discriminate].
  - apply andb_true_iff in H as [Hc Hr].
    destruct (IH false Hr) as [IH1 IH2]. split.
    + cbn [call_items andb items_ok]. rewrite Hc, IH1. reflexivity.
    + cbn [call_follows call_items andb]. intros Hf b'.
      destruct (is_space c) eqn:Es.
      * rewrite (space_not_paren c Es) in Hf. cbn [orb andb] in Hf. auto.
      * cbn [items_ok]. rewrite Hc, IH1. reflexivity.
  - split; [|discriminate].
    apply andb_true_iff in H as [Hw Hr].
    destruct (IH true Hr) as [IH1 IH2].
    cbn [call_items]. destruct cats as [|c cats].
    + destruct (starts_ident w && call_follows its) eqn:E.
      * apply andb_true_iff in E as [_ E].
        cbn [items_ok]. rewrite Hw, (IH2 E true). reflexivity.
      * cbn [items_ok]. rewrite Hw, IH1. reflexivity.
    + cbn [items_ok]. rewrite Hw, IH1. reflexivity.
Qed.

(** The call-site pass on words. *)
Lemma call_pass_items n :
  forall its p b,
    length its <= n ->
    items_ok b its = true -> (is_word_opt p = true -> b = true) ->
    flat_map (render (expand tplF)) (scan functionRegex p (render_items its) 0)
    = render_items (call_items false its).
Proof.
  induction n as [|n IH]; intros its p b Hlen Hok Hp.
  { destruct its; [|cbn in Hlen; lia].
    cbn [render_items flat_map scan].
    rewrite (no_hit_at_end true functionRegex tplF FunctionName wraps_function).
    reflexivity. }
  destruct its as [|it its].
  { cbn [render_items flat_map scan].
    rewrite (no_hit_at_end true functionRegex tplF FunctionName wraps_function).
    reflexivity. }
  cbn [length] in Hlen.
  destruct it as [c|cats w|w]; cbn [items_ok] in Hok; [| |discriminate].
  - apply andb_true_iff in Hok as [Hc Hr]. apply andb_true_iff in Hc as [Hc _].
    apply negb_true_iff in Hc.
    change (render_items (Sep c :: its)) with (c :: render_items its).
    rewrite scan_miss by (apply exec_call_sep; exact Hc).
    cbn [flat_map render call_items andb].
    rewrite (IH its (Some c) false ltac:(lia) Hr).
    + reflexivity.
    + cbn. rewrite (ident_part_not_word c Hc). discriminate.
  - apply andb_true_iff in Hok as [Hok Hr].
    apply andb_true_iff in Hok as [Hok Hw].
    apply andb_true_iff in Hok as [Hb Hne].
    apply negb_true_iff in Hb. subst b.
    assert (Hwne : w <> []) by (destruct w; [discriminate|discriminate]).
    assert (Hp0 : is_word_opt p = false).
    { destruct (is_word_opt p); [|reflexivity]. discriminate (Hp eq_refl). }
    change (render_items (Word cats w :: its))
      with ((flat_map open_tag cats ++ w ++ closes cats) ++ render_items its).
    rewrite <- !app_assoc.
    rewrite (scan_opens_any functionRegex tplF FunctionName wraps_function).
    set (p1 := match cats with [] => p | _ :: _ => Some c_gt end).
    set (s1 := closes cats ++ render_items its).
    assert (Hp1 : is_word_opt p1 = false) by (destruct cats; [exact Hp0|reflexivity]).
    assert (Hs1 : ends_word s1 = true).
    { destruct cats; [apply ends_word_items; exact Hr|reflexivity]. }
    assert (Htail :
              forall q,
                flat_map (render (expand tplF)) (scan functionRegex q s1 0)
                = closes cats ++ render_items (call_items false its)).
    { intros q. unfold s1.
      rewrite (scan_closes_any functionRegex tplF FunctionName wraps_function).
      rewrite flat_map_app, render_copies.
      f_equal. apply (IH its _ true ltac:(lia) Hr). auto. }
    rewrite flat_map_app, render_copies.
    destruct (exec_at functionRegex p1 (w ++ s1)) as [[k g]|] eqn:E.
    + destruct (call_match p1 w s1 k g Hw Hwne Hs1 E)
        as (ws & Y & Hs & Hws & -> & -> & Hst).
      destruct cats as [|c cats].
      * unfold s1 in Hs. cbn [closes flat_map app] in Hs.
        pose proof (call_follows_render ws its true Y Hr Hws Hs) as Hf.
        destruct (call_follows_split its Hf) as (ws' & r' & Hits & Hws').
        assert (ws' = ws /\ render_items r' = Y) as [-> HY].
        { rewrite Hits, render_items_app, render_seps in Hs.
          change (render_items (Sep c_lparen :: r'))
            with (c_lparen :: render_items r') in Hs.
          apply (spaces_paren_unique ws' ws _ _ Hws' Hws Hs). }
        unfold s1 in *. cbn [closes flat_map app] in *.
        cbn [call_items]. rewrite Hst, Hf. cbn [andb].
        rewrite Hits, render_items_app, render_seps.
        change (render_items (Sep c_lparen :: r'))
          with (c_lparen :: render_items r').
        replace (w ++ ws ++ c_lparen :: render_items r')
          with ((w ++ ws ++ [c_lparen]) ++ render_items r')
          by (rewrite <- !app_assoc; reflexivity).
        rewrite Hits, render_items_app, render_seps in E.
        change (render_items (Sep c_lparen :: r'))
          with (c_lparen :: render_items r') in E.
        replace (w ++ ws ++ c_lparen :: render_items r')
          with ((w ++ ws ++ [c_lparen]) ++ render_items r') in E
          by (rewrite <- !app_assoc; reflexivity).
        rewrite (scan_hit functionRegex p1 (w ++ ws ++ [c_lparen])
                   (render_items r') (Some w)
                   ltac:(destruct w; [congruence|discriminate]) E).
        cbn [flat_map render]. rewrite expand_span_call.
        rewrite (IH r' _ false).
        -- rewrite call_items_spaces by exact Hws.
           change (render_items (Word [FunctionName] w
                                   :: Sep c_lparen :: call_items false r'))
             with ((open_tag FunctionName ++ [] ++ w ++ close_tag ++ [])
                   ++ c_lparen :: render_items (call_items false r')).
           cbn [app]. rewrite app_nil_r, <- !app_assoc. reflexivity.
        -- rewrite Hits, length_app, length_map in Hlen. cbn [length] in Hlen. lia.
        -- apply (items_ok_seps ws r' true). rewrite <- Hits. exact Hr.
        -- rewrite !lastc_app. cbn. discriminate.
      * exfalso. unfold s1 in Hs. cbn [closes flat_map] in Hs.
        destruct ws as [|z ws]; [discriminate Hs|].
        cbn [forallb] in Hws. apply andb_true_iff in Hws as [Hz _].
        inversion Hs. subst z. discriminate Hz.
    + rewrite (scan_word_miss functionRegex p1 w s1 exec_call_in_word Hw E).
      rewrite flat_map_app, render_copies, Htail.
      assert (Hcall : call_items false (Word cats w :: its)
                      = Word cats w :: call_items false its).
      { cbn [call_items]. destruct cats as [|c cats]; [|reflexivity].
        destruct (starts_ident w && call_follows its) eqn:Ef; [|reflexivity].
        exfalso. apply andb_true_iff in Ef as [Hst Hf].
        destruct (call_follows_split its Hf) as (ws & r' & Hits & Hws).
        assert (Hg : guard_clear (render_items r') = true).
        { apply (guard_clear_items r' false).
          apply (items_ok_seps ws r' true). rewrite <- Hits. exact Hr. }
        pose proof (exec_call p1 w ws (render_items r') Hp1 Hw Hst Hws Hg) as E'.
        unfold s1 in E. cbn [closes flat_map app] in E.
        rewrite Hits, render_items_app, render_seps in E.
        change (render_items (Sep c_lparen :: r'))
          with (c_lparen :: render_items r') in E.
        rewrite E in E'. discriminate. }
      rewrite Hcall.
      change (render_items (Word cats w :: call_items false its))
        with ((flat_map open_tag cats ++ w ++ closes cats)
              ++ render_items (call_items false its)).
      rewrite <- !app_assoc. reflexivity.
Qed.

Lemma call_items_pass its :
  items_ok false its = true ->
  replace functionRegex tplF (render_items its)
  = render_items (call_items false its).
Proof.
  intros H. unfold replace, replace_fn.
  apply (call_pass_items (length its) its None false (le_n _) H). discriminate.
Qed.

End CallItems.

Section DecoItems.

Import Words.

Local Abbreviation tplD := (spanTemplate "text-pink-400" "").

Lemma decorator_parts p w s g :
  Sem false (source decoratorRegex) p w s None g ->
  exists x gw,
    w = c_at :: x :: gw /\ atom_matches identStart x = true
    /\ forallb is_ident_part gw = true /\ g = Some w /\ guard_clear s = true.
Proof.
  unfold decoratorRegex. cbn [source]. intros H.
  destruct H as (w3 & w4 & c2 & -> & (c3 & HX & ->) & H).
  apply Sem_guard in H as (-> & -> & Hg).
  destruct HX as (v1 & v2 & c6 & -> & (a & -> & Ha & _) & HX).
  destruct HX as (v3 & v4 & c7 & -> & (y & -> & Hy & _) & (Hv & _)).
  apply N.eqb_eq in Ha. subst a.
  exists y, v4. cbn [app]. rewrite app_nil_r.
  split; [reflexivity|]. split; [exact Hy|]. split; [exact Hv|].
  split; [reflexivity|exact Hg].
Qed.

Lemma exec_deco_miss p s :
  match s with x :: _ => atom_matches identStart x = false | [] => True end ->
  exec_at decoratorRegex p (c_at :: s) = None.
Proof.
  intros Hs.
  destruct (exec_at decoratorRegex p (c_at :: s)) as [[n g]|] eqn:E; [|reflexivity].
  exfalso.
  destruct (exec_at_sound _ _ _ _ _ E) as (w' & s' & Hsplit & -> & S1).
  apply decorator_parts in S1 as (x & gw & -> & Hx & _).
  cbn [app] in Hsplit. inversion Hsplit as [Hrest]. subst s.
  rewrite Hx in Hs. discriminate.
Qed.

Lemma exec_deco_hit p w s :
  starts_ident w = true -> forallb is_word w = true ->
  ends_word s = true -> guard_clear s = true ->
  exec_at decoratorRegex p (c_at :: w ++ s)
  = Some (S (length w), Some (c_at :: w)).
Proof.
  intros Hst Hw Hs Hg.
  destruct w as [|x w]; [discriminate Hst|]. cbn [starts_ident] in Hst.
  cbn [forallb] in Hw. apply andb_true_iff in Hw as [_ Hw].
  unfold exec_at, decoratorRegex.
  cbn -[star_loop firstn length Nat.sub atom_matches identStart identPart].
  replace (atom_matches (AChar c_at) c_at) with true by reflexivity.
  rewrite Hst.
  erewrite star_loop_greedy_run; cycle 1.
  - apply forallb_forall. intros y Hy. rewrite forallb_forall in Hw.
    apply (word_ident_part y). auto.
  - destruct s as [|y s]; [exact I|]. cbn [ends_word] in Hs.
    apply negb_true_iff in Hs. exact Hs.
  - cbn [rest prev cap1].
    rewrite (proj2 (guard_loop false s _ _) Hg). reflexivity.
  - cbn [rest cap1].
    match goal with
    | |- context [firstn _ ?l] =>
        assert (E : l = (c_at :: x :: w) ++ s) by reflexivity;
        rewrite E
    end.
    cbn [rest cap1].
    rewrite firstn_consumed, length_app, Nat.add_sub. reflexivity.
Qed.

Lemma word_not_at x : is_word x = true -> (x =? c_at)%N = false.
Proof.
  intros H. destruct (x =? c_at)%N eqn:E; [|reflexivity].
  apply N.eqb_eq in E. subst x. discriminate H.
Qed.

Lemma word_item_no_at cats w :
  forallb is_word w = true ->
  forallb (not_char c_at) (render_item (Word cats w)) = true.
Proof.
  intros Hw. apply forallb_forall. intros x Hx. cbn [render_item] in Hx.
  apply in_app_or in Hx as [Hx|Hx]; [|apply in_app_or in Hx as [Hx|Hx]].
  - apply in_flat_map in Hx as (c & _ & Hx).
    assert (H : forallb (not_char c_at) (open_tag c) = true)
      by (destruct c; reflexivity).
    rewrite forallb_forall in H. auto.
  - rewrite forallb_forall in Hw. unfold not_char.
    rewrite (word_not_at x (Hw x Hx)). reflexivity.
  - apply in_flat_map in Hx as (c & _ & Hx).
    assert (H : forallb (not_char c_at) close_tag = true) by reflexivity.
    rewrite forallb_forall in H. auto.
Qed.

Lemma deco_pass_items n :
  forall its p b,
    length its <= n -> items_ok b its = true ->
    flat_map (render (expand tplD)) (scan decoratorRegex p (render_items its) 0)
    = render_items (deco_items its).
Proof.
  induction n as [|n IH]; intros its p b Hlen Hok.
  { destruct its; [|cbn in Hlen; lia]. reflexivity. }
  destruct its as [|it its]; [reflexivity|].
  cbn [length] in Hlen.
  destruct it as [c|cats w|w]; cbn [items_ok] in Hok; [| |discriminate].
  - apply andb_true_iff in Hok as [Hc Hr].
    change (render_items (Sep c :: its)) with (c :: render_items its).
    assert (Hmiss :
              exec_at decoratorRegex p (c :: render_items its) = None ->
              deco_items (Sep c :: its) = Sep c :: deco_items its ->
              flat_map (render (expand tplD))
                (scan decoratorRegex p (c :: render_items its) 0)
              = render_items (deco_items (Sep c :: its))).
    { intros E Hd. rewrite (scan_miss decoratorRegex p c _ E), Hd.
      cbn [flat_map render].
      rewrite (IH its (Some c) false ltac:(lia) Hr). reflexivity. }
    destruct (c =? c_at)%N eqn:Ec.
    + apply N.eqb_eq in Ec. subst c.
      destruct its as [|[c'|cats w|w] r]; cbn [items_ok] in Hr;
        [| | |discriminate Hr].
      * apply Hmiss; [apply exec_deco_miss; exact I|reflexivity].
      * apply Hmiss; [|reflexivity]. apply exec_deco_miss.
        change (render_items (Sep c' :: r)) with (c' :: render_items r).
        apply andb_true_iff in Hr as [Hc' _].
        apply andb_true_iff in Hc' as [Hc' _]. apply negb_true_iff in Hc'.
        destruct (atom_matches identStart c') eqn:E; [|reflexivity].
        rewrite (ident_start_part c' E) in Hc'. discriminate.
      * apply andb_true_iff in Hr as [Hw0 Hr'].
        apply andb_true_iff in Hw0 as [Hw0 Hw].
        apply andb_true_iff in Hw0 as [_ Hne].
        destruct cats as [|c0 cats].
        -- destruct (starts_ident w) eqn:Est.
           ++ change (render_items (Word [] w :: r))
                with (([] ++ w ++ []) ++ render_items r).
              cbn [app]. rewrite app_nil_r.
              pose proof (exec_deco_hit p w (render_items r) Est Hw
                            (ends_word_items r Hr')
                            (guard_clear_items r true Hr')) as E.
              change (c_at :: w ++ render_items r)
                with ((c_at :: w) ++ render_items r) in E |- *.
              rewrite (scan_hit decoratorRegex p (c_at :: w) (render_items r)
                         (Some (c_at :: w)) ltac:(discriminate) E).
              cbn [flat_map render].
              change (expand tplD (c_at :: w) (Some (c_at :: w)))
                with (expand (spanTemplate (class_of Annotation) "")
                        (c_at :: w) (Some (c_at :: w))).
              rewrite expand_span_plain.
              cbn [length] in Hlen.
              rewrite (IH r _ true ltac:(lia) Hr').
              cbn [deco_items]. rewrite N.eqb_refl, Est. cbn [andb].
              change (render_items (Deco w :: deco_items r))
                with ((open_tag Annotation ++ (c_at :: w) ++ close_tag)
                      ++ render_items (deco_items r)).
              rewrite <- !app_assoc. reflexivity.
           ++ apply Hmiss.
              ** apply exec_deco_miss.
                 change (render_items (Word [] w :: r))
                   with (([] ++ w ++ []) ++ render_items r).
                 cbn [app]. rewrite app_nil_r.
                 destruct w as [|x w]; [discriminate Hne|]. exact Est.
              ** cbn [deco_items]. rewrite Est, andb_false_r. reflexivity.
        -- apply Hmiss; [|reflexivity]. apply exec_deco_miss.
           destruct c0; reflexivity.
    + apply Hmiss; [apply exec_decorator_other; exact Ec|].
      cbn [deco_items]. rewrite Ec. cbn [andb].
      destruct its as [|[c'|[|c0 cats] w|w] r]; reflexivity.
  - apply andb_true_iff in Hok as [Hok Hr].
    apply andb_true_iff in Hok as [_ Hw].
    change (render_items (Word cats w :: its))
      with (render_item (Word cats w) ++ render_items its).
    rewrite (scan_copy_run decoratorRegex (not_char c_at)).
    + rewrite flat_map_app, render_copies.
      rewrite (IH its _ true ltac:(lia) Hr). reflexivity.
    + intros q x s Hx. apply exec_decorator_other.
      apply negb_true_iff. exact Hx.
    + apply word_item_no_at. exact Hw.
Qed.

Lemma deco_items_pass its b :
  items_ok b its = true ->
  replace decoratorRegex tplD (render_items its)
  = render_items (deco_items its).
Proof.
  intros H. unfold replace, replace_fn.
  apply (deco_pass_items (length its) its None b (le_n _) H).
Qed.

End DecoItems.

Section WordByWord.

Import Words.

Lemma lex_shape t :
  forallb (fun it => match it with Sep _ | Word [] _ => true | _ => false end)
    (lex t) = true.
Proof.
  induction t as [|c t IH]; [reflexivity|].
  cbn [lex]. destruct (is_word c); [|exact IH].
  destruct (lex t) as [|[c'|[|c0 cats] w|w] r]; cbn [forallb] in *;
    try reflexivity; try exact IH; discriminate IH.
Qed.

Lemma lex_render t : render_items (lex t) = t.
Proof.
  induction t as [|c t IH]; [reflexivity|].
  cbn [lex]. destruct (is_word c).
  - destruct (lex t) as [|[c'|[|c0 cats] w|w] r]; rewrite <- IH; reflexivity.
  - change (render_items (Sep c :: lex t)) with (c :: render_items (lex t)).
    rewrite IH. reflexivity.
Qed.

Lemma lex_ok t :
  forallb (fun c => is_word c || (negb (is_ident_part c) && plain c)) t = true ->
  items_ok false (lex t) = true.
Proof.
  induction t as [|c t IH]; intros H; [reflexivity|].
  cbn [forallb] in H. apply andb_true_iff in H as [Hc Ht].
  specialize (IH Ht). pose proof (lex_shape t) as Hsh.
  cbn [lex]. destruct (is_word c) eqn:Ew.
  - destruct (lex t) as [|[c'|[|c0 cats] w|w] r]; cbn [forallb] in Hsh;
      try discriminate Hsh.
    + cbn. rewrite Ew. reflexivity.
    + change (items_ok false (Word [] [c] :: Sep c' :: r))
        with ((is_word c && true) && items_ok false (Sep c' :: r)).
      rewrite Ew, IH. reflexivity.
    + change (items_ok false (Word [] w :: r))
        with (negb (Nat.eqb (length w) 0) && forallb is_word w && items_ok true r)
        in IH.
      apply andb_true_iff in IH as [IH Hr]. apply andb_true_iff in IH as [_ Hw].
      change (items_ok false (Word [] (c :: w) :: r))
        with ((is_word c && forallb is_word w) && items_ok true r).
      rewrite Ew, Hw, Hr. reflexivity.
  - cbn [orb] in Hc. cbn [items_ok]. rewrite Hc, IH. reflexivity.
Qed.

Lemma ident_part_cases x :
  is_ident_part x = true -> is_word x = true \/ x = c_dollar.
Proof.
  unfold is_ident_part, identPart, is_word.
  cbn [atom_matches existsb citem_matches xorb].
  intros H.
  repeat (apply orb_true_iff in H; destruct H as [H|H]); try discriminate.
  - left. rewrite H. reflexivity.
  - left. rewrite H, orb_true_r. reflexivity.
  - left. rewrite H, !orb_true_r. reflexivity.
  - left. unfold c_underscore in H. rewrite H, !orb_true_r. reflexivity.
  - right. apply N.eqb_eq. exact H.
Qed.

Lemma escape_char_items x :
  (x =? c_dollar)%N = false ->
  forallb (fun c => is_word c || (negb (is_ident_part c) && plain c))
    (Spec.escape_char x) = true.
Proof.
  intros Hd. destruct (is_special x) eqn:E.
  - revert E. unfold is_special at 1, Spec.escape_char; simpl.
    unfold c_amp, c_lt, c_gt, c_dquote, c_squote, c_slash.
    destruct (x =? 38)%N; [reflexivity|].
    destruct (x =? 60)%N; [reflexivity|].
    destruct (x =? 62)%N; [reflexivity|].
    destruct (x =? 34)%N; [reflexivity|].
    destruct (x =? 39)%N; [reflexivity|].
    destruct (x =? 47)%N; [reflexivity|].
    discriminate.
  - rewrite (escape_other x E). cbn [forallb]. rewrite andb_true_r.
    destruct (is_word x) eqn:Ew; [reflexivity|]. cbn [orb].
    assert (Hp : plain x = true).
    { pose proof (escape_char_inert x) as Hi. rewrite (escape_other x E) in Hi.
      cbn [forallb] in Hi. rewrite andb_true_r in Hi.
      unfold inert in Hi. apply andb_true_iff in Hi. tauto. }
    rewrite Hp, andb_true_r. apply negb_true_iff. apply bool_by_cases_f.
    intros Hi. destruct (ident_part_cases x Hi) as [Hw|Hx]; [congruence|].
    subst x. discriminate Hd.
Qed.

Lemma escape_items s :
  forallb quote_free s = true -> items_ok false (lex (Spec.escape s)) = true.
Proof.
  intros H. apply lex_ok. unfold Spec.escape.
  induction s as [|x s IH]; [reflexivity|].
  cbn [forallb] in H. apply andb_true_iff in H as [Hx Hs].
  cbn [flat_map]. rewrite forallb_app, (IH Hs), andb_true_r.
  apply escape_char_items. unfold quote_free in Hx.
  apply andb_true_iff in Hx as [_ Hx]. apply negb_true_iff. exact Hx.
Qed.

Lemma string_pass_quote_free s tpl :
  forallb no_quote s = true -> replace stringRegex tpl (Spec.escape s) = Spec.escape s.
Proof.
  intros H. unfold replace, replace_fn.
  rewrite <- (app_nil_r (Spec.escape s)) at 1.
  rewrite (scan_string_prefix s [] H None).
  cbn [scan].
  rewrite (no_hit_at_end false stringRegex _ StringLit wraps_string).
  rewrite app_nil_r. apply render_copies.
Qed.

(** The six guarded passes on words. *)
Lemma guarded_passes_items its :
  items_ok false its = true ->
  replace decoratorRegex (spanTemplate "text-pink-400" "")
    (replace classRegex (spanTemplate "text-blue-400" "")
       (replace functionRegex (spanTemplate "text-yellow-400" "(")
          (replace numberRegex (spanTemplate "text-orange-400" "")
             (replace typeRegex (spanTemplate "text-cyan-400" "")
                (replace keywordRegex (spanTemplate "text-purple-400" "")
                   (render_items its))))))
  = render_items (classify its).
Proof.
  intros H0.
  pose proof (tag_ok is_keyword Keyword its false H0) as H1.
  pose proof (tag_ok is_type TypeName _ false H1) as H2.
  pose proof (tag_ok is_number Number _ false H2) as H3.
  pose proof (proj1 (call_ok _ false H3)) as H4.
  pose proof (tag_ok is_capitalized ClassName _ false H4) as H5.
  rewrite (keyword_items its H0), (type_items _ H1), (number_items _ H2).
  rewrite (call_items_pass _ H3), (class_items _ H4).
  rewrite (deco_items_pass _ false H5). reflexivity.
Qed.

Lemma highlight_items s :
  forallb quote_free s = true ->
  highlightCode s = render_items (classify (lex (escapeHtml s))).
Proof.
  intros H. unfold highlightCode. cbv zeta. rewrite escapeHtml_escape.
  assert (Hq : forallb no_quote s = true).
  { apply forallb_forall. intros x Hx. rewrite forallb_forall in H.
    specialize (H x Hx). unfold quote_free in H.
    apply andb_true_iff in H. tauto. }
  rewrite (line_comment_never _ _ (escape_inert s)).
  rewrite (block_comment_never _ _ (escape_inert s)).
  rewrite (string_pass_quote_free s _ Hq).
  rewrite <- (guarded_passes_items _ (escape_items s H)).
  rewrite lex_render. reflexivity.
Qed.

End WordByWord.

(** ** What a pass loses of the text *)

Section PassLosing.

Variables (lossy gd : bool) (re : RegExp) (tpl : str) (cat : category).
Hypothesis WL : wraps_losing lossy gd re tpl cat.

Lemma wraps_losing_wraps : wraps gd re tpl cat.
Proof.
  intros p w s g H.
  destruct (WL p w s g H) as (gw & ws & e & H1 & H2 & H3 & H4 & H5 & _).
  exists gw, ws, e. auto.
Qed.

Lemma wraps_losing_exec p s n g :
  exec_at re p s = Some (n, g) ->
  exists w s' gw ws e,
    s = w ++ s' /\ n = length w /\ w = gw ++ ws ++ e /\ gw <> []
    /\ forallb is_space ws = true
    /\ expand tpl w g = open_tag cat ++ gw ++ close_tag ++ e
    /\ (gd = true -> forallb plain w = true /\ guard_clear s' = true)
    /\ (ws = [] \/ (lossy = true /\ exists e', e = c_lparen :: e')).
Proof.
  intros H. destruct (exec_at_sound _ _ _ _ _ H) as (w & s' & -> & -> & S1).
  destruct (WL _ _ _ _ S1) as (gw & ws & e & Hw & Hne & Hws & Hex & Hg & Hl).
  exists w, s', gw, ws, e. repeat split; auto; apply Hg; auto.
Qed.

Lemma pass_rewrap :
  forall n toks p,
    length toks <= n ->
    text_ok toks = true ->
    gd = true \/ tagless toks = true ->
    exists toks',
      flat_map (render (expand tpl)) (scan re p (markup toks) 0) = markup toks'
      /\ Rewrap lossy cat toks toks'.
Proof.
  pose proof wraps_losing_wraps as W.
  induction n as [|n IH]; intros toks p Hlen Hok Hor.
  - destruct toks; [|simpl in Hlen; lia].
    exists []. simpl. rewrite (no_hit_at_end gd re tpl cat W).
    split; [reflexivity|constructor].
  - destruct toks as [|t toks].
    + exists []. simpl. rewrite (no_hit_at_end gd re tpl cat W).
      split; [reflexivity|constructor].
    + assert (Hok' := Hok). simpl in Hok'.
      apply andb_true_iff in Hok' as [Ht Hok'].
      simpl in Hlen.
      destruct (is_text t) eqn:Et.
      * destruct t as [c| |]; try discriminate.
        assert (Hor' : gd = true \/ tagless toks = true).
        { destruct Hor as [?|Hl]; [left; auto|right; exact Hl]. }
        change (markup (TText c :: toks)) with (c :: markup toks).
        destruct (exec_at re p (c :: markup toks)) as [[k g]|] eqn:E.
        -- destruct (wraps_losing_exec _ _ _ _ E)
             as (w & s' & gw & ws & e & H0 & -> & Hw & Hne & Hws & Hex & Hg & Hl).
           assert (Hwne : w <> []).
           { rewrite Hw. destruct gw; [congruence|discriminate]. }
           destruct (split_text w (TText c :: toks) s' Hok H0)
             as (toks2 & Htoks & Hs').
           { destruct Hor as [Hgd|Htl]; [left; apply Hg; auto|right; auto]. }
           change (c :: markup toks) with (markup (TText c :: toks)) in *.
           rewrite H0 in E |- *.
           rewrite (scan_hit re p w s' g Hwne E). simpl flat_map.
           rewrite Hex, <- Hs'.
           assert (Hlen2 : length toks2 <= n).
           { apply (f_equal (@length token)) in Htoks.
             rewrite length_app, length_map in Htoks. simpl in Htoks.
             destruct w; [congruence|simpl in Htoks; lia]. }
           assert (Hok2 : text_ok toks2 = true).
           { rewrite Htoks in Hok. unfold text_ok in Hok.
             rewrite forallb_app in Hok. apply andb_true_iff in Hok; tauto. }
           assert (Hor2 : gd = true \/ tagless toks2 = true).
           { destruct Hor as [?|Htl]; [left; auto|right].
             rewrite Htoks in Htl. unfold tagless in Htl.
             rewrite forallb_app in Htl. apply andb_true_iff in Htl; tauto. }
           destruct (IH toks2 (lastc p w) Hlen2 Hok2 Hor2) as (toks' & Hm & Hr).
           exists (TOpen cat :: map TText gw ++ TClose :: map TText e ++ toks').
           split.
           ++ rewrite Hm, markup_cons, markup_app, markup_cons, markup_app.
              rewrite !markup_text. simpl render_token.
              rewrite <- !app_assoc. reflexivity.
           ++ rewrite Htoks, Hw. constructor; auto.
        -- rewrite scan_miss by exact E. simpl flat_map.
           destruct (IH toks (Some c) ltac:(lia) Hok' Hor') as (toks' & Hm & Hr).
           exists (TText c :: toks'). split.
           ++ rewrite Hm. reflexivity.
           ++ constructor; auto.
      * destruct Hor as [Hgd|Htl];
          [|simpl in Htl; rewrite Et in Htl; discriminate].
        change (markup (t :: toks)) with (render_token t ++ markup toks).
        rewrite (scan_tag gd re tpl cat W) by auto.
        rewrite flat_map_app, render_copies.
        destruct (IH toks (Some c_gt) ltac:(lia) Hok' (or_introl Hgd))
          as (toks' & Hm & Hr).
        exists (t :: toks'). split.
        -- rewrite Hm. reflexivity.
        -- constructor; auto.
Qed.

End PassLosing.

Lemma wraps_losing_whole gd re tpl cat :
  wraps gd re tpl cat -> wraps_whole re tpl cat ->
  wraps_losing false gd re tpl cat.
Proof.
  intros W Wh p w s g H.
  destruct (W p w s g H) as (gw & ws & e & Hw & Hne & Hws & Hex & Hg).
  destruct (Wh p w s g H) as [_ Hex'].
  exists gw, ws, e. repeat split; auto; try (apply Hg; assumption).
  left. rewrite Hex' in Hex. apply app_inv_head in Hex.
  apply (f_equal (@length char)) in Hex.
  rewrite Hw, !length_app in Hex.
  destruct ws; [reflexivity|cbn [length] in Hex; lia].
Qed.

Lemma wraps_losing_function :
  wraps_losing true true functionRegex (spanTemplate "text-yellow-400" "(")
    FunctionName.
Proof.
  intros p w s g H.
  destruct (wraps_function p w s g H) as (gw' & ws' & e' & _ & _ & _ & _ & Hg).
  destruct (function_parts p w s g H)
    as (x & gw & ws & -> & Hx & Hgw & Hws & -> & _ & _).
  exists (x :: gw), ws, [c_lparen].
  split; [reflexivity|]. split; [discriminate|]. split; [exact Hws|].
  split; [apply expand_span_call|]. split; [exact Hg|].
  right. split; [reflexivity|]. exists []. reflexivity.
Qed.

Lemma Rewrap_Retag lossy cat toks toks' :
  Rewrap lossy cat toks toks' -> Retag cat toks toks'.
Proof.
  induction 1; constructor; auto.
Qed.

Lemma Rewrap_exact cat toks toks' :
  Rewrap false cat toks toks' -> text_of toks' = text_of toks.
Proof.
  induction 1 as [|t toks toks' _ IH|gw ws e toks toks' Hne Hws Hl _ IH].
  - reflexivity.
  - destruct t; cbn [text_of]; congruence.
  - destruct Hl as [->|[Hf _]]; [|discriminate Hf].
    rewrite text_of_text. cbn [text_of]. rewrite text_of_text.
    cbn [text_of]. rewrite text_of_text, IH. cbn [app].
    rewrite <- !app_assoc. reflexivity.
Qed.

Lemma lost_refl a : lost_before_paren a a.
Proof. induction a; constructor; auto. Qed.

Lemma lost_app w a b :
  lost_before_paren a b -> lost_before_paren (w ++ a) (w ++ b).
Proof.
  intros H. induction w as [|x w IH]; [exact H|]. constructor. exact IH.
Qed.

Lemma Rewrap_lost lossy cat toks toks' :
  Rewrap lossy cat toks toks' ->
  lost_before_paren (text_of toks) (text_of toks').
Proof.
  induction 1 as [|t toks toks' _ IH|gw ws e toks toks' Hne Hws Hl _ IH].
  - constructor.
  - destruct t; cbn [text_of]; [constructor|idtac|idtac]; exact IH.
  - rewrite text_of_text. cbn [text_of]. rewrite text_of_text.
    cbn [text_of]. rewrite text_of_text, <- !app_assoc.
    apply lost_app. destruct Hl as [->|[_ [e' ->]]].
    + cbn [app]. apply lost_app. exact IH.
    + destruct ws as [|z ws].
      * cbn [app]. constructor. apply lost_app. exact IH.
      * rewrite <- app_comm_cons.
        apply (lost_drop (z :: ws)); [discriminate|exact Hws|].
        apply lost_app. exact IH.
Qed.

Lemma tight_weaken s : tight_parens true s = true -> tight_parens false s = true.
Proof.
  destruct s as [|x s]; [reflexivity|]. cbn [tight_parens andb negb].
  intros H. apply andb_true_iff in H as [_ H]. exact H.
Qed.

Lemma tight_spaces ws :
  forall b a,
    ws <> [] -> forallb is_space ws = true ->
    tight_parens b (ws ++ c_lparen :: a) = false.
Proof.
  induction ws as [|x ws IH]; intros b a Hne Hws; [congruence|].
  cbn [forallb] in Hws. apply andb_true_iff in Hws as [Hx Hws].
  cbn [app tight_parens]. rewrite Hx. destruct ws as [|y ws].
  - cbn [app tight_parens andb]. rewrite N.eqb_refl. cbn. apply andb_false_r.
  - rewrite (IH true a ltac:(discriminate) Hws). apply andb_false_r.
Qed.

Lemma tight_exact a a' :
  lost_before_paren a a' -> forall b, tight_parens b a = true -> a' = a.
Proof.
  induction 1 as [|x a a' _ IH|ws a a' Hne Hws _ IH]; intros b Ht.
  - reflexivity.
  - cbn [tight_parens] in Ht. apply andb_true_iff in Ht as [_ Ht].
    rewrite (IH _ Ht). reflexivity.
  - rewrite (tight_spaces ws b a Hne Hws) in Ht. discriminate.
Qed.

Lemma tight_run e :
  forall b t,
    e <> [] ->
    forallb (fun c => negb (is_space c) && negb (c =? c_lparen)%N) e = true ->
    tight_parens b (e ++ t) = tight_parens false t.
Proof.
  induction e as [|x e IH]; intros b t Hne He; [congruence|].
  cbn [forallb] in He. apply andb_true_iff in He as [Hx He].
  apply andb_true_iff in Hx as [Hx1 Hx2].
  apply negb_true_iff in Hx1, Hx2.
  cbn [app tight_parens]. rewrite Hx1, Hx2, andb_false_r. cbn [negb andb].
  destruct e as [|y e]; [reflexivity|]. apply IH; [discriminate|exact He].
Qed.

Lemma escape_char_tight x :
  is_special x = true ->
  Spec.escape_char x <> []
  /\ forallb (fun c => negb (is_space c) && negb (c =? c_lparen)%N)
       (Spec.escape_char x) = true.
Proof.
  unfold is_special at 1, Spec.escape_char; simpl.
  unfold c_amp, c_lt, c_gt, c_dquote, c_squote, c_slash.
  destruct (x =? 38)%N; [intros _; split; [discriminate|reflexivity]|].
  destruct (x =? 60)%N; [intros _; split; [discriminate|reflexivity]|].
  destruct (x =? 62)%N; [intros _; split; [discriminate|reflexivity]|].
  destruct (x =? 34)%N; [intros _; split; [discriminate|reflexivity]|].
  destruct (x =? 39)%N; [intros _; split; [discriminate|reflexivity]|].
  destruct (x =? 47)%N; [intros _; split; [discriminate|reflexivity]|].
  discriminate.
Qed.

Lemma special_not_space x : is_special x = true -> is_space x = false.
Proof.
  unfold is_special; simpl.
  unfold c_amp, c_lt, c_gt, c_dquote, c_squote, c_slash.
  destruct (x =? 38)%N eqn:E1; [apply N.eqb_eq in E1; subst; reflexivity|].
  destruct (x =? 60)%N eqn:E2; [apply N.eqb_eq in E2; subst; reflexivity|].
  destruct (x =? 62)%N eqn:E3; [apply N.eqb_eq in E3; subst; reflexivity|].
  destruct (x =? 34)%N eqn:E4; [apply N.eqb_eq in E4; subst; reflexivity|].
  destruct (x =? 39)%N eqn:E5; [apply N.eqb_eq in E5; subst; reflexivity|].
  destruct (x =? 47)%N eqn:E6; [apply N.eqb_eq in E6; subst; reflexivity|].
  discriminate.
Qed.

Lemma tight_escape s :
  forall b, tight_parens b s = true -> tight_parens b (Spec.escape s) = true.
Proof.
  unfold Spec.escape. induction s as [|x s IH]; intros b H; [reflexivity|].
  cbn [tight_parens] in H. apply andb_true_iff in H as [Hx Hs].
  cbn [flat_map]. destruct (is_special x) eqn:E.
  - destruct (escape_char_tight x E) as [Hne He].
    rewrite (tight_run _ b _ Hne He). apply IH.
    rewrite (special_not_space x E) in Hs. exact Hs.
  - rewrite (escape_other x E). cbn [app tight_parens].
    rewrite Hx, (IH _ Hs). reflexivity.
Qed.

Lemma wraps_whole_keyword :
  wraps_whole keywordRegex (spanTemplate "text-purple-400" "") Keyword.
Proof. apply (wraps_whole_word_group _ Keyword); reflexivity. Qed.

Lemma wraps_whole_type :
  wraps_whole typeRegex (spanTemplate "text-cyan-400" "") TypeName.
Proof. apply (wraps_whole_word_group _ TypeName); reflexivity. Qed.

Lemma wraps_whole_number :
  wraps_whole numberRegex (spanTemplate "text-orange-400" "") Number.
Proof. apply (wraps_whole_word_group _ Number); reflexivity. Qed.

Lemma highlight_rewrap_chain s :
  exists t4 t5 t7,
    text_of t4 = Spec.escape s
    /\ Rewrap true FunctionName t4 t5
    /\ text_of t7 = text_of t5
    /\ text_ok t7 = true
    /\ highlightCode s = markup t7.
Proof.
  unfold highlightCode. rewrite escapeHtml_escape.
  pose proof (escape_inert s) as Hi.
  rewrite line_comment_never, block_comment_never by exact Hi.
  assert (Hok0 : text_ok (map TText (Spec.escape s)) = true).
  { rewrite text_ok_text. apply inert_plain; exact Hi. }
  assert (Hpass :
            forall lossy re tpl cat,
              wraps_losing lossy true re tpl cat ->
              forall toks,
                text_ok toks = true ->
                exists toks',
                  replace re tpl (markup toks) = markup toks'
                  /\ Rewrap lossy cat toks toks' /\ text_ok toks' = true).
  { intros lossy re tpl cat WL toks Hok.
    destruct (pass_rewrap lossy true re tpl cat WL (length toks) toks None
                (le_n _) Hok (or_introl eq_refl)) as (toks' & E & R).
    exists toks'. split; [exact E|]. split; [exact R|].
    eapply Retag_text_ok; [eapply Rewrap_Retag; exact R|exact Hok]. }
  destruct (pass_rewrap false false _ _ _
              (wraps_losing_whole _ _ _ _ wraps_string wraps_whole_string)
              (length (map TText (Spec.escape s))) (map TText (Spec.escape s))
              None (le_n _) Hok0 (or_intror (tagless_text _)))
    as (t1 & E1 & R1).
  rewrite markup_text in E1.
  change (flat_map (render (expand (spanTemplate "text-green-400" "")))
            (scan stringRegex None (Spec.escape s) 0))
    with (replace stringRegex (spanTemplate "text-green-400" "") (Spec.escape s))
    in E1.
  rewrite E1.
  assert (Hok1 : text_ok t1 = true).
  { eapply Retag_text_ok; [eapply Rewrap_Retag; exact R1|exact Hok0]. }
  destruct (Hpass false _ _ _
              (wraps_losing_whole _ _ _ _ wraps_keyword wraps_whole_keyword) t1 Hok1)
    as (t2 & E2 & R2 & Hok2).
  rewrite E2.
  destruct (Hpass false _ _ _
              (wraps_losing_whole _ _ _ _ wraps_type wraps_whole_type) t2 Hok2)
    as (t3 & E3 & R3 & Hok3).
  rewrite E3.
  destruct (Hpass false _ _ _
              (wraps_losing_whole _ _ _ _ wraps_number wraps_whole_number) t3 Hok3)
    as (t4 & E4 & R4 & Hok4).
  rewrite E4.
  destruct (Hpass true _ _ _ wraps_losing_function t4 Hok4)
    as (t5 & E5 & R5 & Hok5).
  rewrite E5.
  destruct (Hpass false _ _ _
              (wraps_losing_whole _ _ _ _ wraps_class wraps_whole_class) t5 Hok5)
    as (t6 & E6 & R6 & Hok6).
  rewrite E6.
  destruct (Hpass false _ _ _
              (wraps_losing_whole _ _ _ _ wraps_decorator wraps_whole_decorator)
              t6 Hok6)
    as (t7 & E7 & R7 & Hok7).
  rewrite E7.
  exists t4, t5, t7. split.
  - rewrite (Rewrap_exact _ _ _ R4), (Rewrap_exact _ _ _ R3).
    rewrite (Rewrap_exact _ _ _ R2), (Rewrap_exact _ _ _ R1).
    rewrite <- (app_nil_r (map TText (Spec.escape s))), text_of_text.
    apply app_nil_r.
  - split; [exact R5|]. split.
    + rewrite (Rewrap_exact _ _ _ R7), (Rewrap_exact _ _ _ R6). reflexivity.
    + split; [exact Hok7|reflexivity].
Qed.

Lemma highlight_lost s :
  exists toks,
    highlightCode s = markup toks /\ text_ok toks = true
    /\ lost_before_paren (Spec.escape s) (text_of toks).
Proof.
  destruct (highlight_rewrap_chain s) as (t4 & t5 & t7 & H4 & R5 & H7 & Hok & E).
  exists t7. split; [exact E|]. split; [exact Hok|].
  rewrite H7, <- H4. eapply Rewrap_lost. exact R5.
Qed.

Section SpanNesting.

Import Words.

Lemma Forall_tag (P Q : item -> Prop) (sel : str -> bool) (cat : category) its :
  (forall c, P (Sep c) -> Q (Sep c)) ->
  (forall w, P (Deco w) -> Q (Deco w)) ->
  (forall cats w,
      P (Word cats w) ->
      Q (Word (if sel w then cats ++ [cat] else cats) w)) ->
  Forall P its -> Forall Q (map (tag sel cat) its).
Proof.
  intros HS HD HW H. induction H as [|it its Hit _ IH]; [constructor|].
  cbn [map]. constructor; [|exact IH].
  destruct it as [c|cats w|w]; cbn [tag]; auto.
  specialize (HW cats w Hit). destruct (sel w); exact HW.
Qed.

Lemma Forall_call (P Q : item -> Prop) its :
  (forall c, P (Sep c) -> Q (Sep c)) ->
  (forall w, P (Deco w) -> Q (Deco w)) ->
  (forall cats w, P (Word cats w) -> Q (Word cats w)) ->
  (forall w, P (Word [] w) -> starts_ident w = true ->
             Q (Word [FunctionName] w)) ->
  Forall P its -> forall d, Forall Q (call_items d its).
Proof.
  intros HS HD HW HF H. induction H as [|it its Hit _ IH]; intros d;
    [constructor|].
  destruct it as [c|cats w|w]; cbn [call_items].
  - destruct (d && is_space c); [apply IH|constructor; auto].
  - destruct cats as [|c cats]; [|constructor; auto].
    destruct (starts_ident w && call_follows its) eqn:E; [|constructor; auto].
    apply andb_true_iff in E as [E _]. constructor; auto.
  - constructor; auto.
Qed.

Lemma Forall_deco (P Q : item -> Prop) :
  (forall c, P (Sep c) -> Q (Sep c)) ->
  (forall w, P (Deco w) -> Q (Deco w)) ->
  (forall cats w, P (Word cats w) -> Q (Word cats w)) ->
  (forall w, P (Word [] w) -> starts_ident w = true -> Q (Deco w)) ->
  forall n its, length its <= n -> Forall P its -> Forall Q (deco_items its).
Proof.
  intros HS HD HW HF. induction n as [|n IH]; intros its Hlen H.
  { destruct its; [constructor|cbn in Hlen; lia]. }
  destruct H as [|it its Hit H]; [constructor|].
  cbn [length] in Hlen.
  assert (Hdef : Forall Q (it :: deco_items its)).
  { constructor; [|apply IH; [lia|exact H]].
    destruct it; auto. }
  destruct it as [c|cats w|w]; [|exact Hdef|exact Hdef].
  destruct H as [|it' r Hit' Hr]; [exact Hdef|].
  destruct it' as [c'|[|c0 cats] w|w];
    try exact Hdef.
  cbn [deco_items]. destruct ((c =? c_at)%N && starts_ident w) eqn:E;
    [|exact Hdef].
  apply andb_true_iff in E as [_ E]. cbn [length] in Hlen.
  constructor; [auto|]. apply IH; [lia|exact Hr].
Qed.

Lemma lex_words t :
  Forall (fun it => match it with
                    | Sep _ => True
                    | Word cats _ => cats = []
                    | Deco _ => False
                    end) (lex t).
Proof.
  pose proof (lex_shape t) as H. rewrite forallb_forall in H.
  apply Forall_forall. intros it Hit. specialize (H it Hit).
  destruct it as [c|[|c0 cats] w|w]; try discriminate; auto.
Qed.

Lemma classify_nesting t : Forall nested_as_passes (classify (lex t)).
Proof.
  unfold classify.
  set (P3 := fun it => match it with
                       | Sep _ => True
                       | Word cats w => cats = vocabulary_spans w
                       | Deco _ => False
                       end).
  set (P4 := fun it => match it with
                       | Sep _ => True
                       | Word cats w =>
                           exists fn : bool,
                             cats = vocabulary_spans w
                                    ++ (if fn then [FunctionName] else [])
                             /\ (fn = true ->
                                 vocabulary_spans w = []
                                 /\ starts_ident w = true)
                       | Deco _ => False
                       end).
  assert (H3 : Forall P3
                 (map (tag is_number Number)
                    (map (tag is_type TypeName)
                       (map (tag is_keyword Keyword) (lex t))))).
  { apply (Forall_tag
             (fun it => match it with
                        | Sep _ => True
                        | Word cats w =>
                            cats = (if is_keyword w then [Keyword] else [])
                                   ++ (if is_type w then [TypeName] else [])
                        | Deco _ => False
                        end)); auto.
    - intros cats w ->. unfold P3, vocabulary_spans.
      destruct (is_number w); rewrite <- ?app_assoc, ?app_nil_r; reflexivity.
    - apply (Forall_tag
               (fun it => match it with
                          | Sep _ => True
                          | Word cats w =>
                              cats = (if is_keyword w then [Keyword] else [])
                          | Deco _ => False
                          end)); auto.
      + intros cats w ->. destruct (is_type w); rewrite ?app_nil_r; reflexivity.
      + apply (Forall_tag
                 (fun it => match it with
                            | Sep _ => True
                            | Word cats _ => cats = []
                            | Deco _ => False
                            end)); auto.
        * intros cats w ->. destruct (is_keyword w); reflexivity.
        * apply lex_words. }
  assert (H4 : Forall P4
                 (call_items false
                    (map (tag is_number Number)
                       (map (tag is_type TypeName)
                          (map (tag is_keyword Keyword) (lex t)))))).
  { apply (Forall_call P3 P4); auto.
    - intros cats w ->. exists false. rewrite app_nil_r.
      split; [reflexivity|discriminate].
    - intros w Hw Hst. exists true. unfold P3 in Hw. rewrite <- Hw.
      split; [reflexivity|]. intros _. split; [reflexivity|exact Hst]. }
  apply (Forall_deco
           (fun it => match it with
                      | Sep _ => True
                      | Word cats w => nested_as_passes (Word cats w)
                      | Deco _ => False
                      end) nested_as_passes) with (n := length
           (map (tag is_capitalized ClassName)
              (call_items false
                 (map (tag is_number Number)
                    (map (tag is_type TypeName)
                       (map (tag is_keyword Keyword) (lex t))))))).
  - intros c _. exact I.
  - intros w [].
  - intros cats w H. exact H.
  - intros w (fn & Hc & Hfn) Hst. cbn [nested_as_passes].
    destruct (vocabulary_spans w) as [|c0 v]; [|discriminate Hc].
    destruct fn; [discriminate Hc|].
    destruct (is_capitalized w); [discriminate Hc|]. auto.
  - apply le_n.
  - apply (Forall_tag P4).
    + intros c _. exact I.
    + intros w [].
    + intros cats w (fn & -> & Hfn). exists fn.
      destruct (is_capitalized w); rewrite <- ?app_assoc, ?app_nil_r; auto.
    + exact H4.
Qed.

End SpanNesting.

(** ** Further properties: the highlighter on words *)

(** X7 (word by word).  On text without a quote character and without a dollar sign the
    highlighter works word by word: its markup is the escaped text cut into
    words, each word in the spans [classify] gives it, the white space
    between a called name and its parenthesis left out, and an [@] with
    the word behind it in an annotation where that word has no span. *)
Theorem highlight_word_by_word s :
  forallb Words.quote_free s = true ->
  highlightCode s
  = Words.render_items (Words.classify (Words.lex (escapeHtml s))).
Proof. apply highlight_items. Qed.

Lemma highlight_word_by_word_witness :
  highlightCode (u "const x = 5;")
  = Words.render_items
      (Words.classify (Words.lex (escapeHtml (u "const x = 5;")))).
Proof.
  apply (highlight_word_by_word (u "const x = 5;")). reflexivity.
Defined.

Lemma annotate_text w :
  forall st toks,
    annotate st (map TText w ++ toks)
    = map (fun x => (x, st)) w ++ annotate st toks.
Proof.
  induction w as [|x w IH]; intros st toks; [reflexivity|].
  cbn [map app annotate]. rewrite IH. reflexivity.
Qed.

Lemma ranks_within_weaken r stack :
  ranks_within true r stack = true -> ranks_within false r stack = true.
Proof.
  unfold ranks_within. intros H. apply forallb_forall. intros c Hc.
  rewrite forallb_forall in H. specialize (H c Hc).
  apply Nat.ltb_lt in H. apply Nat.leb_le. lia.
Qed.

Lemma ranks_within_next r stack :
  ranks_within false r stack = true -> ranks_within true (S r) stack = true.
Proof.
  unfold ranks_within. intros H. apply forallb_forall. intros c Hc.
  rewrite forallb_forall in H. specialize (H c Hc).
  apply Nat.leb_le in H. apply Nat.ltb_lt. lia.
Qed.

(** A pass puts its spans inside the spans that are there: where every
    span so far is of an earlier pass and the spans are in order, they are
    in order afterwards. *)
Lemma Retag_order c toks toks' :
  Retag c toks toks' ->
  forall st,
    forallb (fun p => in_pass_order (snd p) && ranks_within true (pass_rank c) (snd p))
      (annotate st toks) = true ->
    forallb (fun p => in_pass_order (snd p) && ranks_within false (pass_rank c) (snd p))
      (annotate st toks') = true.
Proof.
  induction 1 as [|t toks toks' _ IH|gw ws e toks toks' Hne Hws _ IH];
    intros st H.
  - reflexivity.
  - destruct t as [x|c0|]; cbn [annotate] in *.
    + cbn [forallb snd] in *. apply andb_true_iff in H as [Hx H].
      apply andb_true_iff in Hx as [H1 H2].
      rewrite H1, (ranks_within_weaken _ _ H2), (IH st H). reflexivity.
    + exact (IH _ H).
    + exact (IH _ H).
  - rewrite annotate_text, forallb_app in H. apply andb_true_iff in H as [Hw H].
    assert (Hst : in_pass_order st = true
                  /\ ranks_within true (pass_rank c) st = true).
    { destruct gw as [|x gw]; [congruence|].
      cbn [app map forallb snd] in Hw. apply andb_true_iff in Hw as [Hx _].
      apply andb_true_iff in Hx. exact Hx. }
    destruct Hst as [H1 H2].
    cbn [annotate]. rewrite annotate_text, forallb_app. cbn [annotate tl].
    rewrite annotate_text, forallb_app, (IH st H), andb_true_r.
    apply andb_true_iff. split.
    + apply forallb_forall. intros p Hp. apply in_map_iff in Hp as (x & <- & _).
      cbn [snd in_pass_order]. rewrite H1, H2.
      unfold ranks_within at 1. cbn [forallb]. rewrite Nat.leb_refl.
      change (forallb _ st) with (ranks_within false (pass_rank c) st).
      rewrite (ranks_within_weaken _ _ H2). reflexivity.
    + apply forallb_forall. intros p Hp. apply in_map_iff in Hp as (x & <- & _).
      cbn [snd]. rewrite H1, (ranks_within_weaken _ _ H2). reflexivity.
Qed.

Lemma order_step r (l : list (char * list category)) :
  forallb (fun p => in_pass_order (snd p) && ranks_within false r (snd p)) l = true ->
  forallb (fun p => in_pass_order (snd p) && ranks_within true (S r) (snd p)) l = true.
Proof.
  intros H. apply forallb_forall. intros p Hp. rewrite forallb_forall in H.
  specialize (H p Hp). apply andb_true_iff in H as [H1 H2].
  rewrite H1, (ranks_within_next _ _ H2). reflexivity.
Qed.

Lemma highlight_in_pass_order s :
  exists toks,
    tokenize (highlightCode s) = Some toks
    /\ forallb (fun p => in_pass_order (snd p)) (annotate [] toks) = true.
Proof.
  destruct (highlight_retag_chain s)
    as (t1 & t2 & t3 & t4 & t5 & t6 & t7 & R1 & R2 & R3 & R4 & R5 & R6 & R7 & E).
  assert (Hok0 : text_ok (map TText (Spec.escape s)) = true).
  { rewrite text_ok_text. apply inert_plain, escape_inert. }
  pose proof (Retag_text_ok _ _ _ R1 Hok0) as Hok1.
  pose proof (Retag_text_ok _ _ _ R2 Hok1) as Hok2.
  pose proof (Retag_text_ok _ _ _ R3 Hok2) as Hok3.
  pose proof (Retag_text_ok _ _ _ R4 Hok3) as Hok4.
  pose proof (Retag_text_ok _ _ _ R5 Hok4) as Hok5.
  pose proof (Retag_text_ok _ _ _ R6 Hok5) as Hok6.
  pose proof (Retag_text_ok _ _ _ R7 Hok6) as Hok7.
  exists t7. split; [rewrite E; apply tokenize_markup; exact Hok7|].
  assert (H0 : forallb (fun p => in_pass_order (snd p)
                                 && ranks_within true (pass_rank StringLit) (snd p))
                 (annotate [] (map TText (Spec.escape s))) = true).
  { rewrite <- (app_nil_r (map TText (Spec.escape s))), annotate_text.
    cbn [annotate]. rewrite app_nil_r. apply forallb_forall.
    intros p Hp. apply in_map_iff in Hp as (x & <- & _). reflexivity. }
  pose proof (order_step _ _ (Retag_order _ _ _ R1 [] H0)) as H1.
  pose proof (order_step _ _ (Retag_order _ _ _ R2 [] H1)) as H2.
  pose proof (order_step _ _ (Retag_order _ _ _ R3 [] H2)) as H3.
  pose proof (order_step _ _ (Retag_order _ _ _ R4 [] H3)) as H4.
  pose proof (order_step _ _ (Retag_order _ _ _ R5 [] H4)) as H5.
  pose proof (order_step _ _ (Retag_order _ _ _ R6 [] H5)) as H6.
  pose proof (Retag_order _ _ _ R7 [] H6) as H7.
  apply forallb_forall. intros p Hp. rewrite forallb_forall in H7.
  specialize (H7 p Hp). apply andb_true_iff in H7 as [H7 _]. exact H7.
Qed.

(** X8 (nesting of spans).  Whatever the input, the spans of the markup
    are nested in the order of the passes: a span lies inside spans of
    earlier passes only.  On text without a quote character and without a
    dollar sign the markup is moreover the rendering of the classified
    words, in which a word gets the function-name span only when it is no
    keyword, type or number, and an annotation only holds a name that is
    neither of those nor capitalized: a capitalized decorator is never
    tagged as annotation. *)
Theorem spans_nested_as_passes s :
  (exists toks,
      tokenize (highlightCode s) = Some toks
      /\ forallb (fun p => in_pass_order (snd p)) (annotate [] toks) = true)
  /\ (forallb Words.quote_free s = true ->
      highlightCode s
      = Words.render_items (Words.classify (Words.lex (escapeHtml s)))
      /\ Forall Words.nested_as_passes
           (Words.classify (Words.lex (escapeHtml s)))).
Proof.
  split; [apply highlight_in_pass_order|].
  intros H. split; [apply highlight_items; exact H|apply classify_nesting].
Qed.

Lemma spans_nested_as_passes_witness :
  forallb Words.quote_free (u "@Injectable class A {}") = true
  /\ highlightCode (u "@Injectable class A {}")
     = Words.render_items
         (Words.classify (Words.lex (escapeHtml (u "@Injectable class A {}"))))
  /\ Forall Words.nested_as_passes
       (Words.classify (Words.lex (escapeHtml (u "@Injectable class A {}")))).
Proof.
  split; [reflexivity|].
  apply (proj2 (spans_nested_as_passes (u "@Injectable class A {}"))).
  reflexivity.
Defined.

(** ** Further properties: what the tagging loses *)

(** X9 (what is lost).  The text between the tags of the highlighted markup is the escaped
    text without some runs of white space that stood directly before an
    opening parenthesis: nothing else is ever lost, added or moved. *)
Theorem text_lost_only_before_paren s :
  exists toks,
    highlightCode s = markup toks /\ text_ok toks = true
    /\ lost_before_paren (escapeHtml s) (text_of toks).
Proof.
  rewrite escapeHtml_escape. apply highlight_lost.
Qed.

(** X10 (exact text).  Where no opening parenthesis of the input stands directly behind white
    space, the text between the tags is exactly the escaped input. *)
Theorem text_exact_with_tight_parens s :
  tight_parens false s = true ->
  exists toks,
    highlightCode s = markup toks /\ text_ok toks = true
    /\ text_of toks = escapeHtml s.
Proof.
  intros H. destruct (highlight_lost s) as (toks & E & Hok & L).
  exists toks. split; [exact E|]. split; [exact Hok|].
  rewrite escapeHtml_escape.
  exact (tight_exact _ _ L false (tight_escape s false H)).
Qed.

Lemma text_exact_with_tight_parens_witness :
  exists toks,
    highlightCode (u "return f(x, 'a');") = markup toks
    /\ text_ok toks = true
    /\ text_of toks = escapeHtml (u "return f(x, 'a');").
Proof.
  apply (text_exact_with_tight_parens (u "return f(x, 'a');")).
  reflexivity.
Defined.

(** ** Further properties: the comment passes *)

(** X5 (dead comment passes).  Whatever the input, neither comment pattern ever matches the escaped
    text, which has no slash left: both comment passes return their input,
    and the markup has no comment span. *)
Theorem comment_passes_never_match s tpl :
  replace lineCommentRegex tpl (escapeHtml s) = escapeHtml s
  /\ replace blockCommentRegex tpl (escapeHtml s) = escapeHtml s
  /\ exists toks,
       highlightCode s = markup toks /\ text_ok toks = true
       /\ ~ In (TOpen Comment) toks.
Proof.
  rewrite escapeHtml_escape.
  split; [apply line_comment_never, escape_inert|].
  split; [apply block_comment_never, escape_inert|].
  destruct (highlight_retag_chain s)
    as (t1 & t2 & t3 & t4 & t5 & t6 & t7
        & R1 & R2 & R3 & R4 & R5 & R6 & R7 & E).
  assert (Hok0 : text_ok (map TText (Spec.escape s)) = true).
  { rewrite text_ok_text. apply inert_plain, escape_inert. }
  exists t7. split; [exact E|]. split.
  - repeat (eapply Retag_text_ok; [eassumption|]). exact Hok0.
  - intros H7.
    apply (Retag_opens _ _ _ R7) in H7 as [?|H6]; [discriminate|].
    apply (Retag_opens _ _ _ R6) in H6 as [?|H5]; [discriminate|].
    apply (Retag_opens _ _ _ R5) in H5 as [?|H4]; [discriminate|].
    apply (Retag_opens _ _ _ R4) in H4 as [?|H3]; [discriminate|].
    apply (Retag_opens _ _ _ R3) in H3 as [?|H2]; [discriminate|].
    apply (Retag_opens _ _ _ R2) in H2 as [?|H1]; [discriminate|].
    apply (Retag_opens _ _ _ R1) in H1 as [?|H0]; [discriminate|].
    apply in_map_iff in H0 as (x & Hx & _). discriminate.
Qed.

(** ** Further properties: string literals *)

Lemma first_occurrence (x : char) a :
  forall a' t t',
    a ++ x :: t = a' ++ x :: t' -> ~ In x a -> ~ In x a' -> a = a' /\ t = t'.
Proof.
  induction a as [|y a IH]; intros [|y' a'] t t' E Ha Ha'; cbn [app] in E.
  - inversion E. auto.
  - inversion E. subst y'. destruct Ha'. left. reflexivity.
  - inversion E. subst y. destruct Ha. left. reflexivity.
  - inversion E. subst y'.
    destruct (IH a' t t' H1) as [-> ->]; auto.
    + intros H. apply Ha. right. exact H.
    + intros H. apply Ha'. right. exact H.
Qed.

Lemma not_amp_class x :
  atom_matches (AClass true [CChar c_amp]) x = not_char c_amp x.
Proof. cbn. rewrite orb_false_r. reflexivity. Qed.

Lemma not_char_In c w : forallb (not_char c) w = true -> ~ In c w.
Proof.
  intros H Hin. rewrite forallb_forall in H. specialize (H c Hin).
  unfold not_char in H. rewrite N.eqb_refl in H. discriminate.
Qed.

Lemma exec_quoted_entity p ent body r :
  ent = u "&quot;" \/ ent = u "&#x27;" ->
  forallb (not_char c_amp) body = true ->
  exec_at stringRegex p (ent ++ body ++ ent ++ r)
  = Some (length (ent ++ body ++ ent), Some (ent ++ body ++ ent)).
Proof.
  intros Hent Hbody.
  assert (Hstar : forallb (atom_matches (AClass true [CChar c_amp])) body = true).
  { rewrite (forallb_same _ (not_char c_amp) body not_amp_class). exact Hbody. }
  assert (S1 : Sem false (source stringRegex) p (ent ++ body ++ ent) r None
                 (Some (ent ++ body ++ ent))).
  { unfold stringRegex. cbn [source Sem alt_join].
    exists None. split; [|reflexivity].
    destruct Hent as [-> | ->].
    - left. exists (u "&quot;"), (body ++ u "&quot;"), None.
      split; [reflexivity|]. split; [apply Sem_lit_intro|].
      exists body, (u "&quot;"), None. split; [reflexivity|].
      split; [split; [exact Hstar|reflexivity]|apply Sem_lit_intro].
    - right. left. exists (u "&#x27;"), (body ++ u "&#x27;"), None.
      split; [reflexivity|]. split; [apply Sem_lit_intro|].
      exists body, (u "&#x27;"), None. split; [reflexivity|].
      split; [split; [exact Hstar|reflexivity]|apply Sem_lit_intro]. }
  destruct (exec_at_complete stringRegex p _ r _ S1) as (n & g & E).
  destruct (exec_at_sound _ _ _ _ _ E) as (m & s' & Hsplit & -> & S2).
  apply Sem_string in S2 as (-> & Hforms).
  assert (m = ent ++ body ++ ent) as Hm.
  { rewrite <- !app_assoc in Hsplit.
    destruct Hforms as [(w & -> & Hw)|[(w & -> & Hw)|(w & -> & Hw)]];
      destruct Hent as [-> | ->]; rewrite <- ?app_assoc in Hsplit;
      try discriminate Hsplit.
    - apply app_inv_head in Hsplit.
      change (u "&quot;") with (c_amp :: u "quot;") in Hsplit.
      rewrite <- !app_comm_cons in Hsplit.
      destruct (first_occurrence c_amp body w _ _ Hsplit
                  (not_char_In _ _ Hbody) (not_char_In _ _ Hw)) as [-> _].
      reflexivity.
    - apply app_inv_head in Hsplit.
      change (u "&#x27;") with (c_amp :: u "#x27;") in Hsplit.
      rewrite <- !app_comm_cons in Hsplit.
      destruct (first_occurrence c_amp body w _ _ Hsplit
                  (not_char_In _ _ Hbody) (not_char_In _ _ Hw)) as [-> _].
      reflexivity. }
  rewrite Hm in E. rewrite <- !app_assoc in E. exact E.
Qed.

Lemma special_free_no_amp body :
  forallb (fun c => negb (is_special c)) body = true ->
  forallb (not_char c_amp) body = true.
Proof.
  intros H. apply forallb_forall. intros x Hx. rewrite forallb_forall in H.
  specialize (H x Hx). unfold not_char.
  destruct (x =? c_amp)%N eqn:E; [|reflexivity].
  apply N.eqb_eq in E. subst x. discriminate H.
Qed.

Lemma escape_quoted q body :
  Spec.escape (quoted q body)
  = Spec.escape_char q ++ Spec.escape body ++ Spec.escape_char q.
Proof.
  unfold quoted. change (q :: body ++ [q]) with ([q] ++ body ++ [q]).
  rewrite !escape_app. unfold Spec.escape at 1 3. cbn [flat_map].
  rewrite !app_nil_r. reflexivity.
Qed.

Lemma string_pass_literal pre q body post :
  literal q body = true -> forallb no_quote pre = true ->
  replace stringRegex (spanTemplate "text-green-400" "")
    (Spec.escape (pre ++ quoted q body ++ post))
  = Spec.escape pre ++ open_tag StringLit
    ++ Spec.escape (quoted q body) ++ close_tag
    ++ replace stringRegex (spanTemplate "text-green-400" "") (Spec.escape post).
Proof.
  unfold literal. intros Hlit Hpre.
  destruct (q =? c_backtick)%N eqn:Eb.
  { apply N.eqb_eq in Eb. subst q. apply string_pass_backtick; assumption. }
  apply andb_true_iff in Hlit as [Hq Hbody].
  pose proof (special_free_no_amp body Hbody) as Hamp.
  assert (Hent : Spec.escape_char q = u "&quot;" \/ Spec.escape_char q = u "&#x27;").
  { apply orb_true_iff in Hq as [Hq|Hq]; apply N.eqb_eq in Hq; subst q;
      [left|right]; reflexivity. }
  unfold replace, replace_fn.
  rewrite !escape_app, escape_quoted, (escape_plain_run body Hbody).
  rewrite scan_string_prefix by exact Hpre.
  set (ent := Spec.escape_char q) in *.
  pose proof (exec_quoted_entity None ent body (Spec.escape post) Hent Hamp) as E.
  replace (ent ++ body ++ ent ++ Spec.escape post)
    with ((ent ++ body ++ ent) ++ Spec.escape post) in E
    by (rewrite <- !app_assoc; reflexivity).
  rewrite (scan_hit stringRegex None (ent ++ body ++ ent) (Spec.escape post)
             (Some (ent ++ body ++ ent))).
  - rewrite flat_map_app, render_copies. cbn [flat_map render].
    rewrite (expand_span_plain StringLit).
    rewrite (scan_blind stringRegex (eq_refl : no_wordb (source stringRegex) = true)
               (Spec.escape post) (lastc None (ent ++ body ++ ent)) None 0).
    rewrite <- !app_assoc. reflexivity.
  - destruct Hent as [-> | ->]; discriminate.
  - exact E.
Qed.

Lemma split_at_tag w :
  forall (A C toks : list token) t,
    A ++ t :: C = map TText w ++ toks -> is_text t = false ->
    exists A2, A = map TText w ++ A2 /\ toks = A2 ++ t :: C.
Proof.
  induction w as [|x w IH]; intros A C toks t E Ht.
  - exists A. split; [reflexivity|]. symmetry. exact E.
  - destruct A as [|a A]; cbn [map app] in E.
    + inversion E. subst t. discriminate Ht.
    + inversion E. subst a.
      destruct (IH A C toks t H1 Ht) as (A2 & -> & ->).
      exists A2. split; reflexivity.
Qed.

Lemma Rewrap_split_tag lossy cat L T' :
  Rewrap lossy cat L T' ->
  forall A t C,
    L = A ++ t :: C -> is_text t = false ->
    exists A' C',
      T' = A' ++ t :: C' /\ Rewrap lossy cat A A' /\ Rewrap lossy cat C C'.
Proof.
  induction 1 as [|t0 toks toks' R IH|gw ws e toks toks' Hne Hws Hl R IH];
    intros A t C E Ht.
  - destruct A; discriminate E.
  - destruct A as [|a A]; cbn [app] in E; injection E as E1 E2.
    + subst t0 toks. exists [], toks'.
      split; [reflexivity|]. split; [constructor|exact R].
    + subst t0. destruct (IH A t C E2 Ht) as (A' & C' & -> & RA & RC).
      exists (a :: A'), C'. split; [reflexivity|].
      split; [constructor; exact RA|exact RC].
  - symmetry in E.
    destruct (split_at_tag _ _ _ _ _ E Ht) as (A2 & -> & ->).
    destruct (IH A2 t C eq_refl Ht) as (A' & C' & -> & RA & RC).
    exists (TOpen cat :: map TText gw ++ TClose :: map TText e ++ A'), C'.
    split; [cbn [app]; rewrite <- !app_assoc; cbn [app];
            rewrite <- !app_assoc; reflexivity|].
    split; [constructor; assumption|exact RC].
Qed.

Lemma rewrap_around_span lossy re tpl cat A B C :
  wraps_losing lossy true re tpl cat ->
  text_ok (A ++ TOpen StringLit :: B ++ TClose :: C) = true ->
  exists A' B' C',
    replace re tpl (markup (A ++ TOpen StringLit :: B ++ TClose :: C))
    = markup (A' ++ TOpen StringLit :: B' ++ TClose :: C')
    /\ Rewrap lossy cat B B'
    /\ text_ok (A' ++ TOpen StringLit :: B' ++ TClose :: C') = true.
Proof.
  intros WL Hok.
  destruct (pass_rewrap lossy true re tpl cat WL _ _ None (le_n _) Hok
              (or_introl eq_refl)) as (toks' & E & R).
  destruct (Rewrap_split_tag _ _ _ _ R A (TOpen StringLit) _ eq_refl eq_refl)
    as (A' & R' & -> & RA & RR).
  destruct (Rewrap_split_tag _ _ _ _ RR B TClose C eq_refl eq_refl)
    as (B' & C' & -> & RB & RC).
  exists A', B', C'. split; [exact E|]. split; [exact RB|].
  eapply Retag_text_ok; [eapply Rewrap_Retag; exact R|exact Hok].
Qed.

(** X6 (string literals).  A quoted literal that follows text without quote characters stays in
    a string span through all later passes: the markup holds the string
    tags around the escaped literal, which the later passes may tag inside
    and of which at most white space before an opening parenthesis is
    lost. *)
Theorem string_literal_keeps_span pre q body post :
  literal q body = true -> forallb no_quote pre = true ->
  exists before inner behind,
    highlightCode (pre ++ quoted q body ++ post)
    = markup before ++ open_tag StringLit ++ markup inner ++ close_tag
      ++ markup behind
    /\ text_ok inner = true
    /\ lost_before_paren (escapeHtml (quoted q body)) (text_of inner).
Proof.
  intros Hlit Hpre. unfold highlightCode. rewrite !escapeHtml_escape.
  pose proof (escape_inert (pre ++ quoted q body ++ post)) as Hi.
  rewrite line_comment_never, block_comment_never by exact Hi.
  rewrite (string_pass_literal pre q body post Hlit Hpre).
  assert (Hokp : text_ok (map TText (Spec.escape post)) = true).
  { rewrite text_ok_text. apply inert_plain, escape_inert. }
  destruct (pass_rewrap false false _ _ _
              (wraps_losing_whole _ _ _ _ wraps_string wraps_whole_string)
              _ (map TText (Spec.escape post)) None (le_n _) Hokp
              (or_intror (tagless_text _)))
    as (tpost & Ep & Rp).
  rewrite markup_text in Ep.
  change (flat_map (render (expand (spanTemplate "text-green-400" "")))
            (scan stringRegex None (Spec.escape post) 0))
    with (replace stringRegex (spanTemplate "text-green-400" "") (Spec.escape post))
    in Ep.
  rewrite Ep.
  set (A0 := map TText (Spec.escape pre)).
  set (B0 := map TText (Spec.escape (quoted q body))).
  assert (Hm : Spec.escape pre ++ open_tag StringLit
               ++ Spec.escape (quoted q body) ++ close_tag ++ markup tpost
               = markup (A0 ++ TOpen StringLit :: B0 ++ TClose :: tpost)).
  { unfold A0, B0. rewrite markup_app, markup_cons, markup_app, markup_cons.
    rewrite !markup_text. reflexivity. }
  rewrite Hm.
  assert (Hok0 : text_ok (A0 ++ TOpen StringLit :: B0 ++ TClose :: tpost) = true).
  { rewrite text_ok_app.
    change (text_ok (TOpen StringLit :: B0 ++ TClose :: tpost))
      with (text_ok (B0 ++ TClose :: tpost)).
    rewrite text_ok_app.
    change (text_ok (TClose :: tpost)) with (text_ok tpost).
    unfold A0, B0. rewrite !text_ok_text.
    rewrite (inert_plain _ (escape_inert pre)).
    rewrite (inert_plain _ (escape_inert (quoted q body))).
    rewrite (Retag_text_ok _ _ _ (Rewrap_Retag _ _ _ _ Rp) Hokp). reflexivity. }
  destruct (rewrap_around_span false _ _ _ A0 B0 tpost
              (wraps_losing_whole _ _ _ _ wraps_keyword wraps_whole_keyword) Hok0)
    as (A1 & B1 & C1 & E1 & R1 & Hok1).
  rewrite E1.
  destruct (rewrap_around_span false _ _ _ A1 B1 C1
              (wraps_losing_whole _ _ _ _ wraps_type wraps_whole_type) Hok1)
    as (A2 & B2 & C2 & E2 & R2 & Hok2).
  rewrite E2.
  destruct (rewrap_around_span false _ _ _ A2 B2 C2
              (wraps_losing_whole _ _ _ _ wraps_number wraps_whole_number) Hok2)
    as (A3 & B3 & C3 & E3 & R3 & Hok3).
  rewrite E3.
  destruct (rewrap_around_span true _ _ _ A3 B3 C3 wraps_losing_function Hok3)
    as (A4 & B4 & C4 & E4 & R4 & Hok4).
  rewrite E4.
  destruct (rewrap_around_span false _ _ _ A4 B4 C4
              (wraps_losing_whole _ _ _ _ wraps_class wraps_whole_class) Hok4)
    as (A5 & B5 & C5 & E5 & R5 & Hok5).
  rewrite E5.
  destruct (rewrap_around_span false _ _ _ A5 B5 C5
              (wraps_losing_whole _ _ _ _ wraps_decorator wraps_whole_decorator)
              Hok5)
    as (A6 & B6 & C6 & E6 & R6 & Hok6).
  rewrite E6.
  exists A6, B6, C6. split.
  - rewrite markup_app, markup_cons, markup_app, markup_cons. reflexivity.
  - split.
    + rewrite text_ok_app in Hok6. apply andb_true_iff in Hok6 as [_ Hok6].
      change (text_ok (TOpen StringLit :: B6 ++ TClose :: C6))
        with (text_ok (B6 ++ TClose :: C6)) in Hok6.
      rewrite text_ok_app in Hok6. apply andb_true_iff in Hok6 as [Hok6 _].
      exact Hok6.
    + rewrite (Rewrap_exact _ _ _ R6), (Rewrap_exact _ _ _ R5).
      assert (H0 : text_of B3 = Spec.escape (quoted q body)).
      { rewrite (Rewrap_exact _ _ _ R3), (Rewrap_exact _ _ _ R2).
        rewrite (Rewrap_exact _ _ _ R1). unfold B0.
        rewrite <- (app_nil_r (map TText _)), text_of_text. apply app_nil_r. }
      rewrite <- H0. eapply Rewrap_lost. exact R4.
Qed.

Lemma string_literal_keeps_span_witness :
  exists before inner behind,
    highlightCode (u "x = " ++ quoted c_squote (u "return value") ++ u ";")
    = markup before ++ open_tag StringLit ++ markup inner ++ close_tag
      ++ markup behind
    /\ text_ok inner = true
    /\ lost_before_paren (escapeHtml (quoted c_squote (u "return value")))
         (text_of inner).
Proof.
  apply (string_literal_keeps_span (u "x = ") c_squote (u "return value") (u ";"));
    reflexivity.
Defined.

(** X22 (round trip).  Where no opening parenthesis of the input stands
    directly behind white space, stripping the tags of the highlighted
    markup and decoding the six escape sequences gives back the input. *)
Theorem round_trip_with_tight_parens s :
  tight_parens false s = true ->
  option_map decodeHtml (strip_tags (highlightCode s)) = Some s.
Proof.
  intros H. destruct (highlight_lost s) as (toks & E & Hok & L).
  rewrite E, (strip_tags_markup toks Hok). cbn [option_map].
  rewrite (tight_exact _ _ L false (tight_escape s false H)).
  rewrite decode_escape. reflexivity.
Qed.

Lemma round_trip_with_tight_parens_witness :
  option_map decodeHtml
    (strip_tags (highlightCode (u "while(a < b) { a = f(a, 'b'); }")))
  = Some (u "while(a < b) { a = f(a, 'b'); }").
Proof.
  apply (round_trip_with_tight_parens (u "while(a < b) { a = f(a, 'b'); }")).
  reflexivity.
Defined.

(** ** The string pass on a literal that stands alone *)











(** ** The specification's passes against the calls of the source *)

Lemma atom_plain a x :
  negb (atom_matches a c_lt) = true -> negb (atom_matches a c_gt) = true ->
  atom_matches a x = true -> plain x = true.
Proof.
  intros H1 H2 Hx. apply negb_true_iff in H1, H2. unfold plain.
  destruct (x =? c_lt)%N eqn:E1; [apply N.eqb_eq in E1; congruence|].
  destruct (x =? c_gt)%N eqn:E2; [apply N.eqb_eq in E2; congruence|].
  reflexivity.
Qed.

(** Continuations that agree wherever the pattern can hand over give the
    same result: a pattern without angle brackets hands over behind a run
    of plain code units. *)
Lemma star_loop_ext g a (k k' : cont) :
  (forall x, atom_matches a x = true -> plain x = true) ->
  forall s p c,
    (forall p' s' c',
        (exists pre, s = pre ++ s' /\ forallb plain pre = true) ->
        k (MState p' s' c') = k' (MState p' s' c')) ->
    star_loop g a k p s c = star_loop g a k' p s c.
Proof.
  intros Ha. induction s as [|x s IH]; intros p c H; cbn [star_loop].
  - apply H. exists []. split; reflexivity.
  - assert (Hhere : k (MState p (x :: s) c) = k' (MState p (x :: s) c))
      by (apply H; exists []; split; reflexivity).
    destruct (atom_matches a x) eqn:Ex; [|exact Hhere].
    assert (Hdeep : star_loop g a k (Some x) s c = star_loop g a k' (Some x) s c).
    { apply IH. intros p' s' c' (pre & -> & Hpre). apply H. exists (x :: pre).
      split; [reflexivity|]. cbn [forallb]. rewrite (Ha x Ex). exact Hpre. }
    rewrite Hhere, Hdeep. reflexivity.
Qed.

Lemma rmatch_ext ml r :
  avoids c_lt r = true -> avoids c_gt r = true ->
  forall (k k' : cont) st,
    (forall st',
        (exists pre, rest st = pre ++ rest st' /\ forallb plain pre = true) ->
        k st' = k' st') ->
    rmatch ml r k st = rmatch ml r k' st.
Proof.
  induction r as [|a|r1 IH1 r2 IH2|r1 IH1 r2 IH2|g a|g a|r1 IH1| | |r1 IH1];
    cbn [avoids]; intros A1 A2 k k' [q t c] H; cbn [rmatch rest prev cap1] in *.
  - apply H. exists []. split; reflexivity.
  - destruct t as [|x s']; [reflexivity|].
    destruct (atom_matches a x) eqn:Ex; [|reflexivity].
    apply H. exists [x]. split; [reflexivity|].
    cbn [forallb]. rewrite (atom_plain a x A1 A2 Ex). reflexivity.
  - apply andb_true_iff in A1 as [A11 A12]. apply andb_true_iff in A2 as [A21 A22].
    apply IH1; [exact A11|exact A21|]. intros st' (pre & E & Hpre).
    apply IH2; [exact A12|exact A22|]. intros st'' (pre' & E' & Hpre').
    apply H. exists (pre ++ pre'). cbn [rest] in E.
    rewrite E, E', app_assoc, forallb_app, Hpre, Hpre'. split; reflexivity.
  - apply andb_true_iff in A1 as [A11 A12]. apply andb_true_iff in A2 as [A21 A22].
    rewrite (IH1 A11 A21 k k' (MState q t c) H), (IH2 A12 A22 k k' (MState q t c) H).
    reflexivity.
  - apply star_loop_ext; [intros x; apply atom_plain; assumption|].
    intros p' s' c' Hs. apply H. exact Hs.
  - destruct t as [|x s']; [reflexivity|].
    destruct (atom_matches a x) eqn:Ex; [|reflexivity].
    apply star_loop_ext; [intros y; apply atom_plain; assumption|].
    intros p' s'' c' (pre & -> & Hpre). apply H.
    exists (x :: pre). split; [reflexivity|].
    cbn [forallb]. rewrite (atom_plain a x A1 A2 Ex). exact Hpre.
  - apply IH1; [exact A1|exact A2|]. intros st' Hs. apply H. exact Hs.
  - destruct (xorb _ _); [|reflexivity]. apply H. exists []. split; reflexivity.
  - destruct t as [|x s'].
    + apply H. exists []. split; reflexivity.
    + destruct (ml && is_line_terminator x); [|reflexivity].
      apply H. exists []. split; reflexivity.
  - destruct (rmatch ml r1 Some (MState q t c)); [reflexivity|].
    apply H. exists []. split; reflexivity.
Qed.

Lemma star_loop_none g a :
  forall s p c, star_loop g a (fun _ => None) p s c = None.
Proof.
  induction s as [|x s IH]; intros p c; cbn [star_loop]; [reflexivity|].
  destruct (atom_matches a x); [|reflexivity].
  rewrite IH. destruct g; reflexivity.
Qed.

Lemma rmatch_none ml r :
  forall (k : cont) st, (forall st', k st' = None) -> rmatch ml r k st = None.
Proof.
  induction r as [|a|r1 IH1 r2 IH2|r1 IH1 r2 IH2|g a|g a|r1 IH1| | |r1 IH1];
    intros k [q t c] Hk; cbn [rmatch rest prev cap1].
  - apply Hk.
  - destruct t as [|x s']; [reflexivity|].
    destruct (atom_matches a x); [apply Hk|reflexivity].
  - apply IH1. intros st'. apply IH2. exact Hk.
  - rewrite (IH1 k _ Hk). apply IH2. exact Hk.
  - assert (E : forall s p c0, star_loop g a k p s c0 = None).
    { induction s as [|x s IH]; intros p c0; cbn [star_loop]; [apply Hk|].
      destruct (atom_matches a x); [|apply Hk].
      rewrite IH, Hk. destruct g; reflexivity. }
    apply E.
  - destruct t as [|x s']; [reflexivity|].
    destruct (atom_matches a x); [|reflexivity].
    assert (E : forall s p c0, star_loop g a k p s c0 = None).
    { induction s as [|y s IH]; intros p c0; cbn [star_loop]; [apply Hk|].
      destruct (atom_matches a y); [|apply Hk].
      rewrite IH, Hk. destruct g; reflexivity. }
    apply E.
  - apply IH1. intros st'. apply Hk.
  - destruct (xorb _ _); [apply Hk|reflexivity].
  - destruct t as [|x s']; [apply Hk|].
    destruct (ml && is_line_terminator x); [apply Hk|reflexivity].
  - destruct (rmatch ml r1 Some (MState q t c)); [reflexivity|apply Hk].
Qed.

(** A pattern that takes at least one code unit, none of them an angle
    bracket, does not match at an angle bracket. *)
Lemma rmatch_stuck ml r :
  avoids c_lt r = true -> avoids c_gt r = true ->
  forall (k : cont) p x s c,
    plain x = false ->
    (min_len r = 0 -> forall p' c', k (MState p' (x :: s) c') = None) ->
    rmatch ml r k (MState p (x :: s) c) = None.
Proof.
  induction r as [|a|r1 IH1 r2 IH2|r1 IH1 r2 IH2|g a|g a|r1 IH1| | |r1 IH1];
    cbn [avoids min_len]; intros A1 A2 k p x s c Hx Hk;
    cbn [rmatch rest prev cap1].
  - apply Hk. reflexivity.
  - destruct (atom_matches a x) eqn:Ex; [|reflexivity].
    rewrite (atom_plain a x A1 A2 Ex) in Hx. discriminate.
  - apply andb_true_iff in A1 as [A11 A12]. apply andb_true_iff in A2 as [A21 A22].
    apply IH1; [exact A11|exact A21|exact Hx|]. intros L1 p' c'.
    apply IH2; [exact A12|exact A22|exact Hx|]. intros L2. apply Hk. lia.
  - apply andb_true_iff in A1 as [A11 A12]. apply andb_true_iff in A2 as [A21 A22].
    rewrite IH1; [|exact A11|exact A21|exact Hx|intros L; apply Hk; lia].
    apply IH2; [exact A12|exact A22|exact Hx|intros L; apply Hk; lia].
  - cbn [star_loop]. destruct (atom_matches a x) eqn:Ex.
    + rewrite (atom_plain a x A1 A2 Ex) in Hx. discriminate.
    + apply Hk. reflexivity.
  - destruct (atom_matches a x) eqn:Ex; [|reflexivity].
    rewrite (atom_plain a x A1 A2 Ex) in Hx. discriminate.
  - apply IH1; [exact A1|exact A2|exact Hx|]. intros L p' c'. cbn [prev rest].
    apply Hk. exact L.
  - destruct (xorb _ _); [|reflexivity]. apply Hk. reflexivity.
  - destruct (ml && is_line_terminator x); [|reflexivity]. apply Hk. reflexivity.
  - destruct (rmatch ml r1 Some (MState p (x :: s) c)); [reflexivity|].
    apply Hk. reflexivity.
Qed.

(** What the two guards decide. *)
Lemma code_guard_eval p s c :
  rmatch false guard Some (MState p s c)
  = if guard_clear s then Some (MState p s c) else None.
Proof.
  change (rmatch false guard Some (MState p s c))
    with (match star_loop true (AClass true [CChar c_lt])
                  (rmatch false (At (AChar c_gt)) Some) p s c with
          | Some _ => None
          | None => Some (MState p s c)
          end).
  pose proof (guard_loop false s p c) as H.
  destruct (guard_clear s).
  - rewrite (proj2 H eq_refl). reflexivity.
  - destruct (star_loop _ _ _ p s c); [reflexivity|].
    destruct H as [H _]. discriminate (H eq_refl).
Qed.

Lemma spec_guard_loop s :
  forall p c,
    star_loop true (AClass true [CChar c_lt])
      (rmatch false (At (AChar c_lt) ;; At (AChar c_slash))%re Some) p s c = None
    <-> closes_next s = false.
Proof.
  induction s as [|x s IH]; intros p c; cbn [star_loop closes_next].
  - cbn. tauto.
  - change (atom_matches (AClass true [CChar c_lt]) x)
      with (xorb true ((x =? c_lt)%N || false)).
    destruct (x =? c_lt)%N eqn:Ex; cbn [orb xorb].
    + cbn [rmatch rest prev cap1 atom_matches]. rewrite Ex.
      destruct s as [|y s]; [tauto|].
      destruct (y =? c_slash)%N; split; intros; congruence.
    + rewrite <- (IH (Some x) c).
      assert (Hk : rmatch false (At (AChar c_lt) ;; At (AChar c_slash))%re Some
                     (MState p (x :: s) c) = None).
      { cbn [rmatch rest prev cap1 atom_matches]. rewrite Ex. reflexivity. }
      rewrite Hk.
      destruct (star_loop _ _ _ (Some x) s c); split; intros; congruence.
Qed.

Lemma spec_guard_eval p s c :
  rmatch false SpecPasses.guard Some (MState p s c)
  = if closes_next s then None else Some (MState p s c).
Proof.
  change (rmatch false SpecPasses.guard Some (MState p s c))
    with (match star_loop true (AClass true [CChar c_lt])
                  (rmatch false (At (AChar c_lt) ;; At (AChar c_slash))%re Some)
                  p s c with
          | Some _ => None
          | None => Some (MState p s c)
          end).
  pose proof (spec_guard_loop s p c) as H.
  destruct (closes_next s).
  - destruct (star_loop _ _ _ p s c); [reflexivity|].
    destruct H as [H _]. discriminate (H eq_refl).
  - rewrite (proj2 H eq_refl). reflexivity.
Qed.

(** ** Spans inside spans *)

Lemma flat_skip w s :
  forallb (not_char c_lt) w = true ->
  forall d, flat_from d (w ++ s) = flat_from d s.
Proof.
  induction w as [|x w IH]; intros Hw d; [reflexivity|].
  cbn [forallb] in Hw. apply andb_true_iff in Hw as [Hx Hw].
  unfold not_char in Hx. apply negb_true_iff in Hx.
  cbn [app flat_from]. rewrite Hx. apply IH; exact Hw.
Qed.

Lemma plain_not_lt w : forallb plain w = true -> forallb (not_char c_lt) w = true.
Proof.
  intros H. apply forallb_forall. intros x Hx.
  rewrite forallb_forall in H. specialize (H x Hx).
  unfold plain in H. apply andb_true_iff in H as [H _]. exact H.
Qed.

Lemma flat_plain w s d :
  forallb plain w = true -> flat_from d (w ++ s) = flat_from d s.
Proof.
  intros H. apply flat_skip, plain_not_lt, H.
Qed.

Lemma flat_open c s d :
  flat_from d (open_tag c ++ s) = Nat.eqb d 0 && flat_from (S d) s.
Proof.
  destruct c;
    match goal with
    | |- context [open_tag ?c ++ _] =>
        let v := eval vm_compute in (open_tag c) in change (open_tag c) with v
    end; reflexivity.
Qed.

Lemma flat_close s d : flat_from d (close_tag ++ s) = flat_from (pred d) s.
Proof. reflexivity. Qed.

Lemma closes_skip w s :
  forallb (not_char c_lt) w = true -> closes_next (w ++ s) = closes_next s.
Proof.
  induction w as [|x w IH]; intros Hw; [reflexivity|].
  cbn [forallb] in Hw. apply andb_true_iff in Hw as [Hx Hw].
  unfold not_char in Hx. apply negb_true_iff in Hx.
  cbn [app closes_next]. rewrite Hx. apply IH; exact Hw.
Qed.

Lemma closes_open c s : closes_next (open_tag c ++ s) = false.
Proof. destruct c; reflexivity. Qed.

Lemma guard_clear_markup toks :
  text_ok toks = true -> guard_clear (markup toks) = true.
Proof.
  induction toks as [|t toks IH]; intros Hok; [reflexivity|].
  cbn [text_ok forallb] in Hok. apply andb_true_iff in Hok as [Ht Hok].
  rewrite markup_cons. destruct t as [c|c|].
  - unfold plain in Ht. apply andb_true_iff in Ht as [H1 H2].
    apply negb_true_iff in H1, H2.
    cbn [render_token app guard_clear]. rewrite H1, H2. exact (IH Hok).
  - destruct c; reflexivity.
  - reflexivity.
Qed.

(** In markup without a span inside a span the next tag behind text
    outside a span opens a span, and the next tag behind text inside a
    span closes it. *)
Lemma closes_next_markup toks :
  forall d,
    text_ok toks = true -> balanced_from d toks = true ->
    flat_from d (markup toks) = true -> d <= 1 ->
    closes_next (markup toks) = Nat.eqb d 1.
Proof.
  induction toks as [|t toks IH]; intros d Hok Hbal Hflat Hd.
  - cbn [balanced_from] in Hbal. apply Nat.eqb_eq in Hbal. subst d. reflexivity.
  - cbn [text_ok forallb] in Hok. apply andb_true_iff in Hok as [Ht Hok].
    rewrite markup_cons in *. destruct t as [c|c|].
    + cbn [render_token] in *.
      assert (Hp : forallb plain [c] = true) by (cbn [forallb]; rewrite Ht; reflexivity).
      rewrite (closes_skip [c] _ (plain_not_lt _ Hp)).
      rewrite (flat_plain [c] _ _ Hp) in Hflat.
      exact (IH d Hok Hbal Hflat Hd).
    + cbn [render_token] in *. rewrite closes_open.
      rewrite flat_open in Hflat. apply andb_true_iff in Hflat as [Hz _].
      apply Nat.eqb_eq in Hz. subst d. reflexivity.
    + cbn [balanced_from] in Hbal. destruct d as [|d]; [discriminate|].
      assert (d = 0) by lia. subst d. reflexivity.
Qed.

(** ** One guarded pass under the two guards *)

Section SpanGuard.

Variables (re_c re_s : RegExp) (P : regex) (tpl : str) (cat : category).

Hypothesis Hc :
  forall st,
    rmatch (multiline re_c) (source re_c) Some st
    = rmatch false P (rmatch false guard Some) st.
Hypothesis Hs :
  forall st,
    rmatch (multiline re_s) (source re_s) Some st
    = rmatch false P (rmatch false SpecPasses.guard Some) st.
Hypothesis P_lt : avoids c_lt P = true.
Hypothesis P_gt : avoids c_gt P = true.
Hypothesis P_len : Nat.ltb 0 (min_len P) = true.
Hypothesis S_len : Nat.ltb 0 (min_len (source re_s)) = true.
Hypothesis W : wraps true re_c tpl cat.
Hypothesis Hclose :
  forall s,
    scan re_s (Some c_lt) (u "/span>" ++ s) 0
    = map Copy (u "/span>") ++ scan re_s (Some c_gt) s 0.

Lemma exec_same p s :
  (forall pre t,
      s = pre ++ t -> forallb plain pre = true ->
      guard_clear t = true /\ closes_next t = false) ->
  exec_at re_s p s = exec_at re_c p s.
Proof.
  intros H. unfold exec_at. rewrite Hc, Hs.
  rewrite (rmatch_ext false P P_lt P_gt (rmatch false SpecPasses.guard Some)
             (rmatch false guard Some) (MState p s None)); [reflexivity|].
  intros [q t c] (pre & E & Hpre). cbn [rest] in E.
  destruct (H pre t E Hpre) as [G1 G2].
  rewrite spec_guard_eval, code_guard_eval, G1, G2. reflexivity.
Qed.

Lemma exec_spec_none p s :
  (forall pre t,
      s = pre ++ t -> forallb plain pre = true -> closes_next t = true) ->
  exec_at re_s p s = None.
Proof.
  intros H. unfold exec_at. rewrite Hs.
  rewrite (rmatch_ext false P P_lt P_gt (rmatch false SpecPasses.guard Some)
             (fun _ => None) (MState p s None)).
  - rewrite rmatch_none; reflexivity.
  - intros [q t c] (pre & E & Hpre). cbn [rest] in E.
    rewrite spec_guard_eval, (H pre t E Hpre). reflexivity.
Qed.

Lemma exec_spec_angle p x s : plain x = false -> exec_at re_s p (x :: s) = None.
Proof.
  intros Hx. unfold exec_at. rewrite Hs, rmatch_stuck; auto.
  intros L. apply Nat.ltb_lt in P_len. lia.
Qed.

Lemma exec_spec_nil p : exec_at re_s p [] = None.
Proof.
  destruct (exec_at re_s p []) as [[n g]|] eqn:E; [|reflexivity].
  destruct (exec_at_sound _ _ _ _ _ E) as (w & s' & H0 & _ & S1).
  apply (Sem_nonempty _ _ _ _ _ _ _ S_len) in S1.
  destruct w; [congruence|discriminate].
Qed.

(** The suffixes a match can end at when it begins in [markup toks]. *)
Lemma reach_tokens toks pre t :
  text_ok toks = true ->
  markup toks = pre ++ t -> forallb plain pre = true ->
  exists toks2,
    toks = map TText pre ++ toks2 /\ markup toks2 = t /\ text_ok toks2 = true.
Proof.
  intros Hok E Hpre.
  destruct (split_text pre toks t Hok E (or_introl Hpre)) as (toks2 & H1 & H2).
  exists toks2. split; [exact H1|]. split; [exact H2|].
  rewrite H1 in Hok. unfold text_ok in Hok. rewrite forallb_app in Hok.
  apply andb_true_iff in Hok. tauto.
Qed.

Lemma scan_open_spec c toks p :
  text_ok toks = true -> balanced_from 1 toks = true ->
  flat_from 1 (markup toks) = true ->
  scan re_s p (open_tag c ++ markup toks) 0
  = map Copy (open_tag c) ++ scan re_s (Some c_gt) (markup toks) 0.
Proof.
  intros Hok Hbal Hflat.
  assert (Hnext : closes_next (markup toks) = true)
    by (rewrite (closes_next_markup toks 1 Hok Hbal Hflat (le_n 1)); reflexivity).
  destruct (tag_shape (TOpen c) eq_refl) as (body & Eb & Hb).
  cbn [render_token] in Eb. rewrite Eb.
  replace ((c_lt :: body ++ [c_gt]) ++ markup toks)
    with (c_lt :: body ++ c_gt :: markup toks)
    by (cbn [app]; rewrite <- app_assoc; reflexivity).
  rewrite scan_miss by (apply exec_spec_angle; reflexivity).
  change (map Copy (c_lt :: body ++ [c_gt]) ++ scan re_s (Some c_gt) (markup toks) 0)
    with (Copy c_lt
          :: map Copy (body ++ [c_gt]) ++ scan re_s (Some c_gt) (markup toks) 0).
  f_equal.
  assert (Hbody :
            forall b q,
              forallb plain b = true ->
              scan re_s q (b ++ c_gt :: markup toks) 0
              = map Copy (b ++ [c_gt]) ++ scan re_s (Some c_gt) (markup toks) 0).
  { induction b as [|x b IH]; intros q Hpl.
    - cbn [app]. rewrite scan_miss by (apply exec_spec_angle; reflexivity).
      reflexivity.
    - cbn [app]. rewrite scan_miss.
      + cbn [forallb] in Hpl. apply andb_true_iff in Hpl as [_ Hpl].
        rewrite (IH _ Hpl). reflexivity.
      + apply exec_spec_none. intros pre t E Hpre.
        change (x :: b ++ c_gt :: markup toks)
          with ((x :: b) ++ c_gt :: markup toks) in E.
        destruct (plain_prefix _ _ _ _ Hpre E) as (b' & Eb' & ->).
        rewrite Eb' in Hpl. rewrite forallb_app in Hpl.
        apply andb_true_iff in Hpl as [_ Hb'].
        rewrite (closes_skip b' _ (plain_not_lt _ Hb')).
        cbn [closes_next]. exact Hnext. }
  apply Hbody. exact Hb.
Qed.

Lemma expand_opens w s' g n :
  exec_at re_c n (w ++ s') = Some (length w, g) ->
  exists gw e,
    expand tpl w g = open_tag cat ++ gw ++ close_tag ++ e
    /\ forallb plain gw = true /\ forallb plain e = true
    /\ forallb plain w = true /\ w <> [].
Proof.
  intros E.
  destruct (wraps_exec true re_c tpl cat W _ _ _ _ E)
    as (w0 & s0 & gw & ws & e & H0 & Hl & Hw & Hne & Hws & Hex & Hg).
  assert (Ew : w0 = w).
  { apply (f_equal (firstn (length w))) in H0.
    rewrite firstn_app, Nat.sub_diag, firstn_all, Hl in H0. cbn [firstn] in H0.
    rewrite app_nil_r, firstn_app, Nat.sub_diag, firstn_all in H0.
    cbn [firstn] in H0. rewrite app_nil_r in H0. congruence. }
  rewrite Ew in Hw, Hex, Hg. clear Ew.
  destruct (Hg eq_refl) as [Hp _].
  exists gw, e. split; [exact Hex|].
  rewrite Hw, !forallb_app in Hp.
  apply andb_true_iff in Hp as [Hp1 Hp]. apply andb_true_iff in Hp as [_ Hp2].
  repeat split; auto.
  - rewrite Hw, !forallb_app, Hp1, Hp2, andb_true_r.
    apply forallb_forall. intros x Hx. rewrite forallb_forall in Hws.
    specialize (Hws x Hx). unfold plain.
    destruct (x =? c_lt)%N eqn:E1; [apply N.eqb_eq in E1; subst; discriminate|].
    destruct (x =? c_gt)%N eqn:E2; [apply N.eqb_eq in E2; subst; discriminate|].
    reflexivity.
  - rewrite Hw. destruct gw; [congruence|discriminate].
Qed.

(** On markup without a span inside a span, and as long as the pass of
    the source opens no span inside a span, the two patterns find the same
    matches. *)
Lemma pass_agree :
  forall n toks p d,
    length toks <= n ->
    text_ok toks = true ->
    balanced_from d toks = true ->
    d <= 1 ->
    flat_from d (markup toks) = true ->
    flat_from d (flat_map (render (expand tpl)) (scan re_c p (markup toks) 0))
    = true ->
    scan re_s p (markup toks) 0 = scan re_c p (markup toks) 0.
Proof.
  induction n as [|n IH]; intros toks p d Hlen Hok Hbal Hd Hin Hout.
  { destruct toks; [|cbn in Hlen; lia].
    cbn [markup flat_map scan].
    rewrite exec_spec_nil, (no_hit_at_end true re_c tpl cat W). reflexivity. }
  destruct toks as [|t toks].
  { cbn [markup flat_map scan].
    rewrite exec_spec_nil, (no_hit_at_end true re_c tpl cat W). reflexivity. }
  assert (Hok' := Hok). cbn [text_ok forallb] in Hok'.
  apply andb_true_iff in Hok' as [Ht Hok']. cbn [length] in Hlen.
  destruct t as [c|c|].
  - (* text *)
    assert (Hreach :
              forall pre t,
                markup (TText c :: toks) = pre ++ t -> forallb plain pre = true ->
                guard_clear t = true /\ closes_next t = Nat.eqb d 1).
    { intros pre t E Hpre.
      destruct (reach_tokens _ _ _ Hok E Hpre) as (toks2 & H1 & H2 & Hok2).
      rewrite <- H2. split; [apply guard_clear_markup; exact Hok2|].
      apply closes_next_markup; auto.
      - rewrite H1, balanced_from_text in Hbal. exact Hbal.
      - rewrite H1, markup_app, markup_text, flat_plain in Hin by exact Hpre.
        exact Hin. }
    assert (Hnone :
              exec_at re_c p (markup (TText c :: toks)) = None ->
              exec_at re_s p (markup (TText c :: toks)) = None ->
              scan re_s p (markup (TText c :: toks)) 0
              = scan re_c p (markup (TText c :: toks)) 0).
    { intros Ec Es. change (markup (TText c :: toks)) with (c :: markup toks) in *.
      rewrite (scan_miss re_s p c _ Es), (scan_miss re_c p c _ Ec). f_equal.
      apply (IH toks (Some c) d); auto; [lia| |].
      - change (c :: markup toks) with ([c] ++ markup toks) in Hin.
        rewrite flat_plain in Hin by (cbn [forallb]; rewrite Ht; reflexivity).
        exact Hin.
      - rewrite (scan_miss re_c p c _ Ec) in Hout. cbn [flat_map render] in Hout.
        rewrite flat_plain in Hout by (cbn [forallb]; rewrite Ht; reflexivity).
        exact Hout. }
    destruct d as [|d].
    + (* outside a span *)
      assert (E : exec_at re_s p (markup (TText c :: toks))
                  = exec_at re_c p (markup (TText c :: toks))).
      { apply exec_same. intros pre t E Hpre.
        destruct (Hreach pre t E Hpre) as [G1 G2]. split; assumption. }
      destruct (exec_at re_c p (markup (TText c :: toks))) as [[k g]|] eqn:Ec;
        [|apply Hnone; [reflexivity|exact E]].
      destruct (exec_at_sound _ _ _ _ _ Ec) as (w & s' & H0 & -> & _).
      rewrite H0 in Ec, E, Hout |- *.
      destruct (expand_opens _ _ _ _ Ec) as (gw & e & Hex & Hgw & He & Hw & Hne).
      rewrite (scan_hit re_s p w s' g Hne E), (scan_hit re_c p w s' g Hne Ec).
      f_equal.
      destruct (reach_tokens _ _ _ Hok H0 Hw) as (toks2 & H1 & H2 & Hok2).
      rewrite <- H2.
      apply (IH toks2 (lastc p w) 0); auto.
      * apply (f_equal (@length token)) in H1.
        rewrite length_app, length_map in H1. cbn [length] in H1.
        destruct w; [congruence|cbn [length] in H1; lia].
      * rewrite H1, balanced_from_text in Hbal. exact Hbal.
      * rewrite H1, markup_app, markup_text, flat_plain in Hin by exact Hw.
        exact Hin.
      * rewrite (scan_hit re_c p w s' g Hne Ec) in Hout.
        cbn [flat_map render] in Hout. rewrite Hex, <- !app_assoc in Hout.
        rewrite flat_open, flat_plain in Hout by exact Hgw.
        rewrite flat_close, flat_plain in Hout by exact He.
        rewrite H2. exact Hout.
    + (* inside a span *)
      assert (d = 0) by lia. subst d.
      assert (Es : exec_at re_s p (markup (TText c :: toks)) = None).
      { apply exec_spec_none. intros pre t E Hpre.
        destruct (Hreach pre t E Hpre) as [_ G2]. exact G2. }
      destruct (exec_at re_c p (markup (TText c :: toks))) as [[k g]|] eqn:Ec;
        [|apply Hnone; [reflexivity|exact Es]].
      exfalso.
      destruct (exec_at_sound _ _ _ _ _ Ec) as (w & s' & H0 & -> & _).
      rewrite H0 in Ec, Hout.
      destruct (expand_opens _ _ _ _ Ec) as (gw & e & Hex & Hgw & He & Hw & Hne).
      rewrite (scan_hit re_c p w s' g Hne Ec) in Hout.
      cbn [flat_map render] in Hout. rewrite Hex, <- !app_assoc in Hout.
      rewrite flat_open in Hout. discriminate Hout.
  - (* an opening tag *)
    rewrite markup_cons in *. cbn [render_token] in *.
    rewrite flat_open in Hin. apply andb_true_iff in Hin as [Hz Hin].
    apply Nat.eqb_eq in Hz. subst d. cbn [balanced_from] in Hbal.
    rewrite (scan_open_spec c toks p Hok' Hbal Hin).
    pose proof (scan_tag true re_c tpl cat W (TOpen c) (markup toks) p
                  eq_refl eq_refl) as Etag.
    cbn [render_token] in Etag. rewrite Etag in Hout |- *. f_equal.
    apply (IH toks (Some c_gt) 1); [lia|exact Hok'|exact Hbal|lia|exact Hin|].
    rewrite flat_map_app, render_copies, flat_open in Hout.
    apply andb_true_iff in Hout as [_ Hout]. exact Hout.
  - (* a closing tag *)
    rewrite markup_cons in *. cbn [render_token] in *.
    cbn [balanced_from] in Hbal. destruct d as [|d]; [discriminate|].
    assert (d = 0) by lia. subst d.
    rewrite flat_close in Hin. cbn [pred] in Hin.
    pose proof (scan_tag true re_c tpl cat W TClose (markup toks) p
                  eq_refl eq_refl) as Etag.
    cbn [render_token] in Etag. rewrite Etag in Hout |- *.
    change (close_tag ++ markup toks) with (c_lt :: u "/span>" ++ markup toks).
    rewrite scan_miss by (apply exec_spec_angle; reflexivity).
    rewrite Hclose.
    change (map Copy close_tag) with (Copy c_lt :: map Copy (u "/span>")).
    cbn [app]. f_equal. f_equal.
    apply (IH toks (Some c_gt) 0); [lia|exact Hok'|exact Hbal|lia|exact Hin|].
    rewrite flat_map_app, render_copies, flat_close in Hout. exact Hout.
Qed.

Lemma replace_agree toks :
  text_ok toks = true -> balanced toks = true ->
  flat (markup toks) = true ->
  flat (replace re_c tpl (markup toks)) = true ->
  replace re_s tpl (markup toks) = replace re_c tpl (markup toks).
Proof.
  intros Hok Hbal Hin Hout. unfold replace, replace_fn.
  rewrite (pass_agree (length toks) toks None 0 (le_n _) Hok Hbal (Nat.le_0_l _)
             Hin Hout).
  reflexivity.
Qed.

End SpanGuard.

(** ** The six guarded passes under the two guards *)

Ltac close_tag_copies :=
  intros s;
  match goal with
  | |- context [u "/span>"] =>
      let v := eval vm_compute in (u "/span>") in change (u "/span>") with v
  end;
  cbn [app map]; repeat (rewrite scan_miss by reflexivity); reflexivity.

Lemma keyword_pass_agree toks :
  text_ok toks = true -> balanced toks = true -> flat (markup toks) = true ->
  flat (replace keywordRegex (spanTemplate "text-purple-400" "") (markup toks)) = true ->
  replace SpecPasses.keyword_pattern (spanTemplate "text-purple-400" "") (markup toks)
  = replace keywordRegex (spanTemplate "text-purple-400" "") (markup toks).
Proof.
  apply (replace_agree keywordRegex SpecPasses.keyword_pattern
           (WordB ;; Group (alt_join (map lit keywords)) ;; WordB)%re _ Keyword).
  - intros st. reflexivity.
  - intros st. reflexivity.
  - reflexivity.
  - reflexivity.
  - reflexivity.
  - reflexivity.
  - exact wraps_keyword.
  - close_tag_copies.
Qed.

Lemma type_pass_agree toks :
  text_ok toks = true -> balanced toks = true -> flat (markup toks) = true ->
  flat (replace typeRegex (spanTemplate "text-cyan-400" "") (markup toks)) = true ->
  replace SpecPasses.type_pattern (spanTemplate "text-cyan-400" "") (markup toks)
  = replace typeRegex (spanTemplate "text-cyan-400" "") (markup toks).
Proof.
  apply (replace_agree typeRegex SpecPasses.type_pattern
           (WordB ;; Group (alt_join (map lit types)) ;; WordB)%re _ TypeName).
  - intros st. reflexivity.
  - intros st. reflexivity.
  - reflexivity.
  - reflexivity.
  - reflexivity.
  - reflexivity.
  - exact wraps_type.
  - close_tag_copies.
Qed.

Lemma number_pass_agree toks :
  text_ok toks = true -> balanced toks = true -> flat (markup toks) = true ->
  flat (replace numberRegex (spanTemplate "text-orange-400" "") (markup toks)) = true ->
  replace SpecPasses.number_pattern (spanTemplate "text-orange-400" "") (markup toks)
  = replace numberRegex (spanTemplate "text-orange-400" "") (markup toks).
Proof.
  apply (replace_agree numberRegex SpecPasses.number_pattern
           (WordB ;; Group (Plus true (AClass false [CDigit])) ;; WordB)%re _ Number).
  - intros st. reflexivity.
  - intros st. reflexivity.
  - reflexivity.
  - reflexivity.
  - reflexivity.
  - reflexivity.
  - exact wraps_number.
  - close_tag_copies.
Qed.

Lemma class_pass_agree toks :
  text_ok toks = true -> balanced toks = true -> flat (markup toks) = true ->
  flat (replace classRegex (spanTemplate "text-blue-400" "") (markup toks)) = true ->
  replace SpecPasses.capitalized_pattern (spanTemplate "text-blue-400" "") (markup toks)
  = replace classRegex (spanTemplate "text-blue-400" "") (markup toks).
Proof.
  apply (replace_agree classRegex SpecPasses.capitalized_pattern
           (WordB ;; Group (At (AClass false [CRange 65 90]) ;; Star true identPart)
            ;; WordB)%re _ ClassName).
  - intros st. reflexivity.
  - intros st. reflexivity.
  - reflexivity.
  - reflexivity.
  - reflexivity.
  - reflexivity.
  - exact wraps_class.
  - close_tag_copies.
Qed.

Lemma annotation_pass_agree toks :
  text_ok toks = true -> balanced toks = true -> flat (markup toks) = true ->
  flat (replace decoratorRegex (spanTemplate "text-pink-400" "") (markup toks)) = true ->
  replace SpecPasses.annotation_pattern (spanTemplate "text-pink-400" "") (markup toks)
  = replace decoratorRegex (spanTemplate "text-pink-400" "") (markup toks).
Proof.
  apply (replace_agree decoratorRegex SpecPasses.annotation_pattern
           (Group (At (AChar c_at) ;; At identStart ;; Star true identPart))%re
           _ Annotation).
  - intros st. reflexivity.
  - intros st. reflexivity.
  - reflexivity.
  - reflexivity.
  - reflexivity.
  - reflexivity.
  - exact wraps_decorator.
  - close_tag_copies.
Qed.

(** The call pattern: without white space before a parenthesis the [\s*]
    of the source takes nothing. *)
Lemma paren_guard_other p x t c :
  (x =? c_lparen)%N = false ->
  rmatch false (At (AChar c_lparen) ;; guard)%re Some (MState p (x :: t) c) = None.
Proof.
  intros H. cbn [rmatch rest atom_matches]. rewrite H. reflexivity.
Qed.

Lemma spaces_no_paren t :
  tight_parens true t = true ->
  forall p c,
    star_loop true (AClass false [CSpace])
      (rmatch false (At (AChar c_lparen) ;; guard)%re Some) p t c = None.
Proof.
  induction t as [|y t IH]; intros Ht p c; [reflexivity|].
  cbn [tight_parens andb] in Ht. apply andb_true_iff in Ht as [Hy Ht].
  apply negb_true_iff in Hy.
  cbn [star_loop].
  change (atom_matches (AClass false [CSpace]) y) with (xorb false (is_space y || false)).
  destruct (is_space y) eqn:Ey; cbn [orb xorb].
  - rewrite (IH Ht). apply paren_guard_other; exact Hy.
  - apply paren_guard_other; exact Hy.
Qed.

Lemma spaces_then_paren t :
  tight_parens false t = true ->
  forall p c,
    star_loop true (AClass false [CSpace])
      (rmatch false (At (AChar c_lparen) ;; guard)%re Some) p t c
    = rmatch false (At (AChar c_lparen) ;; guard)%re Some (MState p t c).
Proof.
  destruct t as [|y t]; intros Ht p c; [reflexivity|].
  cbn [tight_parens andb negb] in Ht.
  cbn [star_loop].
  change (atom_matches (AClass false [CSpace]) y) with (xorb false (is_space y || false)).
  destruct (is_space y) eqn:Ey; cbn [orb xorb]; [|reflexivity].
  rewrite (spaces_no_paren t Ht). reflexivity.
Qed.

Lemma tight_suffix pre t :
  forall b, tight_parens b (pre ++ t) = true -> tight_parens false t = true.
Proof.
  induction pre as [|x pre IH]; intros b H.
  - destruct b; [apply tight_weaken|]; exact H.
  - cbn [app tight_parens] in H. apply andb_true_iff in H as [_ H].
    exact (IH _ H).
Qed.

Lemma exec_call_tight p s :
  tight_parens false s = true ->
  exec_at functionRegex p s = exec_at tightCallRegex p s.
Proof.
  intros Ht. unfold exec_at.
  cbn [multiline source functionRegex tightCallRegex].
  assert (E : rmatch false
                (WordB ;; Group (At identStart ;; Star true identPart)
                 ;; Star true (AClass false [CSpace]) ;; At (AChar c_lparen) ;; guard)%re
                Some (MState p s None)
              = rmatch false
                  (WordB ;; Group (At identStart ;; Star true identPart)
                   ;; At (AChar c_lparen) ;; guard)%re
                  Some (MState p s None)).
  { change (rmatch false (WordB ;; Group (At identStart ;; Star true identPart))%re
              (rmatch false
                 (Star true (AClass false [CSpace]) ;; At (AChar c_lparen) ;; guard)%re
                 Some) (MState p s None)
            = rmatch false (WordB ;; Group (At identStart ;; Star true identPart))%re
                (rmatch false (At (AChar c_lparen) ;; guard)%re Some)
                (MState p s None)).
    apply rmatch_ext; [reflexivity|reflexivity|].
    intros [q t c] (pre & E & _). cbn [rest] in E.
    change (star_loop true (AClass false [CSpace])
              (rmatch false (At (AChar c_lparen) ;; guard)%re Some) q t c
            = rmatch false (At (AChar c_lparen) ;; guard)%re Some (MState q t c)).
    apply spaces_then_paren. apply (tight_suffix pre t false).
    rewrite <- E. exact Ht. }
  rewrite E. reflexivity.
Qed.

Lemma scan_call_tight :
  forall s p k,
    tight_parens false s = true ->
    scan functionRegex p s k = scan tightCallRegex p s k.
Proof.
  induction s as [|x s IH]; intros p k Ht.
  - destruct k; cbn [scan]; [|reflexivity].
    rewrite (exec_call_tight p [] Ht). reflexivity.
  - assert (Hs : tight_parens false s = true)
      by (apply (tight_suffix [x] s false); exact Ht).
    destruct k; cbn [scan]; [|apply IH; exact Hs].
    rewrite (exec_call_tight p (x :: s) Ht).
    destruct (exec_at tightCallRegex p (x :: s)) as [[n g]|];
      [destruct n|]; rewrite ?IH by exact Hs; reflexivity.
Qed.

Lemma call_pass_tight tpl x :
  tight_parens false x = true ->
  replace functionRegex tpl x = replace tightCallRegex tpl x.
Proof.
  intros H. unfold replace, replace_fn.
  rewrite (scan_call_tight x None 0 H). reflexivity.
Qed.

Lemma wraps_tight_call :
  wraps true tightCallRegex (spanTemplate "text-yellow-400" "(") FunctionName.
Proof.
  intros p w s g H. apply (wraps_function p w s g).
  cbn [multiline source tightCallRegex functionRegex] in *.
  destruct H as (w1 & w2 & c1 & Ew & H1 & w3 & w4 & c2 & Ew2 & H3 & H4).
  exists w1, w2, c1. split; [exact Ew|]. split; [exact H1|].
  exists w3, w4, c2. split; [exact Ew2|]. split; [exact H3|].
  exists [], w4, c2. split; [reflexivity|]. split; [|exact H4].
  split; reflexivity.
Qed.

Lemma call_pass_agree toks :
  text_ok toks = true -> balanced toks = true -> flat (markup toks) = true ->
  tight_parens false (markup toks) = true ->
  flat (replace functionRegex (spanTemplate "text-yellow-400" "(") (markup toks)) = true ->
  replace SpecPasses.call_site_pattern (spanTemplate "text-yellow-400" "(") (markup toks)
  = replace functionRegex (spanTemplate "text-yellow-400" "(") (markup toks).
Proof.
  intros Hok Hbal Hin Ht Hout.
  rewrite (call_pass_tight _ _ Ht) in Hout |- *.
  revert Hok Hbal Hin Hout.
  apply (replace_agree tightCallRegex SpecPasses.call_site_pattern
           (WordB ;; Group (At identStart ;; Star true identPart)
            ;; At (AChar c_lparen))%re _ FunctionName).
  - intros st. reflexivity.
  - intros st. reflexivity.
  - reflexivity.
  - reflexivity.
  - reflexivity.
  - reflexivity.
  - exact wraps_tight_call.
  - close_tag_copies.
Qed.

(** ** The two pipelines *)

Lemma tight_tag t m :
  forall b,
    tight_parens b (t ++ [c_gt]) = true ->
    tight_parens false m = true ->
    tight_parens b ((t ++ [c_gt]) ++ m) = true.
Proof.
  induction t as [|x t IH]; intros b Ht Hm.
  - cbn [app tight_parens] in *. change (is_space c_gt) with false.
    rewrite Hm. apply andb_true_iff in Ht as [Ht _]. rewrite Ht. reflexivity.
  - cbn [app tight_parens] in *. apply andb_true_iff in Ht as [Hx Ht].
    rewrite Hx. exact (IH _ Ht Hm).
Qed.

Lemma tight_render_tag t m b :
  is_text t = false ->
  tight_parens false m = true ->
  tight_parens b (render_token t ++ m) = true.
Proof.
  intros Ht Hm. destruct t as [c|cat|]; [discriminate| |].
  - destruct cat, b;
      match goal with
      | |- tight_parens ?b (render_token ?t ++ m) = true =>
          let v := eval vm_compute in (removelast (render_token t)) in
          change (render_token t) with (v ++ [c_gt])
      end; (apply tight_tag; [vm_compute; reflexivity|exact Hm]).
  - destruct b;
      match goal with
      | |- tight_parens ?b (render_token ?t ++ m) = true =>
          let v := eval vm_compute in (removelast (render_token t)) in
          change (render_token t) with (v ++ [c_gt])
      end; (apply tight_tag; [vm_compute; reflexivity|exact Hm]).
Qed.

(** Tags put no parenthesis behind white space. *)
Lemma tight_markup toks :
  forall b,
    tight_parens b (text_of toks) = true -> tight_parens b (markup toks) = true.
Proof.
  induction toks as [|t toks IH]; intros b H; [reflexivity|].
  rewrite markup_cons. destruct t as [c|cat|].
  - cbn [render_token text_of app tight_parens] in *.
    apply andb_true_iff in H as [Hc H]. rewrite Hc. exact (IH _ H).
  - apply tight_render_tag; [reflexivity|]. apply IH.
    cbn [text_of] in H. destruct b; [apply tight_weaken|]; exact H.
  - apply tight_render_tag; [reflexivity|]. apply IH.
    cbn [text_of] in H. destruct b; [apply tight_weaken|]; exact H.
Qed.


(** Taking the spans of a pass away leaves no span inside a span where
    there was none. *)
Lemma Retag_flat c toks toks' :
  Retag c toks toks' ->
  text_ok toks = true ->
  forall d, flat_from d (markup toks') = true -> flat_from d (markup toks) = true.
Proof.
  induction 1 as [|t toks toks' _ IH|gw ws e toks toks' Hne Hws _ IH];
    intros Hok d H.
  - reflexivity.
  - cbn [text_ok forallb] in Hok. apply andb_true_iff in Hok as [Ht Hok].
    rewrite markup_cons in *. destruct t as [x|c0|]; cbn [render_token] in *.
    + assert (Hp : forallb plain [x] = true) by (cbn [forallb]; rewrite Ht; reflexivity).
      rewrite (flat_plain [x] _ _ Hp) in H. rewrite (flat_plain [x] _ _ Hp).
      exact (IH Hok d H).
    + rewrite flat_open in H. rewrite flat_open.
      apply andb_true_iff in H as [Hz H]. rewrite Hz. exact (IH Hok _ H).
    + rewrite flat_close in H. rewrite flat_close. exact (IH Hok _ H).
  - unfold text_ok in Hok. rewrite forallb_app in Hok.
    apply andb_true_iff in Hok as [Hw Hok].
    change (forallb (fun t => match t with TText c => plain c | _ => true end)
              (map TText (gw ++ ws ++ e)))
      with (text_ok (map TText (gw ++ ws ++ e))) in Hw.
    rewrite text_ok_text in Hw.
    rewrite markup_app, markup_text, flat_plain by exact Hw.
    rewrite !forallb_app in Hw. apply andb_true_iff in Hw as [Hgw Hw].
    apply andb_true_iff in Hw as [_ He].
    rewrite markup_cons, markup_app, markup_text, markup_cons, markup_app,
      markup_text in H.
    cbn [render_token] in H. rewrite <- ?app_assoc in H.
    rewrite flat_open in H. apply andb_true_iff in H as [_ H].
    rewrite flat_plain in H by exact Hgw.
    rewrite flat_close, flat_plain in H by exact He.
    exact (IH Hok d H).
Qed.

(** One guarded call of the source on markup: markup again, with the
    text and the tags it had. *)
Lemma guarded_call_tokens lossy re tpl c :
  wraps_losing lossy true re tpl c ->
  forall toks,
    text_ok toks = true -> balanced toks = true ->
    exists toks',
      replace re tpl (markup toks) = markup toks'
      /\ Rewrap lossy c toks toks'
      /\ text_ok toks' = true /\ balanced toks' = true.
Proof.
  intros WL toks Hok Hbal.
  destruct (pass_rewrap lossy true re tpl c WL (length toks) toks None
              (le_n _) Hok (or_introl eq_refl)) as (toks' & E & R).
  exists toks'. split; [exact E|]. split; [exact R|].
  pose proof (Rewrap_Retag _ _ _ _ R) as RT. split.
  - exact (Retag_text_ok _ _ _ RT Hok).
  - unfold balanced. rewrite (Retag_balanced _ _ _ RT). exact Hbal.
Qed.

(** The specification's comment and string patterns on escaped text
    without a slash or a quote character. *)
Lemma exec_spec_comment_other p x s :
  (x =? c_amp)%N = false ->
  exec_at SpecPasses.comment_pattern p (x :: s) = None.
Proof.
  intros H. unfold exec_at.
  cbn -[star_loop firstn length Nat.sub N.eqb].
  unfold c_amp in *. rewrite H. reflexivity.
Qed.

Lemma exec_spec_string_other p x s :
  (x =? c_amp)%N = false -> (x =? c_backtick)%N = false ->
  exec_at SpecPasses.string_pattern p (x :: s) = None.
Proof.
  intros H1 H2. unfold exec_at.
  cbn -[star_loop firstn length Nat.sub N.eqb].
  unfold c_amp, c_backtick in *. rewrite H1, H2. reflexivity.
Qed.

Lemma scan_spec_comment_char x r p :
  not_char c_slash x = true ->
  scan SpecPasses.comment_pattern p (Spec.escape_char x ++ r) 0
  = map Copy (Spec.escape_char x) ++ scan SpecPasses.comment_pattern None r 0.
Proof.
  unfold not_char. intros H. apply negb_true_iff in H.
  unfold Spec.escape_char.
  unfold c_amp, c_lt, c_gt, c_dquote, c_squote, c_slash in *.
  rewrite H.
  assert (Hb : no_wordb (source SpecPasses.comment_pattern) = true) by reflexivity.
  destruct (x =? 38)%N eqn:E1;
    [|destruct (x =? 60)%N eqn:E2;
      [|destruct (x =? 62)%N eqn:E3;
        [|destruct (x =? 34)%N eqn:E4;
          [|destruct (x =? 39)%N eqn:E5]]]];
    try (match goal with
         | |- context [scan _ _ (?e ++ _) _] =>
             let v := eval vm_compute in e in change e with v
         end;
         cbn [app]; repeat (rewrite scan_miss by reflexivity);
         cbn [map app];
         match goal with
         | |- context [scan SpecPasses.comment_pattern ?q r 0] =>
             match q with
             | Some _ => rewrite (scan_blind SpecPasses.comment_pattern Hb r q None 0)
             end
         end; reflexivity).
  cbn [app]. rewrite scan_miss by (apply exec_spec_comment_other; assumption).
  cbn [map app]. f_equal. apply scan_blind; exact Hb.
Qed.

Lemma scan_spec_string_char x r p :
  no_quote x = true ->
  scan SpecPasses.string_pattern p (Spec.escape_char x ++ r) 0
  = map Copy (Spec.escape_char x) ++ scan SpecPasses.string_pattern None r 0.
Proof.
  unfold no_quote. intros H.
  apply andb_true_iff in H as [H H3]. apply andb_true_iff in H as [H1 H2].
  apply negb_true_iff in H1, H2, H3.
  unfold Spec.escape_char.
  unfold c_amp, c_lt, c_gt, c_dquote, c_squote, c_slash, c_backtick in *.
  rewrite H1, H2.
  assert (Hb : no_wordb (source SpecPasses.string_pattern) = true) by reflexivity.
  destruct (x =? 38)%N eqn:E1;
    [|destruct (x =? 60)%N eqn:E2;
      [|destruct (x =? 62)%N eqn:E3;
        [|destruct (x =? 47)%N eqn:E6]]];
    try (match goal with
         | |- context [scan _ _ (?e ++ _) _] =>
             let v := eval vm_compute in e in change e with v
         end;
         cbn [app]; repeat (rewrite scan_miss by reflexivity);
         cbn [map app];
         match goal with
         | |- context [scan SpecPasses.string_pattern ?q r 0] =>
             match q with
             | Some _ => rewrite (scan_blind SpecPasses.string_pattern Hb r q None 0)
             end
         end; reflexivity).
  cbn [app]. rewrite scan_miss by (apply exec_spec_string_other; assumption).
  cbn [map app]. f_equal. apply scan_blind; exact Hb.
Qed.

Lemma scan_idle_escape re (ok : char -> bool) :
  exec_at re None [] = None ->
  (forall x r,
      ok x = true ->
      scan re None (Spec.escape_char x ++ r) 0
      = map Copy (Spec.escape_char x) ++ scan re None r 0) ->
  forall tpl s,
    forallb ok s = true -> replace re tpl (Spec.escape s) = Spec.escape s.
Proof.
  intros Hnil Hchar tpl s Hs. unfold replace, replace_fn.
  assert (H : scan re None (Spec.escape s) 0 = map Copy (Spec.escape s)).
  { induction s as [|x s IH].
    - cbn [Spec.escape flat_map scan map]. rewrite Hnil. reflexivity.
    - cbn [forallb] in Hs. apply andb_true_iff in Hs as [Hx Hs].
      change (Spec.escape (x :: s)) with (Spec.escape_char x ++ Spec.escape s).
      rewrite (Hchar x _ Hx), (IH Hs), map_app. reflexivity. }
  rewrite H. apply render_copies.
Qed.


(** On text without a slash, without a quote character and without white
    space before a parenthesis, and as long as the source puts no span
    inside a span, the calls of the source do what the passes of the
    specification do. *)
Lemma spec_passes_agree s :
  forallb no_quote s = true ->
  forallb (not_char c_slash) s = true ->
  tight_parens false s = true ->
  flat (highlightCode s) = true ->
  highlightCode s = SpecPasses.highlight s.
Proof.
  intros Hq Hs Ht Hflat.
  unfold SpecPasses.highlight, SpecPasses.passes. cbn [fold_left].
  unfold apply_substitution, sub_template.
  cbn [sub_regex sub_category sub_tail class_of].
  rewrite (scan_idle_escape SpecPasses.comment_pattern (not_char c_slash)
             eq_refl (fun x r => scan_spec_comment_char x r None) _ s Hs).
  rewrite (scan_idle_escape SpecPasses.string_pattern no_quote
             eq_refl (fun x r => scan_spec_string_char x r None) _ s Hq).
  revert Hflat. unfold highlightCode. cbv zeta. rewrite escapeHtml_escape.
  rewrite line_comment_never, block_comment_never by apply escape_inert.
  rewrite (string_pass_quote_free s _ Hq).
  assert (Hok1 : text_ok (map TText (Spec.escape s)) = true).
  { rewrite text_ok_text. apply inert_plain, escape_inert. }
  assert (Hbal1 : balanced (map TText (Spec.escape s)) = true).
  { unfold balanced.
    rewrite <- (app_nil_r (map TText (Spec.escape s))), balanced_from_text.
    reflexivity. }
  rewrite <- (markup_text (Spec.escape s)).
  set (t1 := map TText (Spec.escape s)) in *.
  destruct (guarded_call_tokens false _ _ _
              (wraps_losing_whole _ _ _ _ wraps_keyword wraps_whole_keyword)
              t1 Hok1 Hbal1) as (t2 & E2 & R2 & Hok2 & Hbal2).
  destruct (guarded_call_tokens false _ _ _
              (wraps_losing_whole _ _ _ _ wraps_type wraps_whole_type)
              t2 Hok2 Hbal2) as (t3 & E3 & R3 & Hok3 & Hbal3).
  destruct (guarded_call_tokens false _ _ _
              (wraps_losing_whole _ _ _ _ wraps_number wraps_whole_number)
              t3 Hok3 Hbal3) as (t4 & E4 & R4 & Hok4 & Hbal4).
  destruct (guarded_call_tokens true _ _ _ wraps_losing_function
              t4 Hok4 Hbal4) as (t5 & E5 & R5 & Hok5 & Hbal5).
  destruct (guarded_call_tokens false _ _ _
              (wraps_losing_whole _ _ _ _ wraps_class wraps_whole_class)
              t5 Hok5 Hbal5) as (t6 & E6 & R6 & Hok6 & Hbal6).
  destruct (guarded_call_tokens false _ _ _
              (wraps_losing_whole _ _ _ _ wraps_decorator wraps_whole_decorator)
              t6 Hok6 Hbal6) as (t7 & E7 & R7 & Hok7 & Hbal7).
  rewrite E2, E3, E4, E5, E6, E7. intros F7.
  assert (F6 : flat (markup t6) = true)
    by exact (Retag_flat _ _ _ (Rewrap_Retag _ _ _ _ R7) Hok6 0 F7).
  assert (F5 : flat (markup t5) = true)
    by exact (Retag_flat _ _ _ (Rewrap_Retag _ _ _ _ R6) Hok5 0 F6).
  assert (F4 : flat (markup t4) = true)
    by exact (Retag_flat _ _ _ (Rewrap_Retag _ _ _ _ R5) Hok4 0 F5).
  assert (F3 : flat (markup t3) = true)
    by exact (Retag_flat _ _ _ (Rewrap_Retag _ _ _ _ R4) Hok3 0 F4).
  assert (F2 : flat (markup t2) = true)
    by exact (Retag_flat _ _ _ (Rewrap_Retag _ _ _ _ R3) Hok2 0 F3).
  assert (F1 : flat (markup t1) = true)
    by exact (Retag_flat _ _ _ (Rewrap_Retag _ _ _ _ R2) Hok1 0 F2).
  assert (T4 : tight_parens false (markup t4) = true).
  { apply tight_markup.
    rewrite (Rewrap_exact _ _ _ R4), (Rewrap_exact _ _ _ R3), (Rewrap_exact _ _ _ R2).
    unfold t1. rewrite <- (app_nil_r (map TText (Spec.escape s))), text_of_text.
    rewrite app_nil_r. apply tight_escape. exact Ht. }
  rewrite (keyword_pass_agree t1 Hok1 Hbal1 F1) by (rewrite E2; exact F2).
  rewrite E2.
  rewrite (type_pass_agree t2 Hok2 Hbal2 F2) by (rewrite E3; exact F3).
  rewrite E3.
  rewrite (number_pass_agree t3 Hok3 Hbal3 F3) by (rewrite E4; exact F4).
  rewrite E4.
  rewrite (call_pass_agree t4 Hok4 Hbal4 F4 T4) by (rewrite E5; exact F5).
  rewrite E5.
  rewrite (class_pass_agree t5 Hok5 Hbal5 F5) by (rewrite E6; exact F6).
  rewrite E6.
  rewrite (annotation_pass_agree t6 Hok6 Hbal6 F6) by (rewrite E7; exact F7).
  rewrite E7. reflexivity.
Qed.

(** C7 (pass composition).  [highlightCode] is the character-wise escape
    of the specification followed by the nine calls of the source in
    their order, each applied to the whole string the one before it
    returned: two calls for the comments (line comments, then block
    comments) and one for every other pass, with the categories in the
    order of the specification.  On every text without a slash and without
    a quote character, in which no white space stands directly before an
    opening parenthesis and for which the markup has no span inside a
    span, the result is that of the eight passes as the specification
    words them. *)
Theorem pass_composition s :
  highlightCode s = Pipeline.highlight s
  /\ escapeHtml s = Spec.escape s
  /\ map sub_category passes = Comment :: map sub_category SpecPasses.passes
  /\ (forallb no_quote s = true ->
      forallb (not_char c_slash) s = true ->
      tight_parens false s = true ->
      flat (highlightCode s) = true ->
      highlightCode s = SpecPasses.highlight s).
Proof.
  split; [|split; [|split]].
  - unfold highlightCode, Pipeline.highlight. rewrite escapeHtml_escape.
    reflexivity.
  - apply escapeHtml_escape.
  - reflexivity.
  - apply spec_passes_agree.
Qed.

Lemma pass_composition_witness :
  forallb no_quote (u "if(a < b) { return foo(1); }") = true
  /\ forallb (not_char c_slash) (u "if(a < b) { return foo(1); }") = true
  /\ tight_parens false (u "if(a < b) { return foo(1); }") = true
  /\ flat (highlightCode (u "if(a < b) { return foo(1); }")) = true
  /\ highlightCode (u "if(a < b) { return foo(1); }")
     = SpecPasses.highlight (u "if(a < b) { return foo(1); }").
Proof.
  split; [reflexivity|]. split; [reflexivity|]. split; [reflexivity|].
  split; [reflexivity|].
  apply (proj2 (proj2 (proj2
           (pass_composition (u "if(a < b) { return foo(1); }")))));
    reflexivity.
Defined.

(** C7, as the claim states it, fails on the code: the passes are nine
    substitutions, not eight, and the composition of the passes of the
    specification is another function.  In [foo (x)] the name is not
    immediately followed by the parenthesis, so the identifier-call pass of
    the specification leaves the text as it is; the call pattern of the
    source allows white space between the two, and [highlightCode] tags
    the name. *)
Lemma call_with_space_outside_composition :
  highlightCode (u "foo (x)")
  = open_tag FunctionName ++ u "foo" ++ close_tag ++ u "(x)"
  /\ SpecPasses.highlight (u "foo (x)") = u "foo (x)"
  /\ length passes = 9
  /\ length SpecPasses.passes = 8.
Proof.
  repeat split; vm_compute; reflexivity.
Qed.
